(** * The asynchronous data cache of velox/common/caching/AsyncDataCache.cpp

    A shallow embedding of the sharded in-memory cache: cache entries with
    their pin counter, the shards with their map, slot vector and free-entry
    recycler, the cache with its allocate-or-evict loop and its hand-over to
    the SSD tier, and the one-shot state machine of a coalesced load.

    The program is stateful and throws: every member function is a
    computation in a state-and-exception monad over the cache.  Entry objects
    live in a per-shard store addressed by pointers, so that the map, the slot
    vector and pins alias the same object as they do in the source.  Mutexes,
    promise fulfilment and the calls that leave the cache (allocator, SSD tier,
    the allocate closure) are recorded in a trace, which is how statements
    such as "outside the shard lock" are expressed.

    The memory allocator and the SSD tier are collaborators with a state of
    their own, seen through an interface (a type class each).  Constants and
    inline members that the class declarations provide (the exclusive
    sentinel, the tiny-data threshold, the number of shards, the entry score,
    the percentile helper) are parameters of the development.

    Counters are mathematical integers: the development does not follow the
    32- and 64-bit counters to their overflow; where the source narrows or
    converts a value explicitly the conversion is written out. *)

From stdpp Require Import base gmap list.
From Stdlib Require Import ZArith Lia.

Local Open Scope Z_scope.

(** ** Pages and allocations *)

Module AllocationTraits.

(** Modelled from the spec: [memory::AllocationTraits::kPageSize] is
    declared with the memory allocator, outside the sources at hand.  The
    comments of [makeSpace] fix it: 256 pages are 1MB and 2048 pages are
    8MB. *)
Definition kPageSize : Z := 4096.

(** Modelled from the spec: [AllocationTraits::numPages(bytes)], declared
    with the memory allocator; the number of pages that cover [bytes],
    "ceil(size / page_size)". *)
Definition numPages (bytes : Z) : Z := (bytes + kPageSize - 1) `div` kPageSize.

(** Modelled from the spec: [AllocationTraits::pageBytes(pages)], declared
    with the memory allocator; the bytes of a number of pages. *)
Definition pageBytes (pages : Z) : Z := pages * kPageSize.

End AllocationTraits.

(** A run of contiguous pages, and a non-contiguous allocation as its list of
    runs.  Modelled from the spec: [memory::Allocation] is declared with the
    memory allocator ("page-granular non-contiguous allocation"). *)
Record PageRun := { run_data : Z; run_numPages : Z }.

Abbreviation Allocation := (list PageRun).

Module Allocation.

Definition numPages (a : Allocation) : Z :=
  foldr (λ r n, run_numPages r + n) 0 a.

Definition byteSize (a : Allocation) : Z :=
  AllocationTraits.pageBytes (numPages a).

Definition empty (a : Allocation) : bool := numPages a =? 0.

(** [appendMove(other)]: the runs of [other] are appended and [other] is
    left empty; the pair is the new value of [this] and of [other]. *)
Definition appendMove (this other : Allocation) : Allocation * Allocation :=
  (this ++ other, []).

End Allocation.

(** ** Keys, promises, pins *)

(** [RawFileCacheKey]: the interned file number and the offset. *)
Abbreviation RawFileCacheKey := (Z * Z)%type.

(** [FileCacheKey]: the file number is a [StringIdLease]; [None] is the
    cleared lease ([hasValue()] is false). *)
Record FileCacheKey := { fileNum : option Z; offset : Z }.

Definition hasValue (k : FileCacheKey) : bool :=
  match fileNum k with Some _ => true | None => false end.

Definition rawKey (k : FileCacheKey) : option RawFileCacheKey :=
  match fileNum k with Some f => Some (f, offset k) | None => None end.

Definition makeKey (k : RawFileCacheKey) : FileCacheKey :=
  {| fileNum := Some (fst k); offset := snd k |}.

Definition clearFileNum (k : FileCacheKey) : FileCacheKey :=
  {| fileNum := None; offset := offset k |}.

(** A [folly::SharedPromise<bool>] is known by its identity; a future is the
    promise it waits for. *)
Abbreviation Promise := nat (only parsing).
Abbreviation EntryPtr := nat (only parsing).
Abbreviation SsdFile := Z (only parsing).

(** A [CachePin] holds a raw entry pointer; the entry knows its shard. *)
Record CachePin := { pin_shard : nat; pin_entry : EntryPtr }.

Record AccessStats := { lastUse : Z; numUses : Z }.

(** ** Entries *)

Record AsyncDataCacheEntry := {
  key_ : FileCacheKey;
  size_ : Z;
  data_ : Allocation;
  tinyData_ : list Byte.byte;
  numPins_ : Z;
  promise_ : option Promise;
  accessStats_ : AccessStats;
  isPrefetch_ : bool;
  isFirstUse_ : bool;
  ssdSaveable_ : bool;
  ssdFile_ : option SsdFile;
  ssdOffset_ : Z;
  groupId_ : Z;
  trackingId_ : Z
}.

Definition set_key_ (v : FileCacheKey) (x : AsyncDataCacheEntry) : AsyncDataCacheEntry :=
  Build_AsyncDataCacheEntry v (size_ x) (data_ x) (tinyData_ x) (numPins_ x) (promise_ x) (accessStats_ x) (isPrefetch_ x) (isFirstUse_ x) (ssdSaveable_ x) (ssdFile_ x) (ssdOffset_ x) (groupId_ x) (trackingId_ x).
Definition set_size_ (v : Z) (x : AsyncDataCacheEntry) : AsyncDataCacheEntry :=
  Build_AsyncDataCacheEntry (key_ x) v (data_ x) (tinyData_ x) (numPins_ x) (promise_ x) (accessStats_ x) (isPrefetch_ x) (isFirstUse_ x) (ssdSaveable_ x) (ssdFile_ x) (ssdOffset_ x) (groupId_ x) (trackingId_ x).
Definition set_data_ (v : Allocation) (x : AsyncDataCacheEntry) : AsyncDataCacheEntry :=
  Build_AsyncDataCacheEntry (key_ x) (size_ x) v (tinyData_ x) (numPins_ x) (promise_ x) (accessStats_ x) (isPrefetch_ x) (isFirstUse_ x) (ssdSaveable_ x) (ssdFile_ x) (ssdOffset_ x) (groupId_ x) (trackingId_ x).
Definition set_tinyData_ (v : list Byte.byte) (x : AsyncDataCacheEntry) : AsyncDataCacheEntry :=
  Build_AsyncDataCacheEntry (key_ x) (size_ x) (data_ x) v (numPins_ x) (promise_ x) (accessStats_ x) (isPrefetch_ x) (isFirstUse_ x) (ssdSaveable_ x) (ssdFile_ x) (ssdOffset_ x) (groupId_ x) (trackingId_ x).
Definition set_numPins_ (v : Z) (x : AsyncDataCacheEntry) : AsyncDataCacheEntry :=
  Build_AsyncDataCacheEntry (key_ x) (size_ x) (data_ x) (tinyData_ x) v (promise_ x) (accessStats_ x) (isPrefetch_ x) (isFirstUse_ x) (ssdSaveable_ x) (ssdFile_ x) (ssdOffset_ x) (groupId_ x) (trackingId_ x).
Definition set_promise_ (v : option Promise) (x : AsyncDataCacheEntry) : AsyncDataCacheEntry :=
  Build_AsyncDataCacheEntry (key_ x) (size_ x) (data_ x) (tinyData_ x) (numPins_ x) v (accessStats_ x) (isPrefetch_ x) (isFirstUse_ x) (ssdSaveable_ x) (ssdFile_ x) (ssdOffset_ x) (groupId_ x) (trackingId_ x).
Definition set_accessStats_ (v : AccessStats) (x : AsyncDataCacheEntry) : AsyncDataCacheEntry :=
  Build_AsyncDataCacheEntry (key_ x) (size_ x) (data_ x) (tinyData_ x) (numPins_ x) (promise_ x) v (isPrefetch_ x) (isFirstUse_ x) (ssdSaveable_ x) (ssdFile_ x) (ssdOffset_ x) (groupId_ x) (trackingId_ x).
Definition set_isPrefetch_ (v : bool) (x : AsyncDataCacheEntry) : AsyncDataCacheEntry :=
  Build_AsyncDataCacheEntry (key_ x) (size_ x) (data_ x) (tinyData_ x) (numPins_ x) (promise_ x) (accessStats_ x) v (isFirstUse_ x) (ssdSaveable_ x) (ssdFile_ x) (ssdOffset_ x) (groupId_ x) (trackingId_ x).
Definition set_isFirstUse_ (v : bool) (x : AsyncDataCacheEntry) : AsyncDataCacheEntry :=
  Build_AsyncDataCacheEntry (key_ x) (size_ x) (data_ x) (tinyData_ x) (numPins_ x) (promise_ x) (accessStats_ x) (isPrefetch_ x) v (ssdSaveable_ x) (ssdFile_ x) (ssdOffset_ x) (groupId_ x) (trackingId_ x).
Definition set_ssdSaveable_ (v : bool) (x : AsyncDataCacheEntry) : AsyncDataCacheEntry :=
  Build_AsyncDataCacheEntry (key_ x) (size_ x) (data_ x) (tinyData_ x) (numPins_ x) (promise_ x) (accessStats_ x) (isPrefetch_ x) (isFirstUse_ x) v (ssdFile_ x) (ssdOffset_ x) (groupId_ x) (trackingId_ x).
Definition set_ssdFile_ (v : option SsdFile) (x : AsyncDataCacheEntry) : AsyncDataCacheEntry :=
  Build_AsyncDataCacheEntry (key_ x) (size_ x) (data_ x) (tinyData_ x) (numPins_ x) (promise_ x) (accessStats_ x) (isPrefetch_ x) (isFirstUse_ x) (ssdSaveable_ x) v (ssdOffset_ x) (groupId_ x) (trackingId_ x).
Definition set_ssdOffset_ (v : Z) (x : AsyncDataCacheEntry) : AsyncDataCacheEntry :=
  Build_AsyncDataCacheEntry (key_ x) (size_ x) (data_ x) (tinyData_ x) (numPins_ x) (promise_ x) (accessStats_ x) (isPrefetch_ x) (isFirstUse_ x) (ssdSaveable_ x) (ssdFile_ x) v (groupId_ x) (trackingId_ x).

(** The entry a shard constructs with [std::make_unique]: no key, no data,
    no pins, access statistics reset. *)
Definition AsyncDataCacheEntry_new : AsyncDataCacheEntry :=
  {| key_ := {| fileNum := None; offset := 0 |};
     size_ := 0; data_ := []; tinyData_ := []; numPins_ := 0;
     promise_ := None; accessStats_ := {| lastUse := 0; numUses := 0 |};
     isPrefetch_ := false; isFirstUse_ := false; ssdSaveable_ := false;
     ssdFile_ := None; ssdOffset_ := 0; groupId_ := 0; trackingId_ := 0 |}.

(** Modelled from the spec: [setSsdFile(file, offset)], an inline member of
    the entry class; it sets the back-link "ssd_file, ssd_offset". *)
Definition setSsdFile (file : option SsdFile) (off : Z)
    (e : AsyncDataCacheEntry) : AsyncDataCacheEntry :=
  set_ssdOffset_ off (set_ssdFile_ file e).

(** [makeEvictable()] *)
Definition AsyncDataCacheEntry_makeEvictable (e : AsyncDataCacheEntry) : AsyncDataCacheEntry :=
  set_accessStats_ {| lastUse := 0; numUses := 0 |} e.

(** Modelled from the spec: [touch()], an inline member of the entry class;
    "access_stats: last_use_tick and use_count; updated on hit". *)
Definition touch (now : Z) (e : AsyncDataCacheEntry) : AsyncDataCacheEntry :=
  set_accessStats_
    {| lastUse := now; numUses := numUses (accessStats_ e) + 1 |} e.

(** ** Shards *)

Record CacheShard := {
  heap_ : gmap EntryPtr AsyncDataCacheEntry;
  entryMap_ : gmap RawFileCacheKey EntryPtr;
  entries_ : list (option EntryPtr);
  emptySlots_ : list nat;
  freeEntries_ : list EntryPtr;
  clockHand_ : Z;
  evictionThreshold_ : Z;
  eventCounter_ : Z;
  numHit_ : Z;
  hitBytes_ : Z;
  numNew_ : Z;
  numEvict_ : Z;
  numEvictChecks_ : Z;
  numWaitExclusive_ : Z;
  sumEvictScore_ : Z;
  allocClocks_ : Z
}.

Definition set_heap_ (v : gmap EntryPtr AsyncDataCacheEntry) (x : CacheShard) : CacheShard :=
  Build_CacheShard v (entryMap_ x) (entries_ x) (emptySlots_ x) (freeEntries_ x) (clockHand_ x) (evictionThreshold_ x) (eventCounter_ x) (numHit_ x) (hitBytes_ x) (numNew_ x) (numEvict_ x) (numEvictChecks_ x) (numWaitExclusive_ x) (sumEvictScore_ x) (allocClocks_ x).
Definition set_entryMap_ (v : gmap RawFileCacheKey EntryPtr) (x : CacheShard) : CacheShard :=
  Build_CacheShard (heap_ x) v (entries_ x) (emptySlots_ x) (freeEntries_ x) (clockHand_ x) (evictionThreshold_ x) (eventCounter_ x) (numHit_ x) (hitBytes_ x) (numNew_ x) (numEvict_ x) (numEvictChecks_ x) (numWaitExclusive_ x) (sumEvictScore_ x) (allocClocks_ x).
Definition set_entries_ (v : list (option EntryPtr)) (x : CacheShard) : CacheShard :=
  Build_CacheShard (heap_ x) (entryMap_ x) v (emptySlots_ x) (freeEntries_ x) (clockHand_ x) (evictionThreshold_ x) (eventCounter_ x) (numHit_ x) (hitBytes_ x) (numNew_ x) (numEvict_ x) (numEvictChecks_ x) (numWaitExclusive_ x) (sumEvictScore_ x) (allocClocks_ x).
Definition set_emptySlots_ (v : list nat) (x : CacheShard) : CacheShard :=
  Build_CacheShard (heap_ x) (entryMap_ x) (entries_ x) v (freeEntries_ x) (clockHand_ x) (evictionThreshold_ x) (eventCounter_ x) (numHit_ x) (hitBytes_ x) (numNew_ x) (numEvict_ x) (numEvictChecks_ x) (numWaitExclusive_ x) (sumEvictScore_ x) (allocClocks_ x).
Definition set_freeEntries_ (v : list EntryPtr) (x : CacheShard) : CacheShard :=
  Build_CacheShard (heap_ x) (entryMap_ x) (entries_ x) (emptySlots_ x) v (clockHand_ x) (evictionThreshold_ x) (eventCounter_ x) (numHit_ x) (hitBytes_ x) (numNew_ x) (numEvict_ x) (numEvictChecks_ x) (numWaitExclusive_ x) (sumEvictScore_ x) (allocClocks_ x).
Definition set_clockHand_ (v : Z) (x : CacheShard) : CacheShard :=
  Build_CacheShard (heap_ x) (entryMap_ x) (entries_ x) (emptySlots_ x) (freeEntries_ x) v (evictionThreshold_ x) (eventCounter_ x) (numHit_ x) (hitBytes_ x) (numNew_ x) (numEvict_ x) (numEvictChecks_ x) (numWaitExclusive_ x) (sumEvictScore_ x) (allocClocks_ x).
Definition set_evictionThreshold_ (v : Z) (x : CacheShard) : CacheShard :=
  Build_CacheShard (heap_ x) (entryMap_ x) (entries_ x) (emptySlots_ x) (freeEntries_ x) (clockHand_ x) v (eventCounter_ x) (numHit_ x) (hitBytes_ x) (numNew_ x) (numEvict_ x) (numEvictChecks_ x) (numWaitExclusive_ x) (sumEvictScore_ x) (allocClocks_ x).
Definition set_eventCounter_ (v : Z) (x : CacheShard) : CacheShard :=
  Build_CacheShard (heap_ x) (entryMap_ x) (entries_ x) (emptySlots_ x) (freeEntries_ x) (clockHand_ x) (evictionThreshold_ x) v (numHit_ x) (hitBytes_ x) (numNew_ x) (numEvict_ x) (numEvictChecks_ x) (numWaitExclusive_ x) (sumEvictScore_ x) (allocClocks_ x).
Definition set_numHit_ (v : Z) (x : CacheShard) : CacheShard :=
  Build_CacheShard (heap_ x) (entryMap_ x) (entries_ x) (emptySlots_ x) (freeEntries_ x) (clockHand_ x) (evictionThreshold_ x) (eventCounter_ x) v (hitBytes_ x) (numNew_ x) (numEvict_ x) (numEvictChecks_ x) (numWaitExclusive_ x) (sumEvictScore_ x) (allocClocks_ x).
Definition set_hitBytes_ (v : Z) (x : CacheShard) : CacheShard :=
  Build_CacheShard (heap_ x) (entryMap_ x) (entries_ x) (emptySlots_ x) (freeEntries_ x) (clockHand_ x) (evictionThreshold_ x) (eventCounter_ x) (numHit_ x) v (numNew_ x) (numEvict_ x) (numEvictChecks_ x) (numWaitExclusive_ x) (sumEvictScore_ x) (allocClocks_ x).
Definition set_numNew_ (v : Z) (x : CacheShard) : CacheShard :=
  Build_CacheShard (heap_ x) (entryMap_ x) (entries_ x) (emptySlots_ x) (freeEntries_ x) (clockHand_ x) (evictionThreshold_ x) (eventCounter_ x) (numHit_ x) (hitBytes_ x) v (numEvict_ x) (numEvictChecks_ x) (numWaitExclusive_ x) (sumEvictScore_ x) (allocClocks_ x).
Definition set_numEvict_ (v : Z) (x : CacheShard) : CacheShard :=
  Build_CacheShard (heap_ x) (entryMap_ x) (entries_ x) (emptySlots_ x) (freeEntries_ x) (clockHand_ x) (evictionThreshold_ x) (eventCounter_ x) (numHit_ x) (hitBytes_ x) (numNew_ x) v (numEvictChecks_ x) (numWaitExclusive_ x) (sumEvictScore_ x) (allocClocks_ x).
Definition set_numEvictChecks_ (v : Z) (x : CacheShard) : CacheShard :=
  Build_CacheShard (heap_ x) (entryMap_ x) (entries_ x) (emptySlots_ x) (freeEntries_ x) (clockHand_ x) (evictionThreshold_ x) (eventCounter_ x) (numHit_ x) (hitBytes_ x) (numNew_ x) (numEvict_ x) v (numWaitExclusive_ x) (sumEvictScore_ x) (allocClocks_ x).
Definition set_numWaitExclusive_ (v : Z) (x : CacheShard) : CacheShard :=
  Build_CacheShard (heap_ x) (entryMap_ x) (entries_ x) (emptySlots_ x) (freeEntries_ x) (clockHand_ x) (evictionThreshold_ x) (eventCounter_ x) (numHit_ x) (hitBytes_ x) (numNew_ x) (numEvict_ x) (numEvictChecks_ x) v (sumEvictScore_ x) (allocClocks_ x).
Definition set_sumEvictScore_ (v : Z) (x : CacheShard) : CacheShard :=
  Build_CacheShard (heap_ x) (entryMap_ x) (entries_ x) (emptySlots_ x) (freeEntries_ x) (clockHand_ x) (evictionThreshold_ x) (eventCounter_ x) (numHit_ x) (hitBytes_ x) (numNew_ x) (numEvict_ x) (numEvictChecks_ x) (numWaitExclusive_ x) v (allocClocks_ x).

(** The shard a cache constructs. *)
Definition newShard (threshold : Z) : CacheShard :=
  {| heap_ := ∅; entryMap_ := ∅; entries_ := []; emptySlots_ := [];
     freeEntries_ := []; clockHand_ := 0; evictionThreshold_ := threshold;
     eventCounter_ := 0; numHit_ := 0; hitBytes_ := 0; numNew_ := 0;
     numEvict_ := 0; numEvictChecks_ := 0; numWaitExclusive_ := 0;
     sumEvictScore_ := 0; allocClocks_ := 0 |}.

(** ** Statistics *)

Record CacheStats := {
  tinySize : Z; largeSize : Z; tinyPadding : Z; largePadding : Z;
  numEntries : Z; numEmptyEntries : Z; numShared : Z; numExclusive : Z;
  sharedPinnedBytes : Z; exclusivePinnedBytes : Z;
  numPrefetch : Z; prefetchBytes : Z;
  numHit : Z; hitBytes : Z; numNew : Z; numEvict : Z; numEvictChecks : Z;
  numWaitExclusive : Z; sumEvictScore : Z; allocClocks : Z
}.

Definition emptyStats : CacheStats :=
  Build_CacheStats 0 0 0 0 0 0 0 0 0 0 0 0 0 0 0 0 0 0 0 0.

(** ** What the cache does to its surroundings *)

Inductive Event :=
| EvLock (shard : nat)
| EvUnlock (shard : nat)
| EvErase (shard : nat) (key : RawFileCacheKey)
| EvSetValue (promise : Promise) (value : bool)
| EvAllocateNonContiguous (pages : Z) (ok : bool)
| EvFreeNonContiguous (pages : Z)
| EvAllocate (ok : bool)
| EvEvict (shard : nat) (bytesToFree : Z) (evictAllUnpinned : bool) (pagesToAcquire : Z)
| EvSleep (usec : Z)
| EvSetCacheFailureMessage
| EvSsdWrite (pins : list CachePin)
| EvLoadLock
| EvLoadUnlock
| EvLoadData (immediate : bool).

(** ** Exceptions *)

Inductive ErrorCode := kInvalidState | kNoCacheSpace.

(** What a member function can end with instead of returning.  A failed
    [VELOX_CHECK] and the retriable no-cache-space error are
    [VeloxRuntimeError]s; [StdException] stands for any other exception
    derived from [std::exception] (the ones [loadOrFuture] catches).
    [UndefinedBehaviour] is not an exception of the program: it is where the
    embedding stops when a pointer or an index does not denote an object.
    [Terminated] is not one either: it is where the program stops when an
    exception comes out of a destructor ([std::terminate]); no handler gets
    it. *)
Inductive Exn :=
| VeloxRuntimeError (code : ErrorCode)
| StdException (what : Z)
| UndefinedBehaviour
| Terminated.

Definition isStdException (e : Exn) : bool :=
  match e with UndefinedBehaviour | Terminated => false | _ => true end.

(** ** The monad: state and exceptions *)

Inductive Res (St X : Type) :=
| Ok (x : X) (s : St)
| Throw (e : Exn) (s : St).
Arguments Ok {St X} x s.
Arguments Throw {St X} e s.

Definition stateOf {St X} (r : Res St X) : St :=
  match r with Ok _ s => s | Throw _ s => s end.

Definition M (St X : Type) : Type := St → Res St X.

#[export] Instance M_ret St : MRet (M St) := λ X x s, Ok x s.

#[export] Instance M_bind St : MBind (M St) := λ X Y f m s,
  match m s with
  | Ok x s' => f x s'
  | Throw e s' => Throw e s'
  end.

Definition throw {St X} (e : Exn) : M St X := λ s, Throw e s.

Definition gets {St X} (f : St → X) : M St X := λ s, Ok (f s) s.

Definition modify {St} (f : St → St) : M St unit := λ s, Ok tt (f s).

(** [m] followed by [cleanup] on every way out of [m]: a scope guard, or the
    destructor of a lock guard. *)
Definition finally {St X} (m : M St X) (cleanup : M St unit) : M St X := λ s,
  match m s with
  | Ok x s' => match cleanup s' with
               | Ok _ s'' => Ok x s''
               | Throw e s'' => Throw e s''
               end
  | Throw e s' => Throw e (stateOf (cleanup s'))
  end.

(** [try m catch (std::exception&) handler] *)
Definition tryCatch {St X} (m : M St X) (handler : Exn → M St X) : M St X := λ s,
  match m s with
  | Ok x s' => Ok x s'
  | Throw e s' => if isStdException e then handler e s' else Throw e s'
  end.

(** [VELOX_CHECK(cond)] *)
Definition VELOX_CHECK {St} (cond : bool) : M St unit :=
  if cond then mret tt else throw (VeloxRuntimeError kInvalidState).

(** ** The collaborators *)

(** The memory allocator.  [allocateNonContiguous pages out] returns whether
    it succeeded and the new value of the out-parameter;
    [freeNonContiguous] leaves its argument empty. *)
Class MemoryAllocator (A : Type) := {
  capacity : A → Z;
  numAllocated : A → Z;
  allocateNonContiguous : Z → Allocation → A → bool * Allocation * A;
  freeNonContiguous : Allocation → A → A
}.

(** The SSD tier.  [startWrite] returns false if a write is in progress. *)
Class SsdCache (S : Type) := {
  writeInProgress : S → bool;
  startWrite : S → bool * S;
  ssdWrite : list CachePin → S → S;
  shouldSaveToSsd : S → Z → Z → bool;
  updateSsdFilter : Z → S → S;
  maxBytes : S → Z
}.

(** What the class declarations of the cache provide: constants, inline
    members and templates, none of them defined in AsyncDataCache.cpp. *)
Class CacheDecls := {
  kExclusive : Z;
  kTinyDataSize : Z;
  kNumShards : nat;
  kShardMask : Z;
  kMaxFreeEntries : nat;
  kNoThreshold : Z;
  (** [std::hash<RawFileCacheKey>] *)
  hashKey : RawFileCacheKey → Z;
  (** [AsyncDataCacheEntry::score(now)] *)
  score : AsyncDataCacheEntry → Z → Z;
  (** [percentile<int32_t>(generator, numSamples, pct)], given the samples
      the generator produced *)
  percentile : list Z → Z → Z;
  (** [std::string::capacity()] of a string of the given size after
      [shrink_to_fit()] *)
  stringCapacity : Z → Z;
  (** [pages * sizeMultiplier] in single precision, converted to a page
      count; the multiplier is 1.2 doubled [doublings] times *)
  timesSizeMultiplier : Z → nat → Z;
  (** [maxBytes * 0.9] in double precision, converted to a byte count *)
  timesPointNine : Z → Z;
  (** [folly::hasher<uint16_t>] *)
  hash16 : Z → Z
}.


(** The message [makeSpace] leaves when it gives up: the statistics, the
    allocated pages and the cached pages that [toString(false)] prints. *)
Record CacheFailureMessage := {
  msg_stats : CacheStats;
  msg_allocated : Z;
  msg_cachedPages : Z
}.

(** Explicit integer conversions of the source. *)
Definition int32 (z : Z) : Z := (z + 2 ^ 31) `mod` 2 ^ 32 - 2 ^ 31.
Definition uint64 (z : Z) : Z := z `mod` 2 ^ 64.

(** A loop over a vector that threads an accumulator. *)
Fixpoint foldM {St X Y} (f : Y → X → M St Y) (l : list X) (y : Y) : M St Y :=
  match l with
  | [] => mret y
  | x :: l' => y' ← f y x; foldM f l' y'
  end.

(** ** The cache *)

Section Cache.

Context {Allocator Ssd : Type}.
Context `{!MemoryAllocator Allocator} `{!SsdCache Ssd} `{!CacheDecls}.

(** [ssdSaveableBytes_] is the member [ssdSaveable_] of the cache (the entry
    has a member of that name too).  [now_] is what [accessTime()] reads,
    [nextPromise_] the identity of the next promise to be made and [trace_]
    the record of what the cache did; [cacheFailureMessage_] is the message
    kept by [memory::setCacheFailureMessage].  A verify hook returns the
    exception it throws, if it throws. *)
Record AsyncDataCache := {
  shards_ : list CacheShard;
  allocator_ : Allocator;
  ssdCache_ : option Ssd;
  verifyHook_ : option (AsyncDataCacheEntry → option Exn);
  cachedPages_ : Z;
  prefetchPages_ : Z;
  newBytes_ : Z;
  nextSsdScoreSize_ : Z;
  ssdSaveableBytes_ : Z;
  numSkippedSaves_ : Z;
  numThreadsInAllocate_ : Z;
  shardCounter_ : Z;
  backoffCounter_ : Z;
  cacheFailureMessage_ : option CacheFailureMessage;
  now_ : Z;
  nextPromise_ : Promise;
  trace_ : list Event
}.

Definition set_shards_ (v : list CacheShard) (x : AsyncDataCache) : AsyncDataCache :=
  Build_AsyncDataCache v (allocator_ x) (ssdCache_ x) (verifyHook_ x) (cachedPages_ x) (prefetchPages_ x) (newBytes_ x) (nextSsdScoreSize_ x) (ssdSaveableBytes_ x) (numSkippedSaves_ x) (numThreadsInAllocate_ x) (shardCounter_ x) (backoffCounter_ x) (cacheFailureMessage_ x) (now_ x) (nextPromise_ x) (trace_ x).
Definition set_allocator_ (v : Allocator) (x : AsyncDataCache) : AsyncDataCache :=
  Build_AsyncDataCache (shards_ x) v (ssdCache_ x) (verifyHook_ x) (cachedPages_ x) (prefetchPages_ x) (newBytes_ x) (nextSsdScoreSize_ x) (ssdSaveableBytes_ x) (numSkippedSaves_ x) (numThreadsInAllocate_ x) (shardCounter_ x) (backoffCounter_ x) (cacheFailureMessage_ x) (now_ x) (nextPromise_ x) (trace_ x).
Definition set_ssdCache_ (v : option Ssd) (x : AsyncDataCache) : AsyncDataCache :=
  Build_AsyncDataCache (shards_ x) (allocator_ x) v (verifyHook_ x) (cachedPages_ x) (prefetchPages_ x) (newBytes_ x) (nextSsdScoreSize_ x) (ssdSaveableBytes_ x) (numSkippedSaves_ x) (numThreadsInAllocate_ x) (shardCounter_ x) (backoffCounter_ x) (cacheFailureMessage_ x) (now_ x) (nextPromise_ x) (trace_ x).
Definition set_cachedPages_ (v : Z) (x : AsyncDataCache) : AsyncDataCache :=
  Build_AsyncDataCache (shards_ x) (allocator_ x) (ssdCache_ x) (verifyHook_ x) v (prefetchPages_ x) (newBytes_ x) (nextSsdScoreSize_ x) (ssdSaveableBytes_ x) (numSkippedSaves_ x) (numThreadsInAllocate_ x) (shardCounter_ x) (backoffCounter_ x) (cacheFailureMessage_ x) (now_ x) (nextPromise_ x) (trace_ x).
Definition set_prefetchPages_ (v : Z) (x : AsyncDataCache) : AsyncDataCache :=
  Build_AsyncDataCache (shards_ x) (allocator_ x) (ssdCache_ x) (verifyHook_ x) (cachedPages_ x) v (newBytes_ x) (nextSsdScoreSize_ x) (ssdSaveableBytes_ x) (numSkippedSaves_ x) (numThreadsInAllocate_ x) (shardCounter_ x) (backoffCounter_ x) (cacheFailureMessage_ x) (now_ x) (nextPromise_ x) (trace_ x).
Definition set_newBytes_ (v : Z) (x : AsyncDataCache) : AsyncDataCache :=
  Build_AsyncDataCache (shards_ x) (allocator_ x) (ssdCache_ x) (verifyHook_ x) (cachedPages_ x) (prefetchPages_ x) v (nextSsdScoreSize_ x) (ssdSaveableBytes_ x) (numSkippedSaves_ x) (numThreadsInAllocate_ x) (shardCounter_ x) (backoffCounter_ x) (cacheFailureMessage_ x) (now_ x) (nextPromise_ x) (trace_ x).
Definition set_nextSsdScoreSize_ (v : Z) (x : AsyncDataCache) : AsyncDataCache :=
  Build_AsyncDataCache (shards_ x) (allocator_ x) (ssdCache_ x) (verifyHook_ x) (cachedPages_ x) (prefetchPages_ x) (newBytes_ x) v (ssdSaveableBytes_ x) (numSkippedSaves_ x) (numThreadsInAllocate_ x) (shardCounter_ x) (backoffCounter_ x) (cacheFailureMessage_ x) (now_ x) (nextPromise_ x) (trace_ x).
Definition set_ssdSaveableBytes_ (v : Z) (x : AsyncDataCache) : AsyncDataCache :=
  Build_AsyncDataCache (shards_ x) (allocator_ x) (ssdCache_ x) (verifyHook_ x) (cachedPages_ x) (prefetchPages_ x) (newBytes_ x) (nextSsdScoreSize_ x) v (numSkippedSaves_ x) (numThreadsInAllocate_ x) (shardCounter_ x) (backoffCounter_ x) (cacheFailureMessage_ x) (now_ x) (nextPromise_ x) (trace_ x).
Definition set_numSkippedSaves_ (v : Z) (x : AsyncDataCache) : AsyncDataCache :=
  Build_AsyncDataCache (shards_ x) (allocator_ x) (ssdCache_ x) (verifyHook_ x) (cachedPages_ x) (prefetchPages_ x) (newBytes_ x) (nextSsdScoreSize_ x) (ssdSaveableBytes_ x) v (numThreadsInAllocate_ x) (shardCounter_ x) (backoffCounter_ x) (cacheFailureMessage_ x) (now_ x) (nextPromise_ x) (trace_ x).
Definition set_numThreadsInAllocate_ (v : Z) (x : AsyncDataCache) : AsyncDataCache :=
  Build_AsyncDataCache (shards_ x) (allocator_ x) (ssdCache_ x) (verifyHook_ x) (cachedPages_ x) (prefetchPages_ x) (newBytes_ x) (nextSsdScoreSize_ x) (ssdSaveableBytes_ x) (numSkippedSaves_ x) v (shardCounter_ x) (backoffCounter_ x) (cacheFailureMessage_ x) (now_ x) (nextPromise_ x) (trace_ x).
Definition set_shardCounter_ (v : Z) (x : AsyncDataCache) : AsyncDataCache :=
  Build_AsyncDataCache (shards_ x) (allocator_ x) (ssdCache_ x) (verifyHook_ x) (cachedPages_ x) (prefetchPages_ x) (newBytes_ x) (nextSsdScoreSize_ x) (ssdSaveableBytes_ x) (numSkippedSaves_ x) (numThreadsInAllocate_ x) v (backoffCounter_ x) (cacheFailureMessage_ x) (now_ x) (nextPromise_ x) (trace_ x).
Definition set_backoffCounter_ (v : Z) (x : AsyncDataCache) : AsyncDataCache :=
  Build_AsyncDataCache (shards_ x) (allocator_ x) (ssdCache_ x) (verifyHook_ x) (cachedPages_ x) (prefetchPages_ x) (newBytes_ x) (nextSsdScoreSize_ x) (ssdSaveableBytes_ x) (numSkippedSaves_ x) (numThreadsInAllocate_ x) (shardCounter_ x) v (cacheFailureMessage_ x) (now_ x) (nextPromise_ x) (trace_ x).
Definition set_cacheFailureMessage_ (v : option CacheFailureMessage) (x : AsyncDataCache) : AsyncDataCache :=
  Build_AsyncDataCache (shards_ x) (allocator_ x) (ssdCache_ x) (verifyHook_ x) (cachedPages_ x) (prefetchPages_ x) (newBytes_ x) (nextSsdScoreSize_ x) (ssdSaveableBytes_ x) (numSkippedSaves_ x) (numThreadsInAllocate_ x) (shardCounter_ x) (backoffCounter_ x) v (now_ x) (nextPromise_ x) (trace_ x).
Definition set_nextPromise_ (v : Promise) (x : AsyncDataCache) : AsyncDataCache :=
  Build_AsyncDataCache (shards_ x) (allocator_ x) (ssdCache_ x) (verifyHook_ x) (cachedPages_ x) (prefetchPages_ x) (newBytes_ x) (nextSsdScoreSize_ x) (ssdSaveableBytes_ x) (numSkippedSaves_ x) (numThreadsInAllocate_ x) (shardCounter_ x) (backoffCounter_ x) (cacheFailureMessage_ x) (now_ x) v (trace_ x).
Definition set_trace_ (v : list Event) (x : AsyncDataCache) : AsyncDataCache :=
  Build_AsyncDataCache (shards_ x) (allocator_ x) (ssdCache_ x) (verifyHook_ x) (cachedPages_ x) (prefetchPages_ x) (newBytes_ x) (nextSsdScoreSize_ x) (ssdSaveableBytes_ x) (numSkippedSaves_ x) (numThreadsInAllocate_ x) (shardCounter_ x) (backoffCounter_ x) (cacheFailureMessage_ x) (now_ x) (nextPromise_ x) v.

Abbreviation Cache := (M AsyncDataCache).

(** *** Primitives *)

Definition log (ev : Event) : Cache unit :=
  modify (λ c, set_trace_ (trace_ c ++ [ev]) c).

(** [std::lock_guard<std::mutex> l(mutex_)] around [m] *)
Definition withLock {X} (sh : nat) (m : Cache X) : Cache X :=
  log (EvLock sh);; finally m (log (EvUnlock sh)).

Definition getShard (sh : nat) : Cache CacheShard := λ c,
  match shards_ c !! sh with
  | Some s => Ok s c
  | None => Throw UndefinedBehaviour c
  end.

Definition modifyShard (sh : nat) (f : CacheShard → CacheShard) : Cache unit :=
  s ← getShard sh;
  modify (λ c, set_shards_ (<[sh := f s]> (shards_ c)) c).

(** [*entry] *)
Definition deref (sh : nat) (p : EntryPtr) : Cache AsyncDataCacheEntry :=
  s ← getShard sh;
  match heap_ s !! p with
  | Some e => mret e
  | None => throw UndefinedBehaviour
  end.

Definition modifyEntry (sh : nat) (p : EntryPtr)
    (f : AsyncDataCacheEntry → AsyncDataCacheEntry) : Cache unit :=
  e ← deref sh p;
  modifyShard sh (λ s, set_heap_ (<[p := f e]> (heap_ s)) s).

Definition accessTime : Cache Z := gets now_.

(** [promise->setValue(value)] *)
Definition Promise_setValue (pr : Promise) (value : bool) : Cache unit :=
  log (EvSetValue pr value).

(** [std::make_unique<folly::SharedPromise<bool>>()] *)
Definition makePromise : Cache Promise := λ c,
  Ok (nextPromise_ c) (set_nextPromise_ (Datatypes.S (nextPromise_ c)) c).

(** [allocator_->allocateNonContiguous(pages, out)] *)
Definition allocator_allocateNonContiguous (pages : Z) (out : Allocation)
    : Cache (bool * Allocation) := λ c,
  let '(ok, out', a') := allocateNonContiguous pages out (allocator_ c) in
  Ok (ok, out')
     (set_trace_ (trace_ c ++ [EvAllocateNonContiguous pages ok])
        (set_allocator_ a' c)).

(** [allocator_->freeNonContiguous(allocation)]; the caller's allocation is
    empty afterwards. *)
Definition allocator_freeNonContiguous (a : Allocation) : Cache unit :=
  modify (λ c, set_allocator_ (freeNonContiguous a (allocator_ c)) c);;
  log (EvFreeNonContiguous (Allocation.numPages a)).

(** [ssdCache_] dereferenced *)
Definition ssdCache : Cache Ssd := λ c,
  match ssdCache_ c with
  | Some ssd => Ok ssd c
  | None => Throw UndefinedBehaviour c
  end.

(** [ssdCache_->startWrite()] *)
Definition ssdCache_startWrite : Cache bool :=
  ssd ← ssdCache;
  let '(ok, ssd') := startWrite ssd in
  modify (set_ssdCache_ (Some ssd'));;
  mret ok.

(** [ssdCache_->write(std::move(pins))] *)
Definition ssdCache_write (pins : list CachePin) : Cache unit :=
  ssd ← ssdCache;
  modify (set_ssdCache_ (Some (ssdWrite pins ssd)));;
  log (EvSsdWrite pins).

(** Modelled from the spec: [incrementCachedPages] and
    [incrementPrefetchPages], inline members of the cache class that add to
    the atomic counters "cached_pages" and "prefetch_pages"; the second
    returns the new count. *)
Definition AsyncDataCache_incrementCachedPages (pages : Z) : Cache unit :=
  modify (λ c, set_cachedPages_ (cachedPages_ c + pages) c).

Definition AsyncDataCache_incrementPrefetchPages (pages : Z) : Cache Z :=
  modify (λ c, set_prefetchPages_ (prefetchPages_ c + pages) c);;
  gets prefetchPages_.

(** *** Entries *)

(** Modelled from the spec: [isExclusive()] and [isShared()], inline members
    of the entry class: "a sentinel EXCLUSIVE", "non-negative values count
    shared readers". *)
Definition isExclusive (e : AsyncDataCacheEntry) : bool := numPins_ e =? kExclusive.
Definition isShared (e : AsyncDataCacheEntry) : bool := 0 <? numPins_ e.

(** Modelled from the spec: [movePromise()], an inline member of the entry
    class: "obtain the waiter promise". *)
Definition AsyncDataCacheEntry_movePromise (sh : nat) (p : EntryPtr) : Cache (option Promise) :=
  e ← deref sh p;
  modifyEntry sh p (set_promise_ None);;
  mret (promise_ e).

(** Modelled from the spec: [getFuture()], an inline member of the entry
    class: "a future from the entry's waiter (creating a shared promise if
    absent)". *)
Definition AsyncDataCacheEntry_getFuture (sh : nat) (p : EntryPtr) : Cache Promise :=
  e ← deref sh p;
  match promise_ e with
  | Some pr => mret pr
  | None =>
      pr ← makePromise;
      modifyEntry sh p (set_promise_ (Some pr));;
      mret pr
  end.

Definition AsyncDataCacheEntry_setPrefetch (sh : nat) (p : EntryPtr) (flag : bool) : Cache Z :=
  modifyEntry sh p (set_isPrefetch_ flag);;
  e ← deref sh p;
  let numPages := AllocationTraits.numPages (size_ e) in
  AsyncDataCache_incrementPrefetchPages (if flag then numPages else - numPages).

Definition AsyncDataCacheEntry_addReference (sh : nat) (p : EntryPtr) : Cache unit :=
  e ← deref sh p;
  VELOX_CHECK (negb (isExclusive e));;
  modifyEntry sh p (λ e, set_numPins_ (numPins_ e + 1) e).

(** *** Shards: handing entries to the SSD tier *)

Definition pinOf (sh : nat) (p : EntryPtr) : CachePin :=
  {| pin_shard := sh; pin_entry := p |}.

(** The loop of [appendSsdSaveable] over the slots that remain. *)
Fixpoint appendSsdSaveable_loop (sh : nat) (limit : Z)
    (slots : list (option EntryPtr)) (pins : list CachePin) : Cache (list CachePin) :=
  match slots with
  | [] => mret pins
  | None :: rest => appendSsdSaveable_loop sh limit rest pins
  | Some p :: rest =>
      e ← deref sh p;
      if negb (bool_decide (is_Some (ssdFile_ e))) && negb (isExclusive e) && ssdSaveable_ e
      then
        modifyEntry sh p (λ e, set_numPins_ (numPins_ e + 1) e);;
        let pins' := pins ++ [pinOf sh p] in
        if uint64 limit <=? Z.of_nat (length pins')
        then mret pins'
        else appendSsdSaveable_loop sh limit rest pins'
      else appendSsdSaveable_loop sh limit rest pins
  end.

Definition CacheShard_appendSsdSaveable (sh : nat) (pins : list CachePin) : Cache (list CachePin) :=
  withLock sh (
    s ← getShard sh;
    let limit := int32 (uint64 (Z.of_nat (length (entries_ s)) * 100) `div` 70) in
    ssd ← ssdCache;
    VELOX_CHECK (writeInProgress ssd);;
    appendSsdSaveable_loop sh limit (entries_ s) pins).

Definition AsyncDataCache_saveToSsd : Cache unit :=
  ssd ← ssdCache;
  VELOX_CHECK (writeInProgress ssd);;
  modify (set_ssdSaveableBytes_ 0);;
  n ← gets (λ c, length (shards_ c));
  pins ← foldM (λ pins sh, CacheShard_appendSsdSaveable sh pins) (seq 0 n) [];
  ssdCache_write pins.

Definition kMinSavePages : Z := 4096.

Definition AsyncDataCache_possibleSsdSave (bytes : Z) : Cache unit :=
  ssd ← gets ssdCache_;
  match ssd with
  | None => mret tt
  | Some _ =>
      modify (λ c, set_ssdSaveableBytes_ (ssdSaveableBytes_ c + bytes) c);;
      saveable ← gets ssdSaveableBytes_;
      cached ← gets cachedPages_;
      if Z.max (int32 kMinSavePages) (int32 (cached ÷ 8)) <? AllocationTraits.numPages saveable
      then
        started ← ssdCache_startWrite;
        if (started : bool) then AsyncDataCache_saveToSsd else mret tt
      else mret tt
  end.

(** *** Entries, continued *)

Definition AsyncDataCacheEntry_setExclusiveToShared (sh : nat) (p : EntryPtr) : Cache unit :=
  e ← deref sh p;
  VELOX_CHECK (isExclusive e);;
  modifyEntry sh p (set_numPins_ 1);;
  promise ← withLock sh (AsyncDataCacheEntry_movePromise sh p);
  match promise with
  | Some pr => Promise_setValue pr true
  | None => mret tt
  end;;
  hook ← gets verifyHook_;
  e ← deref sh p;
  match hook with
  | Some h => match h e with Some ex => throw ex | None => mret tt end
  | None => mret tt
  end;;
  ssd ← gets ssdCache_;
  match ssdFile_ e, ssd with
  | None, Some ssdCache =>
      if shouldSaveToSsd ssdCache (groupId_ e) (trackingId_ e)
      then
        modifyEntry sh p (set_ssdSaveable_ true);;
        AsyncDataCache_possibleSsdSave (size_ e)
      else mret tt
  | _, _ => mret tt
  end.

Definition CacheShard_removeEntryLocked (sh : nat) (p : EntryPtr) : Cache unit :=
  e ← deref sh p;
  match rawKey (key_ e) with
  | None => mret tt
  | Some k =>
      s ← getShard sh;
      VELOX_CHECK (bool_decide (is_Some (entryMap_ s !! k)));;
      modifyShard sh (λ s, set_entryMap_ (delete k (entryMap_ s)) s);;
      log (EvErase sh k);;
      modifyEntry sh p (λ e, set_key_ (clearFileNum (key_ e)) e);;
      modifyEntry sh p (setSsdFile None 0);;
      (if isPrefetch_ e
       then AsyncDataCacheEntry_setPrefetch sh p false;; mret tt
       else mret tt);;
      let numPages := Allocation.numPages (data_ e) in
      if 0 <? numPages
      then
        AsyncDataCache_incrementCachedPages (- numPages);;
        allocator_freeNonContiguous (data_ e);;
        modifyEntry sh p (set_data_ [])
      else mret tt
  end.

Definition CacheShard_removeEntry (sh : nat) (p : EntryPtr) : Cache (option Promise) :=
  withLock sh (
    CacheShard_removeEntryLocked sh p;;
    AsyncDataCacheEntry_movePromise sh p).

Definition AsyncDataCacheEntry_release (sh : nat) (p : EntryPtr) : Cache unit :=
  e ← deref sh p;
  VELOX_CHECK (negb (0 =? numPins_ e));;
  if numPins_ e =? kExclusive
  then
    promise ← CacheShard_removeEntry sh p;
    match promise with
    | Some pr => Promise_setValue pr true
    | None => mret tt
    end;;
    modifyEntry sh p (set_numPins_ 0)
  else
    let oldPins := numPins_ e in
    modifyEntry sh p (set_numPins_ (oldPins - 1));;
    VELOX_CHECK (1 <=? oldPins).

Definition AsyncDataCacheEntry_initialize (sh : nat) (p : EntryPtr) (key : FileCacheKey) : Cache unit :=
  e ← deref sh p;
  VELOX_CHECK (isExclusive e);;
  modifyEntry sh p (setSsdFile None 0);;
  modifyEntry sh p (set_key_ key);;
  if size_ e <? kTinyDataSize
  then
    modifyEntry sh p (λ e, set_tinyData_ (resize (Z.to_nat (size_ e)) Byte.x00 (tinyData_ e)) e)
  else
    modifyEntry sh p (set_tinyData_ []);;
    let sizePages := AllocationTraits.numPages (size_ e) in
    '(ok, data) ← allocator_allocateNonContiguous sizePages (data_ e);
    modifyEntry sh p (set_data_ data);;
    if (ok : bool)
    then AsyncDataCache_incrementCachedPages (Allocation.numPages data)
    else
      AsyncDataCacheEntry_release sh p;;
      throw (VeloxRuntimeError kNoCacheSpace).

(** *** Shards: lookup and creation *)

(** The destructor of an entry returns its pages to the allocator. *)
Definition destroyEntry (sh : nat) (p : EntryPtr) : Cache unit :=
  e ← deref sh p;
  allocator_freeNonContiguous (data_ e);;
  modifyShard sh (λ s, set_heap_ (delete p (heap_ s)) s).

Definition CacheShard_getFreeEntry (sh : nat) : Cache EntryPtr :=
  s ← getShard sh;
  match last (freeEntries_ s) with
  | None =>
      let p := fresh (dom (heap_ s)) in
      modifyShard sh (λ s, set_heap_ (<[p := AsyncDataCacheEntry_new]> (heap_ s)) s);;
      mret p
  | Some p =>
      modifyShard sh (λ s, set_freeEntries_ (removelast (freeEntries_ s)) s);;
      mret p
  end.

Definition AsyncDataCache_incrementNew (size : Z) : Cache unit :=
  modify (λ c, set_newBytes_ (newBytes_ c + size) c);;
  ssd ← gets ssdCache_;
  match ssd with
  | None => mret tt
  | Some ssdCache =>
      newBytes ← gets newBytes_;
      nextSsdScoreSize ← gets nextSsdScoreSize_;
      if nextSsdScoreSize <? newBytes
      then
        cached ← gets cachedPages_;
        modify (set_nextSsdScoreSize_
                  (newBytes + Z.max (AllocationTraits.pageBytes cached) (2 ^ 28)));;
        modify (set_ssdCache_
                  (Some (updateSsdFilter (timesPointNine (maxBytes ssdCache)) ssdCache)))
      else mret tt
  end.

Definition CacheShard_initEntry (sh : nat) (key : RawFileCacheKey) (entry : EntryPtr)
    : Cache (option CachePin * option Promise) :=
  AsyncDataCacheEntry_initialize sh entry (makeKey key);;
  e ← deref sh entry;
  AsyncDataCache_incrementNew (size_ e);;
  mret (Some (pinOf sh entry), None).

(** What the locked block of [findOrCreate] ends with: a value to return
    (the pin and the future written through [wait]), or the entry to
    initialize. *)
Inductive FindOrCreateLocked :=
| Return (pin : option CachePin) (future : option Promise)
| EntryToInit (entry : EntryPtr).

(** The part of the locked block that sets up a new entry. *)
Definition findOrCreate_newEntry (sh : nat) (key : RawFileCacheKey) (size : Z)
    : Cache FindOrCreateLocked :=
  newEntry ← CacheShard_getFreeEntry sh;
  modifyEntry sh newEntry (set_numPins_ kExclusive);;
  modifyEntry sh newEntry (set_promise_ None);;
  modifyShard sh (λ s, set_entryMap_ (<[key := newEntry]> (entryMap_ s)) s);;
  s ← getShard sh;
  match last (emptySlots_ s) with
  | None => modifyShard sh (λ s, set_entries_ (entries_ s ++ [Some newEntry]) s)
  | Some index =>
      modifyShard sh (λ s, set_emptySlots_ (removelast (emptySlots_ s)) s);;
      match entries_ s !! index with
      | None => throw UndefinedBehaviour
      | Some old =>
          match old with Some q => destroyEntry sh q | None => mret tt end;;
          modifyShard sh (λ s, set_entries_ (<[index := Some newEntry]> (entries_ s)) s)
      end
  end;;
  modifyShard sh (λ s, set_numNew_ (numNew_ s + 1) s);;
  e ← deref sh newEntry;
  VELOX_CHECK (size_ e =? 0);;
  modifyEntry sh newEntry (set_size_ size);;
  modifyEntry sh newEntry (set_isFirstUse_ true);;
  mret (EntryToInit newEntry).

(** The locked block of [findOrCreate]; [wait] tells whether the caller
    passed a future to fill. *)
Definition findOrCreate_locked (sh : nat) (key : RawFileCacheKey) (size : Z) (wait : bool)
    : Cache FindOrCreateLocked :=
  modifyShard sh (λ s, set_eventCounter_ (eventCounter_ s + 1) s);;
  s ← getShard sh;
  match entryMap_ s !! key with
  | Some found =>
      e ← deref sh found;
      if isExclusive e
      then
        modifyShard sh (λ s, set_numWaitExclusive_ (numWaitExclusive_ s + 1) s);;
        if wait
        then future ← AsyncDataCacheEntry_getFuture sh found; mret (Return None (Some future))
        else mret (Return None None)
      else if size <=? size_ e
      then
        now ← accessTime;
        modifyEntry sh found (touch now);;
        (if isPrefetch_ e
         then
           modifyEntry sh found (set_isFirstUse_ true);;
           AsyncDataCacheEntry_setPrefetch sh found false;; mret tt
         else
           modifyShard sh (λ s, set_hitBytes_ (hitBytes_ s + size_ e)
                                  (set_numHit_ (numHit_ s + 1) s)));;
        modifyEntry sh found (λ e, set_numPins_ (numPins_ e + 1) e);;
        mret (Return (Some (pinOf sh found)) None)
      else
        modifyEntry sh found (λ e, set_key_ (clearFileNum (key_ e)) e);;
        findOrCreate_newEntry sh key size
  | None => findOrCreate_newEntry sh key size
  end.

Definition CacheShard_findOrCreate (sh : nat) (key : RawFileCacheKey) (size : Z) (wait : bool)
    : Cache (option CachePin * option Promise) :=
  r ← withLock sh (findOrCreate_locked sh key size wait);
  match r with
  | Return pin future => mret (pin, future)
  | EntryToInit entryToInit => CacheShard_initEntry sh key entryToInit
  end.

Definition CacheShard_exists (sh : nat) (key : RawFileCacheKey) : Cache bool :=
  withLock sh (
    s ← getShard sh;
    match entryMap_ s !! key with
    | Some p =>
        now ← accessTime;
        modifyEntry sh p (touch now);;
        mret true
    | None => mret false
    end).

(** [std::hash<RawFileCacheKey>()(key) & kShardMask] *)
Definition shardOf (key : RawFileCacheKey) : nat :=
  Z.to_nat (Z.land (hashKey key) kShardMask).

Definition AsyncDataCache_findOrCreate (key : RawFileCacheKey) (size : Z) (wait : bool)
    : Cache (option CachePin * option Promise) :=
  CacheShard_findOrCreate (shardOf key) key size wait.

Definition AsyncDataCache_exists (key : RawFileCacheKey) : Cache bool :=
  CacheShard_exists (shardOf key) key.

(** *** Shards: eviction *)

(** A computation on the cache inside one that has more state: the
    [acquired] allocation a caller passed by reference, or the local
    variables a scope guard reads. *)
Definition liftCache {L X} (m : Cache X) : M (L * AsyncDataCache) X := λ '(l, c),
  match m c with
  | Ok x c' => Ok x (l, c')
  | Throw e c' => Throw e (l, c')
  end.

(** The computations of [evict]: the allocation is the one its parameter
    [acquired] refers to. *)
Abbreviation Evicting := (M (Allocation * AsyncDataCache)).

Definition CacheShard_tryAddFreeEntry (sh : nat) (slot : nat) : Cache unit :=
  s ← getShard sh;
  match entries_ s !! slot with
  | Some (Some entry) =>
      modifyShard sh (λ s, set_freeEntries_ (freeEntries_ s ++ [entry])
                             (set_entries_ (<[slot := None]> (entries_ s)) s));;
      s ← getShard sh;
      if (kMaxFreeEntries <=? length (freeEntries_ s))%nat
      then
        let kept := (kMaxFreeEntries / 2)%nat in
        modifyShard sh (λ s, set_freeEntries_ (take kept (freeEntries_ s)) s);;
        foldM (λ _ q, destroyEntry sh q) (drop kept (freeEntries_ s)) tt
      else mret tt
  | _ => throw UndefinedBehaviour
  end.

Definition CacheShard_freeAllocations (allocations : list Allocation) : Cache unit :=
  foldM (λ _ a, allocator_freeNonContiguous a) allocations tt.

(** The samples the generator of [calibrateThreshold] produces. *)
Fixpoint calibrateThreshold_samples (sh : nat) (now step : Z) (n : nat) (entryIndex : Z)
    : Cache (list Z) :=
  match n with
  | O => mret []
  | Datatypes.S n' =>
      s ← getShard sh;
      sample ← match entries_ s !! Z.to_nat entryIndex with
               | Some (Some element) => e ← deref sh element; mret (score e now)
               | Some None => mret 0
               | None => throw UndefinedBehaviour
               end;
      let size := Z.of_nat (length (entries_ s)) in
      let entryIndex' :=
        if size <=? entryIndex + step
        then (entryIndex + step) `mod` size
        else entryIndex + step in
      rest ← calibrateThreshold_samples sh now step n' entryIndex';
      mret (sample :: rest)
  end.

Definition CacheShard_calibrateThreshold (sh : nat) : Cache unit :=
  s ← getShard sh;
  let size := Z.of_nat (length (entries_ s)) in
  let numSamples := Z.min (int32 10) (int32 size) in
  now ← accessTime;
  let entryIndex := clockHand_ s `mod` size in
  let step := size `div` uint64 numSamples in
  samples ← calibrateThreshold_samples sh now step (Z.to_nat numSamples) entryIndex;
  modifyShard sh (set_evictionThreshold_ (percentile samples 80)).

(** The local variables of [evict] that its loop changes. *)
Record EvictLocals := {
  ev_tinyFreed : Z;
  ev_largeFreed : Z;
  ev_evictSaveableSkipped : Z;
  ev_now : Z;
  ev_toFree : list Allocation;
  ev_numChecked : Z;
  ev_entryIndex : nat;
  ev_pagesToAcquire : Z
}.

(** The body of [if (candidate->numPins_ == 0 && ...)] past the SSD bypass:
    the candidate in slot [ev_entryIndex] is evicted.  The result tells
    whether the loop goes on. *)
Definition evict_candidate (sh : nat) (bytesToFree : Z) (candidate : EntryPtr)
    (score : Z) (l : EvictLocals) : Evicting (bool * EvictLocals) :=
  e ← liftCache (deref sh candidate);
  let largeFreed := ev_largeFreed l + Allocation.byteSize (data_ e) in
  '(pagesToAcquire, toFree) ←
    (if 0 <? ev_pagesToAcquire l
     then
       let candidatePages := Allocation.numPages (data_ e) in
       acquired ← gets fst;
       let '(acquired', data') := Allocation.appendMove acquired (data_ e) in
       modify (λ '(_, c), (acquired', c));;
       liftCache (modifyEntry sh candidate (set_data_ data'));;
       e' ← liftCache (deref sh candidate);
       VELOX_CHECK (Allocation.empty (data_ e'));;
       mret (if ev_pagesToAcquire l <? candidatePages
             then 0 else ev_pagesToAcquire l - candidatePages,
             ev_toFree l)
     else
       liftCache (modifyEntry sh candidate (set_data_ []));;
       mret (ev_pagesToAcquire l, ev_toFree l ++ [data_ e]));
  liftCache (CacheShard_removeEntryLocked sh candidate);;
  liftCache (modifyShard sh (λ s, set_emptySlots_ (emptySlots_ s ++ [ev_entryIndex l]) s));;
  e ← liftCache (deref sh candidate);
  let tinyFreed := ev_tinyFreed l + Z.of_nat (length (tinyData_ e)) in
  liftCache (modifyEntry sh candidate (set_tinyData_ []));;
  liftCache (modifyEntry sh candidate (set_size_ 0));;
  liftCache (CacheShard_tryAddFreeEntry sh (ev_entryIndex l));;
  liftCache (modifyShard sh (λ s, set_numEvict_ (numEvict_ s + 1) s));;
  (if score =? 0
   then mret tt
   else liftCache (modifyShard sh (λ s, set_sumEvictScore_ (sumEvictScore_ s + score) s)));;
  mret (bytesToFree <? uint64 (largeFreed + tinyFreed),
        {| ev_tinyFreed := tinyFreed; ev_largeFreed := largeFreed;
           ev_evictSaveableSkipped := ev_evictSaveableSkipped l;
           ev_now := ev_now l; ev_toFree := toFree;
           ev_numChecked := ev_numChecked l; ev_entryIndex := ev_entryIndex l;
           ev_pagesToAcquire := pagesToAcquire |}).

(** One round of the loop of [evict]; the boolean is true at [break]. *)
Definition evict_step (sh : nat) (bytesToFree : Z) (evictAllUnpinned skipSsdSaveable : bool)
    (l : EvictLocals) : Evicting (bool * EvictLocals) :=
  s ← liftCache (getShard sh);
  let size := length (entries_ s) in
  let entryIndex :=
    if (Datatypes.S (ev_entryIndex l) =? size)%nat then 0%nat
    else Datatypes.S (ev_entryIndex l) in
  liftCache (modifyShard sh (λ s, set_numEvictChecks_ (numEvictChecks_ s + 1) s));;
  match entries_ s !! entryIndex with
  | None => throw UndefinedBehaviour
  | Some None =>
      mret (false,
            {| ev_tinyFreed := ev_tinyFreed l; ev_largeFreed := ev_largeFreed l;
               ev_evictSaveableSkipped := ev_evictSaveableSkipped l;
               ev_now := ev_now l; ev_toFree := ev_toFree l;
               ev_numChecked := ev_numChecked l; ev_entryIndex := entryIndex;
               ev_pagesToAcquire := ev_pagesToAcquire l |})
  | Some (Some candidate) =>
      liftCache (modifyShard sh (λ s, set_clockHand_ (clockHand_ s + 1) s));;
      s ← liftCache (getShard sh);
      '(now, numChecked) ←
        (if (evictionThreshold_ s =? kNoThreshold)
            || (Z.of_nat size `div` 4 <? eventCounter_ s)
            || (Z.of_nat size `div` 8 <? ev_numChecked l + 1)
         then
           now ← liftCache accessTime;
           liftCache (CacheShard_calibrateThreshold sh);;
           liftCache (modifyShard sh (set_eventCounter_ 0));;
           mret (now, 0)
         else mret (ev_now l, ev_numChecked l + 1));
      let l' :=
        {| ev_tinyFreed := ev_tinyFreed l; ev_largeFreed := ev_largeFreed l;
           ev_evictSaveableSkipped := ev_evictSaveableSkipped l;
           ev_now := now; ev_toFree := ev_toFree l;
           ev_numChecked := numChecked; ev_entryIndex := entryIndex;
           ev_pagesToAcquire := ev_pagesToAcquire l |} in
      e ← liftCache (deref sh candidate);
      s ← liftCache (getShard sh);
      let score :=
        if (numPins_ e =? 0) && hasValue (key_ e) && negb evictAllUnpinned
        then score e now else 0 in
      if (numPins_ e =? 0)
         && (negb (hasValue (key_ e)) || evictAllUnpinned
             || (evictionThreshold_ s <=? score))
      then
        if skipSsdSaveable && ssdSaveable_ e && negb evictAllUnpinned
        then
          mret (false,
                {| ev_tinyFreed := ev_tinyFreed l'; ev_largeFreed := ev_largeFreed l';
                   ev_evictSaveableSkipped := ev_evictSaveableSkipped l' + 1;
                   ev_now := ev_now l'; ev_toFree := ev_toFree l';
                   ev_numChecked := ev_numChecked l'; ev_entryIndex := ev_entryIndex l';
                   ev_pagesToAcquire := ev_pagesToAcquire l' |})
        else evict_candidate sh bytesToFree candidate score l'
      else mret (false, l')
  end.

(** The conditions of [evict_step] on a candidate: what makes it evictable,
    with the threshold and the time of the round, and what makes the pass
    leave it to the SSD save. *)
Definition evict_evictable (evictAllUnpinned : bool) (now threshold : Z)
    (e : AsyncDataCacheEntry) : bool :=
  let score :=
    if (numPins_ e =? 0) && hasValue (key_ e) && negb evictAllUnpinned
    then score e now else 0 in
  (numPins_ e =? 0)
  && (negb (hasValue (key_ e)) || evictAllUnpinned || (threshold <=? score)).

Definition evict_bypassed (evictAllUnpinned skipSsdSaveable : bool)
    (e : AsyncDataCacheEntry) : bool :=
  skipSsdSaveable && ssdSaveable_ e && negb evictAllUnpinned.

(** [while (++counter <= size)]: [rounds] is what remains of [size]. *)
Fixpoint evict_loop (sh : nat) (bytesToFree : Z) (evictAllUnpinned skipSsdSaveable : bool)
    (rounds : nat) (l : EvictLocals) : Evicting EvictLocals :=
  match rounds with
  | O => mret l
  | Datatypes.S rounds' =>
      '(stop, l') ← evict_step sh bytesToFree evictAllUnpinned skipSsdSaveable l;
      if (stop : bool) then mret l'
      else evict_loop sh bytesToFree evictAllUnpinned skipSsdSaveable rounds' l'
  end.

(** The locked block of [evict]; [None] is the early return on a shard
    without slots. *)
Definition evict_locked (sh : nat) (bytesToFree : Z) (evictAllUnpinned skipSsdSaveable : bool)
    (pagesToAcquire now : Z) : Evicting (option EvictLocals) :=
  s ← liftCache (getShard sh);
  let size := int32 (Z.of_nat (length (entries_ s))) in
  if size =? 0 then mret None
  else
    l ← evict_loop sh bytesToFree evictAllUnpinned skipSsdSaveable (Z.to_nat size)
          {| ev_tinyFreed := 0; ev_largeFreed := 0; ev_evictSaveableSkipped := 0;
             ev_now := now; ev_toFree := [];
             ev_numChecked := 0;
             ev_entryIndex := Z.to_nat (clockHand_ s `rem` size);
             ev_pagesToAcquire := pagesToAcquire |};
    mret (Some l).

(** The end of [evict], outside the shard lock. *)
Definition evict_unlocked (l : EvictLocals) : Cache unit :=
  CacheShard_freeAllocations (ev_toFree l);;
  AsyncDataCache_incrementCachedPages
    ((- ev_largeFreed l) ÷ int32 AllocationTraits.kPageSize);;
  ssd ← gets ssdCache_;
  if negb (ev_evictSaveableSkipped l =? 0)
  then
    started ← match ssd with Some _ => ssdCache_startWrite | None => mret false end;
    if (started : bool)
    then
      modify (set_numSkippedSaves_ 0);;
      AsyncDataCache_saveToSsd
    else modify (λ c, set_numSkippedSaves_ (numSkippedSaves_ c + 1) c)
  else mret tt.

Definition CacheShard_evict (sh : nat) (bytesToFree : Z) (evictAllUnpinned : bool)
    (pagesToAcquire : Z) : Evicting unit :=
  liftCache (log (EvEvict sh bytesToFree evictAllUnpinned pagesToAcquire));;
  ssd ← liftCache (gets ssdCache_);
  let skipSsdSaveable := match ssd with Some ssd => writeInProgress ssd | None => false end in
  now ← liftCache accessTime;
  locals ← (liftCache (log (EvLock sh));;
            finally
              (evict_locked sh bytesToFree evictAllUnpinned skipSsdSaveable pagesToAcquire now)
              (liftCache (log (EvUnlock sh))));
  match locals with
  | None => mret tt
  | Some l => liftCache (evict_unlocked l)
  end.

(** *** Statistics *)

(** What [updateStats] adds for a slot that holds an entry with a key. *)
Definition updateStats_entry (e : AsyncDataCacheEntry) (stats : CacheStats) : CacheStats :=
  let tiny := Z.of_nat (length (tinyData_ e)) in
  let pinned := Allocation.byteSize (data_ e) + stringCapacity tiny in
  let exclusive := isExclusive e in
  let shared := negb exclusive && isShared e in
  {| tinySize := tinySize stats + tiny;
     largeSize := largeSize stats + size_ e;
     tinyPadding := tinyPadding stats + (stringCapacity tiny - tiny);
     largePadding := largePadding stats + (Allocation.byteSize (data_ e) - size_ e);
     numEntries := numEntries stats + 1;
     numEmptyEntries := numEmptyEntries stats;
     numShared := numShared stats + (if shared then 1 else 0);
     numExclusive := numExclusive stats + (if exclusive then 1 else 0);
     sharedPinnedBytes := sharedPinnedBytes stats + (if shared then pinned else 0);
     exclusivePinnedBytes := exclusivePinnedBytes stats + (if exclusive then pinned else 0);
     numPrefetch := numPrefetch stats + (if isPrefetch_ e then 1 else 0);
     prefetchBytes := prefetchBytes stats + (if isPrefetch_ e then size_ e else 0);
     numHit := numHit stats; hitBytes := hitBytes stats; numNew := numNew stats;
     numEvict := numEvict stats; numEvictChecks := numEvictChecks stats;
     numWaitExclusive := numWaitExclusive stats;
     sumEvictScore := sumEvictScore stats; allocClocks := allocClocks stats |}.

Definition updateStats_empty (stats : CacheStats) : CacheStats :=
  {| tinySize := tinySize stats; largeSize := largeSize stats;
     tinyPadding := tinyPadding stats; largePadding := largePadding stats;
     numEntries := numEntries stats;
     numEmptyEntries := numEmptyEntries stats + 1;
     numShared := numShared stats; numExclusive := numExclusive stats;
     sharedPinnedBytes := sharedPinnedBytes stats;
     exclusivePinnedBytes := exclusivePinnedBytes stats;
     numPrefetch := numPrefetch stats; prefetchBytes := prefetchBytes stats;
     numHit := numHit stats; hitBytes := hitBytes stats; numNew := numNew stats;
     numEvict := numEvict stats; numEvictChecks := numEvictChecks stats;
     numWaitExclusive := numWaitExclusive stats;
     sumEvictScore := sumEvictScore stats; allocClocks := allocClocks stats |}.

Definition updateStats_counters (s : CacheShard) (stats : CacheStats) : CacheStats :=
  {| tinySize := tinySize stats; largeSize := largeSize stats;
     tinyPadding := tinyPadding stats; largePadding := largePadding stats;
     numEntries := numEntries stats; numEmptyEntries := numEmptyEntries stats;
     numShared := numShared stats; numExclusive := numExclusive stats;
     sharedPinnedBytes := sharedPinnedBytes stats;
     exclusivePinnedBytes := exclusivePinnedBytes stats;
     numPrefetch := numPrefetch stats; prefetchBytes := prefetchBytes stats;
     numHit := numHit stats + numHit_ s;
     hitBytes := hitBytes stats + hitBytes_ s;
     numNew := numNew stats + numNew_ s;
     numEvict := numEvict stats + numEvict_ s;
     numEvictChecks := numEvictChecks stats + numEvictChecks_ s;
     numWaitExclusive := numWaitExclusive stats + numWaitExclusive_ s;
     sumEvictScore := sumEvictScore stats + sumEvictScore_ s;
     allocClocks := allocClocks stats + allocClocks_ s |}.

Definition CacheShard_updateStats (sh : nat) (stats : CacheStats) : Cache CacheStats :=
  withLock sh (
    s ← getShard sh;
    stats ← foldM (λ stats slot,
                     match slot with
                     | None => mret (updateStats_empty stats)
                     | Some p =>
                         e ← deref sh p;
                         if hasValue (key_ e)
                         then mret (updateStats_entry e stats)
                         else mret (updateStats_empty stats)
                     end)
                  (entries_ s) stats;
    mret (updateStats_counters s stats)).

(** The statistics of the SSD tier that [refreshStats] attaches are those of
    the collaborator and are left out. *)
Definition AsyncDataCache_refreshStats : Cache CacheStats :=
  n ← gets (λ c, length (shards_ c));
  foldM (λ stats sh, CacheShard_updateStats sh stats) (seq 0 n) emptyStats.

(** *** The cache: making space *)

(** The parameter [numPages] is an [int32_t]: what a caller passes is
    narrowed to it.  The pages of [acquired], the pages of the capacity and
    the pages allocated are page counts of the allocator, which are unsigned
    64-bit numbers (the code around them guards their subtractions against
    underflow, in [evict] and in [makeSpace]): the comparisons and the
    subtractions are made in that type, to which [numPages] is converted. *)
Definition AsyncDataCache_canTryAllocate (c : AsyncDataCache) (numPages : Z)
    (acquired : Allocation) : bool :=
  let numPages := int32 numPages in
  if uint64 numPages <=? uint64 (Allocation.numPages acquired) then true
  else uint64 (uint64 numPages - uint64 (Allocation.numPages acquired))
       <=? uint64 (uint64 (AllocationTraits.numPages (capacity (allocator_ c)))
                   - uint64 (numAllocated (allocator_ c))).

Definition AsyncDataCache_backoff (counter : Z) : Cache unit :=
  modify (λ c, set_backoffCounter_ (backoffCounter_ c + 1) c);;
  backoffCounter ← gets backoffCounter_;
  let seed := hash16 (backoffCounter `mod` 2 ^ 16) in
  let usec := Z.land seed 4095 * Z.land counter 31 in
  log (EvSleep usec).

(** The local variables of [makeSpace] that its scope guard and its loop
    share.  [ms_sizeMultiplier] counts how often the multiplier 1.2 has been
    doubled: it is below 4 as long as it was doubled less than twice. *)
Record MakeSpaceLocals := {
  ms_sizeMultiplier : nat;
  ms_isCounted : bool;
  ms_rank : Z;
  ms_acquired : Allocation
}.

Abbreviation MakingSpace := (M (MakeSpaceLocals * AsyncDataCache)).

(** A computation with local variables of its own, run to its end. *)
Definition runFrame {L X} (l : L) (m : M (L * AsyncDataCache) X) : Cache X := λ c,
  match m (l, c) with
  | Ok x (_, c') => Ok x c'
  | Throw e (_, c') => Throw e c'
  end.

(** A call that takes [acquired] by reference. *)
Definition withAcquired {X} (m : Evicting X) : MakingSpace X := λ '(l, c),
  let put a :=
    {| ms_sizeMultiplier := ms_sizeMultiplier l; ms_isCounted := ms_isCounted l;
       ms_rank := ms_rank l; ms_acquired := a |} in
  match m (ms_acquired l, c) with
  | Ok x (a, c') => Ok x (put a, c')
  | Throw e (a, c') => Throw e (put a, c')
  end.

(** [rank = ++numThreadsInAllocate_; isCounted = true] *)
Definition makeSpace_enlist : MakingSpace unit :=
  liftCache (modify (λ c, set_numThreadsInAllocate_ (numThreadsInAllocate_ c + 1) c));;
  rank ← liftCache (gets numThreadsInAllocate_);
  modify (λ '(l, c),
    ({| ms_sizeMultiplier := ms_sizeMultiplier l; ms_isCounted := true;
        ms_rank := int32 rank; ms_acquired := ms_acquired l |}, c)).

Definition kMinEvictPages : Z := 256.
Definition kSmallSizePages : Z := 2048.
Definition kMaxAttempts : Z := Z.of_nat kNumShards * 4.

Section MakeSpace.

(** The closure [allocate]: it gets the pages acquired so far and works on
    the allocator. *)
Variable allocate : Allocation → Allocator → bool * Allocation * Allocator.

(** [numPages] is a [MachinePageCount], an unsigned 64-bit number; what
    [canTryAllocate], [std::max<int32_t>] and [evict] get of it is narrowed
    to [int32_t]. *)
Variable numPages : Z.

Definition makeSpace_allocate : MakingSpace bool := λ '(l, c),
  let '(ok, acquired, a) := allocate (ms_acquired l) (allocator_ c) in
  Ok ok
     ({| ms_sizeMultiplier := ms_sizeMultiplier l; ms_isCounted := ms_isCounted l;
         ms_rank := ms_rank l; ms_acquired := acquired |},
      set_trace_ (trace_ c ++ [EvAllocate ok]) (set_allocator_ a c)).

(** One round of the loop of [makeSpace]; true is [return true]. *)
Definition makeSpace_attempt (nthAttempt : Z) : MakingSpace bool :=
  '(l, c) ← gets id;
  allocated ← (if AsyncDataCache_canTryAllocate c (int32 numPages) (ms_acquired l)
               then makeSpace_allocate else mret false);
  if (allocated : bool) then mret true
  else
    (if (2 <? nthAttempt)
        && match ssdCache_ c with Some ssd => writeInProgress ssd | None => false end
     then liftCache (log (EvSleep 500000))
     else mret tt);;
    (if (kMaxAttempts ÷ 2 <? nthAttempt) && negb (ms_isCounted l)
     then makeSpace_enlist
     else mret tt);;
    l ← gets fst;
    (if negb (ms_rank l =? 0)
     then
       liftCache (allocator_freeNonContiguous (ms_acquired l));;
       modify (λ '(l, c),
         ({| ms_sizeMultiplier := ms_sizeMultiplier l; ms_isCounted := ms_isCounted l;
             ms_rank := ms_rank l; ms_acquired := [] |}, c));;
       liftCache (AsyncDataCache_backoff (nthAttempt + ms_rank l));;
       threads ← liftCache (gets numThreadsInAllocate_);
       modify (λ '(l, c),
         ({| ms_sizeMultiplier := ms_sizeMultiplier l; ms_isCounted := ms_isCounted l;
             ms_rank := Z.min (int32 (ms_rank l)) (int32 threads);
             ms_acquired := ms_acquired l |}, c))
     else mret tt);;
    liftCache (modify (λ c, set_shardCounter_ (shardCounter_ c + 1) c));;
    '(l, c) ← gets id;
    let numPagesToAcquire :=
      int32 (if Allocation.numPages (ms_acquired l) <? numPages
             then numPages - Allocation.numPages (ms_acquired l) else 0) in
    withAcquired
      (CacheShard_evict
         (Z.to_nat (Z.land (shardCounter_ c) kShardMask))
         (AllocationTraits.pageBytes
            (timesSizeMultiplier (Z.max (int32 kMinEvictPages) (int32 numPages))
               (ms_sizeMultiplier l)))
         (Z.of_nat kNumShards <=? nthAttempt)
         numPagesToAcquire);;
    (if (numPages <? kSmallSizePages) && (ms_sizeMultiplier l <? 2)%nat
     then
       modify (λ '(l, c),
         ({| ms_sizeMultiplier := Datatypes.S (ms_sizeMultiplier l);
             ms_isCounted := ms_isCounted l; ms_rank := ms_rank l;
             ms_acquired := ms_acquired l |}, c))
     else mret tt);;
    mret false.

(** [for (auto nthAttempt = 0; nthAttempt < kMaxAttempts; ++nthAttempt)],
    with [rounds] attempts to go; true is [return true]. *)
Fixpoint makeSpace_loop (rounds : nat) (nthAttempt : Z) : MakingSpace bool :=
  match rounds with
  | O => mret false
  | Datatypes.S rounds' =>
      done ← makeSpace_attempt nthAttempt;
      if (done : bool) then mret true
      else makeSpace_loop rounds' (nthAttempt + 1)
  end.

(** [memory::setCacheFailureMessage(... toString(false))] *)
Definition makeSpace_setCacheFailureMessage : Cache unit :=
  stats ← AsyncDataCache_refreshStats;
  c ← gets id;
  modify (set_cacheFailureMessage_
            (Some {| msg_stats := stats;
                     msg_allocated := numAllocated (allocator_ c);
                     msg_cachedPages := cachedPages_ c |}));;
  log EvSetCacheFailureMessage.

Definition makeSpace_guard : MakingSpace unit :=
  l ← gets fst;
  liftCache (allocator_freeNonContiguous (ms_acquired l));;
  if ms_isCounted l
  then liftCache (modify (λ c, set_numThreadsInAllocate_ (numThreadsInAllocate_ c - 1) c))
  else mret tt.

Definition AsyncDataCache_makeSpace : Cache bool :=
  runFrame
    {| ms_sizeMultiplier := 0; ms_isCounted := false; ms_rank := 0; ms_acquired := [] |}
    (finally
       (threads ← liftCache (gets numThreadsInAllocate_);
        VELOX_CHECK ((0 <=? threads) && (threads <? 10000));;
        (if negb (threads =? 0) then makeSpace_enlist else mret tt);;
        done ← makeSpace_loop (Z.to_nat kMaxAttempts) 0;
        if (done : bool) then mret true
        else liftCache makeSpace_setCacheFailureMessage;; mret false)
       makeSpace_guard).

End MakeSpace.

Definition AsyncDataCache_clear : Cache unit :=
  n ← gets (λ c, length (shards_ c));
  foldM (λ _ sh,
           runFrame ([] : Allocation)
             (CacheShard_evict sh (2 ^ 31 - 1) true 0;;
              acquired ← gets fst;
              VELOX_CHECK (Allocation.empty acquired)))
        (seq 0 n) tt.

(** ** Coalesced loads *)

Inductive State := kPlanned | kLoading | kCancelled | kLoaded.

#[export] Instance State_eq_dec : EqDecision State.
Proof. solve_decision. Defined.

(** [loadPromise_] is the member [promise_] of the load. *)
Record CoalescedLoad := { state_ : State; loadPromise_ : option Promise }.

(** The computations of a load: the load object and the cache its pins
    point into. *)
Abbreviation Loading := (M (CoalescedLoad * AsyncDataCache)).

(** [std::lock_guard<std::mutex> l(mutex_)] of the load around [m] *)
Definition withLoadLock {X} (m : Loading X) : Loading X :=
  liftCache (log EvLoadLock);; finally m (liftCache (log EvLoadUnlock)).

Definition CoalescedLoad_setEndState (endState : State) : Loading unit :=
  withLoadLock (
    modify (λ '(l, c), ({| state_ := endState; loadPromise_ := loadPromise_ l |}, c));;
    l ← gets fst;
    match loadPromise_ l with
    | Some pr =>
        liftCache (Promise_setValue pr true);;
        modify (λ '(l, c), ({| state_ := state_ l; loadPromise_ := None |}, c))
    | None => mret tt
    end).

(** [~CoalescedLoad()] *)
Definition CoalescedLoad_destructor : Loading unit :=
  CoalescedLoad_setEndState kCancelled.

(** What the locked block of [loadOrFuture] ends with: a value to return
    (with the future written through [wait]), or the go-ahead to load. *)
Inductive LoadOrFutureLocked :=
| ReturnNow (result : bool) (future : option Promise)
| StartLoading.

Definition loadOrFuture_locked (wait : bool) : Loading LoadOrFutureLocked :=
  l ← gets fst;
  if bool_decide (state_ l = kCancelled) || bool_decide (state_ l = kLoaded)
  then mret (ReturnNow true None)
  else if bool_decide (state_ l = kLoading)
  then
    if negb wait then mret (ReturnNow false None)
    else
      pr ← match loadPromise_ l with
           | Some pr => mret pr
           | None =>
               pr ← liftCache makePromise;
               modify (λ '(l, c), ({| state_ := state_ l; loadPromise_ := Some pr |}, c));;
               mret pr
           end;
      mret (ReturnNow false (Some pr))
  else
    VELOX_CHECK (bool_decide (kPlanned = state_ l));;
    modify (λ '(l, c), ({| state_ := kLoading; loadPromise_ := loadPromise_ l |}, c));;
    mret StartLoading.

(** The destructor of a pin.  Modelled from the spec: "A Pin wraps a raw
    entry pointer and must call release exactly once when dropped".  A
    destructor lets no exception out: one that [release] throws ends the
    program. *)
Definition CachePin_destroy (pin : CachePin) : Cache unit := λ c,
  match AsyncDataCacheEntry_release (pin_shard pin) (pin_entry pin) c with
  | Ok _ c' => Ok tt c'
  | Throw _ c' => Throw Terminated c'
  end.

(** The destructor of a vector of pins.  The order in which the elements
    are destroyed is the library's; here it is the order of the vector. *)
Definition dropPins (pins : list CachePin) : Loading unit :=
  foldM (λ _ pin, liftCache (CachePin_destroy pin)) pins tt.

(** [body] in the scope of the vector [pins]: the pins are dropped on every
    way out of it, before the result or the exception goes on. *)
Definition withPins {X} (pins : list CachePin) (body : Loading X) : Loading X := λ w,
  match body w with
  | Ok x w' => (dropPins pins;; mret x) w'
  | Throw ex w' => (dropPins pins;; throw ex) w'
  end.

Section LoadOrFuture.

(** The pure virtual [loadData(isImmediate)] of the subclass: it works on the
    cache, and other threads may register as waiters of the load while it
    runs. *)
Variable loadData : bool → Loading (list CachePin).

(** The loop over the pins [loadData] returned. *)
Definition loadOrFuture_publish (pins : list CachePin) : Loading unit :=
  foldM (λ _ pin,
           e ← liftCache (deref (pin_shard pin) (pin_entry pin));
           VELOX_CHECK (hasValue (key_ e));;
           VELOX_CHECK (isExclusive e);;
           liftCache (AsyncDataCacheEntry_setExclusiveToShared (pin_shard pin) (pin_entry pin)))
        pins tt.

(** The block of [try] in [loadOrFuture].  The vector [pins] is a local of
    the block: its pins are dropped when the block is left, at its end and
    on the way of an exception to the handler. *)
Definition loadOrFuture_load (wait : bool) : Loading unit :=
  liftCache (log (EvLoadData (negb wait)));;
  pins ← loadData (negb wait);
  withPins pins
    (loadOrFuture_publish pins;;
     CoalescedLoad_setEndState kLoaded).

Definition CoalescedLoad_loadOrFuture (wait : bool) : Loading (bool * option Promise) :=
  r ← withLoadLock (loadOrFuture_locked wait);
  match r with
  | ReturnNow result future => mret (result, future)
  | StartLoading =>
      tryCatch
        (loadOrFuture_load wait)
        (λ e,
           tryCatch (CoalescedLoad_setEndState kCancelled) (λ inner, mret tt);;
           throw e);;
      mret (true, None)
  end.

End LoadOrFuture.

(** ** Reading into the buffers of pins *)

(** What a [folly::Range<char*>] of [readPins] points to: the tiny buffer of
    the entry of a pin, the pages of a run, or nothing, for a gap. *)
Inductive RangeData :=
| TinyDataOf (pin : CachePin)
| RunDataOf (data : Z)
| NoData.

Record Range := { range_data : RangeData; range_size : Z }.

(** Modelled from the spec: [PageRun::numBytes()], declared with the memory
    allocator: the bytes of the pages of the run. *)
Definition PageRun_numBytes (r : PageRun) : Z :=
  AllocationTraits.pageBytes (run_numPages r).

(** The closures that [readPins] hands to [coalesceIo], which is declared
    outside the sources at hand.  A pin is held on an entry here, so that
    [checkedEntry()] is the entry. *)

Definition readPins_size (pin : CachePin) : Cache Z :=
  e ← deref (pin_shard pin) (pin_entry pin);
  mret (size_ e).

Definition readPins_numRanges (pin : CachePin) : Cache Z :=
  e ← deref (pin_shard pin) (pin_entry pin);
  mret (Z.max 1 (int32 (Z.of_nat (length (data_ e))))).

(** The loop over the runs of the allocation: [offsetInRuns] and [ranges]
    after it. *)
Fixpoint readPins_runs (size : Z) (runs : list PageRun) (offsetInRuns : Z)
    (ranges : list Range) : Z * list Range :=
  match runs with
  | [] => (offsetInRuns, ranges)
  | run :: rest =>
      let bytes := uint64 (PageRun_numBytes run) in
      let readSize := Z.min bytes (uint64 (size - offsetInRuns)) in
      readPins_runs size rest (uint64 (offsetInRuns + readSize))
        (ranges ++ [{| range_data := RunDataOf (run_data run); range_size := readSize |}])
  end.

(** The closure that adds the ranges of a pin to [ranges]; the result is the
    new value of [ranges]. *)
Definition readPins_addRanges (pin : CachePin) (ranges : list Range) : Cache (list Range) :=
  e ← deref (pin_shard pin) (pin_entry pin);
  let size := size_ e in
  let '(offsetInRuns, ranges') :=
    if Allocation.numPages (data_ e) =? 0
    then (uint64 size,
          ranges ++ [{| range_data := TinyDataOf pin; range_size := uint64 size |}])
    else readPins_runs size (data_ e) 0 ranges in
  VELOX_CHECK (offsetInRuns =? uint64 size);;
  mret ranges'.

(** The closure that adds a gap: the size is kept in the range, which has no
    buffer. *)
Definition readPins_addGap (size : Z) (ranges : list Range) : list Range :=
  ranges ++ [{| range_data := NoData; range_size := uint64 size |}].

End Cache.

(** ** The vocabulary of the statements *)

(** The outcome of [m] from [s] satisfies [Q] if [m] returns and [E] if it
    throws. *)
Definition wp {St X} (m : M St X) (Q : X → St → Prop) (E : Exn → St → Prop)
    (s : St) : Prop :=
  match m s with
  | Ok x s' => Q x s'
  | Throw e s' => E e s'
  end.

(** [m] returns. *)
Definition returns {St X} (r : Res St X) : Prop :=
  match r with Ok _ _ => True | Throw _ _ => False end.

(** The state with the shard [sh] replaced. *)
Definition updShard {Allocator Ssd} (sh : nat) (s : CacheShard)
    (c : @AsyncDataCache Allocator Ssd) : @AsyncDataCache Allocator Ssd :=
  set_shards_ (<[sh := s]> (shards_ c)) c.

(** The pointers the slots of a shard own. *)
Definition slotEntries (s : CacheShard) : list EntryPtr := omap id (entries_ s).

(** The shape of a shard between two operations.  The first two fields are
    the invariant "an entry is in the map iff its key is not cleared", in
    the form that determines the binding; the others say what the owning
    containers guarantee: slots and recycler own live entries, each once,
    recycled entries are drained, and the empty-slot indices are those of
    the vacated slots. *)
Record ShardInv (s : CacheShard) : Prop := {
  inv_map_key : ∀ k p, entryMap_ s !! k = Some p →
    ∃ e, heap_ s !! p = Some e ∧ rawKey (key_ e) = Some k;
  inv_key_map : ∀ p e k, heap_ s !! p = Some e → rawKey (key_ e) = Some k →
    entryMap_ s !! k = Some p;
  inv_slots : ∀ p, p ∈ slotEntries s → is_Some (heap_ s !! p);
  inv_free : ∀ p, p ∈ freeEntries_ s →
    ∃ e, heap_ s !! p = Some e ∧ fileNum (key_ e) = None ∧ size_ e = 0;
  inv_owned : NoDup (slotEntries s ++ freeEntries_ s);
  inv_emptySlots : ∀ i, i ∈ emptySlots_ s → entries_ s !! i = Some None;
  inv_emptySlots_nodup : NoDup (emptySlots_ s)
}.

Definition CacheInv {Allocator Ssd} (c : @AsyncDataCache Allocator Ssd) : Prop :=
  ∀ sh s, shards_ c !! sh = Some s → ShardInv s.

(** [ShardInv] and [CacheInv] as checks that compute. *)
Definition ShardInv_check (s : CacheShard) : bool :=
  bool_decide (map_Forall (λ k p, ((heap_ s !! p) ≫= λ e, rawKey (key_ e)) = Some k)
                 (entryMap_ s))
  && bool_decide (map_Forall (λ p e, (rawKey (key_ e) ≫= λ k, entryMap_ s !! k)
                                     = (rawKey (key_ e) ≫= λ _, Some p))
                    (heap_ s))
  && forallb (λ p, bool_decide (is_Some (heap_ s !! p))) (slotEntries s)
  && forallb (λ p, match heap_ s !! p with
                   | Some e => bool_decide (fileNum (key_ e) = None) && (size_ e =? 0)
                   | None => false
                   end) (freeEntries_ s)
  && bool_decide (NoDup (slotEntries s ++ freeEntries_ s))
  && forallb (λ i, bool_decide (entries_ s !! i = Some None)) (emptySlots_ s)
  && bool_decide (NoDup (emptySlots_ s)).

Definition CacheInv_check {Allocator Ssd} (c : @AsyncDataCache Allocator Ssd) : bool :=
  forallb ShardInv_check (shards_ c).

(** The events a computation added to the trace. *)
Definition addedTo {Allocator Ssd} (c c' : @AsyncDataCache Allocator Ssd)
    (evs : list Event) : Prop :=
  trace_ c' = trace_ c ++ evs.

(** A relation between states that every step of [m] maintains, whether
    [m] returns or throws. *)
Definition keeps {St X} (R : St → St → Prop) (m : M St X) : Prop :=
  ∀ st, R st (stateOf (m st)).

(** Events other than a call of [evict], a call of the allocate closure and
    the recording of the failure message. *)
Definition quietEvent (ev : Event) : Prop :=
  match ev with
  | EvEvict _ _ _ _ | EvAllocate _ | EvSetCacheFailureMessage => False
  | _ => True
  end.

(** The trace grew by quiet events. *)
Definition quietly {Allocator Ssd} (c c' : @AsyncDataCache Allocator Ssd) : Prop :=
  ∃ evs, trace_ c' = trace_ c ++ evs ∧ Forall quietEvent evs.

(** What an entry keeps when it is only read, touched, pinned or waited
    for: key, size and buffers, and being shared. *)
Definition entryKept (e e' : AsyncDataCacheEntry) : Prop :=
  key_ e' = key_ e ∧ size_ e' = size_ e ∧ data_ e' = data_ e
  ∧ tinyData_ e' = tinyData_ e ∧ (1 ≤ numPins_ e → 1 ≤ numPins_ e').

(** What a shard keeps then: its containers, and each entry as above. *)
Definition shardKept (s s' : CacheShard) : Prop :=
  entryMap_ s' = entryMap_ s ∧ entries_ s' = entries_ s
  ∧ emptySlots_ s' = emptySlots_ s ∧ freeEntries_ s' = freeEntries_ s
  ∧ ∀ p, option_Forall2 entryKept (heap_ s !! p) (heap_ s' !! p).

Definition gently {Allocator Ssd} (c c' : @AsyncDataCache Allocator Ssd) : Prop :=
  quietly c c' ∧ Forall2 shardKept (shards_ c) (shards_ c').

(** A relation on the cache, for computations with more state. *)
Definition onCache {L Allocator Ssd}
    (R : @AsyncDataCache Allocator Ssd → @AsyncDataCache Allocator Ssd → Prop)
    (a b : L * @AsyncDataCache Allocator Ssd) : Prop :=
  R (snd a) (snd b).

(** What a computation on the shard [sh] keeps of the rest of the cache: the
    trace grows by quiet events, the SSD tier and the count of skipped saves
    are left alone, and so are the other shards. *)
Definition calmly {Allocator Ssd} (sh : nat) (c c' : @AsyncDataCache Allocator Ssd) : Prop :=
  quietly c c'
  ∧ ssdCache_ c' = ssdCache_ c
  ∧ numSkippedSaves_ c' = numSkippedSaves_ c
  ∧ length (shards_ c') = length (shards_ c)
  ∧ ∀ sh', sh' ≠ sh → shards_ c' !! sh' = shards_ c !! sh'.

(** The entry a pin points to is shared. *)
Definition sharedAt {Allocator Ssd} (c : @AsyncDataCache Allocator Ssd) (pin : CachePin) : Prop :=
  ∃ s e, shards_ c !! pin_shard pin = Some s
         ∧ heap_ s !! pin_entry pin = Some e ∧ 1 ≤ numPins_ e.

(** What [setEndState] makes of a load and of the trace: the promise, if
    there is one, is fulfilled under the mutex of the load and dropped. *)
Definition endedLoad {Allocator Ssd} (endState : State)
    (w : CoalescedLoad * @AsyncDataCache Allocator Ssd)
    : CoalescedLoad * @AsyncDataCache Allocator Ssd :=
  ({| state_ := endState; loadPromise_ := None |},
   set_trace_
     (trace_ (snd w)
      ++ [EvLoadLock]
      ++ match loadPromise_ (fst w) with
         | Some pr => [EvSetValue pr true]
         | None => []
         end
      ++ [EvLoadUnlock])
     (snd w)).

(** What a computation makes of the shard [sh], whose value is [s] before:
    [Φ] of the result and of the value after if it returns, [Ξ] of the value
    after if it throws.  The state may hold more than the cache; [proj] is
    the cache in it. *)
Definition onShard {St X Allocator Ssd} (proj : St → @AsyncDataCache Allocator Ssd)
    (sh : nat) (s : CacheShard) (m : M St X)
    (Φ : X → CacheShard → Prop) (Ξ : Exn → CacheShard → Prop) : Prop :=
  ∀ st, shards_ (proj st) !! sh = Some s →
    wp m (λ x st', ∃ s', shards_ (proj st') !! sh = Some s' ∧ Φ x s')
         (λ ex st', ∃ s', shards_ (proj st') !! sh = Some s' ∧ Ξ ex s') st.

(** A computation that returns and leaves the shards alone. *)
Definition neutral {St X Allocator Ssd} (proj : St → @AsyncDataCache Allocator Ssd)
    (m : M St X) : Prop :=
  ∀ st, ∃ x st', m st = Ok x st' ∧ shards_ (proj st') = shards_ (proj st).

(** The heap without the entries of a list. *)
Definition deleteAll (ps : list EntryPtr) (h : gmap EntryPtr AsyncDataCacheEntry)
    : gmap EntryPtr AsyncDataCacheEntry :=
  foldl (λ h p, delete p h) h ps.

(** What an operation on the shard [sh] keeps of the cache: the trace grows
    by quiet events and the other shards are as they were, up to what
    [shardKept] allows. *)
Definition aside {Allocator Ssd} (sh : nat) (c c' : @AsyncDataCache Allocator Ssd) : Prop :=
  quietly c c'
  ∧ length (shards_ c') = length (shards_ c)
  ∧ ∀ sh' s, sh' ≠ sh → shards_ c !! sh' = Some s →
      ∃ s', shards_ c' !! sh' = Some s' ∧ shardKept s s'.

(** What an eviction pass leaves of the entries [prot] holds of: each stays
    in its slot, as it was, under the keys the map had for it. *)
Definition stays (prot : AsyncDataCacheEntry → Prop) (s s' : CacheShard) : Prop :=
  length (entries_ s') = length (entries_ s)
  ∧ ∀ i p e, entries_ s !! i = Some (Some p) → heap_ s !! p = Some e → prot e →
      entries_ s' !! i = Some (Some p) ∧ heap_ s' !! p = Some e
      ∧ ∀ k, entryMap_ s !! k = Some p → entryMap_ s' !! k = Some p.

(** What a shard keeps of the entries other than [q]: their slots, what
    they hold, and the keys the map has for them. *)
Definition apartFrom (q : EntryPtr) (s s' : CacheShard) : Prop :=
  length (entries_ s') = length (entries_ s)
  ∧ (∀ i p, p ≠ q → entries_ s !! i = Some (Some p) → entries_ s' !! i = Some (Some p))
  ∧ (∀ p, p ≠ q → p ∈ slotEntries s → heap_ s' !! p = heap_ s !! p)
  ∧ (∀ k p, p ≠ q → entryMap_ s !! k = Some p → entryMap_ s' !! k = Some p).

(** Two values of a shard with the same entries in the same containers. *)
Definition sameContents (s s' : CacheShard) : Prop :=
  heap_ s' = heap_ s ∧ entryMap_ s' = entryMap_ s ∧ entries_ s' = entries_ s
  ∧ emptySlots_ s' = emptySlots_ s ∧ freeEntries_ s' = freeEntries_ s.

(** The index [evict] visits after [entryIndex]. *)
Definition nextIndex (s : CacheShard) (entryIndex : nat) : nat :=
  if (Datatypes.S entryIndex =? length (entries_ s))%nat then 0%nat
  else Datatypes.S entryIndex.

(** The entries a pass of [evict] does not take: the pinned ones and those
    it leaves to the SSD save. *)
Definition evict_protected {H : CacheDecls} (evictAllUnpinned skipSsdSaveable : bool)
    (e : AsyncDataCacheEntry) : Prop :=
  numPins_ e ≠ 0 ∨ skipSsdSaveable && ssdSaveable_ e && negb evictAllUnpinned = true.

(** The shard without the binding of [key] in its map. *)
Definition withoutKey (key : RawFileCacheKey) (s : CacheShard) : CacheShard :=
  set_entryMap_ (delete key (entryMap_ s)) s.

(** Modelled from the spec: the contract of the SSD tier, "start_write() ->
    bool (returns false if one is already in progress),
    write_in_progress() -> bool": a write that [startWrite] started is in
    progress. *)
Definition startWrite_starts (Ssd : Type) `{SsdCache Ssd} : Prop :=
  ∀ ssd : Ssd, fst (startWrite ssd) = true → writeInProgress (snd (startWrite ssd)) = true.

(** What the trace tells of the attempts of [makeSpace]: the value of
    [evictAllUnpinned] in each call of [evict], and the result of each call
    of the allocate closure, in order. *)
Definition evictFlags (evs : list Event) : list bool :=
  omap (λ ev, match ev with EvEvict _ _ all _ => Some all | _ => None end) evs.

Definition allocResults (evs : list Event) : list bool :=
  omap (λ ev, match ev with EvAllocate ok => Some ok | _ => None end) evs.

(** A cache in shape, with the shards the class declares. *)
Definition steady {H : CacheDecls} {Allocator Ssd} (c : @AsyncDataCache Allocator Ssd) : Prop :=
  CacheInv c ∧ length (shards_ c) = kNumShards.

(** What a sequence of desperate passes keeps of a cache of [n] shards in
    shape: the shape, and the pinned entries where they are. *)
Definition pinnedStay {Allocator Ssd} (n : nat) (c c' : @AsyncDataCache Allocator Ssd) : Prop :=
  CacheInv c → length (shards_ c) = n →
  CacheInv c' ∧ length (shards_ c') = n
  ∧ Forall2 (stays (λ e, numPins_ e ≠ 0)) (shards_ c) (shards_ c').

(** What the work on the shards and their entries leaves alone in the
    cache: the counters of [makeSpace], the failure message, the clock, the
    verify hook and the number of shards. *)
Definition beside {Allocator Ssd} (c c' : @AsyncDataCache Allocator Ssd) : Prop :=
  numThreadsInAllocate_ c' = numThreadsInAllocate_ c
  ∧ shardCounter_ c' = shardCounter_ c
  ∧ backoffCounter_ c' = backoffCounter_ c
  ∧ cacheFailureMessage_ c' = cacheFailureMessage_ c
  ∧ now_ c' = now_ c
  ∧ verifyHook_ c' = verifyHook_ c
  ∧ length (shards_ c') = length (shards_ c).

(** The count of allocating threads is left as it is. *)
Definition sameThreads {Allocator Ssd} (c c' : @AsyncDataCache Allocator Ssd) : Prop :=
  numThreadsInAllocate_ c' = numThreadsInAllocate_ c.

(** A step of [makeSpace] that neither enlists the thread nor changes the
    count of allocating threads. *)
Definition sameCount {Allocator Ssd}
    (st st' : MakeSpaceLocals * @AsyncDataCache Allocator Ssd) : Prop :=
  ms_isCounted (fst st') = ms_isCounted (fst st)
  ∧ numThreadsInAllocate_ (snd st') = numThreadsInAllocate_ (snd st).

(** The count of allocating threads is [n] and this thread on top of it, if
    it is counted. *)
Definition countedFrom {Allocator Ssd} (n : Z)
    (st : MakeSpaceLocals * @AsyncDataCache Allocator Ssd) : Prop :=
  numThreadsInAllocate_ (snd st) = n + (if ms_isCounted (fst st) then 1 else 0).

(** What [findOrCreate] leaves of the shard [s] when it creates an entry
    for [key], whether the entry [p] is then filled or given up: the entry
    that had the key before is superseded, the others are as they were, and
    the new entry took the last empty slot, or a new slot at the end. *)
Definition createdIn (key : RawFileCacheKey) (p : EntryPtr) (s s' : CacheShard) : Prop :=
  (heap_ s !! p = None ∨ p ∈ freeEntries_ s)
  ∧ (∀ q, q ≠ p → entryMap_ s !! key ≠ Some q → heap_ s' !! q = heap_ s !! q)
  ∧ (∀ found e0, entryMap_ s !! key = Some found → heap_ s !! found = Some e0 →
       found ≠ p ∧ heap_ s' !! found = Some (set_key_ (clearFileNum (key_ e0)) e0))
  ∧ match last (emptySlots_ s) with
    | None => entries_ s' = entries_ s ++ [Some p] ∧ emptySlots_ s' = emptySlots_ s
    | Some index => entries_ s' = <[index := Some p]> (entries_ s)
                    ∧ emptySlots_ s' = removelast (emptySlots_ s)
    end.

(** The sum of a counter over the shards. *)
Definition sumOver (f : CacheShard → Z) (shards : list CacheShard) : Z :=
  foldr (λ s n, f s + n) 0 shards.

(** What a walk over [slots] slots adds to the statistics: each slot counts
    once, as an entry or as an empty one; an entry is shared, exclusive or
    neither, and it may be a prefetch. *)
Definition slotsCounted (slots : Z) (stats stats' : CacheStats) : Prop :=
  numEntries stats' + numEmptyEntries stats' = numEntries stats + numEmptyEntries stats + slots
  ∧ numEntries stats ≤ numEntries stats'
  ∧ numEmptyEntries stats ≤ numEmptyEntries stats'
  ∧ numShared stats ≤ numShared stats'
  ∧ numExclusive stats ≤ numExclusive stats'
  ∧ numPrefetch stats ≤ numPrefetch stats'
  ∧ (numShared stats' - numShared stats) + (numExclusive stats' - numExclusive stats)
    ≤ numEntries stats' - numEntries stats
  ∧ numPrefetch stats' - numPrefetch stats ≤ numEntries stats' - numEntries stats.

(** What the counters of the shards add to the statistics. *)
Definition countersAdded (shards : list CacheShard) (stats stats' : CacheStats) : Prop :=
  numHit stats' = numHit stats + sumOver numHit_ shards
  ∧ hitBytes stats' = hitBytes stats + sumOver hitBytes_ shards
  ∧ numNew stats' = numNew stats + sumOver numNew_ shards
  ∧ numEvict stats' = numEvict stats + sumOver numEvict_ shards
  ∧ numEvictChecks stats' = numEvictChecks stats + sumOver numEvictChecks_ shards
  ∧ numWaitExclusive stats' = numWaitExclusive stats + sumOver numWaitExclusive_ shards
  ∧ sumEvictScore stats' = sumEvictScore stats + sumOver sumEvictScore_ shards
  ∧ allocClocks stats' = allocClocks stats + sumOver allocClocks_ shards.

(** The bytes an entry holds, in pages and in its tiny buffer; what
    [evict] adds to [largeFreed] and [tinyFreed] when it takes the entry. *)
Definition entryBytes (e : AsyncDataCacheEntry) : Z :=
  Allocation.byteSize (data_ e) + Z.of_nat (length (tinyData_ e)).

(** The bytes behind a slot and behind all the slots of a shard. *)
Definition slotBytes (h : gmap EntryPtr AsyncDataCacheEntry) (slot : option EntryPtr) : Z :=
  match slot ≫= (h !!.) with
  | Some e => entryBytes e
  | None => 0
  end.

Definition shardBytes (s : CacheShard) : Z :=
  foldr (λ slot n, slotBytes (heap_ s) slot + n) 0 (entries_ s).

(** The slot [i] holds no entry that is not pinned; no slot does. *)
Definition slotPinned (s : CacheShard) (i : nat) : Prop :=
  ∀ p e, entries_ s !! i = Some (Some p) → heap_ s !! p = Some e → numPins_ e ≠ 0.

Definition unpinnedGone (s : CacheShard) : Prop := ∀ i, slotPinned s i.

(** The entries in the slots of [s'] were in the same slots of [s], and
    are as they were. *)
Definition remnantOf (s s' : CacheShard) : Prop :=
  ∀ i p e, entries_ s' !! i = Some (Some p) → heap_ s' !! p = Some e →
    entries_ s !! i = Some (Some p) ∧ heap_ s !! p = Some e.

(** No entry in a slot has a negative count of pages. *)
Definition pagesCounted (s : CacheShard) : Prop :=
  ∀ i p e, entries_ s !! i = Some (Some p) → heap_ s !! p = Some e →
    0 ≤ Allocation.byteSize (data_ e).

(** A shard that one pass of [evict] can go through to the end: the count
    of its slots fits the [int] that holds it, and all that its slots hold
    is not above [budget], the bytes after which the pass stops. *)
Definition withinBudget (budget : Z) (s : CacheShard) : Prop :=
  Z.of_nat (length (entries_ s)) < 2 ^ 31
  ∧ pagesCounted s
  ∧ shardBytes s ≤ budget.

(** The bytes a pass of [evict] has freed so far. *)
Definition freedBytes (l : EvictLocals) : Z := ev_largeFreed l + ev_tinyFreed l.

(** The bytes of a list of ranges *)
Definition rangesSize (rs : list Range) : Z :=
  foldr (λ r n, range_size r + n) 0 rs.

(** The same, as a check to run on a concrete shard. *)
Definition withinBudget_check (budget : Z) (s : CacheShard) : bool :=
  (Z.of_nat (length (entries_ s)) <? 2 ^ 31)
  && forallb (λ slot, match slot ≫= (heap_ s !!.) with
                      | Some e => 0 <=? Allocation.byteSize (data_ e)
                      | None => true
                      end) (entries_ s)
  && (shardBytes s <=? budget).

(** The entries in exclusive mode are where they were, and as they were. *)
Definition exclusiveKept {Allocator Ssd} {H : CacheDecls}
    (c c' : @AsyncDataCache Allocator Ssd) : Prop :=
  ∀ sh s p e, shards_ c !! sh = Some s → heap_ s !! p = Some e → isExclusive e = true →
    ∃ s', shards_ c' !! sh = Some s' ∧ heap_ s' !! p = Some e.

(** What [loadOrFuture] asks of the pins of [loadData]: each is on an entry
    of the cache that has its key and is in exclusive mode, and no two are on
    the same entry. *)
Definition exclusivePins {Allocator Ssd} {H : CacheDecls}
    (pins : list CachePin) (c : @AsyncDataCache Allocator Ssd) : Prop :=
  NoDup pins
  ∧ ∀ pin, pin ∈ pins →
      ∃ s e, shards_ c !! pin_shard pin = Some s ∧ heap_ s !! pin_entry pin = Some e
             ∧ hasValue (key_ e) = true ∧ isExclusive e = true.

(** The verify hook, if there is one, throws on no entry. *)
Definition hookAccepts {Allocator Ssd} (c : @AsyncDataCache Allocator Ssd) : Prop :=
  ∀ h e, verifyHook_ c = Some h → h e = None.

(** The entry a pin points to, if the cache has its shard and the shard
    the entry. *)
Definition entryAt {Allocator Ssd} (c : @AsyncDataCache Allocator Ssd) (pin : CachePin)
    : option AsyncDataCacheEntry :=
  shards_ c !! pin_shard pin ≫= λ s, heap_ s !! pin_entry pin.

(** ** A small world to run the cache in

    An allocator that hands out pages while capacity remains, an SSD tier
    whose write in progress may or may not be over by the next
    [startWrite], and the declarations of the cache classes with four
    shards. *)

Module Demo.

Record SimpleAllocator := {
  sa_capacity : Z;
  sa_allocated : Z;
  sa_nextAddress : Z
}.

#[export] Instance SimpleAllocator_ops : MemoryAllocator SimpleAllocator := {|
  capacity a := sa_capacity a;
  numAllocated a := sa_allocated a;
  allocateNonContiguous pages out a :=
    let allocated := sa_allocated a - Allocation.numPages out in
    if pages <=? AllocationTraits.numPages (sa_capacity a) - allocated
    then (true,
          [{| run_data := sa_nextAddress a; run_numPages := pages |}],
          {| sa_capacity := sa_capacity a;
             sa_allocated := allocated + pages;
             sa_nextAddress := sa_nextAddress a + AllocationTraits.pageBytes pages |})
    else (false, [],
          {| sa_capacity := sa_capacity a; sa_allocated := allocated;
             sa_nextAddress := sa_nextAddress a |});
  freeNonContiguous allocation a :=
    {| sa_capacity := sa_capacity a;
       sa_allocated := sa_allocated a - Allocation.numPages allocation;
       sa_nextAddress := sa_nextAddress a |}
|}.

(** [ssd_finishing] says that the write in progress is over by the time of
    the next [startWrite]. *)
Record SimpleSsd := {
  ssd_writing : bool;
  ssd_finishing : bool;
  ssd_wanted : bool;
  ssd_written : list (list CachePin)
}.

#[export] Instance SimpleSsd_ops : SsdCache SimpleSsd := {|
  writeInProgress s := ssd_writing s;
  startWrite s :=
    if ssd_writing s && negb (ssd_finishing s) then (false, s)
    else (true, {| ssd_writing := true; ssd_finishing := false;
                   ssd_wanted := ssd_wanted s; ssd_written := ssd_written s |});
  ssdWrite pins s :=
    {| ssd_writing := ssd_writing s; ssd_finishing := ssd_finishing s;
       ssd_wanted := ssd_wanted s; ssd_written := ssd_written s ++ [pins] |};
  shouldSaveToSsd s groupId trackingId := ssd_wanted s;
  updateSsdFilter bytes s := s;
  maxBytes s := 2 ^ 30
|}.

#[export] Instance decls : CacheDecls := {|
  kExclusive := -10000;
  kTinyDataSize := 2048;
  kNumShards := 4;
  kShardMask := 3;
  kMaxFreeEntries := 1024;
  kNoThreshold := 2 ^ 31 - 1;
  hashKey k := fst k + snd k;
  score e now := now - lastUse (accessStats_ e);
  percentile samples pct := foldr Z.max 0 samples;
  stringCapacity size := Z.max 15 size;
  timesSizeMultiplier pages doublings := (pages * 12 * 2 ^ Z.of_nat doublings) `div` 10;
  timesPointNine bytes := (bytes * 9) `div` 10;
  hash16 x := x
|}.

Definition allocator0 : SimpleAllocator :=
  {| sa_capacity := 64 * AllocationTraits.kPageSize; sa_allocated := 0; sa_nextAddress := 0 |}.

Definition ssdIdle : SimpleSsd :=
  {| ssd_writing := false; ssd_finishing := false; ssd_wanted := false; ssd_written := [] |}.

(** A cache of the given shards. *)
Definition cacheOf (shards : list CacheShard) (a : SimpleAllocator) (ssd : option SimpleSsd)
    : @AsyncDataCache SimpleAllocator SimpleSsd :=
  {| shards_ := shards; allocator_ := a; ssdCache_ := ssd; verifyHook_ := None;
     cachedPages_ := 0; prefetchPages_ := 0; newBytes_ := 0; nextSsdScoreSize_ := 0;
     ssdSaveableBytes_ := 0; numSkippedSaves_ := 0; numThreadsInAllocate_ := 0;
     shardCounter_ := 0; backoffCounter_ := 0; cacheFailureMessage_ := None;
     now_ := 100; nextPromise_ := 0%nat; trace_ := [] |}.

(** The cache as constructed: [kNumShards] shards, nothing cached. *)
Definition cache0 : @AsyncDataCache SimpleAllocator SimpleSsd :=
  cacheOf (replicate 4 (newShard kNoThreshold)) allocator0 None.

(** An entry that is shared, not pinned, wanted by the SSD tier and not yet
    on SSD. *)
Definition saveableEntry (key : RawFileCacheKey) : AsyncDataCacheEntry :=
  {| key_ := makeKey key; size_ := 100; data_ := [];
     tinyData_ := replicate 100 Byte.x00; numPins_ := 0; promise_ := None;
     accessStats_ := {| lastUse := 0; numUses := 0 |};
     isPrefetch_ := false; isFirstUse_ := true; ssdSaveable_ := true;
     ssdFile_ := None; ssdOffset_ := 0; groupId_ := 0; trackingId_ := 0 |}.

(** A shard whose [n] slots hold such entries, for the keys [(4 * i, 0)]. *)
Definition saveableShard (n : nat) : CacheShard :=
  let keys := (λ i : nat, (4 * Z.of_nat i, 0)) <$> seq 0 n in
  set_entries_ (Some <$> seq 0 n)
    (set_entryMap_ (list_to_map (zip keys (seq 0 n)))
       (set_heap_ (list_to_map (zip (seq 0 n) (saveableEntry <$> keys)))
          (newShard kNoThreshold))).

Definition ssdWriting : SimpleSsd :=
  {| ssd_writing := true; ssd_finishing := false; ssd_wanted := true; ssd_written := [] |}.

(** A cache whose shard 0 has ten saveable entries, while the SSD tier is
    writing. *)
Definition cacheSaveable : @AsyncDataCache SimpleAllocator SimpleSsd :=
  cacheOf (saveableShard 10 :: replicate 3 (newShard kNoThreshold)) allocator0 (Some ssdWriting).

(** An entry that is being filled: exclusive, in the map under its key, with
    a reader waiting on the promise 7. *)
Definition exclusiveEntry : AsyncDataCacheEntry :=
  {| key_ := makeKey (1, 0); size_ := 100; data_ := [];
     tinyData_ := replicate 100 Byte.x00; numPins_ := kExclusive; promise_ := Some 7%nat;
     accessStats_ := {| lastUse := 0; numUses := 0 |};
     isPrefetch_ := false; isFirstUse_ := true; ssdSaveable_ := false;
     ssdFile_ := None; ssdOffset_ := 0; groupId_ := 0; trackingId_ := 0 |}.

(** A shard whose only slot holds that entry. *)
Definition exclusiveShard : CacheShard :=
  set_entries_ [Some 0%nat]
    (set_entryMap_ {[ (1, 0) := 0%nat ]}
       (set_heap_ {[ 0%nat := exclusiveEntry ]} (newShard kNoThreshold))).

(** Caches with that shard as shard 1 (the shard of the key (1, 0)), without
    SSD tier and with an SSD tier that is writing. *)
Definition cacheExclusive : @AsyncDataCache SimpleAllocator SimpleSsd :=
  cacheOf [newShard kNoThreshold; exclusiveShard; newShard kNoThreshold;
           newShard kNoThreshold] allocator0 None.

Definition cacheBusy : @AsyncDataCache SimpleAllocator SimpleSsd :=
  cacheOf [newShard kNoThreshold; exclusiveShard; newShard kNoThreshold;
           newShard kNoThreshold] allocator0 (Some ssdWriting).

(** A closure for [makeSpace] that never gets its pages. *)
Definition neverAllocate (acquired : Allocation) (a : SimpleAllocator)
    : bool * Allocation * SimpleAllocator :=
  (false, acquired, a).


(** A closure for [makeSpace] that gets its pages at once. *)
Definition alwaysAllocate (acquired : Allocation) (a : SimpleAllocator)
    : bool * Allocation * SimpleAllocator :=
  (true, acquired, a).

(** The new cache with a count of allocating threads that has leaked below
    zero. *)
Definition cacheLeaked : @AsyncDataCache SimpleAllocator SimpleSsd :=
  set_numThreadsInAllocate_ (-1) cache0.

(** The new cache on an allocator without capacity. *)
Definition allocatorFull : SimpleAllocator :=
  {| sa_capacity := 0; sa_allocated := 0; sa_nextAddress := 0 |}.

Definition cacheFull : @AsyncDataCache SimpleAllocator SimpleSsd :=
  cacheOf (replicate 4 (newShard kNoThreshold)) allocatorFull None.

(** An entry of 5000 bytes on two runs of one page and a reader's pin, in
    the only slot of shard 2. *)
Definition pagedEntry : AsyncDataCacheEntry :=
  {| key_ := makeKey (2, 0); size_ := 5000;
     data_ := [{| run_data := 0; run_numPages := 1 |};
               {| run_data := 8192; run_numPages := 1 |}];
     tinyData_ := []; numPins_ := 1; promise_ := None;
     accessStats_ := {| lastUse := 0; numUses := 0 |};
     isPrefetch_ := false; isFirstUse_ := true; ssdSaveable_ := false;
     ssdFile_ := None; ssdOffset_ := 0; groupId_ := 0; trackingId_ := 0 |}.

Definition pagedShard : CacheShard :=
  set_entries_ [Some 0%nat]
    (set_entryMap_ {[ (2, 0) := 0%nat ]}
       (set_heap_ {[ 0%nat := pagedEntry ]} (newShard kNoThreshold))).

Definition cachePaged : @AsyncDataCache SimpleAllocator SimpleSsd :=
  cacheOf [newShard kNoThreshold; newShard kNoThreshold; pagedShard;
           newShard kNoThreshold] allocator0 None.


(** The new cache on an allocator that has allocated a page more than its
    capacity holds. *)
Definition allocatorOverdrawn : SimpleAllocator :=
  {| sa_capacity := 0; sa_allocated := 1; sa_nextAddress := 0 |}.

Definition cacheOverdrawn : @AsyncDataCache SimpleAllocator SimpleSsd :=
  cacheOf (replicate 4 (newShard kNoThreshold)) allocatorOverdrawn None.


(** A planned load with a waiter, and a [loadData] that has filled the
    exclusive entry of [cacheExclusive] and returns its pin. *)
Definition plannedLoad : CoalescedLoad :=
  {| state_ := kPlanned; loadPromise_ := Some 3%nat |}.

Definition loadExclusive (isImmediate : bool)
    : M (CoalescedLoad * @AsyncDataCache SimpleAllocator SimpleSsd) (list CachePin) :=
  mret [pinOf 1 0].

End Demo.

(** * Properties *)

Section Properties.

Context {Allocator Ssd : Type}.
Context `{!MemoryAllocator Allocator} `{!SsdCache Ssd} `{!CacheDecls}.

Implicit Types (c : @AsyncDataCache Allocator Ssd) (s : CacheShard).
Implicit Types (e : AsyncDataCacheEntry) (sh : nat) (p : nat).

(** ** Running the primitives *)

Lemma bind_Ok {St X Y} (m : M St X) (f : X → M St Y) (st st' : St) x :
  m st = Ok x st' → (m ≫= f) st = f x st'.
Proof. intros Hm. unfold mbind, M_bind. by rewrite Hm. Qed.

Lemma bind_Throw {St X Y} (m : M St X) (f : X → M St Y) (st st' : St) ex :
  m st = Throw ex st' → (m ≫= f) st = Throw ex st'.
Proof. intros Hm. unfold mbind, M_bind. by rewrite Hm. Qed.

Lemma getShard_Ok c sh s :
  shards_ c !! sh = Some s → getShard sh c = Ok s c.
Proof. intros Hs. unfold getShard. by rewrite Hs. Qed.

Lemma modifyShard_Ok c sh s f :
  shards_ c !! sh = Some s → modifyShard sh f c = Ok tt (updShard sh (f s) c).
Proof. intros Hs. unfold modifyShard. by rewrite (bind_Ok _ _ _ _ _ (getShard_Ok _ _ _ Hs)). Qed.

Lemma deref_Ok c sh s p e :
  shards_ c !! sh = Some s → heap_ s !! p = Some e → deref sh p c = Ok e c.
Proof.
  intros Hs He. unfold deref.
  rewrite (bind_Ok _ _ _ _ _ (getShard_Ok _ _ _ Hs)). by rewrite He.
Qed.

Lemma modifyEntry_Ok c sh s p e f :
  shards_ c !! sh = Some s → heap_ s !! p = Some e →
  modifyEntry sh p f c
  = Ok tt (updShard sh (set_heap_ (<[p := f e]> (heap_ s)) s) c).
Proof.
  intros Hs He. unfold modifyEntry.
  rewrite (bind_Ok _ _ _ _ _ (deref_Ok _ _ _ _ _ Hs He)).
  exact (modifyShard_Ok c sh s _ Hs).
Qed.

Lemma shards_updShard c sh s s' :
  shards_ c !! sh = Some s → shards_ (updShard sh s' c) !! sh = Some s'.
Proof.
  intros Hs. unfold updShard. cbn.
  apply list_lookup_insert_eq. by eapply lookup_lt_Some.
Qed.

Lemma shards_updShard_ne c sh sh' s' :
  sh ≠ sh' → shards_ (updShard sh s' c) !! sh' = shards_ c !! sh'.
Proof. intros Hne. unfold updShard. cbn. by apply list_lookup_insert_ne. Qed.

Lemma updShard_updShard c sh s1 s2 :
  updShard sh s2 (updShard sh s1 c) = updShard sh s2 c.
Proof. unfold updShard. cbn. by rewrite list_insert_insert_eq. Qed.

(** ** Relations that computations keep *)

Section Keeps.

Context {St : Type} (R : St → St → Prop) `{!PreOrder R}.

Lemma keeps_ret {X} (x : X) : keeps R (mret x).
Proof. intros st. cbn. reflexivity. Qed.

Lemma keeps_throw {X} ex : keeps R (throw ex : M St X).
Proof. intros st. cbn. reflexivity. Qed.

Lemma keeps_gets {X} (f : St → X) : keeps R (gets f).
Proof. intros st. cbn. reflexivity. Qed.

Lemma keeps_bind {X Y} (m : M St X) (f : X → M St Y) :
  keeps R m → (∀ x, keeps R (f x)) → keeps R (m ≫= f).
Proof.
  intros Hm Hf st. specialize (Hm st). unfold mbind, M_bind.
  destruct (m st) as [x st'|ex st']; cbn in *; [|done].
  etrans; [exact Hm | apply Hf].
Qed.

Lemma keeps_finally {X} (m : M St X) cleanup :
  keeps R m → keeps R cleanup → keeps R (finally m cleanup).
Proof.
  intros Hm Hc st. specialize (Hm st). unfold finally.
  destruct (m st) as [x st'|ex st']; cbn in *.
  - specialize (Hc st'). destruct (cleanup st'); cbn in *; by etrans.
  - etrans; [exact Hm | apply Hc].
Qed.

Lemma keeps_tryCatch {X} (m : M St X) handler :
  keeps R m → (∀ ex, keeps R (handler ex)) → keeps R (tryCatch m handler).
Proof.
  intros Hm Hh st. specialize (Hm st). unfold tryCatch.
  destruct (m st) as [x st'|ex st']; cbn in *; [done|].
  destruct (isStdException ex); [|done].
  etrans; [exact Hm | apply Hh].
Qed.

Lemma keeps_VELOX_CHECK b : keeps R (VELOX_CHECK b).
Proof. destruct b; intros st; cbn; reflexivity. Qed.

Lemma keeps_foldM {X Y} (f : Y → X → M St Y) l y :
  (∀ y x, keeps R (f y x)) → keeps R (foldM f l y).
Proof.
  intros Hf. revert y. induction l as [|x l IH]; intros y; cbn.
  - apply keeps_ret.
  - apply keeps_bind; [apply Hf | apply IH].
Qed.

Lemma keeps_modify (f : St → St) : (∀ st, R st (f st)) → keeps R (modify f).
Proof. intros Hf st. cbn. apply Hf. Qed.

End Keeps.

(** ** Running a computation step by step *)

#[local] Arguments set_shards_ {_ _} _ _ /.
#[local] Arguments set_allocator_ {_ _} _ _ /.
#[local] Arguments set_ssdCache_ {_ _} _ _ /.
#[local] Arguments set_cachedPages_ {_ _} _ _ /.
#[local] Arguments set_prefetchPages_ {_ _} _ _ /.
#[local] Arguments set_newBytes_ {_ _} _ _ /.
#[local] Arguments set_nextSsdScoreSize_ {_ _} _ _ /.
#[local] Arguments set_ssdSaveableBytes_ {_ _} _ _ /.
#[local] Arguments set_numSkippedSaves_ {_ _} _ _ /.
#[local] Arguments set_numThreadsInAllocate_ {_ _} _ _ /.
#[local] Arguments set_shardCounter_ {_ _} _ _ /.
#[local] Arguments set_backoffCounter_ {_ _} _ _ /.
#[local] Arguments set_cacheFailureMessage_ {_ _} _ _ /.
#[local] Arguments set_nextPromise_ {_ _} _ _ /.
#[local] Arguments set_trace_ {_ _} _ _ /.
#[local] Arguments set_heap_ _ _ /.
#[local] Arguments set_entryMap_ _ _ /.
#[local] Arguments set_entries_ _ _ /.
#[local] Arguments set_emptySlots_ _ _ /.
#[local] Arguments set_freeEntries_ _ _ /.
#[local] Arguments set_clockHand_ _ _ /.
#[local] Arguments set_evictionThreshold_ _ _ /.
#[local] Arguments set_eventCounter_ _ _ /.
#[local] Arguments set_numHit_ _ _ /.
#[local] Arguments set_hitBytes_ _ _ /.
#[local] Arguments set_numNew_ _ _ /.
#[local] Arguments set_numEvict_ _ _ /.
#[local] Arguments set_numEvictChecks_ _ _ /.
#[local] Arguments set_numWaitExclusive_ _ _ /.
#[local] Arguments set_sumEvictScore_ _ _ /.
#[local] Arguments set_key_ _ _ /.
#[local] Arguments set_size_ _ _ /.
#[local] Arguments set_data_ _ _ /.
#[local] Arguments set_tinyData_ _ _ /.
#[local] Arguments set_numPins_ _ _ /.
#[local] Arguments set_promise_ _ _ /.
#[local] Arguments set_accessStats_ _ _ /.
#[local] Arguments set_isPrefetch_ _ _ /.
#[local] Arguments set_isFirstUse_ _ _ /.
#[local] Arguments set_ssdSaveable_ _ _ /.
#[local] Arguments set_ssdFile_ _ _ /.
#[local] Arguments set_ssdOffset_ _ _ /.
#[local] Arguments updShard {_ _} _ _ _ /.
#[local] Arguments setSsdFile _ _ _ /.
#[local] Arguments touch _ _ /.

Lemma run_ret {St X Y} (x : X) (f : X → M St Y) (st : St) : (mret x ≫= f) st = f x st.
Proof. done. Qed.

Lemma run_assoc {St X Y Z} (m : M St X) (f : X → M St Y) (g : Y → M St Z) (st : St) :
  ((m ≫= f) ≫= g) st = (m ≫= λ x, f x ≫= g) st.
Proof. unfold mbind, M_bind. by destruct (m st). Qed.

Lemma run_getShard {X} c sh s (f : CacheShard → M _ X) :
  shards_ c !! sh = Some s → (getShard sh ≫= f) c = f s c.
Proof. intros Hs. by apply bind_Ok, getShard_Ok. Qed.

Lemma run_modifyShard {X} c sh s g (f : unit → M _ X) :
  shards_ c !! sh = Some s → (modifyShard sh g ≫= f) c = f tt (updShard sh (g s) c).
Proof. intros Hs. by apply bind_Ok, modifyShard_Ok. Qed.

Lemma run_deref {X} c sh s p e (f : AsyncDataCacheEntry → M _ X) :
  shards_ c !! sh = Some s → heap_ s !! p = Some e → (deref sh p ≫= f) c = f e c.
Proof. intros Hs He. by eapply bind_Ok, deref_Ok. Qed.

Lemma run_modifyEntry {X} c sh s p e g (f : unit → M _ X) :
  shards_ c !! sh = Some s → heap_ s !! p = Some e →
  (modifyEntry sh p g ≫= f) c
  = f tt (updShard sh (set_heap_ (<[p := g e]> (heap_ s)) s) c).
Proof. intros Hs He. by eapply bind_Ok, modifyEntry_Ok. Qed.

Lemma run_log {X} c ev (f : unit → M _ X) :
  (log ev ≫= f) c = f tt (set_trace_ (trace_ c ++ [ev]) c).
Proof. done. Qed.

Lemma run_modify {St X} (g : St → St) (f : unit → M St X) (st : St) :
  (modify g ≫= f) st = f tt (g st).
Proof. done. Qed.

Lemma run_gets {St X Y} (g : St → Y) (f : Y → M St X) (st : St) :
  (gets g ≫= f) st = f (g st) st.
Proof. done. Qed.

Lemma run_check {St X} (b : bool) (f : unit → M St X) (st : St) :
  b = true → (VELOX_CHECK b ≫= f) st = f tt st.
Proof. by intros ->. Qed.

Lemma run_finally {St X Y} (m : M St X) cleanup (f : X → M St Y) (st st' : St) x :
  m st = Ok x st' → (finally m cleanup ≫= f) st = (cleanup ≫= λ _, f x) st'.
Proof.
  intros Hm. unfold mbind, M_bind, finally. rewrite Hm. by destruct (cleanup st').
Qed.

Lemma finally_Ok {St X} (m : M St X) cleanup (st st' : St) x :
  m st = Ok x st' → finally m cleanup st = (cleanup ≫= λ _, mret x) st'.
Proof.
  intros Hm. unfold mbind, M_bind, finally. rewrite Hm. by destruct (cleanup st').
Qed.

(** A state is kept flat: the record updates are carried out and repeated
    updates of the same slot of a map collapse. *)
Ltac norm :=
  cbn [updShard
       shards_ allocator_ ssdCache_ verifyHook_ cachedPages_ prefetchPages_ newBytes_
       nextSsdScoreSize_ ssdSaveableBytes_ numSkippedSaves_ numThreadsInAllocate_
       shardCounter_ backoffCounter_ cacheFailureMessage_ now_ nextPromise_ trace_
       set_shards_ set_allocator_ set_ssdCache_ set_cachedPages_ set_prefetchPages_
       set_newBytes_ set_nextSsdScoreSize_ set_ssdSaveableBytes_ set_numSkippedSaves_
       set_numThreadsInAllocate_ set_shardCounter_ set_backoffCounter_
       set_cacheFailureMessage_ set_nextPromise_ set_trace_
       heap_ entryMap_ entries_ emptySlots_ freeEntries_ clockHand_ evictionThreshold_
       eventCounter_ numHit_ hitBytes_ numNew_ numEvict_ numEvictChecks_
       numWaitExclusive_ sumEvictScore_ allocClocks_
       set_heap_ set_entryMap_ set_entries_ set_emptySlots_ set_freeEntries_
       set_clockHand_ set_evictionThreshold_ set_eventCounter_ set_numHit_ set_hitBytes_
       set_numNew_ set_numEvict_ set_numEvictChecks_ set_numWaitExclusive_
       set_sumEvictScore_
       key_ size_ data_ tinyData_ numPins_ promise_ accessStats_ isPrefetch_ isFirstUse_
       ssdSaveable_ ssdFile_ ssdOffset_ groupId_ trackingId_
       set_key_ set_size_ set_data_ set_tinyData_ set_numPins_ set_promise_
       set_accessStats_ set_isPrefetch_ set_isFirstUse_ set_ssdSaveable_ set_ssdFile_
       set_ssdOffset_ setSsdFile touch fst snd];
  rewrite ?list_insert_insert_eq, ?insert_insert_eq.

(** The shard and the entry in a state built by the steps above *)
Ltac shard_lookup :=
  norm;
  lazymatch goal with
  | H : shards_ ?c !! ?sh = Some _ |- shards_ ?c !! ?sh = Some _ => exact H
  | H : shards_ ?c !! ?sh = Some _ |- <[?sh := _]> (shards_ ?c) !! ?sh = Some _ =>
      apply list_lookup_insert_eq; exact (lookup_lt_Some _ _ _ H)
  end.

Ltac heap_lookup :=
  norm;
  first [ eassumption
        | apply lookup_insert_eq
        | rewrite lookup_insert_ne by done; eassumption ].

Ltac run1 :=
  first
    [ rewrite run_ret
    | rewrite run_assoc
    | rewrite run_log
    | rewrite run_gets
    | rewrite run_modify
    | erewrite run_getShard by shard_lookup
    | erewrite run_modifyShard by shard_lookup
    | erewrite run_deref; [| shard_lookup | heap_lookup ]
    | erewrite run_modifyEntry; [| shard_lookup | heap_lookup ]
    | progress unfold Promise_setValue, AsyncDataCache_incrementCachedPages,
        AsyncDataCache_incrementPrefetchPages, allocator_freeNonContiguous, accessTime ];
  cbv beta; norm.

Ltac run := repeat run1.

(** The last step, which is not followed by another *)
Ltac run_last :=
  first
    [ erewrite modifyEntry_Ok; [| shard_lookup | heap_lookup ]
    | erewrite modifyShard_Ok by shard_lookup
    | erewrite deref_Ok; [| shard_lookup | heap_lookup ]
    | erewrite getShard_Ok by shard_lookup
    | idtac ];
  unfold mret, M_ret, log, modify, gets, throw; cbv beta; norm.

(** ** What the quiet and the gentle computations are *)

#[local] Instance quietly_preorder : PreOrder (@quietly Allocator Ssd).
Proof.
  split.
  - intros c. exists []. by rewrite app_nil_r.
  - intros c1 c2 c3 (evs1 & H1 & HP1) (evs2 & H2 & HP2).
    exists (evs1 ++ evs2). split; [|by apply Forall_app].
    by rewrite H2, H1, app_assoc.
Qed.

#[local] Instance entryKept_preorder : PreOrder entryKept.
Proof.
  split.
  - by intros e.
  - intros e1 e2 e3 (?&?&?&?&?) (?&?&?&?&?).
    repeat split; try congruence. auto.
Qed.

#[local] Instance shardKept_preorder : PreOrder shardKept.
Proof.
  split.
  - intros s. repeat split; try done.
  - intros s1 s2 s3 (?&?&?&?&K1) (?&?&?&?&K2).
    repeat split; try congruence. intros p.
    specialize (K1 p). specialize (K2 p).
    destruct K1; inversion K2; subst; constructor. by etrans.
Qed.

#[local] Instance gently_preorder : PreOrder (@gently Allocator Ssd).
Proof.
  split.
  - intros c. split; reflexivity.
  - intros c1 c2 c3 [Q1 F1] [Q2 F2]. split; by etrans.
Qed.

#[local] Instance onCache_preorder {L} R `{!PreOrder R} :
  PreOrder (@onCache L Allocator Ssd R).
Proof.
  split.
  - intros [l c]. unfold onCache. reflexivity.
  - intros [l1 c1] [l2 c2] [l3 c3]. unfold onCache. cbn. apply transitivity.
Qed.

Lemma keeps_liftCache {L X} R (m : M (@AsyncDataCache Allocator Ssd) X) :
  keeps R m → keeps (@onCache L _ _ R) (liftCache m).
Proof.
  intros Hm [l c]. specialize (Hm c). unfold liftCache, onCache.
  by destruct (m c).
Qed.

Lemma gently_quietly c c' : gently c c' → quietly c c'.
Proof. by intros [? _]. Qed.

Lemma keeps_gently_quietly {X} (m : M (@AsyncDataCache Allocator Ssd) X) :
  keeps gently m → keeps quietly m.
Proof. intros Hm c. apply gently_quietly, Hm. Qed.

(** Steps that leave shards alone *)
Lemma gently_fields c c' evs :
  shards_ c' = shards_ c → trace_ c' = trace_ c ++ evs → Forall quietEvent evs →
  gently c c'.
Proof.
  intros Hs Ht Hq. split; [by exists evs|]. rewrite Hs. reflexivity.
Qed.

Lemma gently_updShard c sh s s' :
  shards_ c !! sh = Some s → shardKept s s' → gently c (updShard sh s' c).
Proof.
  intros Hs Hk. split; [exists []; cbn; by rewrite app_nil_r|].
  unfold updShard. cbn.
  apply Forall2_same_length_lookup_2; [by rewrite length_insert|].
  intros i s1 s2 H1 H2.
  destruct (decide (i = sh)) as [->|Hne].
  - rewrite list_lookup_insert_eq in H2 by by eapply lookup_lt_Some. by simplify_eq.
  - rewrite list_lookup_insert_ne in H2 by done. by simplify_eq.
Qed.

Lemma keeps_log ev : quietEvent ev → keeps (@gently Allocator Ssd) (log ev).
Proof. intros Hq c. cbn. eapply gently_fields; cbn; eauto. Qed.

Lemma keeps_getShard sh : keeps (@gently Allocator Ssd) (getShard sh).
Proof. intros c. unfold getShard. destruct (shards_ c !! sh); cbn; reflexivity. Qed.

Lemma keeps_deref sh p : keeps (@gently Allocator Ssd) (deref sh p).
Proof.
  intros c. unfold deref, getShard, mbind, M_bind.
  destruct (shards_ c !! sh) as [s|]; cbn; [|reflexivity].
  destruct (heap_ s !! p); cbn; reflexivity.
Qed.

Lemma keeps_modifyShard sh f :
  (∀ s, shardKept s (f s)) → keeps (@gently Allocator Ssd) (modifyShard sh f).
Proof.
  intros Hf c. unfold modifyShard, getShard, mbind, M_bind.
  destruct (shards_ c !! sh) as [s|] eqn:Hs; cbn; [|reflexivity].
  by apply (gently_updShard c sh s).
Qed.

Lemma shardKept_heap s p e e' :
  heap_ s !! p = Some e → entryKept e e' →
  shardKept s (set_heap_ (<[p := e']> (heap_ s)) s).
Proof.
  intros He Hk. repeat split; try done. intros q. cbn.
  destruct (decide (q = p)) as [->|Hne].
  - rewrite lookup_insert_eq, He. by constructor.
  - rewrite lookup_insert_ne by done. by destruct (heap_ s !! q); constructor.
Qed.

Lemma keeps_modifyEntry sh p f :
  (∀ e, entryKept e (f e)) → keeps (@gently Allocator Ssd) (modifyEntry sh p f).
Proof.
  intros Hf c. unfold modifyEntry, deref, modifyShard, getShard, mbind, M_bind.
  destruct (shards_ c !! sh) as [s|] eqn:Hs; cbn; [|reflexivity].
  destruct (heap_ s !! p) as [e|] eqn:He; cbn; [|reflexivity].
  rewrite Hs. cbn. apply (gently_updShard c sh s); [done|].
  by apply shardKept_heap with e.
Qed.



Lemma keeps_modify_fields (f : @AsyncDataCache Allocator Ssd → _) :
  (∀ c, shards_ (f c) = shards_ c) → (∀ c, trace_ (f c) = trace_ c) →
  keeps gently (modify f).
Proof.
  intros Hs Ht c. cbn. apply (gently_fields _ _ []); [done| |done].
  by rewrite Ht, app_nil_r.
Qed.

Lemma keeps_onCache_modify {L} R `{!PreOrder R}
    (f : L * @AsyncDataCache Allocator Ssd → L * @AsyncDataCache Allocator Ssd) :
  (∀ lc, snd (f lc) = snd lc) → keeps (onCache R) (modify f).
Proof. intros Hf lc. unfold onCache. cbn. rewrite Hf. reflexivity. Qed.

Lemma keeps_allocate pages out :
  keeps (@gently Allocator Ssd) (allocator_allocateNonContiguous pages out).
Proof.
  intros c. unfold allocator_allocateNonContiguous.
  destruct (allocateNonContiguous pages out (allocator_ c)) as [[ok out'] a']. cbn.
  eapply gently_fields; cbn; eauto. by repeat constructor.
Qed.

Lemma keeps_makePromise : keeps (@gently Allocator Ssd) makePromise.
Proof. intros c. cbn. apply (gently_fields _ _ []); cbn; [done| by rewrite app_nil_r|done]. Qed.

Lemma keeps_ssdCache : keeps (@gently Allocator Ssd) ssdCache.
Proof. intros c. unfold ssdCache. destruct (ssdCache_ c); cbn; reflexivity. Qed.

Create HintDb keeps discriminated.
#[local] Hint Resolve keeps_allocate keeps_makePromise keeps_ssdCache : keeps.

Ltac keeps_side :=
  intros;
  first [ done
        | progress (repeat split; cbn; try done; try lia; try (intros ?; reflexivity)) ].

Ltac keeps_tc := try lazymatch goal with |- PreOrder _ => apply _ end.

Ltac keeps_go :=
  repeat (keeps_tc; lazymatch goal with
  | |- keeps _ (mret _) => apply keeps_ret
  | |- keeps _ (throw _) => apply keeps_throw
  | |- keeps _ (gets _) => apply keeps_gets
  | |- keeps _ (VELOX_CHECK _) => apply keeps_VELOX_CHECK
  | |- keeps _ (liftCache _) => apply keeps_liftCache
  | |- keeps _ (finally _ _) => apply keeps_finally
  | |- keeps _ (tryCatch _ _) => apply keeps_tryCatch
  | |- keeps _ (foldM _ _ _) => apply keeps_foldM; keeps_tc; intros
  | |- keeps _ (log _) => apply keeps_log; exact I
  | |- keeps _ (getShard _) => apply keeps_getShard
  | |- keeps _ (deref _ _) => apply keeps_deref
  | |- keeps _ (modifyShard _ _) => apply keeps_modifyShard; keeps_side
  | |- keeps _ (modifyEntry _ _ _) => apply keeps_modifyEntry; keeps_side
  | |- keeps (onCache _) (modify _) =>
      apply keeps_onCache_modify; keeps_tc; intros [??]; reflexivity
  | |- keeps _ (modify _) => apply keeps_modify_fields; keeps_side
  | |- keeps _ (_ ≫= _) => apply keeps_bind; keeps_tc; [| intros ?]
  | |- keeps _ (if ?b then _ else _) => destruct b
  | |- keeps _ (match ?x with _ => _ end) => destruct x
  | |- keeps _ _ => solve [eauto with keeps]
  end).

Lemma keeps_accessTime : keeps (@gently Allocator Ssd) accessTime.
Proof. unfold accessTime. keeps_go. Qed.

Lemma keeps_setValue pr v : keeps (@gently Allocator Ssd) (Promise_setValue pr v).
Proof. unfold Promise_setValue. keeps_go. Qed.

#[local] Hint Resolve keeps_accessTime keeps_setValue : keeps.

Lemma keeps_free a : keeps (@gently Allocator Ssd) (allocator_freeNonContiguous a).
Proof. unfold allocator_freeNonContiguous. keeps_go. Qed.

Lemma keeps_startWrite : keeps (@gently Allocator Ssd) ssdCache_startWrite.
Proof. unfold ssdCache_startWrite. keeps_go. Qed.

Lemma keeps_ssdWrite pins : keeps (@gently Allocator Ssd) (ssdCache_write pins).
Proof. unfold ssdCache_write. keeps_go. Qed.

Lemma keeps_incrementCachedPages n :
  keeps (@gently Allocator Ssd) (AsyncDataCache_incrementCachedPages n).
Proof. unfold AsyncDataCache_incrementCachedPages. keeps_go. Qed.

Lemma keeps_incrementPrefetchPages n :
  keeps (@gently Allocator Ssd) (AsyncDataCache_incrementPrefetchPages n).
Proof. unfold AsyncDataCache_incrementPrefetchPages. keeps_go. Qed.

Lemma keeps_movePromise sh p :
  keeps (@gently Allocator Ssd) (AsyncDataCacheEntry_movePromise sh p).
Proof. unfold AsyncDataCacheEntry_movePromise. keeps_go. Qed.

Lemma keeps_getFuture sh p :
  keeps (@gently Allocator Ssd) (AsyncDataCacheEntry_getFuture sh p).
Proof. unfold AsyncDataCacheEntry_getFuture. keeps_go. Qed.

#[local] Hint Resolve keeps_free keeps_startWrite keeps_ssdWrite keeps_incrementCachedPages
  keeps_incrementPrefetchPages keeps_movePromise keeps_getFuture : keeps.

Lemma keeps_setPrefetch sh p flag :
  keeps (@gently Allocator Ssd) (AsyncDataCacheEntry_setPrefetch sh p flag).
Proof. unfold AsyncDataCacheEntry_setPrefetch. keeps_go. Qed.

Lemma keeps_appendSsdSaveable_loop sh limit slots pins :
  keeps (@gently Allocator Ssd) (appendSsdSaveable_loop sh limit slots pins).
Proof.
  revert pins. induction slots as [|[p|] slots IH]; intros pins; cbn; keeps_go.
Qed.

#[local] Hint Resolve keeps_setPrefetch keeps_appendSsdSaveable_loop : keeps.

Lemma keeps_appendSsdSaveable sh pins :
  keeps (@gently Allocator Ssd) (CacheShard_appendSsdSaveable sh pins).
Proof. unfold CacheShard_appendSsdSaveable, withLock. keeps_go. Qed.

#[local] Hint Resolve keeps_appendSsdSaveable : keeps.

Lemma keeps_saveToSsd : keeps (@gently Allocator Ssd) AsyncDataCache_saveToSsd.
Proof. unfold AsyncDataCache_saveToSsd. keeps_go. Qed.

#[local] Hint Resolve keeps_saveToSsd : keeps.

Lemma keeps_possibleSsdSave bytes :
  keeps (@gently Allocator Ssd) (AsyncDataCache_possibleSsdSave bytes).
Proof. unfold AsyncDataCache_possibleSsdSave. keeps_go. Qed.

#[local] Hint Resolve keeps_possibleSsdSave : keeps.

Lemma keeps_setExclusiveToShared sh p :
  keeps (@gently Allocator Ssd) (AsyncDataCacheEntry_setExclusiveToShared sh p).
Proof. unfold AsyncDataCacheEntry_setExclusiveToShared, withLock, Promise_setValue. keeps_go. Qed.

Lemma keeps_exists sh key : keeps (@gently Allocator Ssd) (CacheShard_exists sh key).
Proof. unfold CacheShard_exists, withLock, accessTime. keeps_go. Qed.

Lemma keeps_updateStats sh stats :
  keeps (@gently Allocator Ssd) (CacheShard_updateStats sh stats).
Proof. unfold CacheShard_updateStats, withLock. keeps_go. Qed.

#[local] Hint Resolve keeps_updateStats : keeps.

Lemma keeps_refreshStats : keeps (@gently Allocator Ssd) AsyncDataCache_refreshStats.
Proof. unfold AsyncDataCache_refreshStats. keeps_go. Qed.

Lemma keeps_calibrateThreshold_samples sh now step n i :
  keeps (@gently Allocator Ssd) (calibrateThreshold_samples sh now step n i).
Proof. revert i. induction n as [|n IH]; intros i; cbn; keeps_go. Qed.

#[local] Hint Resolve keeps_calibrateThreshold_samples : keeps.

Lemma keeps_calibrateThreshold sh :
  keeps (@gently Allocator Ssd) (CacheShard_calibrateThreshold sh).
Proof. unfold CacheShard_calibrateThreshold, accessTime. keeps_go. Qed.

Lemma keeps_freeAllocations l :
  keeps (@gently Allocator Ssd) (CacheShard_freeAllocations l).
Proof. unfold CacheShard_freeAllocations. keeps_go. Qed.

#[local] Hint Resolve keeps_freeAllocations : keeps.

Lemma keeps_evict_unlocked l :
  keeps (@gently Allocator Ssd) (evict_unlocked l).
Proof. unfold evict_unlocked. keeps_go. Qed.

Lemma keeps_backoff n : keeps (@gently Allocator Ssd) (AsyncDataCache_backoff n).
Proof. unfold AsyncDataCache_backoff. keeps_go. Qed.

Lemma keeps_incrementNew n : keeps (@gently Allocator Ssd) (AsyncDataCache_incrementNew n).
Proof. unfold AsyncDataCache_incrementNew. keeps_go. Qed.


(** ** What the calm computations are *)

#[local] Instance calmly_preorder sh : PreOrder (@calmly Allocator Ssd sh).
Proof.
  split.
  - intros c. by repeat split.
  - intros c1 c2 c3 (Q1 & A1 & B1 & L1 & O1) (Q2 & A2 & B2 & L2 & O2).
    repeat split; try congruence; [by etrans|].
    intros sh' Hne. by rewrite O2, O1.
Qed.

Lemma calmly_fields sh c c' evs :
  shards_ c' = shards_ c → ssdCache_ c' = ssdCache_ c →
  numSkippedSaves_ c' = numSkippedSaves_ c →
  trace_ c' = trace_ c ++ evs → Forall quietEvent evs →
  calmly sh c c'.
Proof.
  intros Hs Ha Hb Ht Hq. split; [by exists evs|]. by rewrite Hs.
Qed.

Lemma calmly_updShard sh c s : calmly sh c (updShard sh s c).
Proof.
  split; [exists []; cbn; by rewrite app_nil_r|]. cbn.
  repeat split; [by rewrite length_insert|].
  intros sh' Hne. by apply list_lookup_insert_ne.
Qed.

Lemma calmly_log sh ev : quietEvent ev → keeps (@calmly Allocator Ssd sh) (log ev).
Proof. intros Hq c. cbn. eapply calmly_fields; cbn; eauto. Qed.

Lemma calmly_pure {X} sh (m : M (@AsyncDataCache Allocator Ssd) X) :
  (∀ c, stateOf (m c) = c) → keeps (calmly sh) m.
Proof. intros Hm c. rewrite Hm. reflexivity. Qed.

Lemma calmly_getShard sh sh' : keeps (@calmly Allocator Ssd sh) (getShard sh').
Proof. apply calmly_pure. intros c. unfold getShard. by destruct (shards_ c !! sh'). Qed.

Lemma calmly_deref sh sh' p : keeps (@calmly Allocator Ssd sh) (deref sh' p).
Proof.
  apply calmly_pure. intros c. unfold deref, getShard, mbind, M_bind.
  destruct (shards_ c !! sh') as [s|]; cbn; [|done]. by destruct (heap_ s !! p).
Qed.

Lemma calmly_modifyShard sh f : keeps (@calmly Allocator Ssd sh) (modifyShard sh f).
Proof.
  intros c. unfold modifyShard, getShard, mbind, M_bind.
  destruct (shards_ c !! sh) as [s|]; cbn -[updShard]; [|reflexivity].
  apply calmly_updShard.
Qed.

Lemma calmly_modifyEntry sh p f : keeps (@calmly Allocator Ssd sh) (modifyEntry sh p f).
Proof.
  intros c. unfold modifyEntry, deref, modifyShard, getShard, mbind, M_bind.
  destruct (shards_ c !! sh) as [s|] eqn:Hs; cbn -[updShard]; [|reflexivity].
  destruct (heap_ s !! p) as [e|]; cbn -[updShard]; [|reflexivity].
  rewrite Hs. cbn -[updShard]. apply calmly_updShard.
Qed.

Lemma calmly_modify sh (f : @AsyncDataCache Allocator Ssd → _) :
  (∀ c, shards_ (f c) = shards_ c) → (∀ c, ssdCache_ (f c) = ssdCache_ c) →
  (∀ c, numSkippedSaves_ (f c) = numSkippedSaves_ c) →
  (∀ c, trace_ (f c) = trace_ c) →
  keeps (calmly sh) (modify f).
Proof.
  intros Hs Ha Hb Ht c. cbn. apply (calmly_fields _ _ _ []); [done..| |done].
  by rewrite Ht, app_nil_r.
Qed.

Lemma calmly_allocate sh pages out :
  keeps (@calmly Allocator Ssd sh) (allocator_allocateNonContiguous pages out).
Proof.
  intros c. unfold allocator_allocateNonContiguous.
  destruct (allocateNonContiguous pages out (allocator_ c)) as [[ok out'] a']. cbn.
  eapply calmly_fields; cbn; eauto. by repeat constructor.
Qed.

Lemma calmly_makePromise sh : keeps (@calmly Allocator Ssd sh) makePromise.
Proof.
  intros c. cbn. apply (calmly_fields _ _ _ []); cbn; [done..| by rewrite app_nil_r|done].
Qed.

#[local] Hint Resolve calmly_allocate calmly_makePromise : keeps.

Ltac keeps_go ::=
  repeat (keeps_tc; lazymatch goal with
  | |- keeps _ (mret _) => apply keeps_ret
  | |- keeps _ (throw _) => apply keeps_throw
  | |- keeps _ (gets _) => apply keeps_gets
  | |- keeps _ (VELOX_CHECK _) => apply keeps_VELOX_CHECK
  | |- keeps _ (liftCache _) => apply keeps_liftCache
  | |- keeps _ (finally _ _) => apply keeps_finally
  | |- keeps _ (tryCatch _ _) => apply keeps_tryCatch
  | |- keeps _ (foldM _ _ _) => apply keeps_foldM; keeps_tc; intros
  | |- keeps gently (log _) => apply keeps_log; exact I
  | |- keeps gently (getShard _) => apply keeps_getShard
  | |- keeps gently (deref _ _) => apply keeps_deref
  | |- keeps gently (modifyShard _ _) => apply keeps_modifyShard; keeps_side
  | |- keeps gently (modifyEntry _ _ _) => apply keeps_modifyEntry; keeps_side
  | |- keeps gently (modify _) => apply keeps_modify_fields; keeps_side
  | |- keeps (calmly _) (log _) => apply calmly_log; exact I
  | |- keeps (calmly _) (getShard _) => apply calmly_getShard
  | |- keeps (calmly _) (deref _ _) => apply calmly_deref
  | |- keeps (calmly _) (modifyShard _ _) => apply calmly_modifyShard
  | |- keeps (calmly _) (modifyEntry _ _ _) => apply calmly_modifyEntry
  | |- keeps (calmly _) (modify _) => apply calmly_modify; intros; reflexivity
  | |- keeps (onCache _) (modify _) =>
      apply keeps_onCache_modify; keeps_tc; intros [??]; reflexivity
  | |- keeps _ (_ ≫= _) => apply keeps_bind; keeps_tc; [| intros ?]
  | |- keeps _ (if ?b then _ else _) => destruct b
  | |- keeps _ (match ?x with _ => _ end) => destruct x
  | |- keeps _ _ => solve [eauto with keeps]
  end).

Lemma calmly_free sh a :
  keeps (@calmly Allocator Ssd sh) (allocator_freeNonContiguous a).
Proof. unfold allocator_freeNonContiguous. keeps_go. Qed.

Lemma calmly_incrementCachedPages sh n :
  keeps (@calmly Allocator Ssd sh) (AsyncDataCache_incrementCachedPages n).
Proof. unfold AsyncDataCache_incrementCachedPages. keeps_go. Qed.

Lemma calmly_incrementPrefetchPages sh n :
  keeps (@calmly Allocator Ssd sh) (AsyncDataCache_incrementPrefetchPages n).
Proof. unfold AsyncDataCache_incrementPrefetchPages. keeps_go. Qed.

Lemma calmly_accessTime sh : keeps (@calmly Allocator Ssd sh) accessTime.
Proof. unfold accessTime. keeps_go. Qed.

Lemma calmly_setValue sh pr v : keeps (@calmly Allocator Ssd sh) (Promise_setValue pr v).
Proof. unfold Promise_setValue. keeps_go. Qed.

#[local] Hint Resolve calmly_free calmly_incrementCachedPages calmly_incrementPrefetchPages
  calmly_accessTime calmly_setValue : keeps.

Lemma calmly_movePromise sh p :
  keeps (@calmly Allocator Ssd sh) (AsyncDataCacheEntry_movePromise sh p).
Proof. unfold AsyncDataCacheEntry_movePromise. keeps_go. Qed.

Lemma calmly_getFuture sh p :
  keeps (@calmly Allocator Ssd sh) (AsyncDataCacheEntry_getFuture sh p).
Proof. unfold AsyncDataCacheEntry_getFuture. keeps_go. Qed.

Lemma calmly_setPrefetch sh p flag :
  keeps (@calmly Allocator Ssd sh) (AsyncDataCacheEntry_setPrefetch sh p flag).
Proof. unfold AsyncDataCacheEntry_setPrefetch. keeps_go. Qed.

#[local] Hint Resolve calmly_movePromise calmly_getFuture calmly_setPrefetch : keeps.

Lemma calmly_removeEntryLocked sh p :
  keeps (@calmly Allocator Ssd sh) (CacheShard_removeEntryLocked sh p).
Proof. unfold CacheShard_removeEntryLocked. keeps_go. Qed.

#[local] Hint Resolve calmly_removeEntryLocked : keeps.

Lemma calmly_removeEntry sh p :
  keeps (@calmly Allocator Ssd sh) (CacheShard_removeEntry sh p).
Proof. unfold CacheShard_removeEntry, withLock. keeps_go. Qed.

#[local] Hint Resolve calmly_removeEntry : keeps.

Lemma calmly_release sh p :
  keeps (@calmly Allocator Ssd sh) (AsyncDataCacheEntry_release sh p).
Proof. unfold AsyncDataCacheEntry_release. keeps_go. Qed.

#[local] Hint Resolve calmly_release : keeps.

Lemma calmly_initialize sh p key :
  keeps (@calmly Allocator Ssd sh) (AsyncDataCacheEntry_initialize sh p key).
Proof. unfold AsyncDataCacheEntry_initialize. keeps_go. Qed.

Lemma calmly_destroyEntry sh p :
  keeps (@calmly Allocator Ssd sh) (destroyEntry sh p).
Proof. unfold destroyEntry. keeps_go. Qed.

#[local] Hint Resolve calmly_initialize calmly_destroyEntry : keeps.

Lemma calmly_getFreeEntry sh :
  keeps (@calmly Allocator Ssd sh) (CacheShard_getFreeEntry sh).
Proof. unfold CacheShard_getFreeEntry. keeps_go. Qed.

Lemma calmly_tryAddFreeEntry sh slot :
  keeps (@calmly Allocator Ssd sh) (CacheShard_tryAddFreeEntry sh slot).
Proof. unfold CacheShard_tryAddFreeEntry. keeps_go. Qed.

Lemma calmly_calibrateThreshold_samples sh now step n i :
  keeps (@calmly Allocator Ssd sh) (calibrateThreshold_samples sh now step n i).
Proof. revert i. induction n as [|n IH]; intros i; cbn; keeps_go. Qed.

#[local] Hint Resolve calmly_getFreeEntry calmly_tryAddFreeEntry
  calmly_calibrateThreshold_samples : keeps.

Lemma calmly_calibrateThreshold sh :
  keeps (@calmly Allocator Ssd sh) (CacheShard_calibrateThreshold sh).
Proof. unfold CacheShard_calibrateThreshold. keeps_go. Qed.

#[local] Hint Resolve calmly_calibrateThreshold : keeps.

Lemma calmly_findOrCreate_newEntry sh key size :
  keeps (@calmly Allocator Ssd sh) (findOrCreate_newEntry sh key size).
Proof. unfold findOrCreate_newEntry. keeps_go. Qed.

#[local] Hint Resolve calmly_findOrCreate_newEntry : keeps.

Lemma calmly_findOrCreate_locked sh key size wait :
  keeps (@calmly Allocator Ssd sh) (findOrCreate_locked sh key size wait).
Proof. unfold findOrCreate_locked. keeps_go. Qed.

Lemma calmly_evict_candidate sh bytesToFree candidate sc l :
  keeps (onCache (@calmly Allocator Ssd sh)) (evict_candidate sh bytesToFree candidate sc l).
Proof. unfold evict_candidate. keeps_go. Qed.

#[local] Hint Resolve calmly_evict_candidate : keeps.

Lemma calmly_evict_step sh bytesToFree evictAll skip l :
  keeps (onCache (@calmly Allocator Ssd sh)) (evict_step sh bytesToFree evictAll skip l).
Proof. unfold evict_step. keeps_go. Qed.

#[local] Hint Resolve calmly_evict_step : keeps.

Lemma calmly_evict_loop sh bytesToFree evictAll skip rounds l :
  keeps (onCache (@calmly Allocator Ssd sh)) (evict_loop sh bytesToFree evictAll skip rounds l).
Proof. revert l. induction rounds as [|n IH]; intros l; cbn; keeps_go. Qed.

#[local] Hint Resolve calmly_evict_loop : keeps.

Lemma calmly_evict_locked sh bytesToFree evictAll skip pages now :
  keeps (onCache (@calmly Allocator Ssd sh)) (evict_locked sh bytesToFree evictAll skip pages now).
Proof. unfold evict_locked. keeps_go. Qed.

(** ** C8: when an allocation may be tried *)

Lemma int32_int32 z : int32 (int32 z) = int32 z.
Proof. unfold int32. by rewrite Z.sub_add, Z.mod_mod. Qed.

(** The narrowing of the page count at a call is that of the parameter. *)
Lemma canTryAllocate_int32 c numPages (acquired : Allocation) :
  AsyncDataCache_canTryAllocate c (int32 numPages) acquired
  = AsyncDataCache_canTryAllocate c numPages acquired.
Proof. unfold AsyncDataCache_canTryAllocate. by rewrite int32_int32. Qed.

(** C8.  For a page count that is not negative, with the pages of
    [acquired] in the range of the unsigned count and an allocator that has
    allocated no more than the pages of its capacity,
    [canTryAllocate(numPages, acquired)] is true exactly when [numPages] is at
    most the pages of [acquired], or the shortfall is at most the capacity of
    the allocator in pages minus the pages it has allocated.  The bounds
    are those within which the unsigned comparisons of the code are the
    comparisons of the numbers. *)
Theorem canTryAllocate_iff c (numPages : Z) (acquired : Allocation) :
  0 ≤ numPages < 2 ^ 31 →
  0 ≤ Allocation.numPages acquired < 2 ^ 64 →
  0 ≤ numAllocated (allocator_ c) ≤ AllocationTraits.numPages (capacity (allocator_ c)) →
  AllocationTraits.numPages (capacity (allocator_ c)) < 2 ^ 64 →
  AsyncDataCache_canTryAllocate c numPages acquired = true
  ↔ numPages ≤ Allocation.numPages acquired
    ∨ numPages - Allocation.numPages acquired
      ≤ AllocationTraits.numPages (capacity (allocator_ c)) - numAllocated (allocator_ c).
Proof.
  intros Hn Hacq Hall Hcap.
  unfold AsyncDataCache_canTryAllocate. cbv zeta.
  replace (int32 numPages) with numPages
    by (unfold int32; rewrite Z.mod_small; lia).
  unfold uint64.
  rewrite (Z.mod_small numPages), (Z.mod_small (Allocation.numPages acquired)),
    (Z.mod_small (AllocationTraits.numPages _)), (Z.mod_small (numAllocated _)) by lia.
  destruct (Z.leb_spec numPages (Allocation.numPages acquired)) as [Hle|Hgt].
  - split; [by left | done].
  - rewrite !Z.mod_small by lia. rewrite Z.leb_le.
    split; [by right | intros [?|?]; [lia | done]].
Qed.


(** ** C10: probing a key *)

(** C10.  For a key that is in the map of its shard, [exists] returns true
    and touches the access statistics of the entry, whatever the pin count
    of the entry is: an entry that is still exclusive is reported like a
    shared one.  The call takes and releases the shard mutex and does nothing
    else: no promise is made, and the pin count is as before. *)
Theorem exists_ignores_exclusive c key s p e :
  shards_ c !! shardOf key = Some s →
  entryMap_ s !! key = Some p →
  heap_ s !! p = Some e →
  ∃ c' s',
    AsyncDataCache_exists key c = Ok true c'
    ∧ shards_ c' !! shardOf key = Some s'
    ∧ heap_ s' !! p = Some (touch (now_ c) e)
    ∧ accessStats_ (touch (now_ c) e)
      = {| lastUse := now_ c; numUses := numUses (accessStats_ e) + 1 |}
    ∧ numPins_ (touch (now_ c) e) = numPins_ e
    ∧ entryMap_ s' = entryMap_ s
    ∧ nextPromise_ c' = nextPromise_ c
    ∧ trace_ c' = trace_ c ++ [EvLock (shardOf key); EvUnlock (shardOf key)].
Proof.
  intros Hs Hk He.
  unfold AsyncDataCache_exists, CacheShard_exists, withLock. run.
  erewrite finally_Ok; [| run; rewrite Hk; run; run_last; reflexivity ].
  run. run_last.
  eexists _, _. split; [reflexivity|]. norm.
  split; [by apply list_lookup_insert_eq; eapply lookup_lt_Some|]. norm.
  rewrite lookup_insert_eq. repeat split. by rewrite <- app_assoc.
Qed.

(** ** C2: dropping a pin *)

Lemma release_shared c sh s p e :
  shards_ c !! sh = Some s → heap_ s !! p = Some e →
  numPins_ e ≠ kExclusive → 1 ≤ numPins_ e →
     AsyncDataCacheEntry_release sh p c
     = Ok tt (updShard sh (set_heap_ (<[p := set_numPins_ (numPins_ e - 1) e]> (heap_ s)) s) c).
Proof.
  intros Hs He Hx Hpos. unfold AsyncDataCacheEntry_release. run.
  rewrite run_check by (apply negb_true_iff, Z.eqb_neq; lia).
  rewrite (proj2 (Z.eqb_neq _ _) Hx). run.
  unfold VELOX_CHECK. by rewrite (proj2 (Z.leb_le _ _) Hpos).
Qed.



Lemma release_underflow c sh s p e :
  shards_ c !! sh = Some s → heap_ s !! p = Some e →
  numPins_ e ≠ kExclusive → numPins_ e < 1 →
  ∃ c', AsyncDataCacheEntry_release sh p c = Throw (VeloxRuntimeError kInvalidState) c'.
Proof.
  intros Hs He Hx Hneg. unfold AsyncDataCacheEntry_release. run.
  destruct (Z.eqb_spec 0 (numPins_ e)) as [H0|H0]; cbn [negb].
  - eexists. reflexivity.
  - rewrite run_check by done. rewrite (proj2 (Z.eqb_neq _ _) Hx). run.
    unfold VELOX_CHECK. destruct (Z.leb_spec 1 (numPins_ e)); [lia|]. eexists. reflexivity.
Qed.

(** What [removeEntryLocked] leaves of an entry with a key *)
Lemma removeEntryLocked_Ok c sh s p e k :
  shards_ c !! sh = Some s → heap_ s !! p = Some e →
  rawKey (key_ e) = Some k → is_Some (entryMap_ s !! k) →
  ∃ c' e',
    CacheShard_removeEntryLocked sh p c = Ok tt c'
    ∧ shards_ c'
      = <[sh := set_heap_ (<[p := e']> (heap_ s)) (set_entryMap_ (delete k (entryMap_ s)) s)]>
          (shards_ c)
    ∧ key_ e' = clearFileNum (key_ e) ∧ numPins_ e' = numPins_ e
    ∧ promise_ e' = promise_ e ∧ size_ e' = size_ e ∧ tinyData_ e' = tinyData_ e
    ∧ data_ e' = (if 0 <? Allocation.numPages (data_ e) then [] else data_ e)
    ∧ trace_ c'
      = trace_ c ++ [EvErase sh k]
        ++ (if 0 <? Allocation.numPages (data_ e)
            then [EvFreeNonContiguous (Allocation.numPages (data_ e))] else [])
    ∧ ssdCache_ c' = ssdCache_ c ∧ numSkippedSaves_ c' = numSkippedSaves_ c
    ∧ nextPromise_ c' = nextPromise_ c.
Proof.
  intros Hs He Hk Hq. unfold CacheShard_removeEntryLocked. run. rewrite Hk. run.
  rewrite run_check by by apply bool_decide_eq_true. run.
  destruct (isPrefetch_ e); unfold AsyncDataCacheEntry_setPrefetch; run;
    destruct (0 <? Allocation.numPages (data_ e)); run; run_last;
    (eexists _, _; split; [reflexivity|]; norm;
     repeat split; rewrite <- ?app_assoc, ?app_nil_r; reflexivity).
Qed.

Lemma removeEntryLocked_cleared c sh s p e :
  shards_ c !! sh = Some s → heap_ s !! p = Some e → rawKey (key_ e) = None →
  CacheShard_removeEntryLocked sh p c = Ok tt c.
Proof. intros Hs He Hk. unfold CacheShard_removeEntryLocked. run. by rewrite Hk. Qed.

Lemma release_exclusive c sh s p e k :
  shards_ c !! sh = Some s → heap_ s !! p = Some e →
  numPins_ e = kExclusive → kExclusive ≠ 0 →
  rawKey (key_ e) = Some k → is_Some (entryMap_ s !! k) →
   ∃ c' s' e',
     AsyncDataCacheEntry_release sh p c = Ok tt c'
     ∧ shards_ c' !! sh = Some s'
     ∧ entryMap_ s' = delete k (entryMap_ s)
     ∧ heap_ s' !! p = Some e'
     ∧ hasValue (key_ e') = false ∧ numPins_ e' = 0 ∧ promise_ e' = None
     ∧ trace_ c'
       = trace_ c ++ [EvLock sh; EvErase sh k]
         ++ (if 0 <? Allocation.numPages (data_ e)
             then [EvFreeNonContiguous (Allocation.numPages (data_ e))] else [])
         ++ [EvUnlock sh]
         ++ match promise_ e with Some pr => [EvSetValue pr true] | None => [] end.
Proof.
  intros Hs He Hx Hk0 Hk Hq. unfold AsyncDataCacheEntry_release. run.
  rewrite run_check by (apply negb_true_iff, Z.eqb_neq; lia).
  rewrite (proj2 (Z.eqb_eq _ _) Hx).
  unfold CacheShard_removeEntry, withLock. run.
  destruct (removeEntryLocked_Ok (set_trace_ (trace_ c ++ [EvLock sh]) c) sh s p e k)
    as (c1 & e1 & Hrun & Hs1 & Hkey & Hpins & Hprom & _ & _ & _ & Ht1 & _); [done..|].
  assert (Hs1' : shards_ c1 !! sh = Some (set_heap_ (<[p:=e1]> (heap_ s)) (set_entryMap_ (delete k (entryMap_ s)) s))).
  { rewrite Hs1. apply list_lookup_insert_eq. by eapply lookup_lt_Some. }
  erewrite run_finally; [| erewrite bind_Ok by exact Hrun; unfold AsyncDataCacheEntry_movePromise; run; reflexivity ].
  run. rewrite Hprom.
  destruct (promise_ e) as [pr|]; run; run_last;
    (eexists _, _, _; split; [reflexivity|]; norm;
     split; [by apply list_lookup_insert_eq; rewrite ?Hs1, ?length_insert; eapply lookup_lt_Some|]; norm;
     split; [reflexivity|]; rewrite lookup_insert_eq; split; [reflexivity|]; norm;
     rewrite Hkey, Ht1; norm; repeat split; by rewrite <- ?app_assoc).
Qed.

(** C2.  [release()] of an exclusive entry (with its key in the map)
    removes the entry from the map of the shard under the shard lock, clears
    its key, frees its pages if it has any, and after the lock is released
    fulfils the waiter promise, if there is one, with [true]; the pin count
    is then 0.  [release()] of an entry with a pin count of at least 1
    decrements the count and does nothing else.  A count below 1 that is not
    the exclusive sentinel fails a check. *)
Theorem release_removes_or_decrements c sh s p e :
  shards_ c !! sh = Some s → heap_ s !! p = Some e →
  (numPins_ e = kExclusive → kExclusive ≠ 0 →
   ∀ k, rawKey (key_ e) = Some k → is_Some (entryMap_ s !! k) →
   ∃ c' s' e',
     AsyncDataCacheEntry_release sh p c = Ok tt c'
     ∧ shards_ c' !! sh = Some s'
     ∧ entryMap_ s' = delete k (entryMap_ s)
     ∧ heap_ s' !! p = Some e'
     ∧ hasValue (key_ e') = false ∧ numPins_ e' = 0 ∧ promise_ e' = None
     ∧ trace_ c'
       = trace_ c ++ [EvLock sh; EvErase sh k]
         ++ (if 0 <? Allocation.numPages (data_ e)
             then [EvFreeNonContiguous (Allocation.numPages (data_ e))] else [])
         ++ [EvUnlock sh]
         ++ match promise_ e with Some pr => [EvSetValue pr true] | None => [] end)
  ∧ (numPins_ e ≠ kExclusive → 1 ≤ numPins_ e →
     AsyncDataCacheEntry_release sh p c
     = Ok tt (updShard sh (set_heap_ (<[p := set_numPins_ (numPins_ e - 1) e]> (heap_ s)) s) c))
  ∧ (numPins_ e ≠ kExclusive → numPins_ e < 1 →
     ∃ c', AsyncDataCacheEntry_release sh p c = Throw (VeloxRuntimeError kInvalidState) c').
Proof.
  intros Hs He. split; [|split].
  - intros Hx Hk0 k Hk Hq. by eapply release_exclusive.
  - intros Hx Hpos. by apply release_shared.
  - intros Hx Hneg. by eapply release_underflow.
Qed.

(** ** C9: the buffer of an entry *)

(** [numPages] is the ceiling of the division by the page size. *)
Lemma numPages_ceil (bytes : Z) :
  (AllocationTraits.numPages bytes - 1) * AllocationTraits.kPageSize < bytes
  ≤ AllocationTraits.numPages bytes * AllocationTraits.kPageSize.
Proof.
  unfold AllocationTraits.numPages, AllocationTraits.kPageSize.
  pose proof (Z.div_mod (bytes + 4096 - 1) 4096 ltac:(lia)).
  pose proof (Z.mod_pos_bound (bytes + 4096 - 1) 4096 ltac:(lia)). lia.
Qed.

Lemma initialize_tiny c sh s p e key :
  shards_ c !! sh = Some s → heap_ s !! p = Some e → isExclusive e = true →
  size_ e < kTinyDataSize →
  AsyncDataCacheEntry_initialize sh p key c
  = Ok tt (updShard sh
             (set_heap_
                (<[p := set_tinyData_ (resize (Z.to_nat (size_ e)) Byte.x00 (tinyData_ e))
                          (set_key_ key (setSsdFile None 0 e))]> (heap_ s)) s) c).
Proof.
  intros Hs He Hx Hsz. unfold AsyncDataCacheEntry_initialize. run.
  rewrite run_check by done. run.
  rewrite (proj2 (Z.ltb_lt _ _) Hsz). run_last. reflexivity.
Qed.

Lemma initialize_pages c sh s p e key :
  shards_ c !! sh = Some s → heap_ s !! p = Some e → isExclusive e = true →
  kTinyDataSize ≤ size_ e →
  let pages := AllocationTraits.numPages (size_ e) in
  let '(ok, data, a) := allocateNonContiguous pages (data_ e) (allocator_ c) in
  let requested :=
    set_trace_ (trace_ c ++ [EvAllocateNonContiguous pages ok])
      (set_allocator_ a
         (updShard sh
            (set_heap_
               (<[p := set_data_ data
                         (set_tinyData_ [] (set_key_ key (setSsdFile None 0 e)))]>
                  (heap_ s)) s) c)) in
  if ok
  then AsyncDataCacheEntry_initialize sh p key c
       = Ok tt (set_cachedPages_ (cachedPages_ c + Allocation.numPages data) requested)
  else ∃ ex c',
         AsyncDataCacheEntry_initialize sh p key c = Throw ex c'
         ∧ calmly sh requested c'.
Proof.
  intros Hs He Hx Hsz pages.
  destruct (allocateNonContiguous pages (data_ e) (allocator_ c)) as [[ok data] a] eqn:Ha.
  unfold AsyncDataCacheEntry_initialize. run.
  rewrite run_check by done. run.
  rewrite (proj2 (Z.ltb_ge _ _) Hsz). run.
  erewrite bind_Ok; [| unfold allocator_allocateNonContiguous; norm; fold pages; rewrite Ha; reflexivity ].
  norm. run. destruct ok.
  - run_last. reflexivity.
  - match goal with |- ∃ _ _, (?m ≫= _) ?st = _ ∧ _ =>
      pose proof (calmly_release sh p st) as Hc; destruct (m st) as [[] c1|ex c1] eqn:Hr
    end.
    + erewrite bind_Ok by exact Hr. by eexists _, _.
    + erewrite bind_Throw by exact Hr. by eexists _, _.
Qed.

(** C9.  [initialize] of an exclusive entry whose size is below
    [kTinyDataSize] resizes the inline buffer to the size and leaves the
    allocator alone: no allocation is requested and the pages of the entry
    are as before.  With a size of [kTinyDataSize] or more it clears the
    inline buffer and requests [numPages(size)] pages, the ceiling of the
    size over the page size, from the allocator; if the allocator provides
    them they become the data of the entry and are counted as cached,
    otherwise [initialize] throws.  So the inline buffer is used up to size
    [kTinyDataSize - 1] and pages from [kTinyDataSize] on. *)
Theorem initialize_tiny_or_pages c sh s p e key :
  shards_ c !! sh = Some s → heap_ s !! p = Some e → isExclusive e = true →
  (size_ e < kTinyDataSize →
   ∃ c' s' e',
     AsyncDataCacheEntry_initialize sh p key c = Ok tt c'
     ∧ shards_ c' !! sh = Some s' ∧ heap_ s' !! p = Some e'
     ∧ tinyData_ e' = resize (Z.to_nat (size_ e)) Byte.x00 (tinyData_ e)
     ∧ length (tinyData_ e') = Z.to_nat (size_ e)
     ∧ data_ e' = data_ e
     ∧ allocator_ c' = allocator_ c ∧ trace_ c' = trace_ c)
  ∧ (kTinyDataSize ≤ size_ e →
     ∀ ok data a,
       allocateNonContiguous (AllocationTraits.numPages (size_ e)) (data_ e) (allocator_ c)
       = (ok, data, a) →
       (∃ evs, trace_ (stateOf (AsyncDataCacheEntry_initialize sh p key c))
               = trace_ c
                 ++ EvAllocateNonContiguous (AllocationTraits.numPages (size_ e)) ok :: evs)
       ∧ (ok = true →
          ∃ c' s' e',
            AsyncDataCacheEntry_initialize sh p key c = Ok tt c'
            ∧ shards_ c' !! sh = Some s' ∧ heap_ s' !! p = Some e'
            ∧ tinyData_ e' = [] ∧ data_ e' = data
            ∧ cachedPages_ c' = cachedPages_ c + Allocation.numPages data)
       ∧ (ok = false →
          ∃ ex c', AsyncDataCacheEntry_initialize sh p key c = Throw ex c'))
  ∧ (AllocationTraits.numPages (size_ e) - 1) * AllocationTraits.kPageSize < size_ e
    ≤ AllocationTraits.numPages (size_ e) * AllocationTraits.kPageSize.
Proof.
  intros Hs He Hx. split; [|split].
  - intros Hsz. rewrite (initialize_tiny c sh s p e key) by done.
    eexists _, _, _. split; [reflexivity|]. norm.
    split; [by apply list_lookup_insert_eq; eapply lookup_lt_Some|]. norm.
    rewrite lookup_insert_eq. split; [reflexivity|]. norm.
    repeat split. by rewrite length_resize.
  - intros Hsz ok data a Ha.
    pose proof (initialize_pages c sh s p e key Hs He Hx Hsz) as Hp.
    cbv zeta in Hp. rewrite Ha in Hp. destruct ok.
    + rewrite Hp. split; [|split; [|done]].
      * exists []. reflexivity.
      * intros _. eexists _, _, _. split; [reflexivity|]. norm.
        split; [by apply list_lookup_insert_eq; eapply lookup_lt_Some|]. norm.
        rewrite lookup_insert_eq. by repeat split.
    + destruct Hp as (ex & c' & Hr & (evs & Ht & _) & _). rewrite Hr.
      split; [|split; [done|]].
      * exists evs. cbn [stateOf]. rewrite Ht. norm. by rewrite <- app_assoc.
      * intros _. by eexists _, _.
  - apply numPages_ceil.
Qed.

(** ** C7: the state machine of a coalesced load *)

Lemma wp_keeps {St X} (R : St → St → Prop) (m : M St X) (P : St → Prop) (st : St) :
  keeps R m → (∀ st', R st st' → P st') → wp m (λ _, P) (λ _, P) st.
Proof. intros Hk HP. specialize (Hk st). unfold wp. destruct (m st); cbn in Hk; auto. Qed.

Lemma wp_bind {St X Y} (m : M St X) (f : X → M St Y) Q E (st : St) :
  wp m (λ x st', wp (f x) Q E st') E st → wp (m ≫= f) Q E st.
Proof. unfold wp, mbind, M_bind. by destruct (m st). Qed.

Lemma wp_Ok {St X} (m : M St X) Q E (st st' : St) x :
  wp m Q E st → m st = Ok x st' → Q x st'.
Proof. unfold wp. intros Hw Hm. by rewrite Hm in Hw. Qed.

Lemma wp_mono {St X} (m : M St X) (Q Q' : X → St → Prop) (E E' : Exn → St → Prop) (st : St) :
  wp m Q E st → (∀ x st', Q x st' → Q' x st') → (∀ ex st', E ex st' → E' ex st') →
  wp m Q' E' st.
Proof. unfold wp. destruct (m st); eauto. Qed.

Lemma gently_sharedAt c c' pin : gently c c' → sharedAt c pin → sharedAt c' pin.
Proof.
  intros [_ HF] (s & e & Hs & He & Hpin).
  destruct (Forall2_lookup_l _ _ _ _ _ HF Hs) as (s' & Hs' & (_ & _ & _ & _ & Hh)).
  specialize (Hh (pin_entry pin)). rewrite He in Hh. inversion Hh as [? e' Hk|]; subst.
  exists s', e'. repeat split; [done..|]. destruct Hk as (_ & _ & _ & _ & Hp). auto.
Qed.

Lemma setEndState_run endState (w : CoalescedLoad * @AsyncDataCache Allocator Ssd) :
  CoalescedLoad_setEndState endState w = Ok tt (endedLoad endState w).
Proof.
  destruct w as [[st pr] c]. unfold CoalescedLoad_setEndState, withLoadLock, endedLoad.
  destruct pr;
    unfold mbind, M_bind, mret, M_ret, liftCache, finally, log, modify, gets, Promise_setValue;
    cbn; by rewrite <- ?app_assoc.
Qed.

Lemma setExclusiveToShared_shares c sh p :
  wp (AsyncDataCacheEntry_setExclusiveToShared sh p)
     (λ _ c', sharedAt c' (pinOf sh p)) (λ _ _, True) c.
Proof.
  unfold AsyncDataCacheEntry_setExclusiveToShared.
  unfold wp.
  destruct (shards_ c !! sh) as [s|] eqn:Hs;
    [| unfold deref; by erewrite bind_Throw by (unfold mbind, M_bind, getShard; by rewrite Hs) ].
  destruct (heap_ s !! p) as [e|] eqn:He;
    [| unfold deref; rewrite run_assoc; erewrite run_getShard by done; by rewrite He ].
  run. destruct (isExclusive e); [|done]. rewrite run_check by done. run.
  match goal with |- match ?K ?st with _ => _ end =>
    change (wp K (λ _ c', sharedAt c' (pinOf sh p)) (λ _ c', True) st);
    apply wp_mono with (Q := λ _ c', True → sharedAt c' (pinOf sh p))
                       (E := λ _ c', True → sharedAt c' (pinOf sh p)); [|auto..];
    apply (wp_keeps gently K (λ c', True → sharedAt c' (pinOf sh p)))
  end.
  - unfold withLock. keeps_go.
  - intros c' Hg _. eapply gently_sharedAt; [exact Hg|].
    eexists _, _. cbn. split; [by apply list_lookup_insert_eq; eapply lookup_lt_Some|].
    cbn. rewrite lookup_insert_eq. split; [reflexivity|]. cbn. lia.
Qed.

Lemma wp_conj {St X} (m : M St X) Q1 Q2 E1 E2 (st : St) :
  wp m Q1 E1 st → wp m Q2 E2 st →
  wp m (λ x st', Q1 x st' ∧ Q2 x st') (λ ex st', E1 ex st' ∧ E2 ex st') st.
Proof. unfold wp. by destruct (m st). Qed.

Lemma wp_liftCache {L X} (m : M (@AsyncDataCache Allocator Ssd) X) Q E (l : L) c :
  wp m (λ x c', Q x (l, c')) (λ ex c', E ex (l, c')) c → wp (liftCache m) Q E (l, c).
Proof. unfold wp, liftCache. by destruct (m c). Qed.

Lemma run_liftCache {L X Y} (m : M (@AsyncDataCache Allocator Ssd) X)
    (f : X → M (L * _) Y) (l : L) c c' x :
  m c = Ok x c' → (liftCache m ≫= f) (l, c) = f x (l, c').
Proof. intros Hm. unfold mbind, M_bind, liftCache. by rewrite Hm. Qed.

Lemma run_liftCache_throw {L X Y} (m : M (@AsyncDataCache Allocator Ssd) X)
    (f : X → M (L * _) Y) (l : L) c c' ex :
  m c = Throw ex c' → (liftCache m ≫= f) (l, c) = Throw ex (l, c').
Proof. intros Hm. unfold mbind, M_bind, liftCache. by rewrite Hm. Qed.

Lemma deref_cases c sh p :
  (∃ e, deref sh p c = Ok e c) ∨ deref sh p c = Throw UndefinedBehaviour c.
Proof.
  unfold deref, getShard, mbind, M_bind.
  destruct (shards_ c !! sh) as [s|]; [|by right].
  destruct (heap_ s !! p) as [e|]; [left; by exists e | by right].
Qed.

(** One round of the loop over the pins of a load *)
Lemma publish_step (l : CoalescedLoad) c pin :
  wp (e ← liftCache (deref (pin_shard pin) (pin_entry pin));
      VELOX_CHECK (hasValue (key_ e));;
      VELOX_CHECK (isExclusive e);;
      liftCache (AsyncDataCacheEntry_setExclusiveToShared (pin_shard pin) (pin_entry pin)))
     (λ _ w', sharedAt (snd w') pin ∧ gently c (snd w')) (λ _ _, True) (l, c).
Proof.
  unfold wp.
  destruct (deref_cases c (pin_shard pin) (pin_entry pin)) as [[e He]|He].
  - erewrite run_liftCache by exact He.
    destruct (hasValue (key_ e)); [|done]. rewrite run_check by done.
    destruct (isExclusive e); [|done]. rewrite run_check by done.
    pose proof (setExclusiveToShared_shares c (pin_shard pin) (pin_entry pin)) as Hsh.
    pose proof (keeps_setExclusiveToShared (pin_shard pin) (pin_entry pin) c) as Hg.
    unfold wp in Hsh. unfold liftCache.
    destruct (AsyncDataCacheEntry_setExclusiveToShared _ _ c) as [[] c'|ex c']; [|done].
    cbn in *. by destruct pin.
  - by erewrite run_liftCache_throw by exact He.
Qed.

Section LoadOrFutureProperties.

Variable loadData : bool → M (CoalescedLoad * @AsyncDataCache Allocator Ssd) (list CachePin).

Lemma publish_shares pins (w : CoalescedLoad * @AsyncDataCache Allocator Ssd) :
  wp (loadOrFuture_publish pins)
     (λ _ w', (∀ pin, pin ∈ pins → sharedAt (snd w') pin) ∧ gently (snd w) (snd w'))
     (λ _ _, True) w.
Proof.
  unfold loadOrFuture_publish. revert w.
  induction pins as [|pin pins IH]; intros [l c]; cbn [foldM].
  - split; [by intros ? ?%elem_of_nil | reflexivity].
  - apply wp_bind. eapply wp_mono; [apply publish_step| |done].
    intros [] [l1 c1] [Hpin Hg1]. cbn [snd] in *.
    eapply wp_mono; [apply IH| |done].
    intros [] [l2 c2] [Hpins Hg2]. cbn [snd] in *. split; [|by etrans].
    intros pin' [->|Hin]%elem_of_cons; [|by apply Hpins].
    by eapply gently_sharedAt.
Qed.

Lemma loadOrFuture_locked_planned wait pr c :
  withLoadLock (loadOrFuture_locked wait) ({| state_ := kPlanned; loadPromise_ := pr |}, c)
  = Ok StartLoading
       ({| state_ := kLoading; loadPromise_ := pr |},
        set_trace_ (trace_ c ++ [EvLoadLock; EvLoadUnlock]) c).
Proof.
  unfold withLoadLock, loadOrFuture_locked.
  unfold mbind, M_bind, mret, M_ret, liftCache, finally, log, modify, gets, VELOX_CHECK. cbn.
  repeat (case_bool_decide; try done). cbn. by rewrite <- ?app_assoc.
Qed.

Lemma run_tryCatch {St X Y} (m : M St X) handler (f : X → M St Y) (st : St) :
  (tryCatch m handler ≫= f) st
  = match m st with
    | Ok x st' => f x st'
    | Throw ex st' =>
        if isStdException ex then (handler ex ≫= f) st' else Throw ex st'
    end.
Proof.
  unfold mbind, M_bind, tryCatch. destruct (m st) as [x st'|ex st']; [done|].
  by destruct (isStdException ex).
Qed.

End LoadOrFutureProperties.

(** ** Following one shard through a computation *)

Section OnShard.

Context {St : Type} (proj : St → @AsyncDataCache Allocator Ssd) (sh : nat).

Lemma onShard_ret {X} s (x : X) (Φ : X → CacheShard → Prop) Ξ :
  Φ x s → onShard proj sh s (mret x) Φ Ξ.
Proof. intros HΦ st Hs. cbn. eauto. Qed.

Lemma onShard_throw {X} s ex (Φ : X → CacheShard → Prop) (Ξ : Exn → CacheShard → Prop) :
  Ξ ex s → onShard proj sh s (throw ex) Φ Ξ.
Proof. intros HΞ st Hs. cbn. eauto. Qed.

Lemma onShard_bind {X Y} s (m : M St X) (f : X → M St Y) Ψ Φ Ξ :
  onShard proj sh s m Ψ Ξ →
  (∀ x s', Ψ x s' → onShard proj sh s' (f x) Φ Ξ) →
  onShard proj sh s (m ≫= f) Φ Ξ.
Proof.
  intros Hm Hf st Hs. apply wp_bind. eapply wp_mono; [by apply Hm| |done].
  intros x st' (s' & Hs' & HΨ). by eapply Hf.
Qed.

Lemma onShard_conseq {X} s (m : M St X) (Φ Φ' : X → CacheShard → Prop)
    (Ξ Ξ' : Exn → CacheShard → Prop) :
  onShard proj sh s m Φ Ξ →
  (∀ x s', Φ x s' → Φ' x s') → (∀ ex s', Ξ ex s' → Ξ' ex s') →
  onShard proj sh s m Φ' Ξ'.
Proof.
  intros Hm HΦ HΞ st Hs. eapply wp_mono; [by apply Hm|..].
  - intros x st' (s' & ? & ?). eauto.
  - intros ex st' (s' & ? & ?). eauto.
Qed.

Lemma onShard_neutral {X} s (m : M St X) (Φ : X → CacheShard → Prop) Ξ :
  neutral proj m → (∀ x, Φ x s) → onShard proj sh s m Φ Ξ.
Proof.
  intros Hn HΦ st Hs. destruct (Hn st) as (x & st' & Hm & Hsh).
  unfold wp. rewrite Hm. exists s. by rewrite Hsh.
Qed.

Lemma onShard_check s (b : bool) (Φ : unit → CacheShard → Prop) Ξ :
  b = true → Φ tt s → onShard proj sh s (VELOX_CHECK b) Φ Ξ.
Proof. intros -> HΦ. by apply onShard_ret. Qed.

Lemma onShard_finally {X} s (m : M St X) cleanup (Φ : X → CacheShard → Prop) Ξ :
  onShard proj sh s m Φ Ξ → neutral proj cleanup →
  onShard proj sh s (finally m cleanup) Φ Ξ.
Proof.
  intros Hm Hn st Hs. specialize (Hm st Hs). unfold wp, finally in *.
  destruct (m st) as [x st'|ex st']; destruct (Hn st') as ([] & st'' & Hc & Hsh);
    rewrite Hc; cbn; by rewrite Hsh.
Qed.

End OnShard.

Lemma onShard_liftCache {L X} sh s (m : M (@AsyncDataCache Allocator Ssd) X) Φ Ξ :
  onShard id sh s m Φ Ξ → onShard (snd : L * _ → _) sh s (liftCache m) Φ Ξ.
Proof. intros Hm [l c] Hs. apply wp_liftCache. by apply Hm. Qed.

Lemma neutral_liftCache {L X} (m : M (@AsyncDataCache Allocator Ssd) X) :
  neutral id m → neutral (snd : L * _ → _) (liftCache m).
Proof.
  intros Hm [l c]. destruct (Hm c) as (x & c' & Hr & Hs).
  exists x, (l, c'). unfold liftCache. by rewrite Hr.
Qed.

Lemma neutral_bind {St X Y} (proj : St → @AsyncDataCache Allocator Ssd)
    (m : M St X) (f : X → M St Y) :
  neutral proj m → (∀ x, neutral proj (f x)) → neutral proj (m ≫= f).
Proof.
  intros Hm Hf st. destruct (Hm st) as (x & st' & Hr & Hs).
  destruct (Hf x st') as (y & st'' & Hr' & Hs').
  exists y, st''. erewrite bind_Ok by exact Hr. split; [done|congruence].
Qed.

Lemma neutral_ret {St X} (proj : St → @AsyncDataCache Allocator Ssd) (x : X) :
  neutral proj (mret x).
Proof. intros st. by exists x, st. Qed.

Lemma neutral_gets {St X} (proj : St → @AsyncDataCache Allocator Ssd) (f : St → X) :
  neutral proj (gets f).
Proof. intros st. by exists (f st), st. Qed.

Lemma neutral_modify {St} (proj : St → @AsyncDataCache Allocator Ssd) (f : St → St) :
  (∀ st, shards_ (proj (f st)) = shards_ (proj st)) → neutral proj (modify f).
Proof. intros Hf st. by exists tt, (f st). Qed.

Lemma neutral_log ev : neutral id (log ev : M (@AsyncDataCache Allocator Ssd) unit).
Proof. by apply neutral_modify. Qed.

Lemma neutral_foldM {St X Y} (proj : St → @AsyncDataCache Allocator Ssd)
    (f : Y → X → M St Y) l y :
  (∀ y x, neutral proj (f y x)) → neutral proj (foldM f l y).
Proof.
  intros Hf. revert y. induction l as [|x l IH]; intros y; cbn.
  - apply neutral_ret.
  - apply neutral_bind; [apply Hf | apply IH].
Qed.

Lemma neutral_allocate pages out :
  neutral id (allocator_allocateNonContiguous pages out
              : M (@AsyncDataCache Allocator Ssd) _).
Proof.
  intros c. unfold allocator_allocateNonContiguous.
  destruct (allocateNonContiguous pages out (allocator_ c)) as [[ok out'] a'].
  by eexists _, _.
Qed.

Lemma neutral_makePromise : neutral id (makePromise : M (@AsyncDataCache Allocator Ssd) _).
Proof. intros c. by eexists _, _. Qed.

Create HintDb neutral discriminated.

#[local] Hint Resolve neutral_log neutral_allocate neutral_makePromise : neutral.

Ltac neutral_go :=
  repeat lazymatch goal with
  | |- neutral _ (mret _) => apply neutral_ret
  | |- neutral _ (gets _) => apply neutral_gets
  | |- neutral _ (liftCache _) => apply neutral_liftCache
  | |- neutral _ (foldM _ _ _) => apply neutral_foldM; intros
  | |- neutral _ (modify _) =>
      apply neutral_modify; first [ intros [??]; reflexivity | intros; reflexivity ]
  | |- neutral _ (_ ≫= _) => apply neutral_bind; [| intros ?]
  | |- neutral _ (if ?b then _ else _) => destruct b
  | |- neutral _ (match ?x with _ => _ end) => destruct x
  | |- neutral _ _ => solve [eauto with neutral]
  end.

Lemma neutral_free a :
  neutral id (allocator_freeNonContiguous a : M (@AsyncDataCache Allocator Ssd) _).
Proof. unfold allocator_freeNonContiguous. neutral_go. Qed.

Lemma neutral_accessTime : neutral id (accessTime : M (@AsyncDataCache Allocator Ssd) _).
Proof. unfold accessTime. neutral_go. Qed.

Lemma neutral_setValue pr v :
  neutral id (Promise_setValue pr v : M (@AsyncDataCache Allocator Ssd) _).
Proof. unfold Promise_setValue. neutral_go. Qed.

Lemma neutral_incrementCachedPages n :
  neutral id (AsyncDataCache_incrementCachedPages n : M (@AsyncDataCache Allocator Ssd) _).
Proof. unfold AsyncDataCache_incrementCachedPages. neutral_go. Qed.

Lemma neutral_incrementPrefetchPages n :
  neutral id (AsyncDataCache_incrementPrefetchPages n : M (@AsyncDataCache Allocator Ssd) _).
Proof. unfold AsyncDataCache_incrementPrefetchPages. neutral_go. Qed.

#[local] Hint Resolve neutral_free neutral_accessTime neutral_setValue
  neutral_incrementCachedPages neutral_incrementPrefetchPages : neutral.

Lemma neutral_freeAllocations l :
  neutral id (CacheShard_freeAllocations l : M (@AsyncDataCache Allocator Ssd) _).
Proof. unfold CacheShard_freeAllocations. neutral_go. Qed.

#[local] Hint Resolve neutral_freeAllocations : neutral.

(** The primitives that read or change the shard *)

Lemma onShard_getShard sh s Ξ :
  onShard id sh s (getShard sh : M (@AsyncDataCache Allocator Ssd) _)
    (λ x s', x = s ∧ s' = s) Ξ.
Proof. intros c Hs. cbn in *. unfold wp. rewrite (getShard_Ok _ _ _ Hs). eauto. Qed.

Lemma onShard_modifyShard sh s g Ξ :
  onShard id sh s (modifyShard sh g : M (@AsyncDataCache Allocator Ssd) _)
    (λ _ s', s' = g s) Ξ.
Proof.
  intros c Hs. cbn in *. unfold wp. rewrite (modifyShard_Ok _ _ _ _ Hs).
  exists (g s). split; [by eapply shards_updShard|done].
Qed.

Lemma onShard_deref sh s p e Ξ :
  heap_ s !! p = Some e →
  onShard id sh s (deref sh p : M (@AsyncDataCache Allocator Ssd) _)
    (λ x s', x = e ∧ s' = s) Ξ.
Proof. intros He c Hs. cbn in *. unfold wp. rewrite (deref_Ok _ _ _ _ _ Hs He). eauto. Qed.

Lemma onShard_modifyEntry sh s p e g Ξ :
  heap_ s !! p = Some e →
  onShard id sh s (modifyEntry sh p g : M (@AsyncDataCache Allocator Ssd) _)
    (λ _ s', s' = set_heap_ (<[p := g e]> (heap_ s)) s) Ξ.
Proof.
  intros He c Hs. cbn in *. unfold wp. rewrite (modifyEntry_Ok _ _ _ _ _ _ Hs He).
  eexists. split; [by eapply shards_updShard|done].
Qed.

(** ** The shape of a shard under the changes of its operations *)

Lemma rawKey_None key : fileNum key = None → rawKey key = None.
Proof. unfold rawKey. by intros ->. Qed.

Lemma rawKey_Some key k : rawKey key = Some k → fileNum key ≠ None.
Proof. unfold rawKey. by destruct (fileNum key). Qed.

Lemma rawKey_clearFileNum key : rawKey (clearFileNum key) = None.
Proof. done. Qed.

Lemma slotEntries_lookup s i p :
  entries_ s !! i = Some (Some p) → p ∈ slotEntries s.
Proof.
  intros Hi. unfold slotEntries. apply list_elem_of_omap.
  exists (Some p). split; [by eapply list_elem_of_lookup_2|done].
Qed.

Lemma slotEntries_elem s p :
  p ∈ slotEntries s → ∃ i, entries_ s !! i = Some (Some p).
Proof.
  unfold slotEntries. intros ([q|] & Hq & Heq)%list_elem_of_omap; [|done].
  cbn in Heq. injection Heq as ->. by apply list_elem_of_lookup_1.
Qed.

Lemma ShardInv_slot_free s p :
  ShardInv s → p ∈ slotEntries s → p ∈ freeEntries_ s → False.
Proof.
  intros Hinv Hp Hf. pose proof (inv_owned _ Hinv) as Hnd.
  apply NoDup_app in Hnd as (_ & Hdisj & _). by eapply Hdisj.
Qed.

Lemma ShardInv_slot_inj s i j p :
  ShardInv s → entries_ s !! i = Some (Some p) → entries_ s !! j = Some (Some p) → i = j.
Proof.
  intros Hinv Hi Hj. pose proof (inv_owned _ Hinv) as Hnd.
  apply NoDup_app in Hnd as (Hnd & _). unfold slotEntries in Hnd.
  destruct (decide (i = j)) as [|Hne]; [done|exfalso].
  revert i j Hi Hj Hne Hnd. generalize (entries_ s). clear.
  induction l as [|x l IH]; intros i j Hi Hj Hne Hnd; [done|].
  destruct i as [|i], j as [|j]; cbn in *; try done.
  - injection Hi as ->. cbn in Hnd. apply NoDup_cons in Hnd as [Hn _].
    apply Hn, list_elem_of_omap. exists (Some p).
    split; [by eapply list_elem_of_lookup_2|done].
  - injection Hj as ->. cbn in Hnd. apply NoDup_cons in Hnd as [Hn _].
    apply Hn, list_elem_of_omap. exists (Some p).
    split; [by eapply list_elem_of_lookup_2|done].
  - apply (IH i j); [done|done|congruence|].
    destruct x; cbn in Hnd; [by apply NoDup_cons in Hnd as [_ ?]|done].
Qed.

Lemma ShardInv_ext s s' :
  heap_ s' = heap_ s → entryMap_ s' = entryMap_ s → entries_ s' = entries_ s →
  emptySlots_ s' = emptySlots_ s → freeEntries_ s' = freeEntries_ s →
  ShardInv s → ShardInv s'.
Proof.
  intros Hh Hm He Hes Hf [].
  split; unfold slotEntries; rewrite ?Hh, ?Hm, ?He, ?Hes, ?Hf; done.
Qed.

Lemma ShardInv_kept s s' : shardKept s s' → ShardInv s → ShardInv s'.
Proof.
  intros (Hm & He & Hes & Hf & Hh) Hinv.
  assert (Hfw : ∀ p e, heap_ s !! p = Some e →
            ∃ e', heap_ s' !! p = Some e' ∧ key_ e' = key_ e ∧ size_ e' = size_ e).
  { intros p e Hp. specialize (Hh p). rewrite Hp in Hh.
    inversion Hh as [? e' (? & ? & _)|]; subst. eauto. }
  assert (Hbw : ∀ p e', heap_ s' !! p = Some e' →
            ∃ e, heap_ s !! p = Some e ∧ key_ e' = key_ e ∧ size_ e' = size_ e).
  { intros p e' Hp. specialize (Hh p). rewrite Hp in Hh.
    inversion Hh as [e ? (? & ? & _)|]; subst. eauto. }
  destruct Hinv. split; unfold slotEntries; rewrite ?Hm, ?He, ?Hes, ?Hf; try done.
  - intros k p Hk. destruct (inv_map_key0 k p Hk) as (e & Hp & Hr).
    destruct (Hfw p e Hp) as (e' & ? & Hkey & _). exists e'. by rewrite Hkey.
  - intros p e' k Hp Hr. destruct (Hbw p e' Hp) as (e & ? & Hkey & _).
    eapply inv_key_map0; [done|]. by rewrite <- Hkey.
  - intros p Hp. destruct (inv_slots0 p Hp) as [e Hpe].
    destruct (Hfw p e Hpe) as (e' & ? & _). eauto.
  - intros p Hp. destruct (inv_free0 p Hp) as (e & Hpe & Hk & Hz).
    destruct (Hfw p e Hpe) as (e' & ? & Hkey & Hsize). exists e'.
    by rewrite Hkey, Hsize.
Qed.

(** An entry changes in fields other than its key; its size too if it is
    not in the recycler. *)
Lemma ShardInv_entry s s' p e e' :
  heap_ s !! p = Some e → key_ e' = key_ e →
  (size_ e' = size_ e ∨ p ∉ freeEntries_ s) →
  heap_ s' = <[p := e']> (heap_ s) → entryMap_ s' = entryMap_ s →
  entries_ s' = entries_ s → emptySlots_ s' = emptySlots_ s →
  freeEntries_ s' = freeEntries_ s →
  ShardInv s → ShardInv s'.
Proof.
  intros Hp Hkey Hsize Hh Hm He Hes Hf [].
  split; unfold slotEntries; rewrite ?Hh, ?Hm, ?He, ?Hes, ?Hf; try done.
  - intros k q Hk. destruct (inv_map_key0 k q Hk) as (eq & Hq & Hr).
    destruct (decide (q = p)) as [->|Hne].
    + rewrite lookup_insert_eq. exists e'. rewrite Hkey. naive_solver.
    + rewrite lookup_insert_ne by done. eauto.
  - intros q eq k Hq Hr. destruct (decide (q = p)) as [->|Hne].
    + rewrite lookup_insert_eq in Hq. injection Hq as <-. rewrite Hkey in Hr. eauto.
    + rewrite lookup_insert_ne in Hq by done. eauto.
  - intros q Hq. destruct (decide (q = p)) as [->|Hne].
    + rewrite lookup_insert_eq. eauto.
    + rewrite lookup_insert_ne by done. eauto.
  - intros q Hq. destruct (inv_free0 q Hq) as (eq & Hqe & Hk & Hz).
    destruct (decide (q = p)) as [->|Hne].
    + rewrite lookup_insert_eq. exists e'. rewrite Hkey.
      destruct Hsize as [->|Hn]; [naive_solver|done].
    + rewrite lookup_insert_ne by done. eauto.
Qed.

(** The entry leaves the map and its key is cleared. *)
Lemma ShardInv_remove s s' p e e' k :
  heap_ s !! p = Some e → rawKey (key_ e) = Some k →
  fileNum (key_ e') = None → size_ e' = size_ e →
  heap_ s' = <[p := e']> (heap_ s) → entryMap_ s' = delete k (entryMap_ s) →
  entries_ s' = entries_ s → emptySlots_ s' = emptySlots_ s →
  freeEntries_ s' = freeEntries_ s →
  ShardInv s → ShardInv s'.
Proof.
  intros Hp Hk Hkey Hsize Hh Hm He Hes Hf [].
  pose proof (inv_key_map0 _ _ _ Hp Hk) as Hmk.
  split; unfold slotEntries; rewrite ?Hh, ?Hm, ?He, ?Hes, ?Hf; try done.
  - intros k' q [Hne Hk']%lookup_delete_Some.
    destruct (inv_map_key0 k' q Hk') as (eq & Hq & Hr).
    destruct (decide (q = p)) as [->|Hnp]; [congruence|].
    rewrite lookup_insert_ne by done. eauto.
  - intros q eq k' Hq Hr. destruct (decide (q = p)) as [->|Hnp].
    + rewrite lookup_insert_eq in Hq. injection Hq as <-.
      by rewrite rawKey_None in Hr.
    + rewrite lookup_insert_ne in Hq by done.
      apply lookup_delete_Some. split; [|eauto].
      intros <-. pose proof (inv_key_map0 _ _ _ Hq Hr). congruence.
  - intros q Hq. destruct (decide (q = p)) as [->|Hne].
    + rewrite lookup_insert_eq. eauto.
    + rewrite lookup_insert_ne by done. eauto.
  - intros q Hq. destruct (inv_free0 q Hq) as (eq & Hqe & Hkq & Hz).
    destruct (decide (q = p)) as [->|Hne].
    + rewrite Hp in Hqe. injection Hqe as <-. by apply rawKey_Some in Hk.
    + rewrite lookup_insert_ne by done. eauto.
Qed.

Lemma slotEntries_vacate (l : list (option EntryPtr)) i p :
  l !! i = Some (Some p) →
  omap id l ≡ₚ p :: omap id (<[i := None]> l).
Proof.
  revert i. induction l as [|x l IH]; intros i Hi; [done|].
  destruct i as [|i]; cbn in *.
  - by injection Hi as ->.
  - destruct x as [q|]; cbn.
    + rewrite (IH _ Hi). apply Permutation_swap.
    + by apply IH.
Qed.

(** The entry in slot [idx], its key cleared, is drained and moved to the
    recycler; the index of the slot joins the empty ones. *)
Lemma ShardInv_drain s s' idx p e e' :
  entries_ s !! idx = Some (Some p) → heap_ s !! p = Some e →
  fileNum (key_ e) = None → fileNum (key_ e') = None → size_ e' = 0 →
  heap_ s' = <[p := e']> (heap_ s) → entryMap_ s' = entryMap_ s →
  entries_ s' = <[idx := None]> (entries_ s) →
  emptySlots_ s' = emptySlots_ s ++ [idx] →
  freeEntries_ s' = freeEntries_ s ++ [p] →
  ShardInv s → ShardInv s'.
Proof.
  intros Hi Hp Hkey Hkey' Hsize Hh Hm He Hes Hf Hinv.
  pose proof (slotEntries_vacate _ _ _ Hi) as Hperm.
  destruct Hinv.
  split; unfold slotEntries in *; rewrite ?Hh, ?Hm, ?He, ?Hes, ?Hf; try done.
  - intros k q Hk. destruct (inv_map_key0 k q Hk) as (eq & Hq & Hr).
    destruct (decide (q = p)) as [->|Hnp].
    + rewrite Hp in Hq. injection Hq as <-. by rewrite rawKey_None in Hr.
    + rewrite lookup_insert_ne by done. eauto.
  - intros q eq k Hq Hr. destruct (decide (q = p)) as [->|Hnp].
    + rewrite lookup_insert_eq in Hq. injection Hq as <-. by rewrite rawKey_None in Hr.
    + rewrite lookup_insert_ne in Hq by done. eauto.
  - intros q Hq. assert (q ∈ omap id (entries_ s)) as Hq'.
    { rewrite Hperm. by right. }
    destruct (decide (q = p)) as [->|Hne].
    + rewrite lookup_insert_eq. eauto.
    + rewrite lookup_insert_ne by done. eauto.
  - intros q [Hq| ->%list_elem_of_singleton]%elem_of_app.
    + destruct (inv_free0 q Hq) as (eq & Hqe & Hkq & Hz).
      destruct (decide (q = p)) as [->|Hne].
      * rewrite lookup_insert_eq. eauto.
      * rewrite lookup_insert_ne by done. eauto.
    + rewrite lookup_insert_eq. eauto.
  - rewrite Hperm in inv_owned0. cbn in inv_owned0.
    eapply NoDup_Permutation_proper; [|exact inv_owned0].
    rewrite app_assoc. by rewrite <- Permutation_cons_append.
  - intros i [Hin| ->%list_elem_of_singleton]%elem_of_app.
    + rewrite list_lookup_insert_ne; [eauto|]. intros <-.
      rewrite (inv_emptySlots0 _ Hin) in Hi. done.
    + apply list_lookup_insert_eq. by eapply lookup_lt_Some.
  - apply NoDup_app. split; [done|]. split; [|apply NoDup_singleton].
    intros i Hin ->%list_elem_of_singleton.
    rewrite (inv_emptySlots0 _ Hin) in Hi. done.
Qed.

Lemma deleteAll_lookup ps (h : gmap EntryPtr AsyncDataCacheEntry) p :
  deleteAll ps h !! p = if decide (p ∈ ps) then None else h !! p.
Proof.
  revert h. induction ps as [|q ps IH]; intros h; cbn.
  - by rewrite decide_False by apply not_elem_of_nil.
  - change (deleteAll ps (delete q h) !! p = if decide (p ∈ q :: ps) then None else h !! p).
    rewrite IH. destruct (decide (p ∈ ps)) as [Hin|Hnin].
    + rewrite decide_True; [done|by right].
    + destruct (decide (p = q)) as [->|Hne].
      * rewrite lookup_delete_eq. rewrite decide_True; [done|by left].
      * rewrite lookup_delete_ne by done. rewrite decide_False; [done|].
        intros [?|?]%elem_of_cons; done.
Qed.

(** The recycler is cut to its first [n] entries; the others are freed. *)
Lemma ShardInv_trim s s' n :
  heap_ s' = deleteAll (drop n (freeEntries_ s)) (heap_ s) →
  entryMap_ s' = entryMap_ s → entries_ s' = entries_ s →
  emptySlots_ s' = emptySlots_ s → freeEntries_ s' = take n (freeEntries_ s) →
  ShardInv s → ShardInv s'.
Proof.
  intros Hh Hm He Hes Hf Hinv.
  assert (Hout : ∀ p, p ∉ freeEntries_ s → heap_ s' !! p = heap_ s !! p).
  { intros p Hp. rewrite Hh, deleteAll_lookup, decide_False; [done|].
    intros Hin. apply Hp. rewrite <- (take_drop n). apply elem_of_app. by right. }
  assert (Hsub : ∀ p e, heap_ s' !! p = Some e → heap_ s !! p = Some e).
  { intros p e. rewrite Hh, deleteAll_lookup. by case_decide. }
  pose proof (λ p, ShardInv_slot_free s p Hinv) as Hsf.
  destruct Hinv.
  split; unfold slotEntries in *; rewrite ?Hm, ?He, ?Hes, ?Hf; try done.
  - intros k q Hk. destruct (inv_map_key0 k q Hk) as (eq & Hq & Hr).
    exists eq. split; [|done]. rewrite Hout; [done|].
    intros Hin. destruct (inv_free0 q Hin) as (e' & Hq' & Hk' & _).
    rewrite Hq in Hq'. injection Hq' as <-. by rewrite rawKey_None in Hr.
  - intros q eq k Hq Hr. eauto.
  - intros q Hq. rewrite Hout; [eauto|]. intros Hin. by eapply Hsf.
  - intros q Hq. assert (q ∈ freeEntries_ s) as Hq'.
    { rewrite <- (take_drop n). apply elem_of_app. by left. }
    destruct (inv_free0 q Hq') as (eq & Hqe & Hkq & Hz). exists eq.
    split; [|done]. rewrite Hh, deleteAll_lookup, decide_False; [done|].
    intros Hin. apply NoDup_app in inv_owned0 as (_ & _ & Hnd).
    rewrite <- (take_drop n (freeEntries_ s)) in Hnd.
    apply NoDup_app in Hnd as (_ & Hdisj & _). by eapply Hdisj.
  - rewrite <- (take_drop n (freeEntries_ s)), app_assoc in inv_owned0.
    by apply NoDup_app in inv_owned0 as (? & _).
Qed.

(** ** What stays in a shard *)

#[local] Instance stays_preorder prot : PreOrder (stays prot).
Proof.
  split.
  - intros s. split; [done|]. intros i p e Hi Hp _. by split_and!.
  - intros s1 s2 s3 [Hl1 H1] [Hl2 H2]. split; [congruence|].
    intros i p e Hi Hp He. destruct (H1 i p e Hi Hp He) as (Hi2 & Hp2 & Hm2).
    destruct (H2 i p e Hi2 Hp2 He) as (Hi3 & Hp3 & Hm3).
    split_and!; [done..|]. intros k Hk. by apply Hm3, Hm2.
Qed.

#[local] Instance apartFrom_preorder q : PreOrder (apartFrom q).
Proof.
  split.
  - intros s. by split_and!.
  - intros s1 s2 s3 (Hl1 & He1 & Hh1 & Hm1) (Hl2 & He2 & Hh2 & Hm2).
    split_and!; [congruence|by eauto| |by eauto].
    intros p Hne Hp. destruct (slotEntries_elem _ _ Hp) as [i Hi].
    rewrite Hh2, Hh1; [done..|]. eapply slotEntries_lookup. by apply He1.
Qed.

(** Only things of the entry [q], which [prot] does not hold of, change. *)
Lemma stays_but prot s s' q eq :
  heap_ s !! q = Some eq → ¬ prot eq → apartFrom q s s' → stays prot s s'.
Proof.
  intros Hq Hn (Hl & He & Hh & Hm). split; [done|]. intros i p e Hi Hp Hpr.
  assert (p ≠ q) as Hne by (intros ->; congruence).
  split_and!; [by apply He| |by intros; apply Hm].
  rewrite Hh; [done..|]. by eapply slotEntries_lookup.
Qed.

Lemma apartFrom_ext q s s' :
  heap_ s' = heap_ s → entryMap_ s' = entryMap_ s → entries_ s' = entries_ s →
  apartFrom q s s'.
Proof. intros Hh Hm He. unfold apartFrom. rewrite Hh, Hm, He. by split_and!. Qed.

Lemma apartFrom_entry q s s' e' :
  heap_ s' = <[q := e']> (heap_ s) → entryMap_ s' = entryMap_ s →
  entries_ s' = entries_ s → apartFrom q s s'.
Proof.
  intros Hh Hm He. unfold apartFrom. rewrite Hh, Hm, He. split_and!; try done.
  intros p Hne _. by rewrite lookup_insert_ne.
Qed.

Lemma apartFrom_trim q s s' n :
  ShardInv s →
  heap_ s' = deleteAll (drop n (freeEntries_ s)) (heap_ s) →
  entryMap_ s' = entryMap_ s → entries_ s' = entries_ s →
  apartFrom q s s'.
Proof.
  intros Hinv Hh Hm He. unfold apartFrom. rewrite Hm, He. split_and!; try done.
  intros p _ Hp. rewrite Hh, deleteAll_lookup, decide_False; [done|].
  intros Hin. eapply (ShardInv_slot_free s p); [done..|].
  rewrite <- (take_drop n). apply elem_of_app. by right.
Qed.

Lemma stays_ext prot s s' :
  heap_ s' = heap_ s → entryMap_ s' = entryMap_ s → entries_ s' = entries_ s →
  stays prot s s'.
Proof. intros Hh Hm He. split; rewrite ?Hh, ?Hm, ?He; naive_solver. Qed.

(** ** The steps of a computation on a shard *)

Lemma onShard_neutral_eq {St X} (proj : St → @AsyncDataCache Allocator Ssd) sh s
    (m : M St X) Ξ :
  neutral proj m → onShard proj sh s m (λ _ s', s' = s) Ξ.
Proof. intros Hn. by apply onShard_neutral. Qed.

Lemma onShard_check_eq {St} (proj : St → @AsyncDataCache Allocator Ssd) sh s (b : bool)
    (Ξ : Exn → CacheShard → Prop) :
  (b = false → Ξ (VeloxRuntimeError kInvalidState) s) →
  onShard proj sh s (VELOX_CHECK b) (λ _ s', s' = s ∧ b = true) Ξ.
Proof.
  intros Hb. destruct b; [by apply onShard_ret|]. apply onShard_throw. by apply Hb.
Qed.

Lemma onShard_ret_eq {St X} (proj : St → @AsyncDataCache Allocator Ssd) sh s (x : X) Ξ :
  onShard proj sh s (mret x) (λ y s', y = x ∧ s' = s) Ξ.
Proof. by apply onShard_ret. Qed.

Ltac shard_prim :=
  lazymatch goal with
  | |- onShard _ _ _ (mret _) _ _ => apply onShard_ret_eq
  | |- onShard _ _ _ (liftCache _) _ _ => apply onShard_liftCache; shard_prim
  | |- onShard _ _ _ (getShard _) _ _ => apply onShard_getShard
  | |- onShard _ _ _ (modifyShard _ _) _ _ => apply onShard_modifyShard
  | |- onShard _ _ _ (deref _ _) _ _ => eapply onShard_deref; heap_lookup
  | |- onShard _ _ _ (modifyEntry _ _ _) _ _ => eapply onShard_modifyEntry; heap_lookup
  | |- onShard _ _ _ (VELOX_CHECK _) _ _ => apply onShard_check_eq
  | |- onShard _ _ _ _ _ _ => apply onShard_neutral_eq; solve [neutral_go]
  end.

Ltac shard_intro :=
  let x := fresh "x" in
  let s := fresh "s" in
  let Hp := fresh "Hp" in
  cbv beta; intros x s Hp;
  repeat lazymatch type of Hp with
         | _ ∧ _ => let Hq := fresh "Hq" in destruct Hp as [Hq Hp]
         end;
  subst; repeat match goal with u : unit |- _ => destruct u end; norm.

Lemma onShard_assoc {St X Y Z} (proj : St → @AsyncDataCache Allocator Ssd) sh s
    (m : M St X) (f : X → M St Y) (g : Y → M St Z) Φ Ξ :
  onShard proj sh s (m ≫= λ x, f x ≫= g) Φ Ξ → onShard proj sh s ((m ≫= f) ≫= g) Φ Ξ.
Proof. intros Hm st Hs. specialize (Hm st Hs). unfold wp in *. by rewrite run_assoc. Qed.

Ltac shard_step :=
  lazymatch goal with
  | |- onShard _ _ _ (mret _) _ _ => apply onShard_ret
  | |- onShard _ _ _ (throw _) _ _ => apply onShard_throw
  | |- onShard _ _ _ ((_ ≫= _) ≫= _) _ _ => apply onShard_assoc
  | |- onShard _ _ _ (_ ≫= _) _ _ => eapply onShard_bind; [ shard_prim | shard_intro ]
  end.

Lemma onShard_removeEntryLocked sh s p e Ξ :
  heap_ s !! p = Some e →
  (∀ k, rawKey (key_ e) = Some k → is_Some (entryMap_ s !! k)) →
  onShard id sh s (CacheShard_removeEntryLocked sh p : M (@AsyncDataCache Allocator Ssd) _)
    (λ _ s',
       (rawKey (key_ e) = None ∧ s' = s)
       ∨ ∃ k e', rawKey (key_ e) = Some k
           ∧ s' = set_heap_ (<[p := e']> (heap_ s)) (set_entryMap_ (delete k (entryMap_ s)) s)
           ∧ fileNum (key_ e') = None ∧ size_ e' = size_ e
           ∧ tinyData_ e' = tinyData_ e ∧ numPins_ e' = numPins_ e
           ∧ promise_ e' = promise_ e) Ξ.
Proof.
  intros He Hk c Hs. cbn in Hs. unfold wp.
  destruct (rawKey (key_ e)) as [k|] eqn:Hr.
  - destruct (removeEntryLocked_Ok c sh s p e k Hs He Hr (Hk k eq_refl))
      as (c' & e' & -> & Hs' & Hkey & Hpins & Hprom & Hsize & Htiny & _).
    eexists. split.
    { cbn. rewrite Hs'. apply list_lookup_insert_eq. by eapply lookup_lt_Some. }
    right. exists k, e'. split_and!; try done. by rewrite Hkey.
  - rewrite (removeEntryLocked_cleared c sh s p e Hs He Hr). eauto.
Qed.

Lemma onShard_destroyAll sh ps : ∀ s Ξ,
  NoDup ps → (∀ p, p ∈ ps → is_Some (heap_ s !! p)) →
  onShard id sh s
    (foldM (λ _ q, destroyEntry sh q) ps tt : M (@AsyncDataCache Allocator Ssd) _)
    (λ _ s', s' = set_heap_ (deleteAll ps (heap_ s)) s) Ξ.
Proof.
  induction ps as [|q ps IH]; intros s Ξ Hnd Hin; cbn [foldM].
  - apply onShard_ret. by destruct s.
  - apply NoDup_cons in Hnd as [Hq Hnd].
    destruct (Hin q) as [e He]; [by left|].
    cbv beta.
    eapply onShard_bind.
    { unfold destroyEntry. do 2 shard_step. shard_prim. }
    shard_intro. eapply onShard_conseq; [apply IH; [done|]|..].
    + intros p Hp. cbn. rewrite lookup_delete_ne; [apply Hin; by right|].
      by intros ->.
    + by intros _ s' ->.
    + done.
Qed.

Lemma onShard_tryAddFreeEntry sh s slot q Ξ :
  entries_ s !! slot = Some (Some q) →
  NoDup (freeEntries_ s ++ [q]) →
  (∀ p, p ∈ freeEntries_ s ++ [q] → is_Some (heap_ s !! p)) →
  onShard id sh s (CacheShard_tryAddFreeEntry sh slot : M (@AsyncDataCache Allocator Ssd) _)
    (λ _ s', ∃ n,
       s' = set_heap_ (deleteAll (drop n (freeEntries_ s ++ [q])) (heap_ s))
              (set_freeEntries_ (take n (freeEntries_ s ++ [q]))
                 (set_entries_ (<[slot := None]> (entries_ s)) s))) Ξ.
Proof.
  intros Hslot Hnd Hin. unfold CacheShard_tryAddFreeEntry.
  shard_step. rewrite Hslot. do 2 shard_step.
  destruct (_ <=? _)%nat.
  - shard_step. eapply onShard_conseq; [apply onShard_destroyAll|..].
    + norm. rewrite <- (take_drop (kMaxFreeEntries / 2) (freeEntries_ s ++ [q])) in Hnd.
      by apply NoDup_app in Hnd as (_ & _ & ?).
    + intros p Hp. norm. apply Hin. rewrite <- (take_drop (kMaxFreeEntries / 2)).
      apply elem_of_app. by right.
    + intros _ s' ->. by exists (kMaxFreeEntries / 2)%nat.
    + done.
  - apply onShard_ret. exists (length (freeEntries_ s ++ [q])).
    rewrite drop_all, firstn_all. by destruct s.
Qed.

Lemma onShard_calibrateThreshold_samples sh s now step n Ξ : ∀ entryIndex,
  (∀ p, p ∈ slotEntries s → is_Some (heap_ s !! p)) →
  0 ≤ step → 0 ≤ entryIndex < Z.of_nat (length (entries_ s)) →
  onShard id sh s
    (calibrateThreshold_samples sh now step n entryIndex
     : M (@AsyncDataCache Allocator Ssd) _)
    (λ _ s', s' = s) Ξ.
Proof.
  induction n as [|n IH]; intros entryIndex Hslots Hstep Hidx; cbn [calibrateThreshold_samples].
  - by apply onShard_ret.
  - shard_step.
    destruct (lookup_lt_is_Some_2 (entries_ s) (Z.to_nat entryIndex)) as [slot Hslot]; [lia|].
    rewrite Hslot. eapply onShard_bind with (Ψ := λ _ s', s' = s).
    { destruct slot as [p|]; [|by apply onShard_ret].
      destruct (Hslots p) as [e He]; [by eapply slotEntries_lookup|].
      shard_step. by apply onShard_ret. }
    intros sample ? ->. eapply onShard_bind; [apply IH; try done|].
    + case_match.
      * apply Z.mod_pos_bound. lia.
      * apply Z.leb_gt in H0. lia.
    + intros rest ? ->. by apply onShard_ret.
Qed.

Lemma onShard_calibrateThreshold sh s Ξ :
  (∀ p, p ∈ slotEntries s → is_Some (heap_ s !! p)) →
  entries_ s ≠ [] →
  onShard id sh s (CacheShard_calibrateThreshold sh : M (@AsyncDataCache Allocator Ssd) _)
    (λ _ s', ∃ t, s' = set_evictionThreshold_ t s) Ξ.
Proof.
  intros Hslots Hne. unfold CacheShard_calibrateThreshold.
  do 2 shard_step. eapply onShard_bind.
  { apply onShard_calibrateThreshold_samples; [done|..].
    - unfold uint64. generalize (Z.min (int32 10) (int32 (Z.of_nat (length (entries_ s))))).
      intros z. destruct (decide (z `mod` 2 ^ 64 = 0)) as [->|Hz].
      + by rewrite Z.div_0_r.
      + apply Z.div_pos; [lia|]. pose proof (Z.mod_pos_bound z (2 ^ 64)). lia.
    - apply Z.mod_pos_bound. destruct (entries_ s); [done|]. cbn [length]. lia. }
  shard_intro. eapply onShard_conseq; [shard_prim|..]; [|done].
  intros _ s' ->. eauto.
Qed.

(** ** Eviction, slot by slot *)

Lemma onShard_removeEntryLocked_inv sh s p e Ξ :
  ShardInv s → heap_ s !! p = Some e →
  onShard id sh s (CacheShard_removeEntryLocked sh p : M (@AsyncDataCache Allocator Ssd) _)
    (λ _ s',
       ShardInv s'
       ∧ apartFrom p s s'
       ∧ entries_ s' = entries_ s ∧ emptySlots_ s' = emptySlots_ s
       ∧ freeEntries_ s' = freeEntries_ s
       ∧ (∀ k, entryMap_ s' !! k ≠ Some p)
       ∧ ∃ e', heap_ s' !! p = Some e' ∧ fileNum (key_ e') = None
           ∧ size_ e' = size_ e ∧ tinyData_ e' = tinyData_ e
           ∧ numPins_ e' = numPins_ e ∧ promise_ e' = promise_ e
           ∧ ∀ q, q ≠ p → heap_ s' !! q = heap_ s !! q) Ξ.
Proof.
  intros Hinv He. eapply onShard_conseq; [apply onShard_removeEntryLocked with (e := e)|..];
    [done| | |done].
  { intros k Hk. rewrite (inv_key_map _ Hinv _ _ _ He Hk). eauto. }
  intros _ s' [[Hr ->]|(k & e' & Hr & -> & Hkey & Hsize & Htiny & Hpins & Hprom)].
  - split_and!; try done.
    + intros k Hk. destruct (inv_map_key _ Hinv _ _ Hk) as (e' & He' & Hr').
      congruence.
    + exists e. split_and!; try done. unfold rawKey in Hr. by destruct (fileNum (key_ e)).
  - split_and!; try done.
    + eapply ShardInv_remove; [exact He|exact Hr|exact Hkey|exact Hsize|try reflexivity..|done].
    + split_and!; [done|done|..].
      * intros q Hq _. cbn. by rewrite lookup_insert_ne.
      * intros k' q Hq Hk'. cbn. rewrite lookup_delete_ne; [done|].
        intros <-. rewrite (inv_key_map _ Hinv _ _ _ He Hr) in Hk'. congruence.
    + intros k' Hk'. cbn in Hk'. apply lookup_delete_Some in Hk' as [Hne Hk'].
      destruct (inv_map_key _ Hinv _ _ Hk') as (e'' & He'' & Hr''). congruence.
    + exists e'. split_and!; [apply lookup_insert_eq|done..|].
      intros q Hq. cbn. by rewrite lookup_insert_ne.
Qed.

(** The candidate leaves its slot; the other entries of the slots are as
    they were. *)
Lemma onShard_evict_candidate sh s bytesToFree cand e score l Ξ :
  ShardInv s → entries_ s !! ev_entryIndex l = Some (Some cand) →
  heap_ s !! cand = Some e →
  onShard snd sh s
    (evict_candidate sh bytesToFree cand score l
     : M (Allocation * @AsyncDataCache Allocator Ssd) _)
    (λ r s',
       ShardInv s' ∧ apartFrom cand s s'
       ∧ entries_ s' = <[ev_entryIndex l := None]> (entries_ s)
       ∧ ev_entryIndex (snd r) = ev_entryIndex l
       ∧ ev_evictSaveableSkipped (snd r) = ev_evictSaveableSkipped l) Ξ.
Proof.
  intros Hinv Hslot He. unfold evict_candidate.
  shard_step.
  eapply onShard_bind with
    (Ψ := λ _ s1, ∃ d, s1 = set_heap_ (<[cand := set_data_ d e]> (heap_ s)) s).
  { destruct (0 <? ev_pagesToAcquire l).
    - shard_step. unfold Allocation.appendMove. do 3 shard_step.
      eapply onShard_bind; [shard_prim; done|shard_intro].
      apply onShard_ret. eauto.
    - do 2 shard_step. eauto. }
  intros [pagesToAcquire toFree] s1 [d ->].
  assert (ShardInv (set_heap_ (<[cand := set_data_ d e]> (heap_ s)) s)) as Hinv1.
  { eapply ShardInv_entry with (e' := set_data_ d e); [exact He|done|by left|reflexivity..|done]. }
  assert (apartFrom cand s (set_heap_ (<[cand := set_data_ d e]> (heap_ s)) s)) as Hst1.
  { by apply (apartFrom_entry _ _ _ (set_data_ d e)). }
  eapply onShard_bind.
  { apply onShard_liftCache. eapply onShard_removeEntryLocked_inv; [exact Hinv1|].
    cbn. apply lookup_insert_eq. }
  cbv beta. intros [] s2 (Hinv2 & Hst2 & Hent2 & Hes2 & Hfree2 & Hmap2 & e2 & He2 & Hkey2 & Hsize2 & _).
  cbn in Hent2, Hes2, Hfree2.
  do 4 shard_step.
  eapply onShard_bind.
  { apply onShard_liftCache. eapply onShard_tryAddFreeEntry with (q := cand); norm.
    - by rewrite Hent2.
    - rewrite Hfree2. pose proof (inv_owned _ Hinv) as Hnd.
      apply slotEntries_lookup in Hslot.
      apply NoDup_app in Hnd as (_ & Hdisj & Hnd).
      apply NoDup_app. split_and!; [done| |apply NoDup_singleton].
      intros q Hq ->%list_elem_of_singleton. by eapply Hdisj.
    - intros q [Hq| ->%list_elem_of_singleton]%elem_of_app.
      + destruct (decide (q = cand)) as [->|Hne];
          [rewrite lookup_insert_eq; eauto|rewrite lookup_insert_ne by done].
        destruct (inv_free _ Hinv2 q Hq) as (? & -> & _). eauto.
      + rewrite lookup_insert_eq. eauto. }
  cbv beta. intros [] s6 [n ->]. norm.
  set (e3 := set_size_ 0 (set_tinyData_ [] e2)).
  set (sd := set_freeEntries_ (freeEntries_ s2 ++ [cand])
               (set_entries_ (<[ev_entryIndex l := None]> (entries_ s2))
                  (set_heap_ (<[cand := e3]> (heap_ s2))
                     (set_emptySlots_ (emptySlots_ s2 ++ [ev_entryIndex l]) s2)))).
  assert (ShardInv sd) as Hinvd.
  { eapply ShardInv_drain with (s := s2) (e := e2) (e' := e3);
      [by rewrite Hent2|exact He2|exact Hkey2|exact Hkey2|reflexivity..|exact Hinv2]. }
  assert (apartFrom cand s sd) as Hstd.
  { etrans; [exact Hst1|]. etrans; [exact Hst2|].
    split_and!; [cbn; by rewrite length_insert|..|done].
    - intros i p Hne Hi. cbn. rewrite list_lookup_insert_ne; [done|].
      intros <-. rewrite Hent2 in Hi. cbn in Hi. congruence.
    - intros p Hne _. cbn. by rewrite lookup_insert_ne. }
  assert (∀ s7, heap_ s7 = deleteAll (drop n (freeEntries_ sd)) (heap_ sd) →
            entryMap_ s7 = entryMap_ sd → entries_ s7 = entries_ sd →
            emptySlots_ s7 = emptySlots_ sd →
            freeEntries_ s7 = take n (freeEntries_ sd) →
            ShardInv s7 ∧ apartFrom cand s s7
            ∧ entries_ s7 = <[ev_entryIndex l := None]> (entries_ s)) as Hfin.
  { intros s7 Hh Hm Hen Hem Hf. split_and!.
    - by eapply ShardInv_trim.
    - etrans; [exact Hstd|]. by eapply apartFrom_trim.
    - rewrite Hen. cbn. by rewrite Hent2. }
  shard_step.
  eapply onShard_bind with
    (Ψ := λ _ s7, ShardInv s7 ∧ apartFrom cand s s7
                  ∧ entries_ s7 = <[ev_entryIndex l := None]> (entries_ s)).
  { destruct (score =? 0).
    - apply onShard_ret. by apply Hfin.
    - eapply onShard_conseq; [shard_prim| |done]. intros _ ? ->. by apply Hfin. }
  intros [] s7 (Hinv7 & Hst7 & Hent7). by apply onShard_ret.
Qed.

Lemma sameContents_inv s s' : sameContents s s' → ShardInv s → ShardInv s'.
Proof. intros (? & ? & ? & ? & ?). by apply ShardInv_ext. Qed.

#[local] Instance sameContents_preorder : PreOrder sameContents.
Proof.
  split.
  - intros s. by split_and!.
  - intros s1 s2 s3 (? & ? & ? & ? & ?) (? & ? & ? & ? & ?).
    split_and!; congruence.
Qed.

Lemma nextIndex_lt s i : (i < length (entries_ s))%nat → (nextIndex s i < length (entries_ s))%nat.
Proof.
  intros Hi. unfold nextIndex. destruct (Nat.eqb_spec (Datatypes.S i) (length (entries_ s))); lia.
Qed.

Ltac inv_ext :=
  eapply ShardInv_ext; [..|eassumption]; first [reflexivity|done].

(** One round of the loop: the slot visited is empty, or its entry is left
    alone (and counted if that is for the SSD save), or it is evicted. *)
Lemma onShard_evict_step sh s bytesToFree evictAll skip l Ξ :
  ShardInv s → (ev_entryIndex l < length (entries_ s))%nat →
  onShard snd sh s
    (evict_step sh bytesToFree evictAll skip l
     : M (Allocation * @AsyncDataCache Allocator Ssd) _)
    (λ r s',
       ShardInv s'
       ∧ ev_entryIndex (snd r) = nextIndex s (ev_entryIndex l)
       ∧ ((entries_ s !! nextIndex s (ev_entryIndex l) = Some None
           ∧ sameContents s s' ∧ fst r = false
           ∧ ev_evictSaveableSkipped (snd r) = ev_evictSaveableSkipped l)
          ∨ ∃ cand e,
              entries_ s !! nextIndex s (ev_entryIndex l) = Some (Some cand)
              ∧ heap_ s !! cand = Some e
              ∧ ((sameContents s s' ∧ fst r = false
                  ∧ ev_evictSaveableSkipped (snd r)
                    = ev_evictSaveableSkipped l
                      + (if evict_evictable evictAll (ev_now (snd r))
                              (evictionThreshold_ s') e
                            && evict_bypassed evictAll skip e
                         then 1 else 0)
                  ∧ (evict_evictable evictAll (ev_now (snd r)) (evictionThreshold_ s') e
                       = true → evict_bypassed evictAll skip e = true))
                 ∨ (numPins_ e = 0 ∧ evict_bypassed evictAll skip e = false
                    ∧ apartFrom cand s s'
                    ∧ entries_ s' = <[nextIndex s (ev_entryIndex l) := None]> (entries_ s)
                    ∧ ev_evictSaveableSkipped (snd r) = ev_evictSaveableSkipped l)))) Ξ.
Proof.
  intros Hinv Hidx. unfold evict_step. shard_step. fold (nextIndex s (ev_entryIndex l)).
  pose proof (nextIndex_lt s _ Hidx) as Hnext.
  set (idx := nextIndex s (ev_entryIndex l)) in *.
  shard_step.
  destruct (lookup_lt_is_Some_2 (entries_ s) idx Hnext) as [[cand|] Hslot]; rewrite Hslot.
  2:{ apply onShard_ret. split_and!; [inv_ext|done|]. left.
      split_and!; try done. }
  destruct (inv_slots _ Hinv cand) as [e He]; [by eapply slotEntries_lookup|].
  do 2 shard_step.
  lazymatch goal with |- onShard _ _ ?x _ _ _ => set (s1 := x) end.
  assert (sameContents s s1) as Hs1 by by split_and!.
  eapply onShard_bind with (Ψ := λ _ s2, sameContents s1 s2).
  { destruct (_ || _).
    - shard_step. eapply onShard_bind.
      { apply onShard_liftCache, onShard_calibrateThreshold.
        - intros p Hp. apply (inv_slots _ Hinv p Hp).
        - cbn. intros Hnil. rewrite Hnil in Hslot. done. }
      cbv beta. intros [] ? [t ->]. shard_step. by apply onShard_ret.
    - by apply onShard_ret. }
  intros [now numChecked] s2 Hs2.
  assert (sameContents s s2) as Hs2' by by etrans.
  destruct Hs2' as (Hh & Hm & Hen & Hem & Hf).
  eapply onShard_bind.
  { apply onShard_liftCache. eapply onShard_deref. by rewrite Hh. }
  shard_intro. shard_step.
  change ((numPins_ e =? 0)
          && (negb (hasValue (key_ e)) || evictAll
              || (evictionThreshold_ s2
                  <=? (if (numPins_ e =? 0) && hasValue (key_ e) && negb evictAll
                       then score e now else 0))))
    with (evict_evictable evictAll now (evictionThreshold_ s2) e).
  change (skip && ssdSaveable_ e && negb evictAll) with (evict_bypassed evictAll skip e).
  destruct (evict_evictable evictAll now (evictionThreshold_ s2) e) eqn:Hev.
  - destruct (evict_bypassed evictAll skip e) eqn:Hby.
    + apply onShard_ret. cbn. split_and!; [inv_ext|done|].
      right. exists cand, e. split_and!; [done..|]. left.
      rewrite Hev, Hby. by split_and!.
    + eapply onShard_conseq; [eapply onShard_evict_candidate with (e := e)|..]; cbn.
      * inv_ext.
      * by rewrite Hen.
      * by rewrite Hh.
      * intros [stop l'] s3 (Hinv3 & Hap & Hent3 & Hidx3 & Hsk3). cbn in *.
        split_and!; [done|done|]. right. exists cand, e. split_and!; [done..|].
        right. split_and!; try done.
        -- unfold evict_evictable in Hev. apply andb_true_iff in Hev as [Hp _].
           by apply Z.eqb_eq.
        -- etrans; [|exact Hap]. by apply apartFrom_ext.
        -- by rewrite Hent3, Hen.
      * done.
  - apply onShard_ret. cbn. split_and!; [inv_ext|done|].
    right. exists cand, e. split_and!; [done..|]. left.
    rewrite Hev. cbn. split_and!; try done. lia.
Qed.

Lemma stays_mono (prot prot' : AsyncDataCacheEntry → Prop) s s' :
  (∀ e, prot' e → prot e) → stays prot s s' → stays prot' s s'.
Proof. intros Himp [Hl Hst]. split; [done|]. intros i p e Hi Hp Hpr. eauto. Qed.

Lemma int32_small z : 0 ≤ z < 2 ^ 31 → int32 z = z.
Proof. intros Hz. unfold int32. rewrite Z.mod_small; lia. Qed.

Lemma int32_le z : 0 ≤ z → int32 z ≤ z.
Proof.
  intros Hz. unfold int32.
  pose proof (Z.mod_le (z + 2 ^ 31) (2 ^ 32)). lia.
Qed.

Lemma onShard_evict_loop sh bytesToFree evictAll skip Ξ rounds : ∀ s l,
  ShardInv s → (ev_entryIndex l < length (entries_ s))%nat →
  onShard snd sh s
    (evict_loop sh bytesToFree evictAll skip rounds l
     : M (Allocation * @AsyncDataCache Allocator Ssd) _)
    (λ l' s',
       ShardInv s' ∧ stays (evict_protected evictAll skip) s s'
       ∧ ev_evictSaveableSkipped l ≤ ev_evictSaveableSkipped l'
       ∧ (evictAll = true ∨ skip = false →
          ev_evictSaveableSkipped l' = ev_evictSaveableSkipped l)) Ξ.
Proof.
  induction rounds as [|rounds IH]; intros s l Hinv Hidx; cbn [evict_loop].
  - apply onShard_ret. split_and!; [done|reflexivity|lia|done].
  - eapply onShard_bind; [by apply onShard_evict_step|].
    cbv beta. intros [stop l1] s1 (Hinv1 & Hidx1 & Hfate). cbn in Hidx1, Hfate.
    assert (stays (evict_protected evictAll skip) s s1
            ∧ ev_evictSaveableSkipped l ≤ ev_evictSaveableSkipped l1
            ∧ (evictAll = true ∨ skip = false →
               ev_evictSaveableSkipped l1 = ev_evictSaveableSkipped l)) as (Hst & Hle & Hsame).
    { destruct Hfate as [(_ & Hsc & _ & ->)|(cand & e & Hslot & He & [(Hsc & _ & -> & _)|(Hp & Hby & Hap & _ & ->)])].
      - split_and!; [|lia|done]. destruct Hsc as (? & ? & ? & _). by apply stays_ext.
      - split_and!.
        + destruct Hsc as (? & ? & ? & _). by apply stays_ext.
        + case_match; lia.
        + intros Hor. unfold evict_bypassed.
          destruct Hor as [-> | ->]; rewrite ?andb_false_r, ?andb_false_l; cbn; lia.
      - split_and!; [|lia|done]. eapply stays_but; [exact He| |exact Hap].
        unfold evict_protected. unfold evict_bypassed in Hby. rewrite Hby.
        intros [?|?]; done. }
    assert (ev_entryIndex l1 < length (entries_ s1))%nat as Hidx'.
    { rewrite Hidx1. destruct Hst as [-> _]. by apply nextIndex_lt. }
    destruct stop.
    + apply onShard_ret. by split_and!.
    + eapply onShard_conseq; [by apply IH| |done].
      intros l2 s2 (Hinv2 & Hst2 & Hle2 & Hsame2). split_and!; [done|by etrans|lia|].
      intros Hor. rewrite Hsame2, Hsame by done. done.
Qed.

Lemma onShard_evict_locked sh s bytesToFree evictAll skip pagesToAcquire now Ξ :
  ShardInv s →
  onShard snd sh s
    (evict_locked sh bytesToFree evictAll skip pagesToAcquire now
     : M (Allocation * @AsyncDataCache Allocator Ssd) _)
    (λ r s',
       ShardInv s' ∧ stays (evict_protected evictAll skip) s s'
       ∧ ∀ l, r = Some l →
           0 ≤ ev_evictSaveableSkipped l
           ∧ (evictAll = true ∨ skip = false → ev_evictSaveableSkipped l = 0)) Ξ.
Proof.
  intros Hinv. unfold evict_locked. shard_step.
  destruct (int32 (Z.of_nat (length (entries_ s))) =? 0) eqn:Hz.
  { apply onShard_ret. split_and!; [done|reflexivity|done]. }
  destruct (Z.to_nat (int32 (Z.of_nat (length (entries_ s))))) as [|rounds] eqn:Hr.
  { cbn [evict_loop]. do 2 shard_step. split_and!; [done|reflexivity|].
    intros l [= <-]. cbn. split; [lia|done]. }
  eapply onShard_bind.
  { apply onShard_evict_loop; [done|]. cbn [ev_entryIndex].
    pose proof (int32_le (Z.of_nat (length (entries_ s))) ltac:(lia)).
    pose proof (Z.rem_bound_abs (clockHand_ s) (int32 (Z.of_nat (length (entries_ s))))
                  ltac:(lia)). lia. }
  cbv beta. intros l' s' (Hinv' & Hst & Hle & Hsame). cbn in Hle, Hsame.
  apply onShard_ret. split_and!; [done..|]. intros ? [= <-]. split; [lia|]. eauto.
Qed.

(** ** A pass of [evict] on the cache *)

Lemma keeps_weaken {St X} (R R' : St → St → Prop) (m : M St X) :
  (∀ a b, R a b → R' a b) → keeps R m → keeps R' m.
Proof. intros Himp Hm st. apply Himp, Hm. Qed.

#[local] Instance aside_preorder sh : PreOrder (@aside Allocator Ssd sh).
Proof.
  split.
  - intros c. split_and!; [reflexivity|done|]. intros sh' s _ Hs. by exists s.
  - intros c1 c2 c3 (Hq1 & Hl1 & Ho1) (Hq2 & Hl2 & Ho2).
    split_and!; [by etrans|congruence|].
    intros sh' s Hne Hs. destruct (Ho1 sh' s Hne Hs) as (s2 & Hs2 & Hk2).
    destruct (Ho2 sh' s2 Hne Hs2) as (s3 & Hs3 & Hk3).
    exists s3. split; [done|by etrans].
Qed.

Lemma calmly_aside sh c c' : calmly sh c c' → aside sh c c'.
Proof.
  intros (Hq & _ & _ & Hl & Ho). split_and!; [done..|].
  intros sh' s Hne Hs. exists s. by rewrite Ho.
Qed.

Lemma gently_aside sh c c' : gently c c' → aside sh c c'.
Proof.
  intros [Hq Hf]. split_and!; [done|symmetry; by eapply Forall2_length|].
  intros sh' s _ Hs. destruct (Forall2_lookup_l _ _ _ _ _ Hf Hs) as (s' & ? & ?). eauto.
Qed.

Lemma onShard_gently {X} sh s (m : M (@AsyncDataCache Allocator Ssd) X) :
  keeps gently m →
  onShard id sh s m (λ _ s', shardKept s s') (λ _ s', shardKept s s').
Proof.
  intros Hm c Hs. cbn in Hs. destruct (Hm c) as [_ Hf].
  destruct (Forall2_lookup_l _ _ _ _ _ Hf Hs) as (s' & Hs' & Hk).
  unfold wp. destruct (m c); cbn in *; eauto.
Qed.

Lemma aside_CacheInv sh c c' s' :
  aside sh c c' → CacheInv c → shards_ c' !! sh = Some s' → ShardInv s' → CacheInv c'.
Proof.
  intros (_ & Hl & Ho) Hinv Hs' Hinv' sh' s2 Hs2.
  destruct (decide (sh' = sh)) as [->|Hne]; [congruence|].
  destruct (lookup_lt_is_Some_2 (shards_ c) sh') as [s Hs].
  { rewrite <- Hl. by eapply lookup_lt_Some. }
  destruct (Ho sh' s Hne Hs) as (s2' & Hs2' & Hk).
  assert (s2' = s2) as -> by congruence.
  eapply ShardInv_kept; [done|]. by eapply Hinv.
Qed.

(** The pass from the lock on. *)
Lemma evict_tail_aside sh bytesToFree evictAll skip pagesToAcquire now :
  keeps (onCache (@aside Allocator Ssd sh))
    (locals ← (liftCache (log (EvLock sh));;
               finally (evict_locked sh bytesToFree evictAll skip pagesToAcquire now)
                       (liftCache (log (EvUnlock sh))));
     match locals with
     | None => mret tt
     | Some l => liftCache (evict_unlocked l)
     end).
Proof.
  apply keeps_bind; [apply _| |].
  - eapply keeps_weaken; [intros a b Hab; apply calmly_aside, Hab|].
    apply keeps_bind; [apply _| |intros _].
    + apply keeps_liftCache, calmly_log. exact I.
    + apply keeps_finally; [apply _|apply calmly_evict_locked|].
      apply keeps_liftCache, calmly_log. exact I.
  - intros [l|]; [|apply keeps_ret; apply _].
    apply keeps_liftCache. eapply keeps_weaken; [apply gently_aside|].
    apply keeps_evict_unlocked.
Qed.

Lemma evict_tail_onShard sh s bytesToFree evictAll skip pagesToAcquire now :
  ShardInv s →
  let post := λ s', ∃ s1, ShardInv s1
                       ∧ stays (evict_protected evictAll skip) s s1 ∧ shardKept s1 s' in
  onShard snd sh s
    (locals ← (liftCache (log (EvLock sh));;
               finally (evict_locked sh bytesToFree evictAll skip pagesToAcquire now)
                       (liftCache (log (EvUnlock sh))));
     match locals with
     | None => mret tt
     | Some l => liftCache (evict_unlocked l)
     end : M (Allocation * @AsyncDataCache Allocator Ssd) _)
    (λ _ s', post s') (λ _ s', post s').
Proof.
  intros Hinv post.
  eapply onShard_bind with
    (Ψ := λ _ s1, ShardInv s1 ∧ stays (evict_protected evictAll skip) s s1).
  - shard_step. apply onShard_finally; [|neutral_go].
    eapply onShard_conseq; [by apply onShard_evict_locked with (Ξ := λ _ _, False)|..];
      [|done].
    intros r s1 (? & ? & _). done.
  - intros [l|] s1 [Hinv1 Hst1].
    + apply onShard_liftCache. eapply onShard_conseq;
        [apply onShard_gently, keeps_evict_unlocked|..].
      * intros ? s' Hk. by exists s1.
      * intros ? s' Hk. by exists s1.
    + apply onShard_ret. exists s1. split_and!; [done..|reflexivity].
Qed.

Lemma evict_spec acq c sh s bytesToFree evictAll pagesToAcquire :
  shards_ c !! sh = Some s → ShardInv s →
  let skip := match ssdCache_ c with Some ssd => writeInProgress ssd | None => false end in
  let c' := snd (stateOf (CacheShard_evict sh bytesToFree evictAll pagesToAcquire (acq, c))) in
  aside sh (set_trace_ (trace_ c ++ [EvEvict sh bytesToFree evictAll pagesToAcquire]) c) c'
  ∧ ∃ s1 s', shards_ c' !! sh = Some s' ∧ ShardInv s1
      ∧ stays (evict_protected evictAll skip) s s1 ∧ shardKept s1 s'.
Proof.
  intros Hs Hinv skip c'. subst c'. unfold CacheShard_evict.
  erewrite bind_Ok by reflexivity. erewrite bind_Ok by reflexivity.
  erewrite bind_Ok by reflexivity. cbv beta zeta.
  set (c0 := set_trace_ _ c). fold skip.
  split.
  - apply (evict_tail_aside sh bytesToFree evictAll skip pagesToAcquire (now_ c0) (acq, c0)).
  - pose proof (evict_tail_onShard sh s bytesToFree evictAll skip pagesToAcquire (now_ c0)
                  Hinv (acq, c0) Hs) as Hwp.
    unfold wp in Hwp.
    lazymatch type of Hwp with
    | match ?r with _ => _ end =>
        change (∃ s1 s', shards_ (snd (stateOf r)) !! sh = Some s' ∧ ShardInv s1
                  ∧ stays (evict_protected evictAll skip) s s1 ∧ shardKept s1 s');
        destruct r as [x st|ex st]
    end; cbn; destruct Hwp as (s' & Hs' & s1 & ? & ? & ?); eauto 10.
Qed.

(** ** Checking the shape of a concrete cache *)

Lemma ShardInv_check_sound s : ShardInv_check s = true → ShardInv s.
Proof.
  unfold ShardInv_check. rewrite !andb_true_iff.
  intros ((((((H1 & H2) & H3) & H4) & H5) & H6) & H7).
  apply bool_decide_eq_true in H1, H2, H5, H7.
  rewrite forallb_forall in H3, H4, H6.
  split.
  - intros k p Hk. specialize (H1 k p Hk). cbn in H1.
    destruct (heap_ s !! p) as [e|]; [|done]. eauto.
  - intros p e k Hp Hr. specialize (H2 p e Hp). cbn in H2. rewrite Hr in H2. done.
  - intros p Hp. apply list_elem_of_In, H3 in Hp. by apply bool_decide_eq_true in Hp.
  - intros p Hp. apply list_elem_of_In, H4 in Hp.
    destruct (heap_ s !! p) as [e|]; [|done].
    apply andb_true_iff in Hp as [Hk Hz]. apply bool_decide_eq_true in Hk.
    apply Z.eqb_eq in Hz. eauto.
  - done.
  - intros i Hi. apply list_elem_of_In, H6 in Hi. by apply bool_decide_eq_true in Hi.
  - done.
Qed.

Lemma CacheInv_check_sound c : CacheInv_check c = true → CacheInv c.
Proof.
  unfold CacheInv_check. rewrite forallb_forall. intros Hc sh s Hs.
  apply ShardInv_check_sound, Hc, list_elem_of_In. by eapply list_elem_of_lookup_2.
Qed.

Lemma gently_CacheInv c c' : gently c c' → CacheInv c → CacheInv c'.
Proof.
  intros [_ Hf] Hinv sh s' Hs'.
  destruct (Forall2_lookup_r _ _ _ _ _ Hf Hs') as (s & Hs & Hk).
  eapply ShardInv_kept; [done|]. by eapply Hinv.
Qed.

(** ** C5: the entries left to the SSD save *)

Lemma evict_unlocked_prefix l c :
  ∃ c1,
    (CacheShard_freeAllocations (ev_toFree l);;
     AsyncDataCache_incrementCachedPages
       ((- ev_largeFreed l) ÷ int32 AllocationTraits.kPageSize)) c = Ok tt c1
    ∧ ssdCache_ c1 = ssdCache_ c ∧ numSkippedSaves_ c1 = numSkippedSaves_ c
    ∧ shards_ c1 = shards_ c.
Proof.
  set (m := (_ ;; _)).
  assert (neutral id m) as Hn by (subst m; neutral_go).
  assert (keeps (calmly 0) m) as Hk.
  { subst m. unfold CacheShard_freeAllocations. keeps_go. }
  destruct (Hn c) as ([] & c1 & Hrun & Hsh). specialize (Hk c). rewrite Hrun in Hk.
  destruct Hk as (_ & ? & ? & _). by exists c1.
Qed.

(** What the end of [evict] does, by the count of the skipped entries and
    the answer of [startWrite]. *)
Lemma evict_unlocked_cases l c :
  ∃ c1,
    ssdCache_ c1 = ssdCache_ c ∧ numSkippedSaves_ c1 = numSkippedSaves_ c
    ∧ shards_ c1 = shards_ c
    ∧ evict_unlocked l c
      = if ev_evictSaveableSkipped l =? 0 then Ok tt c1
        else match ssdCache_ c with
             | Some ssd =>
                 if fst (startWrite ssd)
                 then AsyncDataCache_saveToSsd
                        (set_numSkippedSaves_ 0
                           (set_ssdCache_ (Some (snd (startWrite ssd))) c1))
                 else Ok tt (set_numSkippedSaves_ (numSkippedSaves_ c + 1)
                               (set_ssdCache_ (Some (snd (startWrite ssd))) c1))
             | None => Ok tt (set_numSkippedSaves_ (numSkippedSaves_ c + 1) c1)
             end.
Proof.
  destruct (evict_unlocked_prefix l c) as (c1 & Hrun & Hssd & Hnum & Hsh).
  exists c1. split_and!; [done..|].
  unfold evict_unlocked.
  rewrite <- run_assoc. erewrite bind_Ok by exact Hrun.
  rewrite run_gets. cbv beta. rewrite Hssd.
  destruct (ev_evictSaveableSkipped l =? 0); [done|]. cbn [negb].
  destruct (ssdCache_ c) as [ssd|] eqn:Hc.
  - unfold ssdCache_startWrite, ssdCache, mbind, M_bind, modify, mret, M_ret.
    rewrite Hssd. destruct (startWrite ssd) as [[] ssd']; cbn; [done|].
    by rewrite Hnum.
  - rewrite run_ret. unfold modify. by rewrite Hnum.
Qed.

(** The round of the loop on an unpinned entry that the SSD save may want:
    the entry stays, and if it could have been evicted the skip is
    counted. *)
Lemma evict_step_bypass acq c sh s bytesToFree l cand e :
  shards_ c !! sh = Some s → ShardInv s →
  (ev_entryIndex l < length (entries_ s))%nat →
  entries_ s !! nextIndex s (ev_entryIndex l) = Some (Some cand) →
  heap_ s !! cand = Some e → numPins_ e = 0 → ssdSaveable_ e = true →
  ∃ l' acq' c' s',
    evict_step sh bytesToFree false true l (acq, c) = Ok (false, l') (acq', c')
    ∧ shards_ c' !! sh = Some s' ∧ ShardInv s' ∧ sameContents s s'
    ∧ ev_entryIndex l' = nextIndex s (ev_entryIndex l)
    ∧ ev_evictSaveableSkipped l'
      = ev_evictSaveableSkipped l
        + (if evict_evictable false (ev_now l') (evictionThreshold_ s') e then 1 else 0).
Proof.
  intros Hs Hinv Hidx Hslot He Hpin Hsave.
  pose proof (onShard_evict_step sh s bytesToFree false true l (λ _ _, False) Hinv Hidx
                (acq, c) Hs) as Hwp.
  unfold wp in Hwp. destruct (evict_step _ _ _ _ _ _) as [[stop l'] [acq' c']|];
    [|by destruct Hwp as (? & _ & [])].
  destruct Hwp as (s' & Hs' & Hinv' & Hnext & Hfate). cbn in Hs', Hnext, Hfate.
  assert (evict_bypassed false true e = true) as Hby.
  { unfold evict_bypassed. by rewrite Hsave. }
  destruct Hfate as [(Hnone & _)|(cand' & e' & Hslot' & He' & Hcase)]; [congruence|].
  assert (cand' = cand) as -> by congruence. assert (e' = e) as -> by congruence.
  destruct Hcase as [(Hsc & -> & Hsk & _)|(_ & Hby' & _)]; [|congruence].
  exists l', acq', c', s'. rewrite Hby, andb_true_r in Hsk. by split_and!.
Qed.

(** The loop returns on a shard in shape, and the count of skipped entries
    does not go down. *)
Lemma evict_loop_run sh bytesToFree evictAll skip rounds l acq c s :
  shards_ c !! sh = Some s → ShardInv s → (ev_entryIndex l < length (entries_ s))%nat →
  ∃ l' acq' c' s',
    evict_loop sh bytesToFree evictAll skip rounds l (acq, c) = Ok l' (acq', c')
    ∧ shards_ c' !! sh = Some s' ∧ ShardInv s'
    ∧ ev_evictSaveableSkipped l ≤ ev_evictSaveableSkipped l'
    ∧ ssdCache_ c' = ssdCache_ c ∧ numSkippedSaves_ c' = numSkippedSaves_ c.
Proof.
  intros Hs Hinv Hidx.
  pose proof (onShard_evict_loop sh bytesToFree evictAll skip (λ _ _, False) rounds s l
                Hinv Hidx (acq, c) Hs) as Hwp.
  pose proof (calmly_evict_loop sh bytesToFree evictAll skip rounds l (acq, c)) as Hk.
  unfold wp in Hwp.
  destruct (evict_loop _ _ _ _ _ _ _) as [l' [acq' c']|]; [|by destruct Hwp as (? & _ & [])].
  destruct Hwp as (s' & Hs' & Hinv' & _ & Hle & _). destruct Hk as (_ & Hssd & Hnum & _).
  exists l', acq', c', s'. by split_and!.
Qed.

(** A pass on a shard with slots: the loop, then the end of [evict] on the
    locals of the loop. *)
Lemma evict_pass_run acq c sh s bytesToFree evictAll pagesToAcquire :
  shards_ c !! sh = Some s → ShardInv s →
  0 < Z.of_nat (length (entries_ s)) < 2 ^ 31 →
  let skip := match ssdCache_ c with Some ssd => writeInProgress ssd | None => false end in
  let c0 :=
    set_trace_ (trace_ c ++ [EvEvict sh bytesToFree evictAll pagesToAcquire; EvLock sh]) c in
  let l0 :=
    {| ev_tinyFreed := 0; ev_largeFreed := 0; ev_evictSaveableSkipped := 0;
       ev_now := now_ c; ev_toFree := [];
       ev_numChecked := 0;
       ev_entryIndex := Z.to_nat (clockHand_ s `rem` Z.of_nat (length (entries_ s)));
       ev_pagesToAcquire := pagesToAcquire |} in
  ∃ l acq1 c1,
    evict_loop sh bytesToFree evictAll skip (length (entries_ s)) l0 (acq, c0)
    = Ok l (acq1, c1)
    ∧ ssdCache_ c1 = ssdCache_ c ∧ numSkippedSaves_ c1 = numSkippedSaves_ c
    ∧ CacheShard_evict sh bytesToFree evictAll pagesToAcquire (acq, c)
      = liftCache (evict_unlocked l) (acq1, set_trace_ (trace_ c1 ++ [EvUnlock sh]) c1).
Proof.
  intros Hs Hinv Hlen skip c0 l0.
  assert (ev_entryIndex l0 < length (entries_ s))%nat as Hidx.
  { cbn. pose proof (Z.rem_bound_abs (clockHand_ s) (Z.of_nat (length (entries_ s)))
                       ltac:(lia)). lia. }
  destruct (evict_loop_run sh bytesToFree evictAll skip (length (entries_ s)) l0 acq c0 s
              Hs Hinv Hidx) as (l & acq1 & c1 & s1 & Hloop & _ & _ & _ & Hssd & Hnum).
  exists l, acq1, c1. split_and!; [done..|].
  unfold CacheShard_evict.
  erewrite bind_Ok by reflexivity. erewrite bind_Ok by reflexivity.
  erewrite bind_Ok by reflexivity. cbv beta zeta.
  rewrite run_assoc. erewrite bind_Ok by reflexivity.
  assert (evict_locked sh bytesToFree evictAll skip pagesToAcquire (now_ c) (acq, c0)
          = Ok (Some l) (acq1, c1)) as Hlocked.
  { unfold evict_locked.
    erewrite run_liftCache by (by apply getShard_Ok).
    cbv zeta. rewrite int32_small by lia.
    destruct (Z.eqb_spec (Z.of_nat (length (entries_ s))) 0) as [?|_]; [lia|].
    rewrite Nat2Z.id. by erewrite bind_Ok by exact Hloop. }
  cbv beta. norm. rewrite <- app_assoc. cbn [app].
  erewrite run_finally by exact Hlocked.
  reflexivity.
Qed.

Lemma stays_kept prot s s1 s' i p e :
  ShardInv s1 → stays prot s s1 → shardKept s1 s' →
  entries_ s !! i = Some (Some p) → heap_ s !! p = Some e → prot e →
  entries_ s' !! i = Some (Some p)
  ∧ (∀ k, entryMap_ s !! k = Some p → entryMap_ s' !! k = Some p)
  ∧ (p ∉ freeEntries_ s')
  ∧ ∃ e', heap_ s' !! p = Some e'
      ∧ key_ e' = key_ e ∧ size_ e' = size_ e
      ∧ data_ e' = data_ e ∧ tinyData_ e' = tinyData_ e.
Proof.
  intros Hinv1 [_ Hst] (Hm & Hen & _ & Hf & Hh) Hi Hp Hprot.
  destruct (Hst i p e Hi Hp Hprot) as (Hi1 & Hp1 & Hm1).
  rewrite Hm, Hen, Hf. split_and!; [done|done| |].
  - intros Hin. eapply (ShardInv_slot_free s1 p); [done| |done].
    by eapply slotEntries_lookup.
  - specialize (Hh p). rewrite Hp1 in Hh.
    inversion Hh as [? e' (? & ? & ? & ? & _)|]; subst. eauto 10.
Qed.


(** ** The shape of a shard under the changes of [findOrCreate] *)

(** A new entry, without key, is allocated. *)
Lemma ShardInv_alloc s s' p e0 :
  heap_ s !! p = None → fileNum (key_ e0) = None →
  heap_ s' = <[p := e0]> (heap_ s) → entryMap_ s' = entryMap_ s →
  entries_ s' = entries_ s → emptySlots_ s' = emptySlots_ s →
  freeEntries_ s' = freeEntries_ s →
  ShardInv s → ShardInv s'.
Proof.
  intros Hp Hkey Hh Hm He Hes Hf [].
  assert (∀ q, is_Some (heap_ s !! q) → q ≠ p) as Hne.
  { intros q [? Hq] ->. congruence. }
  split; unfold slotEntries in *; rewrite ?Hh, ?Hm, ?He, ?Hes, ?Hf; try done.
  - intros k q Hk. destruct (inv_map_key0 k q Hk) as (eq & Hq & Hr).
    rewrite lookup_insert_ne; [eauto|]. intros <-. congruence.
  - intros q eq k Hq Hr. destruct (decide (q = p)) as [->|Hnp].
    + rewrite lookup_insert_eq in Hq. injection Hq as <-. by rewrite rawKey_None in Hr.
    + rewrite lookup_insert_ne in Hq by done. eauto.
  - intros q Hq. rewrite lookup_insert_ne; [eauto|]. intros <-.
    by eapply (Hne p); [apply inv_slots0|].
  - intros q Hq. destruct (inv_free0 q Hq) as (eq & Hqe & ?).
    rewrite lookup_insert_ne; [eauto|]. intros <-. congruence.
Qed.

(** The last entry of the recycler is taken out. *)
Lemma ShardInv_unfree s s' p :
  last (freeEntries_ s) = Some p →
  heap_ s' = heap_ s → entryMap_ s' = entryMap_ s →
  entries_ s' = entries_ s → emptySlots_ s' = emptySlots_ s →
  freeEntries_ s' = removelast (freeEntries_ s) →
  ShardInv s →
  ShardInv s' ∧ (p ∉ slotEntries s') ∧ (p ∉ freeEntries_ s')
  ∧ ∃ e, heap_ s' !! p = Some e ∧ fileNum (key_ e) = None ∧ size_ e = 0.
Proof.
  intros Hlast Hh Hm He Hes Hf Hinv.
  assert (freeEntries_ s = removelast (freeEntries_ s) ++ [p]) as Hfree.
  { apply last_Some in Hlast as [l' Hl]. rewrite Hl at 1.
    rewrite Hl, removelast_last. done. }
  pose proof (inv_owned _ Hinv) as Hnd. rewrite Hfree, app_assoc in Hnd.
  apply NoDup_app in Hnd as (Hnd & Hdisj & _).
  assert (p ∉ slotEntries s ++ removelast (freeEntries_ s)) as Hnot.
  { intros Hin. eapply Hdisj; [done|]. by apply list_elem_of_singleton. }
  apply not_elem_of_app in Hnot as [Hns Hnf].
  split_and!.
  - destruct Hinv.
    split; unfold slotEntries in *; rewrite ?Hh, ?Hm, ?He, ?Hes, ?Hf; try done.
    intros q Hq. apply inv_free0. rewrite Hfree. apply elem_of_app. by left.
  - unfold slotEntries in *. by rewrite He.
  - by rewrite Hf.
  - rewrite Hh. apply (inv_free _ Hinv). rewrite Hfree. apply elem_of_app. right.
    by apply list_elem_of_singleton.
Qed.

Lemma slotEntries_fill (l : list (option EntryPtr)) i p :
  l !! i = Some None →
  omap id (<[i := Some p]> l) ≡ₚ p :: omap id l.
Proof.
  revert i. induction l as [|x l IH]; intros i Hi; [done|].
  destruct i as [|i]; cbn in *.
  - by injection Hi as ->.
  - destruct x as [q|]; cbn.
    + rewrite (IH _ Hi). apply Permutation_swap.
    + by apply IH.
Qed.

(** An entry that no container owns is put in a slot: a new one at the end,
    or the empty one whose index is the last recorded. *)
Lemma ShardInv_place s s' p :
  is_Some (heap_ s !! p) → p ∉ slotEntries s → p ∉ freeEntries_ s →
  heap_ s' = heap_ s → entryMap_ s' = entryMap_ s → freeEntries_ s' = freeEntries_ s →
  match last (emptySlots_ s) with
  | None => entries_ s' = entries_ s ++ [Some p] ∧ emptySlots_ s' = emptySlots_ s
  | Some index =>
      entries_ s' = <[index := Some p]> (entries_ s)
      ∧ emptySlots_ s' = removelast (emptySlots_ s)
  end →
  ShardInv s →
  ShardInv s' ∧ p ∈ slotEntries s'.
Proof.
  intros Hp Hns Hnf Hh Hm Hf Hplace Hinv.
  assert (slotEntries s' ≡ₚ p :: slotEntries s
          ∧ (∀ i, i ∈ emptySlots_ s' → entries_ s' !! i = Some None)
          ∧ NoDup (emptySlots_ s')) as (Hperm & Hes & Hnd).
  { destruct (last (emptySlots_ s)) as [index|] eqn:Hlast.
    - destruct Hplace as [He Hes].
      assert (emptySlots_ s = removelast (emptySlots_ s) ++ [index]) as Hsplit.
      { apply last_Some in Hlast as [l' Hl]. rewrite Hl at 1.
        rewrite Hl, removelast_last. done. }
      pose proof (inv_emptySlots_nodup _ Hinv) as Hnd. rewrite Hsplit in Hnd.
      apply NoDup_app in Hnd as (Hnd & Hdisj & _).
      assert (entries_ s !! index = Some None) as Hidx.
      { apply (inv_emptySlots _ Hinv). rewrite Hsplit. apply elem_of_app. right.
        by apply list_elem_of_singleton. }
      split_and!.
      + unfold slotEntries. rewrite He. by apply slotEntries_fill.
      + rewrite Hes, He. intros i Hi. rewrite list_lookup_insert_ne.
        * apply (inv_emptySlots _ Hinv). rewrite Hsplit. apply elem_of_app. by left.
        * intros <-. eapply Hdisj; [done|]. by apply list_elem_of_singleton.
      + by rewrite Hes.
    - destruct Hplace as [He Hes]. split_and!.
      + unfold slotEntries. rewrite He, omap_app. cbn.
        by rewrite <- Permutation_cons_append.
      + rewrite Hes, He. intros i Hi.
        pose proof (inv_emptySlots _ Hinv i Hi) as Hi'.
        rewrite lookup_app_l; [done|]. by eapply lookup_lt_Some.
      + rewrite Hes. apply (inv_emptySlots_nodup _ Hinv). }
  split; [|rewrite Hperm; by left].
  destruct Hinv. split; rewrite ?Hh, ?Hm, ?Hf; try done.
  - intros q Hq. rewrite Hperm in Hq. apply elem_of_cons in Hq as [->|Hq]; eauto.
  - rewrite Hperm. cbn. apply NoDup_cons. split; [|done].
    intros [?|?]%elem_of_app; done.
Qed.

(** The entry the map has under [key] gets that key. *)
Lemma ShardInv_bind s s' key p e e' :
  entryMap_ s !! key = Some p → heap_ s !! p = Some e →
  rawKey (key_ e') = Some key →
  p ∉ freeEntries_ s →
  heap_ s' = <[p := e']> (heap_ s) → entryMap_ s' = entryMap_ s →
  entries_ s' = entries_ s → emptySlots_ s' = emptySlots_ s →
  freeEntries_ s' = freeEntries_ s →
  fileNum (key_ e) = None →
  ShardInv (set_entryMap_ (delete key (entryMap_ s)) s) → ShardInv s'.
Proof.
  intros Hk Hp Hr Hsize Hh Hm He Hes Hf Hnone [].
  cbn in *. unfold slotEntries in *. cbn in *.
  split; unfold slotEntries in *; rewrite ?Hh, ?Hm, ?He, ?Hes, ?Hf; try done.
  - intros k q Hkq. destruct (decide (k = key)) as [->|Hne].
    + assert (q = p) as -> by congruence. rewrite lookup_insert_eq. eauto.
    + destruct (inv_map_key0 k q) as (eq & Hq & Hrq).
      { by rewrite lookup_delete_ne. }
      rewrite lookup_insert_ne; [eauto|]. intros <-.
      rewrite Hp in Hq. injection Hq as <-. by rewrite rawKey_None in Hrq.
  - intros q eq k Hq Hrq. destruct (decide (q = p)) as [->|Hnp].
    + rewrite lookup_insert_eq in Hq. injection Hq as <-. congruence.
    + rewrite lookup_insert_ne in Hq by done.
      pose proof (inv_key_map0 _ _ _ Hq Hrq) as Hd.
      by apply lookup_delete_Some in Hd as [_ ?].
  - intros q Hq. destruct (decide (q = p)) as [->|Hne].
    + rewrite lookup_insert_eq. eauto.
    + rewrite lookup_insert_ne by done. eauto.
  - intros q Hq. destruct (inv_free0 q Hq) as (eq & Hqe & Hkq & Hz).
    rewrite lookup_insert_ne; [eauto|]. by intros <-.
Qed.

(** ** [findOrCreate], step by step *)

Lemma onShard_getFreeEntry sh s key Ξ :
  ShardInv (withoutKey key s) →
  onShard id sh s (CacheShard_getFreeEntry sh : M (@AsyncDataCache Allocator Ssd) _)
    (λ p s',
       ShardInv (withoutKey key s')
       ∧ (∃ e, heap_ s' !! p = Some e ∧ fileNum (key_ e) = None ∧ size_ e = 0)
       ∧ (p ∉ slotEntries s') ∧ (p ∉ freeEntries_ s')
       ∧ entryMap_ s' = entryMap_ s ∧ entries_ s' = entries_ s
       ∧ emptySlots_ s' = emptySlots_ s
       ∧ (∀ q, q ≠ p → heap_ s' !! q = heap_ s !! q)
       ∧ (heap_ s !! p = None ∨ p ∈ freeEntries_ s)) Ξ.
Proof.
  intros Hinv. unfold CacheShard_getFreeEntry. shard_step.
  destruct (last (freeEntries_ s)) as [p|] eqn:Hlast.
  - do 2 shard_step.
    destruct (ShardInv_unfree (withoutKey key s)
                (withoutKey key (set_freeEntries_ (removelast (freeEntries_ s)) s)) p)
      as (Hinv' & Hns & Hnf & e & He & Hk & Hz); try done.
    split_and!; try done.
    + by exists e.
    + right. by apply last_Some_elem_of.
  - do 2 shard_step.
    set (p := fresh (dom (heap_ s))).
    assert (heap_ s !! p = None) as Hp by apply not_elem_of_dom, is_fresh.
    split_and!; try done.
    + eapply ShardInv_alloc with (s := withoutKey key s) (p := p)
        (e0 := AsyncDataCacheEntry_new); done.
    + exists AsyncDataCacheEntry_new. split; [apply lookup_insert_eq|done].
    + intros Hin. destruct (inv_slots _ Hinv p Hin) as [? Hq]. cbn in Hq. congruence.
    + intros Hin. destruct (inv_free _ Hinv p Hin) as (? & Hq & _). cbn in Hq. congruence.
    + intros q Hq. cbn. by rewrite lookup_insert_ne.
    + by left.
Qed.

Lemma onShard_findOrCreate_newEntry sh s key size Ξ :
  ShardInv (withoutKey key s) →
  onShard id sh s
    (findOrCreate_newEntry sh key size : M (@AsyncDataCache Allocator Ssd) _)
    (λ r s', ∃ p e,
       r = EntryToInit p
       ∧ ShardInv (withoutKey key s')
       ∧ entryMap_ s' !! key = Some p
       ∧ heap_ s' !! p = Some e ∧ numPins_ e = kExclusive
       ∧ fileNum (key_ e) = None ∧ size_ e = size
       ∧ (p ∉ freeEntries_ s') ∧ p ∈ slotEntries s'
       ∧ (∀ q, q ≠ p → heap_ s' !! q = heap_ s !! q)
       ∧ (heap_ s !! p = None ∨ p ∈ freeEntries_ s)) Ξ.
Proof.
  intros Hinv. unfold findOrCreate_newEntry.
  eapply onShard_bind; [by apply onShard_getFreeEntry with (key := key)|].
  cbv beta. intros p sb (Hinvb & (eb & Heb & Hkb & Hzb) & Hns & Hnf & Hmb & Henb & Hesb
                         & Hframe & Horigin).
  do 4 shard_step.
  set (e2 := set_promise_ None (set_numPins_ kExclusive eb)).
  set (e3 := set_isFirstUse_ true (set_size_ size e2)).
  (* the entry as it will be, in the shard without the binding *)
  set (X1 := set_heap_ (<[p := e3]> (heap_ sb)) (withoutKey key sb)).
  assert (ShardInv X1) as HinvX.
  { eapply ShardInv_entry with (s := withoutKey key sb) (p := p) (e := eb) (e' := e3);
      try done. by right. }
  assert (∀ s', heap_ s' = <[p := e3]> (heap_ sb) →
            entryMap_ s' = <[key := p]> (entryMap_ sb) →
            freeEntries_ s' = freeEntries_ sb →
            match last (emptySlots_ sb) with
            | None => entries_ s' = entries_ sb ++ [Some p]
                      ∧ emptySlots_ s' = emptySlots_ sb
            | Some index => entries_ s' = <[index := Some p]> (entries_ sb)
                            ∧ emptySlots_ s' = removelast (emptySlots_ sb)
            end →
            ∃ p0 e0, EntryToInit p = EntryToInit p0
              ∧ ShardInv (withoutKey key s')
              ∧ entryMap_ s' !! key = Some p0
              ∧ heap_ s' !! p0 = Some e0 ∧ numPins_ e0 = kExclusive
              ∧ fileNum (key_ e0) = None ∧ size_ e0 = size
              ∧ (p0 ∉ freeEntries_ s') ∧ p0 ∈ slotEntries s'
              ∧ (∀ q, q ≠ p0 → heap_ s' !! q = heap_ s !! q)
              ∧ (heap_ s !! p0 = None ∨ p0 ∈ freeEntries_ s)) as Hfin.
  { intros s' Hh Hm Hf Hplace.
    destruct (ShardInv_place X1 (withoutKey key s') p) as [Hinv' Hslot]; try done.
    - cbn. rewrite lookup_insert_eq. eauto.
    - cbn. by rewrite Hm, delete_insert_eq.
    - exists p, e3. split_and!; try done.
      + rewrite Hm. apply lookup_insert_eq.
      + rewrite Hh. apply lookup_insert_eq.
      + by rewrite Hf.
      + intros q Hq. rewrite Hh, lookup_insert_ne by done. by apply Hframe. }
  destruct (last (emptySlots_ sb)) as [index|] eqn:Hlast.
  - do 2 shard_step.
    assert (entries_ sb !! index = Some None) as Hidx.
    { apply (inv_emptySlots _ Hinvb). by apply last_Some_elem_of. }
    rewrite Hidx. do 5 shard_step.
    eapply onShard_bind; [shard_prim; intros Hz; cbn in Hz; lia|shard_intro].
    do 3 shard_step. by apply Hfin.
  - do 3 shard_step.
    eapply onShard_bind; [shard_prim; intros Hz; cbn in Hz; lia|shard_intro].
    do 3 shard_step. by apply Hfin.
Qed.

Lemma shardKept_refl_on s s' :
  heap_ s' = heap_ s → entryMap_ s' = entryMap_ s → entries_ s' = entries_ s →
  emptySlots_ s' = emptySlots_ s → freeEntries_ s' = freeEntries_ s →
  shardKept s s'.
Proof.
  intros Hh Hm He Hes Hf. split_and!; try done. intros p. rewrite Hh.
  destruct (heap_ s !! p); constructor. by split_and!.
Qed.

Lemma withoutKey_miss s key :
  entryMap_ s !! key = None → ShardInv s → ShardInv (withoutKey key s).
Proof.
  intros Hk Hinv. eapply ShardInv_ext; [..|exact Hinv]; try done.
  cbn. by apply delete_id.
Qed.

Lemma shardKept_entry s s' p e e' :
  heap_ s !! p = Some e → heap_ s' = <[p := e']> (heap_ s) → entryKept e e' →
  entryMap_ s' = entryMap_ s → entries_ s' = entries_ s →
  emptySlots_ s' = emptySlots_ s → freeEntries_ s' = freeEntries_ s →
  shardKept s s'.
Proof.
  intros Hp Hh Hke Hm He Hes Hf. split_and!; try done. intros q. rewrite Hh.
  destruct (decide (q = p)) as [->|Hne].
  - rewrite lookup_insert_eq, Hp. by constructor.
  - rewrite lookup_insert_ne by done. destruct (heap_ s !! q); constructor.
    by split_and!.
Qed.

(** The locked block of [findOrCreate]: it answers from the entry found, or
    leaves a new exclusive entry bound to the key, whose own key is set
    after the lock is released. *)
Lemma onShard_findOrCreate_locked sh s key size wait Ξ :
  ShardInv s →
  onShard id sh s
    (findOrCreate_locked sh key size wait : M (@AsyncDataCache Allocator Ssd) _)
    (λ r s',
       match r with
       | Return _ _ =>
           shardKept s s'
           ∧ ∃ found e0, entryMap_ s !! key = Some found ∧ heap_ s !! found = Some e0
               ∧ (isExclusive e0 = true ∨ size ≤ size_ e0)
       | EntryToInit p =>
           ∃ e, ShardInv (withoutKey key s')
             ∧ entryMap_ s' !! key = Some p
             ∧ heap_ s' !! p = Some e ∧ numPins_ e = kExclusive
             ∧ fileNum (key_ e) = None
             ∧ (p ∉ freeEntries_ s') ∧ p ∈ slotEntries s'
             ∧ (∀ found e0, entryMap_ s !! key = Some found →
                  heap_ s !! found = Some e0 →
                  found ≠ p
                  ∧ heap_ s' !! found = Some (set_key_ (clearFileNum (key_ e0)) e0))
       end) Ξ.
Proof.
  intros Hinv. unfold findOrCreate_locked. repeat shard_step.
  lazymatch goal with |- onShard _ _ ?x _ _ _ => set (s0 := x) end.
  assert (shardKept s s0) as Hk0 by by apply shardKept_refl_on.
  assert (ShardInv s0) as Hinv0 by by eapply ShardInv_kept.
  destruct (entryMap_ s !! key) as [found|] eqn:Hfound.
  - destruct (inv_map_key _ Hinv _ _ Hfound) as (e0 & He0 & Hr0).
    shard_step.
    destruct (isExclusive e0) eqn:Hex; [|destruct (size <=? size_ e0) eqn:Hsz].
    + assert (∀ s' e', heap_ s' = <[found := e']> (heap_ s) → entryKept e0 e' →
                entryMap_ s' = entryMap_ s → entries_ s' = entries_ s →
                emptySlots_ s' = emptySlots_ s → freeEntries_ s' = freeEntries_ s →
                shardKept s s'
                ∧ ∃ found' e0', Some found = Some found' ∧ heap_ s !! found' = Some e0'
                    ∧ (isExclusive e0' = true ∨ size ≤ size_ e0')) as Hfin.
      { intros s' e' Hh Hke Hm Hen Hes Hf. split; [by eapply shardKept_entry|].
        exists found, e0. split_and!; [done..|by left]. }
      repeat shard_step. destruct wait.
      * unfold AsyncDataCacheEntry_getFuture. repeat shard_step.
        destruct (promise_ e0) as [pr|] eqn:Hpr; repeat shard_step.
        -- eapply (Hfin _ e0); first [done|by cbn; rewrite insert_id].
        -- eapply Hfin; first [done|by split_and!].
      * repeat shard_step. eapply (Hfin _ e0); first [done|by cbn; rewrite insert_id].
    + assert (∀ s' e', heap_ s' = <[found := e']> (heap_ s) → entryKept e0 e' →
                entryMap_ s' = entryMap_ s → entries_ s' = entries_ s →
                emptySlots_ s' = emptySlots_ s → freeEntries_ s' = freeEntries_ s →
                shardKept s s'
                ∧ ∃ found' e0', Some found = Some found' ∧ heap_ s !! found' = Some e0'
                    ∧ (isExclusive e0' = true ∨ size ≤ size_ e0')) as Hfin.
      { intros s' e' Hh Hke Hm Hen Hes Hf. split; [by eapply shardKept_entry|].
        exists found, e0. split_and!; [done..|right; lia]. }
      repeat shard_step. destruct (isPrefetch_ e0).
      * unfold AsyncDataCacheEntry_setPrefetch, AsyncDataCache_incrementPrefetchPages.
        repeat shard_step.
        eapply Hfin; first [done|unfold entryKept; cbn; split_and!; try done; lia].
      * repeat shard_step. eapply Hfin; first [done|unfold entryKept; cbn; split_and!; try done; lia].
    + shard_step.
      lazymatch goal with |- onShard _ _ ?x _ _ _ => set (sa := x) end.
      eapply onShard_conseq;
        [apply onShard_findOrCreate_newEntry with (Ξ := λ _ _, False)|..]; [| |done].
      * subst sa. eapply ShardInv_remove with (s := s0) (p := found) (e := e0)
          (e' := set_key_ (clearFileNum (key_ e0)) e0); done.
      * intros r s' (p & e & -> & Hinv' & Hmap & Hp & Hpin & Hkey & Hsize & Hnf & Hslot
                     & Hframe & Horigin).
        exists e. split_and!; try done.
        intros found' e0' [= <-] He0'. assert (e0' = e0) as -> by congruence.
        assert (found ≠ p) as Hne.
        { intros ->. destruct Horigin as [Hnone|Hfree].
          - cbn in Hnone. by rewrite lookup_insert_eq in Hnone.
          - cbn in Hfree. destruct (inv_free _ Hinv _ Hfree) as (? & Hq & Hkq & _).
            rewrite He0 in Hq. injection Hq as <-. by apply rawKey_Some in Hr0. }
        split; [done|]. rewrite Hframe by done. cbn. apply lookup_insert_eq.
  - eapply onShard_conseq;
      [apply onShard_findOrCreate_newEntry with (Ξ := λ _ _, False)|..]; [| |done].
    + apply withoutKey_miss; [done|done].
    + intros r s' (p & e & -> & Hinv' & Hmap & Hp & Hpin & Hkey & Hsize & Hnf & Hslot
                   & Hframe & Horigin).
      exists e. split_and!; try done.
Qed.

Lemma onShard_deref_none {X} sh s p (f : _ → M (@AsyncDataCache Allocator Ssd) X) Φ
    (Ξ : Exn → CacheShard → Prop) :
  heap_ s !! p = None → Ξ UndefinedBehaviour s →
  onShard id sh s (deref sh p ≫= f) Φ Ξ.
Proof.
  intros Hp HΞ c Hs. cbn in Hs. unfold wp, deref.
  rewrite run_assoc. erewrite run_getShard by exact Hs. rewrite Hp.
  unfold mbind, M_bind, throw. eauto.
Qed.

(** [release] of an exclusive entry: the entry leaves the map. *)
Lemma onShard_release_exclusive sh s p e :
  ShardInv s → heap_ s !! p = Some e → numPins_ e = kExclusive →
  onShard id sh s (AsyncDataCacheEntry_release sh p : M (@AsyncDataCache Allocator Ssd) _)
    (λ _ s',
       ShardInv s' ∧ (∀ q, q ≠ p → heap_ s' !! q = heap_ s !! q)
       ∧ (∀ k, entryMap_ s' !! k ≠ Some p)
       ∧ ∃ e', heap_ s' !! p = Some e' ∧ fileNum (key_ e') = None ∧ numPins_ e' = 0)
    (λ _ s', s' = s).
Proof.
  intros Hinv He Hpin. unfold AsyncDataCacheEntry_release. shard_step.
  eapply onShard_bind; [shard_prim; done|shard_intro].
  rewrite Hpin, Z.eqb_refl.
  unfold CacheShard_removeEntry, withLock.
  eapply onShard_bind with
    (Ψ := λ (_ : option Promise) s1,
       ShardInv s1 ∧ (∀ q, q ≠ p → heap_ s1 !! q = heap_ s !! q)
       ∧ (∀ k, entryMap_ s1 !! k ≠ Some p)
       ∧ ∃ e1, heap_ s1 !! p = Some e1 ∧ fileNum (key_ e1) = None).
  { shard_step. apply onShard_finally; [|neutral_go].
    eapply onShard_bind; [by eapply onShard_removeEntryLocked_inv|].
    cbv beta. intros [] s1 (Hinv1 & _ & Hen & Hes & Hf & Hmap & e1 & He1 & Hk1 & Hsz1 & _
                            & _ & _ & Hframe).
    unfold AsyncDataCacheEntry_movePromise. repeat shard_step.
    split_and!.
    - eapply ShardInv_entry with (s := s1) (p := p) (e := e1)
        (e' := set_promise_ None e1); try done. by left.
    - intros q Hq. cbn. rewrite lookup_insert_ne by done. by apply Hframe.
    - done.
    - eexists. split; [apply lookup_insert_eq|exact Hk1]. }
  intros promise s1 (Hinv1 & Hframe1 & Hmap1 & e1 & He1 & Hk1).
  eapply onShard_bind with (Ψ := λ _ s2, s2 = s1).
  { destruct promise; [shard_prim|by apply onShard_ret]. }
  intros [] ? ->. eapply onShard_conseq; [shard_prim| |intros ? ? Hx; exact Hx].
  intros [] ? ->. split_and!.
  - eapply ShardInv_entry with (s := s1) (p := p) (e := e1)
      (e' := set_numPins_ 0 e1); try done. by left.
  - intros q Hq. cbn. rewrite lookup_insert_ne by done. by apply Hframe1.
  - done.
  - eexists. split; [apply lookup_insert_eq|by split].
Qed.

Lemma rawKey_makeKey key : rawKey (makeKey key) = Some key.
Proof. by destruct key. Qed.

(** [initialize] gives the new entry its key, and its buffer if the
    allocator has the pages; if not, the entry is released. *)
Lemma onShard_initialize sh s p e key :
  ShardInv (withoutKey key s) → entryMap_ s !! key = Some p →
  heap_ s !! p = Some e → numPins_ e = kExclusive →
  fileNum (key_ e) = None → p ∉ freeEntries_ s →
  onShard id sh s
    (AsyncDataCacheEntry_initialize sh p (makeKey key)
     : M (@AsyncDataCache Allocator Ssd) _)
    (λ _ s',
       ShardInv s' ∧ entryMap_ s' = entryMap_ s
       ∧ (∀ q, q ≠ p → heap_ s' !! q = heap_ s !! q)
       ∧ ∃ e', heap_ s' !! p = Some e' ∧ key_ e' = makeKey key
           ∧ numPins_ e' = kExclusive)
    (λ _ s', ShardInv s' ∧ (∀ q, q ≠ p → heap_ s' !! q = heap_ s !! q)).
Proof.
  intros Hinv Hmap He Hpin Hkey Hnf. unfold AsyncDataCacheEntry_initialize.
  shard_step.
  eapply onShard_bind; [shard_prim|shard_intro].
  { unfold isExclusive. rewrite Hpin, Z.eqb_refl. done. }
  do 2 shard_step.
  set (e2 := set_key_ (makeKey key) (setSsdFile None 0 e)).
  lazymatch goal with |- onShard _ _ ?x _ _ _ => set (s2 := x) end.
  assert (ShardInv s2) as Hinv2.
  { eapply ShardInv_bind with (s := s) (p := p) (e := e) (e' := e2); try done.
    apply rawKey_makeKey. }
  assert (∀ s' e', heap_ s' = <[p := e']> (heap_ s) → key_ e' = makeKey key →
            entryMap_ s' = entryMap_ s → entries_ s' = entries_ s →
            emptySlots_ s' = emptySlots_ s → freeEntries_ s' = freeEntries_ s →
            ShardInv s' ∧ (∀ q, q ≠ p → heap_ s' !! q = heap_ s !! q)) as Hfin.
  { intros s' e' Hh Hk Hm Hen Hes Hf. split.
    - eapply ShardInv_entry with (s := s2) (p := p) (e := e2) (e' := e'); try done.
      + apply lookup_insert_eq.
      + right. done.
      + rewrite Hh. subst s2. cbn. by rewrite insert_insert_eq.
    - intros q Hq. rewrite Hh. by rewrite lookup_insert_ne. }
  assert (∀ s' e', heap_ s' = <[p := e']> (heap_ s) → key_ e' = makeKey key →
            numPins_ e' = kExclusive →
            entryMap_ s' = entryMap_ s → entries_ s' = entries_ s →
            emptySlots_ s' = emptySlots_ s → freeEntries_ s' = freeEntries_ s →
            ShardInv s' ∧ entryMap_ s' = entryMap_ s
            ∧ (∀ q, q ≠ p → heap_ s' !! q = heap_ s !! q)
            ∧ ∃ e'', heap_ s' !! p = Some e'' ∧ key_ e'' = makeKey key
                ∧ numPins_ e'' = kExclusive) as Hfin'.
  { intros s' e' Hh Hk Hpin' Hm Hen Hes Hf.
    destruct (Hfin s' e') as [? ?]; try done. split_and!; try done.
    exists e'. rewrite Hh. split; [apply lookup_insert_eq|done]. }
  subst s2. destruct (size_ e <? kTinyDataSize).
  - eapply onShard_conseq; [shard_prim| |intros ? ? Hx; exact Hx].
    intros [] ? ->. eapply Hfin'; first [done|by cbn; rewrite insert_insert_eq].
  - do 2 shard_step. destruct x as [ok data]. shard_step. destruct ok.
    + eapply onShard_conseq; [shard_prim| |intros ? ? Hx; exact Hx].
      intros [] ? ->. eapply Hfin'; first [done|by cbn; rewrite ?insert_insert_eq].
    + lazymatch goal with |- onShard _ _ ?x _ _ _ => set (s4 := x) end.
      destruct (Hfin s4 (set_data_ data (set_tinyData_ [] e2))) as [Hinv4 Hframe4];
        try done.
      eapply onShard_bind.
      { eapply onShard_conseq;
          [eapply onShard_release_exclusive with (s := s4); [done|apply lookup_insert_eq|done]
          |intros ? s' Hpost; exact Hpost|].
        intros _ ? ->. by split. }
      cbv beta. intros [] s5 (Hinv5 & Hframe5 & _). apply onShard_throw.
      split; [done|]. intros q Hq. rewrite Hframe5 by done. by apply Hframe4.
Qed.

Lemma neutral_incrementNew n :
  neutral id (AsyncDataCache_incrementNew n : M (@AsyncDataCache Allocator Ssd) _).
Proof. unfold AsyncDataCache_incrementNew. neutral_go. Qed.

#[local] Hint Resolve neutral_incrementNew : neutral.

(** [findOrCreate] as a whole: the shard is in shape when it ends, however
    it ends; an entry it supersedes has lost its key, and the key is bound
    to the entry of the pin returned. *)
Lemma onShard_findOrCreate sh s key size wait :
  ShardInv s →
  let superseded s' :=
    ∀ found e0, entryMap_ s !! key = Some found → heap_ s !! found = Some e0 →
      isExclusive e0 = false → size_ e0 < size →
      heap_ s' !! found = Some (set_key_ (clearFileNum (key_ e0)) e0) in
  onShard id sh s
    (CacheShard_findOrCreate sh key size wait : M (@AsyncDataCache Allocator Ssd) _)
    (λ r s',
       ShardInv s' ∧ superseded s'
       ∧ ∀ found e0, entryMap_ s !! key = Some found → heap_ s !! found = Some e0 →
           isExclusive e0 = false → size_ e0 < size →
           ∃ p, r = (Some (pinOf sh p), None) ∧ p ≠ found
                ∧ entryMap_ s' !! key = Some p)
    (λ _ s', ShardInv s' ∧ superseded s').
Proof.
  intros Hinv superseded. unfold CacheShard_findOrCreate, withLock.
  eapply onShard_bind.
  { shard_step. apply onShard_finally; [|neutral_go].
    by apply onShard_findOrCreate_locked. }
  cbv beta. intros [pin fut|p] s1.
  - intros (Hk & found & e0 & Hfound & He0 & Hcase). apply onShard_ret.
    assert (∀ found' e0', entryMap_ s !! key = Some found' →
              heap_ s !! found' = Some e0' →
              isExclusive e0' = false → size_ e0' < size → False) as Hno.
    { intros found' e0' Hf' He' Hx Hsz. assert (found' = found) as -> by congruence.
      assert (e0' = e0) as -> by congruence. destruct Hcase; [congruence|lia]. }
    split_and!; [by eapply ShardInv_kept|..].
    + intros found' e0' ? ? ? ?. by destruct (Hno found' e0').
    + intros found' e0' ? ? ? ?. by destruct (Hno found' e0').
  - intros (e & Hinv1 & Hmap1 & He & Hpin & Hkey & Hnf & Hslot & Hsup).
    unfold CacheShard_initEntry.
    eapply onShard_bind.
    { eapply onShard_conseq; [by eapply onShard_initialize|intros ? ? Hx; exact Hx|].
      intros _ s' [Hinv' Hframe]. split; [done|].
      intros found e0 Hfound He0 _ _. destruct (Hsup found e0 Hfound He0) as [Hne Hh].
      by rewrite Hframe. }
    cbv beta. intros [] s2 (Hinv2 & Hmap2 & Hframe & e2 & He2 & _).
    repeat shard_step. split_and!; [done|..].
    + intros found e0 Hfound He0 _ _. destruct (Hsup found e0 Hfound He0) as [Hne Hh].
      by rewrite Hframe.
    + intros found e0 Hfound He0 _ _. destruct (Hsup found e0 Hfound He0) as [Hne Hh].
      exists p. split_and!; [done|done|]. by rewrite Hmap2.
Qed.

Lemma onShard_removeEntry sh s p :
  ShardInv s →
  onShard id sh s (CacheShard_removeEntry sh p : M (@AsyncDataCache Allocator Ssd) _)
    (λ _ s', ShardInv s') (λ _ s', ShardInv s').
Proof.
  intros Hinv. unfold CacheShard_removeEntry, withLock. shard_step.
  apply onShard_finally; [|neutral_go].
  destruct (heap_ s !! p) as [e|] eqn:He.
  - eapply onShard_bind; [by eapply onShard_removeEntryLocked_inv|].
    cbv beta. intros [] s1 (Hinv1 & _ & Hen & Hes & Hf & Hmap & e1 & He1 & Hk1 & _).
    unfold AsyncDataCacheEntry_movePromise. repeat shard_step.
    eapply ShardInv_entry with (s := s1) (p := p) (e := e1)
      (e' := set_promise_ None e1); try done. by left.
  - unfold CacheShard_removeEntryLocked. apply onShard_assoc.
    by apply onShard_deref_none.
Qed.

Lemma findOrCreate_aside sh key size wait :
  keeps (@aside Allocator Ssd sh) (CacheShard_findOrCreate sh key size wait).
Proof.
  unfold CacheShard_findOrCreate, withLock.
  apply keeps_bind; [apply _| |].
  - eapply keeps_weaken; [apply calmly_aside|].
    apply keeps_bind; [apply _|apply calmly_log; exact I|intros _].
    apply keeps_finally; [apply _|apply calmly_findOrCreate_locked|].
    apply calmly_log. exact I.
  - intros [pin fut|p]; [apply keeps_ret; apply _|].
    unfold CacheShard_initEntry.
    apply keeps_bind; [apply _| |intros _].
    { eapply keeps_weaken; [apply calmly_aside|apply calmly_initialize]. }
    eapply keeps_weaken; [apply (gently_aside sh)|].
    apply keeps_bind; [apply _|apply keeps_deref|intros e].
    apply keeps_bind; [apply _|apply keeps_incrementNew|intros _].
    apply keeps_ret; apply _.
Qed.

Lemma removeEntry_aside sh p :
  keeps (@aside Allocator Ssd sh) (CacheShard_removeEntry sh p).
Proof. eapply keeps_weaken; [apply calmly_aside|apply calmly_removeEntry]. Qed.

(** The cache is in shape after an operation on the shard [sh] that keeps
    the other shards and leaves [sh] in shape. *)
Lemma aside_onShard_CacheInv {X} sh (m : M (@AsyncDataCache Allocator Ssd) X) c
    (Φ : X → CacheShard → Prop) (Ξ : Exn → CacheShard → Prop) :
  keeps (aside sh) m →
  (∀ s, shards_ c !! sh = Some s → onShard id sh s m Φ Ξ) →
  (∀ x s', Φ x s' → ShardInv s') → (∀ ex s', Ξ ex s' → ShardInv s') →
  CacheInv c → CacheInv (stateOf (m c)).
Proof.
  intros Hk Hm HΦ HΞ Hinv sh' s2 Hs2.
  destruct (Hk c) as (_ & Hl & Ho).
  destruct (lookup_lt_is_Some_2 (shards_ c) sh') as [s Hs].
  { rewrite <- Hl. by eapply lookup_lt_Some. }
  destruct (decide (sh' = sh)) as [->|Hne].
  - specialize (Hm s Hs c Hs). unfold wp in Hm.
    destruct (m c) as [x c'|ex c']; cbn in *; destruct Hm as (s' & Hs' & Hpost);
      assert (s' = s2) as -> by congruence; eauto.
  - destruct (Ho sh' s Hne Hs) as (s2' & Hs2' & Hkept).
    assert (s2' = s2) as -> by congruence.
    eapply ShardInv_kept; [done|]. by eapply Hinv.
Qed.

(** ** C6: in the map iff the key is not cleared *)

Lemma evict_CacheInv acq c sh bytesToFree evictAll pagesToAcquire :
  CacheInv c →
  CacheInv (snd (stateOf (CacheShard_evict sh bytesToFree evictAll pagesToAcquire (acq, c)))).
Proof.
  intros Hinv sh' s2 Hs2.
  set (c0 := set_trace_ (trace_ c ++ [EvEvict sh bytesToFree evictAll pagesToAcquire]) c).
  assert (aside sh c0 (snd (stateOf (CacheShard_evict sh bytesToFree evictAll
                                       pagesToAcquire (acq, c))))) as (_ & Hl & Ho).
  { unfold CacheShard_evict.
    erewrite bind_Ok by reflexivity. erewrite bind_Ok by reflexivity.
    erewrite bind_Ok by reflexivity. cbv beta zeta.
    apply (evict_tail_aside sh bytesToFree evictAll _ pagesToAcquire (now_ c0) (acq, c0)). }
  destruct (lookup_lt_is_Some_2 (shards_ c) sh') as [s Hs].
  { change (shards_ c) with (shards_ c0). rewrite <- Hl. by eapply lookup_lt_Some. }
  destruct (decide (sh' = sh)) as [->|Hne].
  - destruct (evict_spec acq c sh s bytesToFree evictAll pagesToAcquire Hs (Hinv _ _ Hs))
      as (_ & s1 & s' & Hs' & Hinv1 & _ & Hk).
    assert (s' = s2) as -> by congruence. by eapply ShardInv_kept.
  - destruct (Ho sh' s Hne Hs) as (s2' & Hs2' & Hkept).
    assert (s2' = s2) as -> by congruence.
    eapply ShardInv_kept; [done|]. by eapply Hinv.
Qed.

Lemma CacheInv_iff c sh s p e :
  CacheInv c → shards_ c !! sh = Some s → heap_ s !! p = Some e →
  (∃ k, entryMap_ s !! k = Some p) ↔ hasValue (key_ e) = true.
Proof.
  intros Hinv Hs He. specialize (Hinv _ _ Hs). split.
  - intros [k Hk]. destruct (inv_map_key _ Hinv _ _ Hk) as (e' & He' & Hr).
    assert (e' = e) as -> by congruence. unfold rawKey, hasValue in *.
    by destruct (fileNum (key_ e)).
  - intros Hv. unfold hasValue in Hv.
    destruct (fileNum (key_ e)) as [f|] eqn:Hf; [|done].
    exists (f, offset (key_ e)). eapply inv_key_map; [done..|].
    unfold rawKey. by rewrite Hf.
Qed.

(** C6.  In a cache in shape, an entry is in the map of its shard iff the
    file number of its key is not cleared, and each of [findOrCreate],
    [removeEntry], [evict], [exists], [updateStats] and [appendSsdSaveable]
    leaves the cache in shape, whether it returns or throws.  Inside
    [findOrCreate], when the lock is released, the new entry is bound in the
    map and its key is set only by [initialize].  If [findOrCreate]
    supersedes an entry, that entry has lost its key and, if a pin is
    returned, the key is bound to the entry of the pin.
    [removeEntryLocked] leaves the entry without key and out of the map: if
    the key was set it erases the binding of that key, if not it changes
    nothing. *)
Theorem map_iff_key_not_cleared c :
  CacheInv c →
  (∀ sh s p e, shards_ c !! sh = Some s → heap_ s !! p = Some e →
     (∃ k, entryMap_ s !! k = Some p) ↔ hasValue (key_ e) = true)
  ∧ (∀ sh key size wait, CacheInv (stateOf (CacheShard_findOrCreate sh key size wait c)))
  ∧ (∀ sh p, CacheInv (stateOf (CacheShard_removeEntry sh p c)))
  ∧ (∀ sh bytesToFree evictAll pagesToAcquire acq,
       CacheInv (snd (stateOf (CacheShard_evict sh bytesToFree evictAll pagesToAcquire
                                 (acq, c)))))
  ∧ (∀ sh key, CacheInv (stateOf (CacheShard_exists sh key c)))
  ∧ (∀ sh stats, CacheInv (stateOf (CacheShard_updateStats sh stats c)))
  ∧ (∀ sh pins, CacheInv (stateOf (CacheShard_appendSsdSaveable sh pins c)))
  ∧ (∀ sh s key size wait, shards_ c !! sh = Some s →
       match withLock sh (findOrCreate_locked sh key size wait) c with
       | Ok (Return _ _) c' => CacheInv c'
       | Ok (EntryToInit p) c' =>
           ∃ s' e, shards_ c' !! sh = Some s' ∧ entryMap_ s' !! key = Some p
             ∧ heap_ s' !! p = Some e ∧ hasValue (key_ e) = false
             ∧ numPins_ e = kExclusive
       | Throw _ _ => False
       end)
  ∧ (∀ sh s key size wait found e0,
       shards_ c !! sh = Some s → entryMap_ s !! key = Some found →
       heap_ s !! found = Some e0 → isExclusive e0 = false → size_ e0 < size →
       ∃ s' e',
         shards_ (stateOf (CacheShard_findOrCreate sh key size wait c)) !! sh = Some s'
         ∧ heap_ s' !! found = Some e' ∧ hasValue (key_ e') = false
         ∧ ∀ r c', CacheShard_findOrCreate sh key size wait c = Ok r c' →
             ∃ p, r = (Some (pinOf sh p), None) ∧ p ≠ found
                  ∧ entryMap_ s' !! key = Some p)
  ∧ (∀ sh s p e, shards_ c !! sh = Some s → heap_ s !! p = Some e →
       ∃ c' s' e',
         CacheShard_removeEntryLocked sh p c = Ok tt c'
         ∧ shards_ c' !! sh = Some s' ∧ heap_ s' !! p = Some e'
         ∧ hasValue (key_ e') = false
         ∧ (∀ k, entryMap_ s' !! k ≠ Some p)
         ∧ match rawKey (key_ e) with
           | Some k => entryMap_ s !! k = Some p
                       ∧ entryMap_ s' = delete k (entryMap_ s)
           | None => c' = c
           end).
Proof.
  intros Hinv. split_and!.
  - intros sh s p e. by apply CacheInv_iff.
  - intros sh key size wait.
    eapply aside_onShard_CacheInv with (Φ := λ _ s', ShardInv s')
      (Ξ := λ _ s', ShardInv s'); [apply findOrCreate_aside| |done|done|done].
    intros s Hs. eapply onShard_conseq; [apply onShard_findOrCreate; by eapply Hinv|..].
    + by intros r s' (? & _).
    + by intros ex s' (? & _).
  - intros sh p.
    eapply aside_onShard_CacheInv with (Φ := λ _ s', ShardInv s')
      (Ξ := λ _ s', ShardInv s'); [apply removeEntry_aside| |done|done|done].
    intros s Hs. apply onShard_removeEntry. by eapply Hinv.
  - intros. by apply evict_CacheInv.
  - intros sh key. eapply gently_CacheInv; [apply keeps_exists|done].
  - intros sh stats. eapply gently_CacheInv; [apply keeps_updateStats|done].
  - intros sh pins. eapply gently_CacheInv; [apply keeps_appendSsdSaveable|done].
  - intros sh s key size wait Hs.
    assert (onShard id sh s (withLock sh (findOrCreate_locked sh key size wait)
                             : M (@AsyncDataCache Allocator Ssd) _)
              (λ r s', match r with
                       | Return _ _ => ShardInv s'
                       | EntryToInit p =>
                           ∃ e, entryMap_ s' !! key = Some p ∧ heap_ s' !! p = Some e
                             ∧ hasValue (key_ e) = false ∧ numPins_ e = kExclusive
                       end) (λ _ _, False)) as Hlocked.
    { unfold withLock. shard_step. apply onShard_finally; [|neutral_go].
      eapply onShard_conseq;
        [apply onShard_findOrCreate_locked with (Ξ := λ _ _, False); by eapply Hinv| |done].
      intros [pin fut|p] s'.
      - intros [Hk _]. eapply ShardInv_kept; [done|]. by eapply Hinv.
      - intros (e & _ & Hm & He & Hpin & Hkey & _). exists e. split_and!; try done.
        unfold hasValue. by rewrite Hkey. }
    pose proof (Hlocked c Hs) as Hwp. unfold wp in Hwp.
    assert (keeps (aside sh) (withLock sh (findOrCreate_locked sh key size wait)
                              : M (@AsyncDataCache Allocator Ssd) _)) as Hk.
    { eapply keeps_weaken; [apply calmly_aside|]. unfold withLock.
      apply keeps_bind; [apply _|apply calmly_log; exact I|intros _].
      apply keeps_finally; [apply _|apply calmly_findOrCreate_locked|].
      apply calmly_log. exact I. }
    assert (CacheInv (stateOf (withLock sh (findOrCreate_locked sh key size wait) c)) ∨
            ∃ p c', withLock sh (findOrCreate_locked sh key size wait) c
                    = Ok (EntryToInit p) c') as Hci.
    { destruct (withLock sh (findOrCreate_locked sh key size wait) c)
        as [[pin fut|p] c'|ex c'] eqn:Hrun; [|right; eauto|by destruct Hwp as (? & _ & [])].
      left. intros sh' s2 Hs2. cbn in Hs2. destruct Hwp as (s' & Hs' & Hinv').
      destruct (Hk c) as (_ & Hl & Ho). rewrite Hrun in Hl, Ho. cbn in Hl, Ho.
      destruct (lookup_lt_is_Some_2 (shards_ c) sh') as [s0 Hs0].
      { rewrite <- Hl. by eapply lookup_lt_Some. }
      destruct (decide (sh' = sh)) as [->|Hne].
      { cbn in Hs'. assert (s' = s2) as -> by congruence. done. }
      destruct (Ho sh' s0 Hne Hs0) as (s2' & Hs2' & Hkept).
      assert (s2' = s2) as -> by congruence.
      eapply ShardInv_kept; [done|]. by eapply Hinv. }
    destruct (withLock sh (findOrCreate_locked sh key size wait) c) as [[pin fut|p] c'|];
      cbn in *.
    + by destruct Hci as [?|(? & ? & ?)].
    + destruct Hwp as (s' & Hs' & e & ?). by exists s', e.
    + by destruct Hwp as (? & _ & []).
  - intros sh s key size wait found e0 Hs Hfound He0 Hex Hsz.
    pose proof (onShard_findOrCreate sh s key size wait (Hinv _ _ Hs) c Hs) as Hwp.
    unfold wp in Hwp.
    destruct (CacheShard_findOrCreate sh key size wait c) as [r c'|ex c']; cbn in *.
    + destruct Hwp as (s' & Hs' & _ & Hsup & Hpin).
      exists s', (set_key_ (clearFileNum (key_ e0)) e0). split_and!; [done|by eapply Hsup|done|].
      intros r' c'' [= <- <-]. by eapply Hpin.
    + destruct Hwp as (s' & Hs' & _ & Hsup).
      exists s', (set_key_ (clearFileNum (key_ e0)) e0). split_and!; [done|by eapply Hsup|done|].
      intros r' c'' [=].
  - intros sh s p e Hs He. pose proof (Hinv _ _ Hs) as Hinvs.
    destruct (rawKey (key_ e)) as [k|] eqn:Hr.
    + pose proof (inv_key_map _ Hinvs _ _ _ He Hr) as Hk.
      destruct (removeEntryLocked_Ok c sh s p e k Hs He Hr ltac:(eauto))
        as (c' & e' & Hrun & Hs' & Hkey & _).
      exists c', (set_heap_ (<[p:=e']> (heap_ s)) (set_entryMap_ (delete k (entryMap_ s)) s)), e'.
      split_and!; [done| | | | |done|done].
      * rewrite Hs'. apply list_lookup_insert_eq. by eapply lookup_lt_Some.
      * apply lookup_insert_eq.
      * by rewrite Hkey.
      * intros k' Hk'. cbn in Hk'. apply lookup_delete_Some in Hk' as [Hne Hk'].
        destruct (inv_map_key _ Hinvs _ _ Hk') as (e'' & He'' & Hr''). congruence.
    + exists c, s, e. split_and!; [by eapply removeEntryLocked_cleared|done|done| | |done].
      * unfold rawKey, hasValue in *. by destruct (fileNum (key_ e)).
      * intros k Hk. destruct (inv_map_key _ Hinvs _ _ Hk) as (e'' & He'' & Hr'').
        congruence.
Qed.

(** ** Operations that return *)

Lemma returns_bind {St X Y} (m : M St X) (f : X → M St Y) (st st' : St) x :
  m st = Ok x st' → returns (f x st') → returns ((m ≫= f) st).
Proof. intros Hm Hf. by erewrite bind_Ok. Qed.

Lemma returns_finally {St X} (m : M St X) cleanup (st : St) :
  returns (m st) → (∀ st', returns (cleanup st')) → returns (finally m cleanup st).
Proof.
  intros Hm Hc. unfold finally. destruct (m st) as [x st'|]; [|done].
  specialize (Hc st'). by destruct (cleanup st').
Qed.

Lemma returns_onShard {St X} (proj : St → @AsyncDataCache Allocator Ssd) sh s
    (m : M St X) Φ (st : St) :
  onShard proj sh s m Φ (λ _ _, False) → shards_ (proj st) !! sh = Some s →
  returns (m st).
Proof.
  intros Hm Hs. specialize (Hm st Hs). unfold wp in Hm.
  destruct (m st); [done|by destruct Hm as (? & _ & [])].
Qed.

Lemma foldM_returns {X Y} (I : @AsyncDataCache Allocator Ssd → Prop)
    (f : Y → X → M (@AsyncDataCache Allocator Ssd) Y) l : ∀ y c,
  (∀ y x c, x ∈ l → I c → returns (f y x c) ∧ I (stateOf (f y x c))) →
  I c → returns (foldM f l y c) ∧ I (stateOf (foldM f l y c)).
Proof.
  induction l as [|x l IH]; intros y c Hf HI; cbn [foldM]; [done|].
  destruct (Hf y x c) as [Hr HI']; [by left|done|].
  destruct (f y x c) as [y' c'|] eqn:Hrun; [|done].
  erewrite bind_Ok by exact Hrun. apply IH; [|done].
  intros y0 x0 c0 Hin. apply Hf. by right.
Qed.

Lemma onShard_updateStats_loop sh s slots Ξ : ∀ stats,
  (∀ p, Some p ∈ slots → is_Some (heap_ s !! p)) →
  onShard id sh s
    (foldM (λ stats slot,
              match slot with
              | None => mret (updateStats_empty stats)
              | Some p =>
                  e ← deref sh p;
                  if hasValue (key_ e)
                  then mret (updateStats_entry e stats)
                  else mret (updateStats_empty stats)
              end) slots stats : M (@AsyncDataCache Allocator Ssd) _)
    (λ _ s', s' = s) Ξ.
Proof.
  induction slots as [|[p|] slots IH]; intros stats Hv; cbn [foldM].
  - by apply onShard_ret.
  - destruct (Hv p) as [e He]; [by left|].
    apply onShard_assoc. shard_step.
    eapply onShard_bind with (Ψ := λ _ s', s' = s).
    { destruct (hasValue (key_ e)); by apply onShard_ret. }
    intros stats' ? ->. apply IH. intros q Hq. apply Hv. by right.
  - shard_step. apply IH. intros q Hq. apply Hv. by right.
Qed.

Lemma slotEntries_Some s p : Some p ∈ entries_ s → p ∈ slotEntries s.
Proof.
  intros Hin. unfold slotEntries. apply list_elem_of_omap. by exists (Some p).
Qed.

Lemma onShard_updateStats sh s stats Ξ :
  ShardInv s →
  onShard id sh s (CacheShard_updateStats sh stats : M (@AsyncDataCache Allocator Ssd) _)
    (λ _ s', s' = s) Ξ.
Proof.
  intros Hinv. unfold CacheShard_updateStats, withLock. shard_step.
  apply onShard_finally; [|neutral_go]. shard_step.
  eapply onShard_bind.
  { apply onShard_updateStats_loop. intros p Hp.
    by apply (inv_slots _ Hinv), slotEntries_Some. }
  cbv beta. intros stats' ? ->. by apply onShard_ret.
Qed.

Lemma refreshStats_returns c :
  CacheInv c →
  returns (AsyncDataCache_refreshStats c)
  ∧ CacheInv (stateOf (AsyncDataCache_refreshStats c)).
Proof.
  intros Hinv. unfold AsyncDataCache_refreshStats. rewrite run_gets.
  destruct (foldM_returns
              (λ c', CacheInv c' ∧ length (shards_ c') = length (shards_ c))
              (λ stats sh, CacheShard_updateStats sh stats)
              (seq 0 (length (shards_ c))) emptyStats c) as [Hr [Hi _]]; [|done|done].
  intros stats sh c' Hsh [Hinv' Hl].
  apply elem_of_seq in Hsh as [_ Hsh].
  destruct (lookup_lt_is_Some_2 (shards_ c') sh) as [s Hs]; [lia|].
  split.
  - eapply returns_onShard; [|exact Hs].
    apply onShard_updateStats. by eapply Hinv'.
  - pose proof (keeps_updateStats sh stats c') as Hk. split.
    + by eapply gently_CacheInv.
    + destruct Hk as [_ Hf]. apply Forall2_length in Hf. congruence.
Qed.

Lemma onShard_appendSsdSaveable_loop sh limit slots Ξ : ∀ s pins,
  (∀ p, Some p ∈ slots → is_Some (heap_ s !! p)) →
  onShard id sh s
    (appendSsdSaveable_loop sh limit slots pins : M (@AsyncDataCache Allocator Ssd) _)
    (λ _ _, True) Ξ.
Proof.
  induction slots as [|[p|] slots IH]; intros s pins Hv; cbn [appendSsdSaveable_loop].
  - by apply onShard_ret.
  - destruct (Hv p) as [e He]; [by left|]. shard_step.
    assert (∀ q, Some q ∈ slots → is_Some (heap_ s !! q)) as Hv'.
    { intros q Hq. apply Hv. by right. }
    destruct (_ && _); [|by apply IH].
    shard_step. destruct (_ <=? _); [by apply onShard_ret|].
    apply IH. intros q Hq. cbn. destruct (decide (q = p)) as [->|Hne].
    + rewrite lookup_insert_eq. eauto.
    + rewrite lookup_insert_ne by done. by apply Hv'.
  - apply IH. intros q Hq. apply Hv. by right.
Qed.

Lemma appendSsdSaveable_returns c sh s ssd pins :
  shards_ c !! sh = Some s → ShardInv s →
  ssdCache_ c = Some ssd → writeInProgress ssd = true →
  returns (CacheShard_appendSsdSaveable sh pins c).
Proof.
  intros Hs Hinv Hssd Hw. unfold CacheShard_appendSsdSaveable, withLock.
  rewrite run_log. apply returns_finally; [|done].
  set (c1 := set_trace_ _ c).
  eapply returns_bind; [by apply getShard_Ok|].
  eapply returns_bind; [unfold ssdCache; cbn; by rewrite Hssd|].
  rewrite run_check by done.
  eapply returns_onShard with (proj := id); [|exact Hs].
  apply onShard_appendSsdSaveable_loop. intros p Hp.
  by apply (inv_slots _ Hinv), slotEntries_Some.
Qed.

Lemma calmly_ssdCache sh : keeps (@calmly Allocator Ssd sh) ssdCache.
Proof. apply calmly_pure. intros c. unfold ssdCache. by destruct (ssdCache_ c). Qed.

#[local] Hint Resolve calmly_ssdCache : keeps.

Lemma calmly_appendSsdSaveable_loop sh limit slots pins :
  keeps (@calmly Allocator Ssd sh) (appendSsdSaveable_loop sh limit slots pins).
Proof.
  revert pins. induction slots as [|[p|] slots IH]; intros pins; cbn; keeps_go.
Qed.

#[local] Hint Resolve calmly_appendSsdSaveable_loop : keeps.

Lemma calmly_appendSsdSaveable sh pins :
  keeps (@calmly Allocator Ssd sh) (CacheShard_appendSsdSaveable sh pins).
Proof. unfold CacheShard_appendSsdSaveable, withLock. keeps_go. Qed.

Lemma saveToSsd_returns c ssd :
  CacheInv c → ssdCache_ c = Some ssd → writeInProgress ssd = true →
  returns (AsyncDataCache_saveToSsd c).
Proof.
  intros Hinv Hssd Hw. unfold AsyncDataCache_saveToSsd.
  eapply returns_bind; [unfold ssdCache; by rewrite Hssd|].
  rewrite run_check by done. rewrite run_modify, run_gets. cbv beta.
  set (c1 := set_ssdSaveableBytes_ 0 c).
  destruct (foldM_returns
              (λ c', CacheInv c' ∧ length (shards_ c') = length (shards_ c1)
                     ∧ ssdCache_ c' = Some ssd)
              (λ pins sh, CacheShard_appendSsdSaveable sh pins)
              (seq 0 (length (shards_ c1))) [] c1) as [Hr (_ & _ & Hssd')];
    [|done|].
  - intros pins sh c' Hsh (Hinv' & Hl & Hssd').
    apply elem_of_seq in Hsh as [_ Hsh].
    destruct (lookup_lt_is_Some_2 (shards_ c') sh) as [s Hs]; [lia|].
    split; [by eapply appendSsdSaveable_returns; [| eapply Hinv'|..]|].
    pose proof (keeps_appendSsdSaveable sh pins c') as Hg.
    pose proof (calmly_appendSsdSaveable sh pins c') as (_ & Hc & _ & Hlen & _).
    split_and!; [by eapply gently_CacheInv|congruence|congruence].
  - destruct (foldM _ _ _ c1) as [pins c2|] eqn:Hrun; [|done].
    eapply returns_bind; [exact Hrun|]. cbn in Hssd'.
    unfold ssdCache_write. eapply returns_bind; [unfold ssdCache; by rewrite Hssd'|].
    done.
Qed.

Lemma evict_unlocked_returns l c :
  startWrite_starts Ssd → CacheInv c → returns (evict_unlocked l c).
Proof.
  intros Hlaw Hinv. destruct (evict_unlocked_cases l c) as (c1 & Hssd & Hnum & Hsh & ->).
  destruct (_ =? 0); [done|]. destruct (ssdCache_ c) as [ssd|]; [|done].
  destruct (fst (startWrite ssd)) eqn:Hstart; [|done].
  eapply saveToSsd_returns; [|done|by apply Hlaw].
  intros sh s Hs. cbn in Hs. rewrite Hsh in Hs. by eapply Hinv.
Qed.

(** A pass of [evict] returns, and the cache is in shape after it. *)
Lemma evict_returns acq c sh bytesToFree evictAll pagesToAcquire :
  startWrite_starts Ssd → CacheInv c → is_Some (shards_ c !! sh) →
  ∃ acq' c',
    CacheShard_evict sh bytesToFree evictAll pagesToAcquire (acq, c) = Ok tt (acq', c')
    ∧ CacheInv c'
    ∧ aside sh (set_trace_ (trace_ c ++ [EvEvict sh bytesToFree evictAll pagesToAcquire]) c)
        c'.
Proof.
  intros Hlaw Hinv [s Hs].
  pose proof (evict_CacheInv acq c sh bytesToFree evictAll pagesToAcquire Hinv) as Hinv'.
  pose proof (evict_spec acq c sh s bytesToFree evictAll pagesToAcquire Hs (Hinv _ _ Hs))
    as [Has _].
  assert (returns (CacheShard_evict sh bytesToFree evictAll pagesToAcquire (acq, c))) as Hr.
  { unfold CacheShard_evict.
    erewrite bind_Ok by reflexivity. erewrite bind_Ok by reflexivity.
    erewrite bind_Ok by reflexivity. cbv beta zeta.
    set (c0 := set_trace_ _ c).
    set (skip := match ssdCache_ c0 with Some ssd => writeInProgress ssd | None => false end).
    lazymatch goal with |- returns ((?m ≫= _) _) => set (locked := m) end.
    pose proof (λ Ξ, onShard_evict_locked sh s bytesToFree evictAll skip pagesToAcquire
                  (now_ c0) Ξ (Hinv _ _ Hs)) as Hlocked.
    assert (onShard snd sh s locked (λ _ s', ShardInv s') (λ _ _, False)) as Hl.
    { subst locked. shard_step. apply onShard_finally; [|neutral_go].
      eapply onShard_conseq; [apply (Hlocked (λ _ _, False))| |done]. by intros r s' (? & _). }
    assert (keeps (onCache (calmly sh)) locked) as Hk.
    { subst locked. apply keeps_bind; [apply _| |intros _].
      - apply keeps_liftCache, calmly_log. exact I.
      - apply keeps_finally; [apply _|apply calmly_evict_locked|].
        apply keeps_liftCache, calmly_log. exact I. }
    specialize (Hl (acq, c0) Hs). specialize (Hk (acq, c0)). unfold wp in Hl.
    destruct (locked (acq, c0)) as [r [acq1 c1]|] eqn:Hrun;
      [|by destruct Hl as (? & _ & [])].
    eapply returns_bind; [exact Hrun|]. destruct r as [l|]; [|done].
    destruct Hl as (s1 & Hs1 & Hinv1). cbn in Hs1, Hk.
    unfold liftCache.
    assert (returns (evict_unlocked l c1)) as Hu.
    { apply evict_unlocked_returns; [done|].
      intros sh' s2 Hs2. destruct (decide (sh' = sh)) as [->|Hne]; [congruence|].
      destruct Hk as (_ & _ & _ & _ & Ho). rewrite Ho in Hs2 by done.
      by eapply (Hinv sh'). }
    by destruct (evict_unlocked l c1). }
  destruct (CacheShard_evict sh bytesToFree evictAll pagesToAcquire (acq, c))
    as [[] [acq' c']|]; [|done].
  by exists acq', c'.
Qed.

(** ** [makeSpace] *)

Lemma quiet_evictFlags evs : Forall quietEvent evs → evictFlags evs = [].
Proof.
  induction 1 as [|ev evs Hq _ IH]; [done|]. unfold evictFlags in *. cbn.
  rewrite IH. by destruct ev.
Qed.

Lemma quiet_allocResults evs : Forall quietEvent evs → allocResults evs = [].
Proof.
  induction 1 as [|ev evs Hq _ IH]; [done|]. unfold allocResults in *. cbn.
  rewrite IH. by destruct ev.
Qed.

Lemma quiet_no_message evs : Forall quietEvent evs → EvSetCacheFailureMessage ∉ evs.
Proof. intros Hq Hin. by apply (proj1 (Forall_forall _ _) Hq) in Hin. Qed.

Lemma evictFlags_app evs1 evs2 : evictFlags (evs1 ++ evs2) = evictFlags evs1 ++ evictFlags evs2.
Proof. apply omap_app. Qed.

Lemma allocResults_app evs1 evs2 :
  allocResults (evs1 ++ evs2) = allocResults evs1 ++ allocResults evs2.
Proof. apply omap_app. Qed.

(** A step that returns, leaves the shards alone and adds quiet events. *)
Lemma wp_step_still {L X Y} (m : M (L * @AsyncDataCache Allocator Ssd) X)
    (f : X → M (L * @AsyncDataCache Allocator Ssd) Y) Q E st :
  neutral snd m → keeps (onCache gently) m →
  (∀ x st', shards_ (snd st') = shards_ (snd st) → quietly (snd st) (snd st') →
     wp (f x) Q E st') →
  wp (m ≫= f) Q E st.
Proof.
  intros Hn Hk Hf. destruct (Hn st) as (x & st' & Hrun & Hsh).
  specialize (Hk st). rewrite Hrun in Hk. destruct Hk as [Hq _].
  unfold wp. erewrite bind_Ok by exact Hrun. by apply Hf.
Qed.

Lemma land_mask_lt x : 0 ≤ kShardMask < Z.of_nat kNumShards →
  (Z.to_nat (Z.land x kShardMask) < kNumShards)%nat.
Proof.
  intros [H0 H1].
  assert (0 ≤ Z.land x kShardMask ≤ kShardMask); [|lia].
  apply Z.ldiff_le; [done|]. apply Z.bits_inj'. intros n Hn.
  rewrite Z.ldiff_spec, Z.land_spec, Z.bits_0.
  by destruct (Z.testbit x n), (Z.testbit kShardMask n).
Qed.

Lemma wp_step_quiet {L X Y} c (m : M (L * @AsyncDataCache Allocator Ssd) X)
    (f : X → M (L * @AsyncDataCache Allocator Ssd) Y) Q E st :
  neutral snd m → keeps (onCache gently) m →
  steady (snd st) → quietly c (snd st) →
  (∀ x st', steady (snd st') → quietly c (snd st') → wp (f x) Q E st') →
  wp (m ≫= f) Q E st.
Proof.
  intros Hn Hk [Hinv Hlen] Hq Hf. apply wp_step_still; [done..|].
  intros x st' Hsh Hq'. apply Hf; [|by etrans].
  split; [|congruence]. intros sh s Hs. rewrite Hsh in Hs. by eapply Hinv.
Qed.

Section MakeSpaceProperties.

Variable allocate : Allocation → Allocator → bool * Allocation * Allocator.
Variable numPages : Z.
Hypothesis startWrite_law : startWrite_starts Ssd.
Hypothesis shardMask_fits : 0 ≤ kShardMask < Z.of_nat kNumShards.

Lemma wp_withAcquired_evict {Y} sh bytesToFree evictAll pagesToAcquire
    (f : unit → M (MakeSpaceLocals * @AsyncDataCache Allocator Ssd) Y) Q E l c :
  steady c → (sh < kNumShards)%nat →
  (∀ l' c', steady c' →
     aside sh (set_trace_ (trace_ c ++ [EvEvict sh bytesToFree evictAll pagesToAcquire]) c)
       c' →
     wp (f tt) Q E (l', c')) →
  wp (withAcquired (CacheShard_evict sh bytesToFree evictAll pagesToAcquire) ≫= f) Q E (l, c).
Proof.
  intros [Hinv Hlen] Hsh Hf.
  destruct (evict_returns (ms_acquired l) c sh bytesToFree evictAll pagesToAcquire
              startWrite_law Hinv) as (acq' & c' & Hrun & Hinv' & Has).
  { apply lookup_lt_is_Some_2. lia. }
  unfold wp. erewrite bind_Ok; [|unfold withAcquired; by rewrite Hrun].
  apply Hf; [|done]. split; [done|]. destruct Has as (_ & -> & _). done.
Qed.

(** One attempt: the closure allocated, or the shard in turn went through a
    pass of [evict], desperate from the attempt [kNumShards] on. *)
Lemma makeSpace_attempt_spec nthAttempt l c :
  steady c →
  wp (makeSpace_attempt allocate numPages nthAttempt)
    (λ done st',
       steady (snd st')
       ∧ ∃ evs, trace_ (snd st') = trace_ c ++ evs
           ∧ (EvSetCacheFailureMessage ∉ evs)
           ∧ if done
             then evictFlags evs = [] ∧ allocResults evs = [true]
             else evictFlags evs = [Z.of_nat kNumShards <=? nthAttempt]
                  ∧ (allocResults evs = [] ∨ allocResults evs = [false]))
    (λ _ _, False) (l, c).
Proof.
  intros Hst. unfold makeSpace_attempt, wp. rewrite run_gets. cbn [id].
  lazymatch goal with
  | |- context [mbind (λ a : bool, if a then mret true else ?r)] => set (rest := r)
  end.
  (* the attempt after an allocation that failed or was not tried *)
  assert (∀ l1 c1 evs0, steady c1 → trace_ c1 = trace_ c ++ evs0 →
            evictFlags evs0 = [] → EvSetCacheFailureMessage ∉ evs0 →
            wp rest
              (λ done st',
                 steady (snd st')
                 ∧ ∃ evs, trace_ (snd st') = trace_ c ++ evs
                     ∧ (EvSetCacheFailureMessage ∉ evs)
                     ∧ if done
                       then evictFlags evs = [] ∧ allocResults evs = [true]
                       else evictFlags evs = [Z.of_nat kNumShards <=? nthAttempt]
                            ∧ allocResults evs = allocResults evs0)
              (λ _ _, False) (l1, c1)) as Hrest.
  { intros l1 c1 evs0 Hst1 Ht1 Hfl0 Hno0. subst rest.
    apply (wp_step_quiet c1); [neutral_go|keeps_go|done|reflexivity|intros ? st2 Hst2 Hq2].
    apply (wp_step_quiet c1); [unfold makeSpace_enlist; neutral_go
                              |unfold makeSpace_enlist; keeps_go|done|done
                              |intros ? st3 Hst3 Hq3].
    apply (wp_step_quiet c1); [neutral_go|keeps_go|done|done|intros l3 st4 Hst4 Hq4].
    apply (wp_step_quiet c1); [unfold AsyncDataCache_backoff; neutral_go
                              |keeps_go; apply keeps_backoff|done|done|intros ? st5 Hst5 Hq5].
    apply (wp_step_quiet c1); [neutral_go|keeps_go|done|done|intros ? st6 Hst6 Hq6].
    unfold wp. rewrite run_gets. destruct st6 as [l6 c6]. cbn [id snd] in *.
    apply wp_withAcquired_evict; [done|by apply land_mask_lt|].
    intros l7 c7 Hst7 (Hq7 & _).
    assert (∀ l8, wp (mret false)
              (λ (done : bool) (st' : MakeSpaceLocals * @AsyncDataCache Allocator Ssd),
                 steady (snd st')
                 ∧ ∃ evs, trace_ (snd st') = trace_ c ++ evs
                     ∧ (EvSetCacheFailureMessage ∉ evs)
                     ∧ if done
                       then evictFlags evs = [] ∧ allocResults evs = [true]
                       else evictFlags evs = [Z.of_nat kNumShards <=? nthAttempt]
                            ∧ allocResults evs = allocResults evs0)
              (λ _ _, False)
              (l8, c7)) as Hend.
    { intros l8. cbn. split; [done|]. destruct Hq6 as (evs6 & Ht6 & Hquiet6).
      destruct Hq7 as (evs7 & Ht7 & Hquiet7). cbn in Ht7.
      eexists. split; [rewrite Ht7, Ht6, Ht1, <- !app_assoc; reflexivity|].
      split.
      - rewrite !not_elem_of_app. split_and!; [done|by apply quiet_no_message| |
                                               by apply quiet_no_message].
        by intros ?%list_elem_of_singleton.
      - rewrite !evictFlags_app, !allocResults_app, Hfl0,
          (quiet_evictFlags evs6), (quiet_evictFlags evs7),
          (quiet_allocResults evs6), (quiet_allocResults evs7) by done.
        cbn. by rewrite !app_nil_r. }
    unfold wp. destruct (_ && _); [rewrite run_modify|rewrite run_ret]; apply Hend. }
  assert (∀ l1 c1 evs0, steady c1 → trace_ c1 = trace_ c ++ evs0 →
            evictFlags evs0 = [] → (EvSetCacheFailureMessage ∉ evs0) →
            allocResults evs0 = [] ∨ allocResults evs0 = [false] →
            wp rest
              (λ done st',
                 steady (snd st')
                 ∧ ∃ evs, trace_ (snd st') = trace_ c ++ evs
                     ∧ (EvSetCacheFailureMessage ∉ evs)
                     ∧ if done
                       then evictFlags evs = [] ∧ allocResults evs = [true]
                       else evictFlags evs = [Z.of_nat kNumShards <=? nthAttempt]
                            ∧ (allocResults evs = [] ∨ allocResults evs = [false]))
              (λ _ _, False) (l1, c1)) as Hrest'.
  { intros l1 c1 evs0 Hst1 Ht1 Hfl0 Hno0 Hal0.
    eapply wp_mono; [by apply (Hrest l1 c1 evs0)| |done].
    intros [] st' (Hst' & evs & Ht & Hno & Hcase); (split; [done|]);
      exists evs; (split; [done|]); (split; [done|]); [done|].
    destruct Hcase as [? ->]. done. }
  clearbody rest.
  destruct (AsyncDataCache_canTryAllocate c (int32 numPages) (ms_acquired l)).
  - destruct (allocate (ms_acquired l) (allocator_ c)) as [[ok acq] a] eqn:Ha.
    erewrite bind_Ok; [|unfold makeSpace_allocate; rewrite Ha; reflexivity].
    assert (steady (set_trace_ (trace_ c ++ [EvAllocate ok]) (set_allocator_ a c))) as Hst'.
    { destruct Hst as [Hinv Hlen]. split; [|done]. intros sh s Hs. by eapply Hinv. }
    destruct ok.
    + cbn. split; [exact Hst'|].
      exists [EvAllocate true]. split_and!; [done| |done|done].
      by intros ?%list_elem_of_singleton.
    + apply Hrest' with (evs0 := [EvAllocate false]);
        [exact Hst'|done|done|by intros ?%list_elem_of_singleton|by right].
  - rewrite run_ret. apply Hrest' with (evs0 := []);
      [done|by rewrite app_nil_r|done|apply not_elem_of_nil|by left].
Qed.

Lemma flags_cons (n : Z) k :
  (Z.of_nat kNumShards <=? n)
    :: map (λ i, Z.of_nat kNumShards <=? n + 1 + Z.of_nat i) (seq 0 k)
  = map (λ i, Z.of_nat kNumShards <=? n + Z.of_nat i) (seq 0 (Datatypes.S k)).
Proof.
  cbn [seq map]. rewrite Z.add_0_r. f_equal. rewrite <- seq_shift, map_map.
  apply map_ext. intros i. f_equal. lia.
Qed.

(** The loop: [k] attempts ended in a pass of [evict], the attempt [i] with
    the flag [kNumShards <= i]; the closure failed [j] times before it
    succeeded, if it did. *)
Lemma makeSpace_loop_spec rounds : ∀ nthAttempt l c,
  steady c →
  wp (makeSpace_loop allocate numPages rounds nthAttempt)
    (λ done st',
       steady (snd st')
       ∧ ∃ evs, trace_ (snd st') = trace_ c ++ evs
           ∧ (EvSetCacheFailureMessage ∉ evs)
           ∧ ∃ k j,
               evictFlags evs
               = map (λ i, Z.of_nat kNumShards <=? nthAttempt + Z.of_nat i) (seq 0 k)
               ∧ allocResults evs = replicate j false ++ (if done then [true] else [])
               ∧ (j ≤ k)%nat
               ∧ if done then (k < rounds)%nat else k = rounds)
    (λ _ _, False) (l, c).
Proof.
  induction rounds as [|rounds IH]; intros n l c Hst; cbn [makeSpace_loop].
  - cbn. split; [done|]. exists []. split_and!; [by rewrite app_nil_r|apply not_elem_of_nil|].
    by exists 0%nat, 0%nat.
  - apply wp_bind. eapply wp_mono; [by apply makeSpace_attempt_spec| |done].
    intros done [l1 c1] (Hst1 & evs1 & Ht1 & Hno1 & Hcase). cbn [snd] in *.
    destruct done.
    + destruct Hcase as [Hfl1 Hal1]. cbn. split; [done|]. exists evs1.
      split_and!; [done..|]. exists 0%nat, 0%nat. rewrite Hfl1, Hal1.
      split_and!; [done|done|lia|lia].
    + destruct Hcase as [Hfl1 Hal1].
      eapply wp_mono; [by apply (IH (n + 1) l1 c1)| |done].
      intros done [l2 c2] (Hst2 & evs2 & Ht2 & Hno2 & k & j & Hfl2 & Hal2 & Hjk & Hk).
      cbn [snd] in *. split; [done|]. exists (evs1 ++ evs2).
      split_and!.
      * by rewrite Ht2, Ht1, app_assoc.
      * rewrite not_elem_of_app. by split.
      * rewrite evictFlags_app, allocResults_app, Hfl1, Hfl2, Hal2. cbn [app].
        rewrite flags_cons.
        destruct Hal1 as [-> | ->].
        -- exists (Datatypes.S k), j. split_and!; [done|done|lia|].
           destruct done; lia.
        -- exists (Datatypes.S k), (Datatypes.S j). split_and!; [done|done|lia|].
           destruct done; lia.
Qed.

Lemma setCacheFailureMessage_spec c :
  CacheInv c →
  ∃ c' evs,
    makeSpace_setCacheFailureMessage c = Ok tt c'
    ∧ trace_ c' = trace_ c ++ evs ++ [EvSetCacheFailureMessage]
    ∧ Forall quietEvent evs
    ∧ is_Some (cacheFailureMessage_ c').
Proof.
  intros Hinv. unfold makeSpace_setCacheFailureMessage.
  destruct (refreshStats_returns c Hinv) as [Hr _].
  destruct (keeps_refreshStats c) as [(evs & Ht & Hq) _].
  destruct (AsyncDataCache_refreshStats c) as [stats c1|] eqn:Hrun; [|done].
  cbn in Ht. erewrite bind_Ok by exact Hrun. rewrite run_gets, run_modify.
  eexists _, evs. split; [reflexivity|]. cbn. rewrite Ht, <- app_assoc.
  split_and!; [done|done|eauto].
Qed.

Lemma makeSpace_guard_spec l c :
  ∃ l' c' evs,
    makeSpace_guard (l, c) = Ok tt (l', c')
    ∧ trace_ c' = trace_ c ++ evs ∧ Forall quietEvent evs
    ∧ cacheFailureMessage_ c' = cacheFailureMessage_ c.
Proof.
  unfold makeSpace_guard. rewrite run_gets. cbn [fst].
  unfold allocator_freeNonContiguous, liftCache, log, modify, mbind, M_bind, mret, M_ret.
  destruct (ms_isCounted l); cbn; eexists _, _, [_]; (split; [reflexivity|]); cbn;
    split_and!; try done; by repeat constructor.
Qed.

Lemma flags_nat k :
  map (λ i, Z.of_nat kNumShards <=? 0 + Z.of_nat i) (seq 0 k)
  = map (λ i, (kNumShards <=? i)%nat) (seq 0 k).
Proof.
  apply map_ext. intros i. rewrite Z.add_0_l.
  destruct (Nat.leb_spec kNumShards i); [apply Z.leb_le|apply Z.leb_gt]; lia.
Qed.

(** C3.  On a cache in shape, with the shards the class declares and the
    count of allocating threads in its range, [makeSpace] returns.  The
    trace it adds has [k] calls of [evict], at most [4 * kNumShards], the
    call [i] (from 0) with [evictAllUnpinned] true iff [kNumShards <= i], and
    at most [4 * kNumShards] calls of the closure, [j] of them failed and
    then one succeeded if the result is true.  If the result is false, every
    call of the closure failed, all [4 * kNumShards] passes were made, the
    failure message is recorded and its event is in the trace. *)
Theorem makeSpace_attempts c :
  CacheInv c → length (shards_ c) = kNumShards →
  0 ≤ numThreadsInAllocate_ c < 10000 →
  ∃ done c' evs k j,
    AsyncDataCache_makeSpace allocate numPages c = Ok done c'
    ∧ trace_ c' = trace_ c ++ evs
    ∧ evictFlags evs = map (λ i, (kNumShards <=? i)%nat) (seq 0 k)
    ∧ allocResults evs = replicate j false ++ (if done then [true] else [])
    ∧ (j ≤ k)%nat ∧ (k ≤ 4 * kNumShards)%nat
    ∧ (length (allocResults evs) ≤ 4 * kNumShards)%nat
    ∧ if done
      then (k < 4 * kNumShards)%nat ∧ (EvSetCacheFailureMessage ∉ evs)
      else k = (4 * kNumShards)%nat
           ∧ is_Some (cacheFailureMessage_ c')
           ∧ EvSetCacheFailureMessage ∈ evs.
Proof.
  intros Hinv Hlen Hthreads.
  assert (steady c) as Hst by (split; assumption).
  unfold AsyncDataCache_makeSpace, runFrame.
  set (l0 := {| ms_sizeMultiplier := 0; ms_isCounted := false; ms_rank := 0;
                ms_acquired := [] |}).
  lazymatch goal with |- context [finally ?b makeSpace_guard] => set (body := b) end.
  assert (wp body
            (λ done st',
               ∃ evs k j,
                 trace_ (snd st') = trace_ c ++ evs
                 ∧ evictFlags evs = map (λ i, (kNumShards <=? i)%nat) (seq 0 k)
                 ∧ allocResults evs = replicate j false ++ (if done then [true] else [])
                 ∧ (j ≤ k)%nat
                 ∧ if done
                   then (k < 4 * kNumShards)%nat ∧ (EvSetCacheFailureMessage ∉ evs)
                   else k = (4 * kNumShards)%nat
                        ∧ is_Some (cacheFailureMessage_ (snd st'))
                        ∧ EvSetCacheFailureMessage ∈ evs)
            (λ _ _, False) (l0, c)) as Hbody.
  { subst body. unfold wp. erewrite bind_Ok by reflexivity.
    rewrite run_check by (apply andb_true_iff; split; [apply Z.leb_le|apply Z.ltb_lt]; lia).
    apply (wp_step_quiet c); [unfold makeSpace_enlist; neutral_go
                             |unfold makeSpace_enlist; keeps_go|done|reflexivity|].
    intros ? [l1 c1] Hst1 (evs1 & Ht1 & Hq1). cbn [snd] in *.
    apply wp_bind. eapply wp_mono; [by apply makeSpace_loop_spec| |done].
    intros done [l2 c2] (Hst2 & evs2 & Ht2 & Hno2 & k & j & Hfl2 & Hal2 & Hjk & Hk).
    cbn [snd] in *. rewrite flags_nat in Hfl2.
    assert (Z.to_nat kMaxAttempts = (4 * kNumShards)%nat) as HR.
    { unfold kMaxAttempts. lia. }
    rewrite HR in Hk.
    destruct done.
    - cbn. exists (evs1 ++ evs2), k, j. split_and!.
      + by rewrite Ht2, Ht1, app_assoc.
      + by rewrite evictFlags_app, (quiet_evictFlags evs1).
      + by rewrite allocResults_app, (quiet_allocResults evs1).
      + done.
      + done.
      + rewrite not_elem_of_app. split; [by apply quiet_no_message|done].
    - destruct (setCacheFailureMessage_spec c2 (proj1 Hst2))
        as (c3 & evs3 & Hrun3 & Ht3 & Hq3 & Hmsg).
      unfold wp. erewrite bind_Ok; [|unfold liftCache; by rewrite Hrun3].
      cbn. exists (evs1 ++ evs2 ++ evs3 ++ [EvSetCacheFailureMessage]), k, j. split_and!.
      + by rewrite Ht3, Ht2, Ht1, <- !app_assoc.
      + rewrite !evictFlags_app, (quiet_evictFlags evs1), (quiet_evictFlags evs3), Hfl2
          by done. cbn. by rewrite app_nil_r.
      + rewrite !allocResults_app, (quiet_allocResults evs1), (quiet_allocResults evs3),
          Hal2 by done. cbn. by rewrite !app_nil_r.
      + done.
      + done.
      + done.
      + rewrite !elem_of_app. do 3 right. by apply list_elem_of_singleton. }
  unfold wp in Hbody. unfold finally.
  destruct (body (l0, c)) as [result [l1 c1]|]; [|done].
  destruct Hbody as (evs & k & j & Ht & Hfl & Hal & Hjk & Hcase). cbn [snd] in *.
  destruct (makeSpace_guard_spec l1 c1) as (l2 & c2 & evs' & -> & Ht' & Hq' & Hmsg').
  exists result, c2, (evs ++ evs'), k, j. split_and!.
  - done.
  - by rewrite Ht', Ht, app_assoc.
  - by rewrite evictFlags_app, (quiet_evictFlags evs'), app_nil_r.
  - by rewrite allocResults_app, (quiet_allocResults evs'), app_nil_r.
  - done.
  - destruct result; [destruct Hcase|destruct Hcase as [-> _]]; lia.
  - rewrite allocResults_app, (quiet_allocResults evs'), app_nil_r, Hal by done.
    rewrite length_app, length_replicate.
    destruct result; [destruct Hcase|destruct Hcase as [-> _]]; cbn; lia.
  - destruct result.
    + destruct Hcase as [? Hno]. split; [done|]. rewrite not_elem_of_app.
      split; [done|by apply quiet_no_message].
    + destruct Hcase as (? & ? & Hin). split_and!; [done|by rewrite Hmsg'|].
      apply elem_of_app. by left.
Qed.

End MakeSpaceProperties.

(** ** C4, continued: [clear] *)

#[local] Instance pinnedStay_preorder n : PreOrder (@pinnedStay Allocator Ssd n).
Proof.
  split.
  - intros c Hinv Hl. split_and!; [done..|]. reflexivity.
  - intros c1 c2 c3 H12 H23 Hinv Hl. destruct (H12 Hinv Hl) as (Hinv2 & Hl2 & Hf2).
    destruct (H23 Hinv2 Hl2) as (Hinv3 & Hl3 & Hf3). split_and!; [done..|].
    by etrans.
Qed.

Lemma keeps_runFrame {L X} R (l : L) (m : M (L * @AsyncDataCache Allocator Ssd) X) :
  keeps (onCache R) m → keeps R (runFrame l m).
Proof.
  intros Hm c. specialize (Hm (l, c)). unfold runFrame, onCache in *.
  by destruct (m (l, c)) as [x [l' c']|ex [l' c']].
Qed.

Lemma keeps_foldM_in {St X Y} (R : St → St → Prop) `{!PreOrder R}
    (f : Y → X → M St Y) l y :
  (∀ y x, x ∈ l → keeps R (f y x)) → keeps R (foldM f l y).
Proof.
  revert y. induction l as [|x l IH]; intros y Hf; cbn [foldM].
  - apply keeps_ret. apply _.
  - apply keeps_bind; [apply _|apply Hf; by left|].
    intros y'. apply IH. intros y0 x0 Hin. apply Hf. by right.
Qed.

(** A desperate pass changes the shard it is on, and nothing else of the
    shards. *)
Lemma evict_desperate acq c sh s bytesToFree pagesToAcquire :
  shards_ c !! sh = Some s → ShardInv s →
  ∃ s1,
    shards_ (snd (stateOf (CacheShard_evict sh bytesToFree true pagesToAcquire (acq, c))))
    = <[sh := s1]> (shards_ c)
    ∧ ShardInv s1 ∧ stays (λ e, numPins_ e ≠ 0) s s1.
Proof.
  intros Hs Hinv. unfold CacheShard_evict.
  erewrite bind_Ok by reflexivity. erewrite bind_Ok by reflexivity.
  erewrite bind_Ok by reflexivity. cbv beta zeta.
  set (c0 := set_trace_ _ c).
  set (skip := match ssdCache_ c0 with Some ssd => writeInProgress ssd | None => false end).
  lazymatch goal with |- context [stateOf ((?m ≫= _) _)] => set (locked := m) end.
  assert (onShard snd sh s locked
            (λ r s', ShardInv s' ∧ stays (evict_protected true skip) s s'
                     ∧ ∀ l, r = Some l → ev_evictSaveableSkipped l = 0)
            (λ _ _, False)) as Hl.
  { subst locked. shard_step. apply onShard_finally; [|neutral_go].
    eapply onShard_conseq;
      [by apply onShard_evict_locked with (Ξ := λ _ _, False)| |done].
    intros r s' (? & ? & Hsk). split_and!; [done..|].
    intros l Hr. apply Hsk; [done|by left]. }
  assert (keeps (onCache (calmly sh)) locked) as Hk.
  { subst locked. apply keeps_bind; [apply _| |intros _].
    - apply keeps_liftCache, calmly_log. exact I.
    - apply keeps_finally; [apply _|apply calmly_evict_locked|].
      apply keeps_liftCache, calmly_log. exact I. }
  specialize (Hl (acq, c0) Hs). specialize (Hk (acq, c0)). unfold wp in Hl.
  destruct (locked (acq, c0)) as [r [acq1 c1]|] eqn:Hrun;
    [|by destruct Hl as (? & _ & [])].
  destruct Hl as (s1 & Hs1 & Hinv1 & Hst1 & Hsk). cbn in Hs1, Hk.
  destruct Hk as (_ & _ & _ & Hlen & Ho).
  assert (shards_ c1 = <[sh := s1]> (shards_ c)) as Hsh.
  { apply list_eq. intros sh'. destruct (decide (sh' = sh)) as [->|Hne].
    - rewrite Hs1. symmetry. apply list_lookup_insert_eq. by eapply lookup_lt_Some.
    - rewrite list_lookup_insert_ne by done. by apply Ho. }
  exists s1. split_and!; [|done|].
  - erewrite bind_Ok by exact Hrun. destruct r as [l|]; [|done].
    destruct (evict_unlocked_cases l c1) as (c2 & _ & _ & Hsh2 & Heq).
    rewrite (Hsk l eq_refl) in Heq. cbn in Heq. unfold liftCache. rewrite Heq. cbn.
    congruence.
  - eapply stays_mono; [|exact Hst1]. intros e He. by left.
Qed.

Lemma evict_pinnedStay n sh bytesToFree pagesToAcquire :
  (sh < n)%nat →
  keeps (onCache (@pinnedStay Allocator Ssd n))
    (CacheShard_evict sh bytesToFree true pagesToAcquire).
Proof.
  intros Hsh [acq c] Hinv Hlen. cbn [snd] in *.
  destruct (lookup_lt_is_Some_2 (shards_ c) sh) as [s Hs]; [lia|].
  destruct (evict_desperate acq c sh s bytesToFree pagesToAcquire Hs (Hinv _ _ Hs))
    as (s1 & Heq & Hinv1 & Hst1).
  rewrite Heq. split_and!.
  - intros sh' s' Hs'. rewrite Heq in Hs'. destruct (decide (sh' = sh)) as [->|Hne].
    + rewrite list_lookup_insert_eq in Hs' by (by eapply lookup_lt_Some). congruence.
    + rewrite list_lookup_insert_ne in Hs' by done. by eapply Hinv.
  - by rewrite length_insert.
  - apply Forall2_same_length_lookup_2; [by rewrite length_insert|].
    intros sh' sa sb Ha Hb. destruct (decide (sh' = sh)) as [->|Hne].
    + rewrite list_lookup_insert_eq in Hb by (by eapply lookup_lt_Some).
      assert (sa = s) as -> by congruence. congruence.
    + rewrite list_lookup_insert_ne in Hb by done.
      assert (sa = sb) as -> by congruence. reflexivity.
Qed.

Lemma clear_pinnedStay c :
  pinnedStay (length (shards_ c)) c (stateOf (AsyncDataCache_clear c)).
Proof.
  unfold AsyncDataCache_clear. rewrite run_gets.
  apply (keeps_foldM_in (pinnedStay (length (shards_ c)))).
  intros [] sh [_ Hsh]%elem_of_seq. apply keeps_runFrame.
  apply keeps_bind; [apply _|apply evict_pinnedStay; lia|intros _].
  keeps_go.
Qed.

(** ** C4: pinned entries and eviction *)

(** C4.  An entry whose pin count is not zero is where it was after a pass
    of [evict], with any arguments, on any shard: in its slot, bound in the
    map under the keys it had, out of the recycler, with its key, its size
    and its buffers.  After [clear], which makes the desperate pass on every
    shard, it is there unchanged. *)
Theorem evict_keeps_pinned c sh0 s0 i p e :
  CacheInv c → shards_ c !! sh0 = Some s0 →
  entries_ s0 !! i = Some (Some p) → heap_ s0 !! p = Some e → numPins_ e ≠ 0 →
  (∀ acq sh bytesToFree evictAllUnpinned pagesToAcquire,
     is_Some (shards_ c !! sh) →
     ∃ s' e',
       shards_ (snd (stateOf (CacheShard_evict sh bytesToFree evictAllUnpinned
                                pagesToAcquire (acq, c)))) !! sh0 = Some s'
       ∧ entries_ s' !! i = Some (Some p)
       ∧ (∀ k, entryMap_ s0 !! k = Some p → entryMap_ s' !! k = Some p)
       ∧ (p ∉ freeEntries_ s')
       ∧ heap_ s' !! p = Some e'
       ∧ key_ e' = key_ e ∧ size_ e' = size_ e
       ∧ data_ e' = data_ e ∧ tinyData_ e' = tinyData_ e)
  ∧ ∃ s',
      shards_ (stateOf (AsyncDataCache_clear c)) !! sh0 = Some s'
      ∧ entries_ s' !! i = Some (Some p)
      ∧ (∀ k, entryMap_ s0 !! k = Some p → entryMap_ s' !! k = Some p)
      ∧ (p ∉ freeEntries_ s')
      ∧ heap_ s' !! p = Some e.
Proof.
  intros Hinv Hs0 Hi Hp Hpin. split.
  - intros acq sh bytesToFree evictAllUnpinned pagesToAcquire [s Hs].
    destruct (evict_spec acq c sh s bytesToFree evictAllUnpinned pagesToAcquire Hs
                (Hinv _ _ Hs)) as (Has & s1 & s' & Hs' & Hinv1 & Hst & Hk).
    set (c' := snd (stateOf _)) in *.
    destruct (decide (sh0 = sh)) as [->|Hne].
    + assert (s0 = s) as -> by congruence.
      destruct (stays_kept _ s s1 s' i p e Hinv1 Hst Hk Hi Hp)
        as (? & ? & ? & e' & ? & ? & ? & ? & ?); [by left|].
      exists s', e'. by split_and!.
    + destruct Has as (_ & _ & Ho). destruct (Ho sh0 s0 Hne Hs0) as (s0' & Hs0' & Hk0).
      destruct (stays_kept (λ _, True) s0 s0 s0' i p e (Hinv _ _ Hs0)) 
        as (? & ? & ? & e' & ? & ? & ? & ? & ?); [reflexivity|done..|].
      exists s0', e'. by split_and!.
  - destruct (clear_pinnedStay c Hinv eq_refl) as (Hinv' & Hlen & Hf).
    destruct (Forall2_lookup_l _ _ _ _ _ Hf Hs0) as (s' & Hs' & [_ Hst]).
    destruct (Hst i p e Hi Hp Hpin) as (Hi' & Hp' & Hm').
    exists s'. split_and!; [done..| |done].
    intros Hin. eapply (ShardInv_slot_free s' p); [by eapply Hinv'| |done].
    by eapply slotEntries_lookup.
Qed.

(** ** C1, the entries pinned for the SSD save *)

Lemma onShard_appendSsdSaveable_loop_eligible sh limit s0 slots : ∀ s pins,
  NoDup (omap id slots) →
  (∀ p, Some p ∈ slots → is_Some (heap_ s0 !! p) ∧ heap_ s !! p = heap_ s0 !! p) →
  onShard id sh s
    (appendSsdSaveable_loop sh limit slots pins : M (@AsyncDataCache Allocator Ssd) _)
    (λ pins' _, ∃ new,
       pins' = pins ++ new
       ∧ Forall (λ pin,
                   pin_shard pin = sh ∧ Some (pin_entry pin) ∈ slots
                   ∧ ∃ e, heap_ s0 !! pin_entry pin = Some e
                       ∧ ssdFile_ e = None ∧ isExclusive e = false
                       ∧ ssdSaveable_ e = true) new)
    (λ _ _, False).
Proof.
  induction slots as [|[p|] slots IH]; intros s pins Hnd Hv; cbn [appendSsdSaveable_loop].
  - apply onShard_ret. exists []. by rewrite app_nil_r.
  - cbn in Hnd. apply NoDup_cons in Hnd as [Hp Hnd].
    destruct (Hv p) as [[e He0] He]; [by left|]. rewrite He0 in He.
    assert (∀ pins1 s1, (∀ q, q ≠ p → heap_ s1 !! q = heap_ s !! q) →
              onShard id sh s1
                (appendSsdSaveable_loop sh limit slots pins1
                 : M (@AsyncDataCache Allocator Ssd) _)
                (λ pins' _, ∃ new,
                   pins' = pins1 ++ new
                   ∧ Forall (λ pin,
                               pin_shard pin = sh ∧ Some (pin_entry pin) ∈ Some p :: slots
                               ∧ ∃ e, heap_ s0 !! pin_entry pin = Some e
                                   ∧ ssdFile_ e = None ∧ isExclusive e = false
                                   ∧ ssdSaveable_ e = true) new)
                (λ _ _, False)) as Hrest.
    { intros pins1 s1 Hs1. eapply onShard_conseq; [apply IH; [done|]|..]; [| |done].
      - intros q Hq. destruct (Hv q) as [? Hq']; [by right|]. split; [done|].
        rewrite Hs1; [done|]. intros ->. apply Hp. apply list_elem_of_omap.
        by exists (Some p).
      - intros pins' _ (new & -> & Hall). exists new. split; [done|].
        eapply Forall_impl; [exact Hall|]. intros pin (? & ? & ?).
        split_and!; [done|by right|done]. }
    shard_step.
    destruct (negb (bool_decide (is_Some (ssdFile_ e)))) eqn:Hfile; cbn [andb];
      [|by apply Hrest].
    destruct (negb (isExclusive e)) eqn:Hex; cbn [andb]; [|by apply Hrest].
    destruct (ssdSaveable_ e) eqn:Hsave; [|by apply Hrest].
    assert (pin_shard (pinOf sh p) = sh ∧ Some (pin_entry (pinOf sh p)) ∈ Some p :: slots
            ∧ ∃ e', heap_ s0 !! pin_entry (pinOf sh p) = Some e'
                ∧ ssdFile_ e' = None ∧ isExclusive e' = false
                ∧ ssdSaveable_ e' = true) as Hpin.
    { split_and!; [done|by left|]. exists e. split_and!; [done| |by apply negb_true_iff|done].
      apply negb_true_iff, bool_decide_eq_false in Hfile.
      destruct (ssdFile_ e); [|done]. by destruct Hfile. }
    shard_step. destruct (_ <=? _).
    + apply onShard_ret. exists [pinOf sh p]. split; [done|]. by constructor.
    + eapply onShard_conseq; [apply Hrest| |done].
      * intros q Hq. cbn. by rewrite lookup_insert_ne.
      * intros pins' _ (new & -> & Hall). exists (pinOf sh p :: new).
        rewrite <- app_assoc. split; [done|]. by constructor.
  - eapply onShard_conseq; [apply IH; [done|]|..]; [| |done].
    + intros q Hq. apply Hv. by right.
    + intros pins' _ (new & -> & Hall). exists new. split; [done|].
      eapply Forall_impl; [exact Hall|]. intros pin (? & ? & ?).
      split_and!; [done|by right|done].
Qed.

(** The pins [appendSsdSaveable] adds are on entries of the slots that are
    not exclusive, wanted by the SSD tier and not yet on SSD. *)
Lemma appendSsdSaveable_eligible c sh s pins :
  shards_ c !! sh = Some s → ShardInv s →
  match CacheShard_appendSsdSaveable sh pins c with
  | Ok pins' _ =>
      ∃ new,
        pins' = pins ++ new
        ∧ Forall (λ pin,
                    pin_shard pin = sh ∧ Some (pin_entry pin) ∈ entries_ s
                    ∧ ∃ e, heap_ s !! pin_entry pin = Some e
                        ∧ ssdFile_ e = None ∧ isExclusive e = false
                        ∧ ssdSaveable_ e = true) new
  | Throw _ _ => True
  end.
Proof.
  intros Hs Hinv. unfold CacheShard_appendSsdSaveable, withLock. rewrite run_log.
  set (c1 := set_trace_ _ c). unfold finally.
  erewrite bind_Ok by by apply getShard_Ok.
  unfold ssdCache at 1. unfold mbind at 1, M_bind at 1.
  destruct (ssdCache_ c1) as [ssd|]; [|done].
  destruct (writeInProgress ssd); [rewrite run_check by done|done].
  pose proof (onShard_appendSsdSaveable_loop_eligible sh
                (int32 (uint64 (Z.of_nat (length (entries_ s)) * 100) `div` 70))
                s (entries_ s) s pins) as Hloop.
  specialize (Hloop ltac:(by pose proof (inv_owned _ Hinv) as [? _]%NoDup_app)).
  specialize (Hloop ltac:(intros p Hp; split;
                            [by apply (inv_slots _ Hinv), slotEntries_Some|done])).
  specialize (Hloop c1 Hs). unfold wp in Hloop.
  destruct (appendSsdSaveable_loop _ _ _ _ c1) as [pins' c2|]; [|done].
  cbn. by destruct Hloop as (_ & _ & Hnew).
Qed.

(** ** Lookups that find the key *)

(** X1.  A lookup that finds a readable entry of sufficient size returns a pin
    on that entry: the pin count goes up by one and the access statistics
    are touched; the map, the slots and the entry's key, size and buffers
    are as before.  A prefetched entry becomes a first use and leaves the
    prefetch count; any other is counted as a hit with its bytes.  All of it
    happens under the shard lock. *)
Theorem findOrCreate_hit_pins c sh s key size wait found e :
  shards_ c !! sh = Some s →
  entryMap_ s !! key = Some found → heap_ s !! found = Some e →
  isExclusive e = false → size ≤ size_ e →
  ∃ c' s' e',
    CacheShard_findOrCreate sh key size wait c = Ok (Some (pinOf sh found), None) c'
    ∧ shards_ c' !! sh = Some s' ∧ heap_ s' !! found = Some e'
    ∧ numPins_ e' = numPins_ e + 1
    ∧ accessStats_ e' = {| lastUse := now_ c; numUses := numUses (accessStats_ e) + 1 |}
    ∧ key_ e' = key_ e ∧ size_ e' = size_ e ∧ data_ e' = data_ e
    ∧ tinyData_ e' = tinyData_ e ∧ promise_ e' = promise_ e
    ∧ isPrefetch_ e' = false
    ∧ entryMap_ s' = entryMap_ s ∧ entries_ s' = entries_ s
    ∧ freeEntries_ s' = freeEntries_ s ∧ emptySlots_ s' = emptySlots_ s
    ∧ (∀ q, q ≠ found → heap_ s' !! q = heap_ s !! q)
    ∧ eventCounter_ s' = eventCounter_ s + 1
    ∧ numNew_ s' = numNew_ s
    ∧ (if isPrefetch_ e
       then isFirstUse_ e' = true
            ∧ numHit_ s' = numHit_ s ∧ hitBytes_ s' = hitBytes_ s
            ∧ prefetchPages_ c' = prefetchPages_ c - AllocationTraits.numPages (size_ e)
       else isFirstUse_ e' = isFirstUse_ e
            ∧ numHit_ s' = numHit_ s + 1 ∧ hitBytes_ s' = hitBytes_ s + size_ e
            ∧ prefetchPages_ c' = prefetchPages_ c)
    ∧ (∀ sh', sh' ≠ sh → shards_ c' !! sh' = shards_ c !! sh')
    ∧ trace_ c' = trace_ c ++ [EvLock sh; EvUnlock sh].
Proof.
  intros Hs Hk He Hx Hsize.
  unfold CacheShard_findOrCreate, withLock. run.
  unfold findOrCreate_locked.
  destruct (isPrefetch_ e) eqn:Hpre.
  - erewrite run_finally;
      [| run; rewrite Hk; run; rewrite Hx, (proj2 (Z.leb_le _ _) Hsize); run;
         rewrite Hpre; unfold AsyncDataCacheEntry_setPrefetch; run; run_last; reflexivity ].
    run. run_last.
    eexists _, _, _. split; [reflexivity|]. norm.
    split; [by apply list_lookup_insert_eq; eapply lookup_lt_Some|]. norm.
    split; [apply lookup_insert_eq|]. norm.
    repeat split; try done.
    + intros q Hq. by rewrite lookup_insert_ne.
    + intros sh' Hne. by apply list_lookup_insert_ne.
    + by rewrite <- app_assoc.
  - erewrite run_finally;
      [| run; rewrite Hk; run; rewrite Hx, (proj2 (Z.leb_le _ _) Hsize); run;
         rewrite Hpre; run; run_last; reflexivity ].
    run. run_last.
    eexists _, _, _. split; [reflexivity|]. norm.
    split; [by apply list_lookup_insert_eq; eapply lookup_lt_Some|]. norm.
    split; [apply lookup_insert_eq|]. norm.
    repeat split; try done.
    + intros q Hq. by rewrite lookup_insert_ne.
    + intros sh' Hne. by apply list_lookup_insert_ne.
    + by rewrite <- app_assoc.
Qed.

Lemma run_makePromise {X} c (f : Promise → M (@AsyncDataCache Allocator Ssd) X) :
  (makePromise ≫= f) c = f (nextPromise_ c) (set_nextPromise_ (Datatypes.S (nextPromise_ c)) c).
Proof. done. Qed.

(** X2.  A lookup that finds the key on an entry in exclusive mode returns no
    pin and counts a wait.  With a future to fill, the caller gets the
    promise of the entry, which is made if the entry had none; without one,
    the entry is left as it was.  The pin count, the map and the slots do
    not change. *)
Theorem findOrCreate_exclusive_waits c sh s key size wait found e :
  shards_ c !! sh = Some s →
  entryMap_ s !! key = Some found → heap_ s !! found = Some e →
  isExclusive e = true →
  let pr := default (nextPromise_ c) (promise_ e) in
  ∃ c' s',
    CacheShard_findOrCreate sh key size wait c
    = Ok (None, if wait then Some pr else None) c'
    ∧ shards_ c' !! sh = Some s'
    ∧ heap_ s' !! found = Some (if wait then set_promise_ (Some pr) e else e)
    ∧ (∀ q, q ≠ found → heap_ s' !! q = heap_ s !! q)
    ∧ entryMap_ s' = entryMap_ s ∧ entries_ s' = entries_ s
    ∧ freeEntries_ s' = freeEntries_ s ∧ emptySlots_ s' = emptySlots_ s
    ∧ numWaitExclusive_ s' = numWaitExclusive_ s + 1
    ∧ eventCounter_ s' = eventCounter_ s + 1
    ∧ numHit_ s' = numHit_ s ∧ numNew_ s' = numNew_ s
    ∧ nextPromise_ c'
      = (if wait then match promise_ e with
                      | Some _ => nextPromise_ c
                      | None => Datatypes.S (nextPromise_ c)
                      end
         else nextPromise_ c)
    ∧ trace_ c' = trace_ c ++ [EvLock sh; EvUnlock sh].
Proof.
  intros Hs Hk He Hx pr. subst pr.
  unfold CacheShard_findOrCreate, withLock. run.
  unfold findOrCreate_locked.
  destruct wait; [destruct (promise_ e) as [pr|] eqn:Hpr|].
  - erewrite run_finally;
      [| run; rewrite Hk; run; rewrite Hx; run;
         unfold AsyncDataCacheEntry_getFuture; run; rewrite Hpr; run_last; reflexivity ].
    run. run_last.
    eexists _, _. split; [reflexivity|]. norm.
    split; [by apply list_lookup_insert_eq; eapply lookup_lt_Some|]. norm.
    split; [rewrite He; f_equal; destruct e; cbn in *; by subst|].
    repeat split; try done. by rewrite <- app_assoc.
  - erewrite run_finally;
      [| run; rewrite Hk; run; rewrite Hx; run;
         unfold AsyncDataCacheEntry_getFuture; run; rewrite Hpr;
         run; rewrite run_makePromise; norm; run; run_last; reflexivity ].
    run. run_last.
    eexists _, _. split; [reflexivity|]. norm.
    split; [by apply list_lookup_insert_eq; eapply lookup_lt_Some|]. norm.
    split; [apply lookup_insert_eq|].
    repeat split; try done.
    + intros q Hq. by rewrite lookup_insert_ne.
    + by rewrite <- app_assoc.
  - erewrite run_finally;
      [| run; rewrite Hk; run; rewrite Hx; run; run_last; reflexivity ].
    run. run_last.
    eexists _, _. split; [reflexivity|]. norm.
    split; [by apply list_lookup_insert_eq; eapply lookup_lt_Some|]. norm.
    repeat split; try done. by rewrite <- app_assoc.
Qed.

(** ** Pins taken and dropped *)

(** X3.  [addReference()] on an entry in exclusive mode fails its check and
    changes nothing.  On an entry that is not exclusive and has a pin count
    that is not negative, [addReference()] followed by [release()] leaves
    the cache exactly as it was. *)
Theorem addReference_then_release c sh s p e :
  shards_ c !! sh = Some s → heap_ s !! p = Some e →
  (isExclusive e = true →
   AsyncDataCacheEntry_addReference sh p c = Throw (VeloxRuntimeError kInvalidState) c)
  ∧ (isExclusive e = false → 0 ≤ numPins_ e → kExclusive ≤ 0 →
     ∃ c1 s1,
       AsyncDataCacheEntry_addReference sh p c = Ok tt c1
       ∧ shards_ c1 !! sh = Some s1
       ∧ heap_ s1 !! p = Some (set_numPins_ (numPins_ e + 1) e)
       ∧ AsyncDataCacheEntry_release sh p c1 = Ok tt c).
Proof.
  intros Hs He. split.
  - intros Hx. unfold AsyncDataCacheEntry_addReference. run. by rewrite Hx.
  - intros Hx Hpins Hk. unfold AsyncDataCacheEntry_addReference. run.
    rewrite Hx. cbn [negb]. rewrite run_check by done. run_last.
    eexists _, _. split; [reflexivity|].
    split; [by apply list_lookup_insert_eq; eapply lookup_lt_Some|]. norm.
    split; [apply lookup_insert_eq|].
    unfold AsyncDataCacheEntry_release. run.
    rewrite run_check by (apply negb_true_iff, Z.eqb_neq; lia).
    unfold isExclusive in Hx.
    replace (numPins_ e + 1 =? kExclusive) with false by (symmetry; apply Z.eqb_neq; lia).
    run. rewrite (proj2 (Z.leb_le 1 (numPins_ e + 1))) by lia.
    unfold VELOX_CHECK, mret, M_ret. f_equal.
    replace (numPins_ e + 1 - 1) with (numPins_ e) by lia.
    destruct c as [shards ????????????????]. cbn in *. f_equal.
    apply list_eq. intros i. destruct (decide (i = sh)) as [->|Hne].
    + rewrite list_lookup_insert_eq by by eapply lookup_lt_Some.
      rewrite Hs. f_equal. destruct s as [heap ???????????????]. cbn in *. f_equal.
      rewrite insert_id; [done|]. rewrite He. f_equal. by destruct e.
    + by rewrite list_lookup_insert_ne.
Qed.

(** ** An eviction pass over a shard without slots *)

(** X4.  [evict] returns at once from a shard that has no slots: it takes and
    releases the shard lock and changes nothing, whatever it was asked to
    free or to acquire. *)
Theorem evict_empty_shard acq c sh s bytesToFree evictAllUnpinned pagesToAcquire :
  shards_ c !! sh = Some s → entries_ s = [] →
  CacheShard_evict sh bytesToFree evictAllUnpinned pagesToAcquire (acq, c)
  = Ok tt (acq,
           set_trace_
             (trace_ c ++ [EvEvict sh bytesToFree evictAllUnpinned pagesToAcquire;
                           EvLock sh; EvUnlock sh]) c).
Proof.
  intros Hs Hnil. unfold CacheShard_evict.
  erewrite bind_Ok by reflexivity. erewrite bind_Ok by reflexivity.
  erewrite bind_Ok by reflexivity. cbv beta zeta.
  set (c0 := set_trace_ _ c).
  assert (∀ skip now c1, shards_ c1 !! sh = Some s →
            evict_locked sh bytesToFree evictAllUnpinned skip pagesToAcquire now (acq, c1)
            = Ok None (acq, c1)) as Hlocked.
  { intros skip now c1 Hs1. unfold evict_locked.
    erewrite run_liftCache by by apply getShard_Ok. by rewrite Hnil. }
  erewrite bind_Ok;
    [|erewrite bind_Ok by reflexivity; erewrite finally_Ok by (apply Hlocked; exact Hs);
      reflexivity].
  unfold mret, M_ret. subst c0. norm. by rewrite <- !app_assoc.
Qed.

(** ** The bytes after which the SSD filter is updated *)

(** X5.  [incrementNew(size)] adds [size] to the new bytes.  With an SSD tier,
    the new bytes are afterwards at most the size at which the filter is
    updated next: the filter is updated exactly when the new total exceeds
    that size, which then moves at least 2^28 bytes ahead of the total.
    Without an SSD tier nothing else changes. *)
Theorem incrementNew_next_update c size :
  ∃ c',
    AsyncDataCache_incrementNew size c = Ok tt c'
    ∧ newBytes_ c' = newBytes_ c + size
    ∧ shards_ c' = shards_ c ∧ trace_ c' = trace_ c
    ∧ cachedPages_ c' = cachedPages_ c
    ∧ match ssdCache_ c with
      | None => ssdCache_ c' = None ∧ nextSsdScoreSize_ c' = nextSsdScoreSize_ c
      | Some ssd =>
          newBytes_ c' ≤ nextSsdScoreSize_ c'
          ∧ if nextSsdScoreSize_ c <? newBytes_ c + size
            then newBytes_ c' + 2 ^ 28 ≤ nextSsdScoreSize_ c'
                 ∧ nextSsdScoreSize_ c'
                   = newBytes_ c' + Z.max (AllocationTraits.pageBytes (cachedPages_ c)) (2 ^ 28)
                 ∧ ssdCache_ c' = Some (updateSsdFilter (timesPointNine (maxBytes ssd)) ssd)
            else nextSsdScoreSize_ c' = nextSsdScoreSize_ c
                 ∧ ssdCache_ c' = Some ssd
      end.
Proof.
  unfold AsyncDataCache_incrementNew. run.
  destruct (ssdCache_ c) as [ssd|] eqn:Hssd.
  - run. destruct (nextSsdScoreSize_ c <? newBytes_ c + size) eqn:Hlt.
    + run. run_last. eexists. split; [reflexivity|]. norm.
      repeat split; try done; lia.
    + run_last. eexists. split; [reflexivity|]. norm.
      apply Z.ltb_ge in Hlt. repeat split; try done.
  - run_last. eexists. split; [reflexivity|]. norm. done.
Qed.

(** ** The sleep of a thread that backs off *)

(** X6.  [backoff(counter)] advances the backoff counter and sleeps once, for
    the product of the low 12 bits of a hash and the low 5 bits of the
    counter: never more than 4095 * 31 microseconds. *)
Theorem backoff_sleep_bounded c counter :
  ∃ usec,
    AsyncDataCache_backoff counter c
    = Ok tt (set_trace_ (trace_ c ++ [EvSleep usec])
               (set_backoffCounter_ (backoffCounter_ c + 1) c))
    ∧ 0 ≤ usec ≤ 4095 * 31.
Proof.
  unfold AsyncDataCache_backoff. run. run_last.
  eexists. split; [reflexivity|].
  assert (Hland : ∀ x m, 0 ≤ m → 0 ≤ Z.land x m ≤ m).
  { intros x m Hm. apply Z.ldiff_le; [done|]. apply Z.bits_inj'. intros n Hn.
    rewrite Z.ldiff_spec, Z.land_spec, Z.bits_0.
    by destruct (Z.testbit x n), (Z.testbit m n). }
  pose proof (Hland (hash16 ((backoffCounter_ c + 1) `mod` 2 ^ 16)) 4095 ltac:(lia)).
  pose proof (Hland counter 31 ltac:(lia)). nia.
Qed.

(** ** Making space: the ways out that evict nothing *)

(** X7.  When the allocation can be tried and the closure succeeds at the first
    attempt, [makeSpace] returns true without a pass of [evict]: the shards
    are untouched, the closure was called once, what it left in [acquired]
    is freed by the scope guard, and the count of allocating threads is as
    before. *)
Theorem makeSpace_first_try
    (allocate : Allocation → Allocator → bool * Allocation * Allocator)
    (numPages : Z) c acquired a :
  (0 < kNumShards)%nat →
  0 ≤ numThreadsInAllocate_ c < 10000 →
  AsyncDataCache_canTryAllocate c numPages [] = true →
  allocate [] (allocator_ c) = (true, acquired, a) →
  ∃ c',
    AsyncDataCache_makeSpace allocate numPages c = Ok true c'
    ∧ shards_ c' = shards_ c
    ∧ trace_ c'
      = trace_ c ++ [EvAllocate true; EvFreeNonContiguous (Allocation.numPages acquired)]
    ∧ allocator_ c' = freeNonContiguous acquired a
    ∧ numThreadsInAllocate_ c' = numThreadsInAllocate_ c
    ∧ cachedPages_ c' = cachedPages_ c
    ∧ cacheFailureMessage_ c' = cacheFailureMessage_ c.
Proof.
  intros Hn Hthreads Hcan Halloc.
  assert (∀ l c1, ms_acquired l = [] → allocator_ c1 = allocator_ c →
            makeSpace_attempt allocate numPages 0 (l, c1)
            = Ok true
                ({| ms_sizeMultiplier := ms_sizeMultiplier l;
                    ms_isCounted := ms_isCounted l; ms_rank := ms_rank l;
                    ms_acquired := acquired |},
                 set_trace_ (trace_ c1 ++ [EvAllocate true]) (set_allocator_ a c1)))
    as Hattempt.
  { intros l c1 Hacq Ha. unfold makeSpace_attempt. rewrite run_gets. cbn [id]. cbv beta iota.
    rewrite canTryAllocate_int32.
    unfold AsyncDataCache_canTryAllocate in *. rewrite Hacq, Ha, Hcan.
    erewrite bind_Ok; [|unfold makeSpace_allocate; rewrite Hacq, Ha, Halloc; reflexivity].
    reflexivity. }
  unfold AsyncDataCache_makeSpace.
  destruct (Z.to_nat kMaxAttempts) as [|rounds] eqn:Hrounds;
    [unfold kMaxAttempts in Hrounds; lia|].
  unfold runFrame, finally. cbn [makeSpace_loop].
  erewrite run_liftCache by reflexivity.
  rewrite run_check by (apply andb_true_iff; split; [apply Z.leb_le|apply Z.ltb_lt]; lia).
  destruct (numThreadsInAllocate_ c =? 0) eqn:H0; cbn [negb].
  - erewrite bind_Ok by reflexivity.
    erewrite bind_Ok; [|erewrite bind_Ok by (by apply Hattempt); reflexivity].
    cbv beta iota. unfold mret at 1, M_ret at 1.
    unfold makeSpace_guard. rewrite run_gets. cbn [fst ms_acquired ms_isCounted].
    erewrite run_liftCache by reflexivity. unfold mret, M_ret.
    eexists. split; [reflexivity|]. norm. rewrite <- app_assoc. done.
  - erewrite bind_Ok by reflexivity.
    erewrite bind_Ok; [|erewrite bind_Ok by (by apply Hattempt); reflexivity].
    cbv beta iota. unfold mret at 1, M_ret at 1.
    unfold makeSpace_guard. rewrite run_gets. cbn [fst ms_acquired ms_isCounted].
    erewrite run_liftCache by reflexivity.
    unfold liftCache, modify. norm.
    eexists. split; [reflexivity|]. norm. rewrite <- app_assoc.
    repeat split; try done. lia.
Qed.

(** X8.  A count of allocating threads outside [0, 10000) fails the first check
    of [makeSpace]: nothing is allocated or evicted, the count is left as it
    is, and the scope guard frees the empty [acquired]. *)
Theorem makeSpace_rejects_leaked_count
    (allocate : Allocation → Allocator → bool * Allocation * Allocator)
    (numPages : Z) c :
  ¬ (0 ≤ numThreadsInAllocate_ c < 10000) →
  AsyncDataCache_makeSpace allocate numPages c
  = Throw (VeloxRuntimeError kInvalidState)
      (set_trace_ (trace_ c ++ [EvFreeNonContiguous 0])
         (set_allocator_ (freeNonContiguous [] (allocator_ c)) c)).
Proof.
  intros Hthreads. unfold AsyncDataCache_makeSpace, runFrame, finally.
  erewrite run_liftCache by reflexivity.
  replace ((0 <=? numThreadsInAllocate_ c) && (numThreadsInAllocate_ c <? 10000))
    with false
    by (symmetry; apply andb_false_iff;
        destruct (Z.leb_spec 0 (numThreadsInAllocate_ c)); [right; apply Z.ltb_ge; lia|by left]).
  reflexivity.
Qed.

(** ** What the work on shards leaves alone *)

#[local] Instance beside_preorder : PreOrder (@beside Allocator Ssd).
Proof.
  split.
  - intros c. by repeat split.
  - intros c1 c2 c3 (A1 & B1 & C1 & D1 & E1 & F1 & G1) (A2 & B2 & C2 & D2 & E2 & F2 & G2).
    repeat split; congruence.
Qed.

Lemma beside_pure {X} (m : M (@AsyncDataCache Allocator Ssd) X) :
  (∀ c, stateOf (m c) = c) → keeps beside m.
Proof. intros Hm c. rewrite Hm. reflexivity. Qed.

Lemma beside_getShard sh : keeps (@beside Allocator Ssd) (getShard sh).
Proof. apply beside_pure. intros c. unfold getShard. by destruct (shards_ c !! sh). Qed.

Lemma beside_deref sh p : keeps (@beside Allocator Ssd) (deref sh p).
Proof.
  apply beside_pure. intros c. unfold deref, getShard, mbind, M_bind.
  destruct (shards_ c !! sh) as [s|]; cbn; [|done]. by destruct (heap_ s !! p).
Qed.

Lemma beside_updShard sh c s : beside c (updShard sh s c).
Proof. repeat split. cbn. by rewrite length_insert. Qed.

Lemma beside_modifyShard sh f : keeps (@beside Allocator Ssd) (modifyShard sh f).
Proof.
  intros c. unfold modifyShard, getShard, mbind, M_bind.
  destruct (shards_ c !! sh) as [s|]; cbn -[updShard]; [|reflexivity].
  apply beside_updShard.
Qed.

Lemma beside_modifyEntry sh p f : keeps (@beside Allocator Ssd) (modifyEntry sh p f).
Proof.
  intros c. unfold modifyEntry, deref, modifyShard, getShard, mbind, M_bind.
  destruct (shards_ c !! sh) as [s|] eqn:Hs; cbn -[updShard]; [|reflexivity].
  destruct (heap_ s !! p) as [e|]; cbn -[updShard]; [|reflexivity].
  rewrite Hs. cbn -[updShard]. apply beside_updShard.
Qed.

Lemma beside_modify (f : @AsyncDataCache Allocator Ssd → _) :
  (∀ c, beside c (f c)) → keeps beside (modify f).
Proof. intros Hf c. apply Hf. Qed.

Lemma beside_log ev : keeps (@beside Allocator Ssd) (log ev).
Proof. unfold log. apply beside_modify. intros c. by repeat split. Qed.

Lemma beside_allocate pages out :
  keeps (@beside Allocator Ssd) (allocator_allocateNonContiguous pages out).
Proof.
  intros c. unfold allocator_allocateNonContiguous.
  destruct (allocateNonContiguous pages out (allocator_ c)) as [[ok out'] a']. cbn.
  by repeat split.
Qed.

Lemma beside_makePromise : keeps (@beside Allocator Ssd) makePromise.
Proof. intros c. cbn. by repeat split. Qed.

Lemma beside_ssdCache : keeps (@beside Allocator Ssd) ssdCache.
Proof. apply beside_pure. intros c. unfold ssdCache. by destruct (ssdCache_ c). Qed.

Lemma beside_startWrite : keeps (@beside Allocator Ssd) ssdCache_startWrite.
Proof.
  intros c. unfold ssdCache_startWrite, ssdCache, mbind, M_bind.
  destruct (ssdCache_ c) as [ssd|]; [|reflexivity].
  destruct (startWrite ssd) as [ok ssd']. cbn. by repeat split.
Qed.

#[local] Hint Resolve beside_allocate beside_makePromise beside_ssdCache
  beside_startWrite : keeps.

Ltac keeps_go ::=
  repeat (keeps_tc; lazymatch goal with
  | |- keeps _ (mret _) => apply keeps_ret
  | |- keeps _ (throw _) => apply keeps_throw
  | |- keeps _ (gets _) => apply keeps_gets
  | |- keeps _ (VELOX_CHECK _) => apply keeps_VELOX_CHECK
  | |- keeps _ (liftCache _) => apply keeps_liftCache
  | |- keeps _ (finally _ _) => apply keeps_finally
  | |- keeps _ (tryCatch _ _) => apply keeps_tryCatch
  | |- keeps _ (foldM _ _ _) => apply keeps_foldM; keeps_tc; intros
  | |- keeps gently (log _) => apply keeps_log; exact I
  | |- keeps gently (getShard _) => apply keeps_getShard
  | |- keeps gently (deref _ _) => apply keeps_deref
  | |- keeps gently (modifyShard _ _) => apply keeps_modifyShard; keeps_side
  | |- keeps gently (modifyEntry _ _ _) => apply keeps_modifyEntry; keeps_side
  | |- keeps gently (modify _) => apply keeps_modify_fields; keeps_side
  | |- keeps (calmly _) (log _) => apply calmly_log; exact I
  | |- keeps (calmly _) (getShard _) => apply calmly_getShard
  | |- keeps (calmly _) (deref _ _) => apply calmly_deref
  | |- keeps (calmly _) (modifyShard _ _) => apply calmly_modifyShard
  | |- keeps (calmly _) (modifyEntry _ _ _) => apply calmly_modifyEntry
  | |- keeps (calmly _) (modify _) => apply calmly_modify; intros; reflexivity
  | |- keeps beside (log _) => apply beside_log
  | |- keeps beside (getShard _) => apply beside_getShard
  | |- keeps beside (deref _ _) => apply beside_deref
  | |- keeps beside (modifyShard _ _) => apply beside_modifyShard
  | |- keeps beside (modifyEntry _ _ _) => apply beside_modifyEntry
  | |- keeps beside (modify _) => apply beside_modify; intros; by repeat split
  | |- keeps (onCache _) (modify _) =>
      apply keeps_onCache_modify; keeps_tc; intros [??]; reflexivity
  | |- keeps _ (_ ≫= _) => apply keeps_bind; keeps_tc; [| intros ?]
  | |- keeps _ (if ?b then _ else _) => destruct b
  | |- keeps _ (match ?x with _ => _ end) => destruct x
  | |- keeps _ _ => solve [eauto with keeps]
  end).

Lemma beside_free a : keeps (@beside Allocator Ssd) (allocator_freeNonContiguous a).
Proof. unfold allocator_freeNonContiguous. keeps_go. Qed.

Lemma beside_ssdWrite pins : keeps (@beside Allocator Ssd) (ssdCache_write pins).
Proof. unfold ssdCache_write. keeps_go. Qed.

Lemma beside_incrementCachedPages n :
  keeps (@beside Allocator Ssd) (AsyncDataCache_incrementCachedPages n).
Proof. unfold AsyncDataCache_incrementCachedPages. keeps_go. Qed.

Lemma beside_incrementPrefetchPages n :
  keeps (@beside Allocator Ssd) (AsyncDataCache_incrementPrefetchPages n).
Proof. unfold AsyncDataCache_incrementPrefetchPages. keeps_go. Qed.

Lemma beside_accessTime : keeps (@beside Allocator Ssd) accessTime.
Proof. unfold accessTime. keeps_go. Qed.

Lemma beside_setValue pr v : keeps (@beside Allocator Ssd) (Promise_setValue pr v).
Proof. unfold Promise_setValue. keeps_go. Qed.

#[local] Hint Resolve beside_free beside_ssdWrite beside_incrementCachedPages
  beside_incrementPrefetchPages beside_accessTime beside_setValue : keeps.

Lemma beside_movePromise sh p :
  keeps (@beside Allocator Ssd) (AsyncDataCacheEntry_movePromise sh p).
Proof. unfold AsyncDataCacheEntry_movePromise. keeps_go. Qed.

Lemma beside_getFuture sh p :
  keeps (@beside Allocator Ssd) (AsyncDataCacheEntry_getFuture sh p).
Proof. unfold AsyncDataCacheEntry_getFuture. keeps_go. Qed.

Lemma beside_setPrefetch sh p flag :
  keeps (@beside Allocator Ssd) (AsyncDataCacheEntry_setPrefetch sh p flag).
Proof. unfold AsyncDataCacheEntry_setPrefetch. keeps_go. Qed.

Lemma beside_appendSsdSaveable_loop sh limit slots pins :
  keeps (@beside Allocator Ssd) (appendSsdSaveable_loop sh limit slots pins).
Proof.
  revert pins. induction slots as [|[p|] slots IH]; intros pins; cbn; keeps_go.
Qed.

#[local] Hint Resolve beside_movePromise beside_getFuture beside_setPrefetch
  beside_appendSsdSaveable_loop : keeps.

Lemma beside_appendSsdSaveable sh pins :
  keeps (@beside Allocator Ssd) (CacheShard_appendSsdSaveable sh pins).
Proof. unfold CacheShard_appendSsdSaveable, withLock. keeps_go. Qed.

#[local] Hint Resolve beside_appendSsdSaveable : keeps.

Lemma beside_saveToSsd : keeps (@beside Allocator Ssd) AsyncDataCache_saveToSsd.
Proof. unfold AsyncDataCache_saveToSsd. keeps_go. Qed.

#[local] Hint Resolve beside_saveToSsd : keeps.

Lemma beside_removeEntryLocked sh p :
  keeps (@beside Allocator Ssd) (CacheShard_removeEntryLocked sh p).
Proof. unfold CacheShard_removeEntryLocked. keeps_go. Qed.

Lemma beside_destroyEntry sh p : keeps (@beside Allocator Ssd) (destroyEntry sh p).
Proof. unfold destroyEntry. keeps_go. Qed.

#[local] Hint Resolve beside_removeEntryLocked beside_destroyEntry : keeps.

Lemma beside_tryAddFreeEntry sh slot :
  keeps (@beside Allocator Ssd) (CacheShard_tryAddFreeEntry sh slot).
Proof. unfold CacheShard_tryAddFreeEntry. keeps_go. Qed.

Lemma beside_calibrateThreshold_samples sh now step n i :
  keeps (@beside Allocator Ssd) (calibrateThreshold_samples sh now step n i).
Proof. revert i. induction n as [|n IH]; intros i; cbn; keeps_go. Qed.

#[local] Hint Resolve beside_tryAddFreeEntry beside_calibrateThreshold_samples : keeps.

Lemma beside_calibrateThreshold sh :
  keeps (@beside Allocator Ssd) (CacheShard_calibrateThreshold sh).
Proof. unfold CacheShard_calibrateThreshold. keeps_go. Qed.

Lemma beside_freeAllocations l :
  keeps (@beside Allocator Ssd) (CacheShard_freeAllocations l).
Proof. unfold CacheShard_freeAllocations. keeps_go. Qed.

#[local] Hint Resolve beside_calibrateThreshold beside_freeAllocations : keeps.

Lemma beside_evict_candidate sh bytesToFree candidate sc l :
  keeps (onCache (@beside Allocator Ssd)) (evict_candidate sh bytesToFree candidate sc l).
Proof. unfold evict_candidate. keeps_go. Qed.

#[local] Hint Resolve beside_evict_candidate : keeps.

Lemma beside_evict_step sh bytesToFree evictAll skip l :
  keeps (onCache (@beside Allocator Ssd)) (evict_step sh bytesToFree evictAll skip l).
Proof. unfold evict_step. keeps_go. Qed.

#[local] Hint Resolve beside_evict_step : keeps.

Lemma beside_evict_loop sh bytesToFree evictAll skip rounds l :
  keeps (onCache (@beside Allocator Ssd)) (evict_loop sh bytesToFree evictAll skip rounds l).
Proof. revert l. induction rounds as [|n IH]; intros l; cbn; keeps_go. Qed.

#[local] Hint Resolve beside_evict_loop : keeps.

Lemma beside_evict_locked sh bytesToFree evictAll skip pages now :
  keeps (onCache (@beside Allocator Ssd)) (evict_locked sh bytesToFree evictAll skip pages now).
Proof. unfold evict_locked. keeps_go. Qed.

Lemma beside_evict_unlocked l : keeps (@beside Allocator Ssd) (evict_unlocked l).
Proof. unfold evict_unlocked. keeps_go. Qed.

#[local] Hint Resolve beside_evict_locked beside_evict_unlocked : keeps.

Lemma beside_evict sh bytesToFree evictAll pagesToAcquire :
  keeps (onCache (@beside Allocator Ssd))
    (CacheShard_evict sh bytesToFree evictAll pagesToAcquire).
Proof. unfold CacheShard_evict. keeps_go. Qed.

(** ** The count of allocating threads *)

#[local] Instance sameThreads_preorder : PreOrder (@sameThreads Allocator Ssd).
Proof. split; [by intros c|]. intros c1 c2 c3. unfold sameThreads. congruence. Qed.

#[local] Instance sameCount_preorder : PreOrder (@sameCount Allocator Ssd).
Proof.
  split; [by intros st|]. intros st1 st2 st3 [A1 B1] [A2 B2]. split; congruence.
Qed.

Lemma beside_sameThreads {X} (m : M (@AsyncDataCache Allocator Ssd) X) :
  keeps beside m → keeps sameThreads m.
Proof. apply keeps_weaken. by intros c c' (? & _). Qed.

Lemma sameCount_liftCache {X} (m : M (@AsyncDataCache Allocator Ssd) X) :
  keeps sameThreads m → keeps sameCount (liftCache m).
Proof.
  intros Hm [l c]. specialize (Hm c). unfold liftCache.
  destruct (m c); by split.
Qed.

Lemma sameCount_modify
    (f : MakeSpaceLocals * @AsyncDataCache Allocator Ssd → MakeSpaceLocals * _) :
  (∀ st, sameCount st (f st)) → keeps sameCount (modify f).
Proof. intros Hf st. apply Hf. Qed.

Lemma sameCount_withAcquired {X} (m : M (Allocation * @AsyncDataCache Allocator Ssd) X) :
  keeps (onCache beside) m → keeps sameCount (withAcquired m).
Proof.
  intros Hm [l c]. specialize (Hm (ms_acquired l, c)). unfold withAcquired, onCache in *.
  destruct (m (ms_acquired l, c)) as [x [a c']|ex [a c']]; cbn in *;
    destruct Hm as (? & _); by split.
Qed.

Lemma sameCount_allocate
    (allocate : Allocation → Allocator → bool * Allocation * Allocator) :
  keeps (@sameCount Allocator Ssd) (makeSpace_allocate allocate).
Proof.
  intros [l c]. unfold makeSpace_allocate.
  by destruct (allocate (ms_acquired l) (allocator_ c)) as [[ok acq] a].
Qed.

Lemma sameThreads_backoff n : keeps (@sameThreads Allocator Ssd) (AsyncDataCache_backoff n).
Proof. by intros c. Qed.

Lemma beside_updateStats sh stats :
  keeps (@beside Allocator Ssd) (CacheShard_updateStats sh stats).
Proof. unfold CacheShard_updateStats, withLock. keeps_go. Qed.

#[local] Hint Resolve beside_updateStats : keeps.

Lemma beside_refreshStats : keeps (@beside Allocator Ssd) AsyncDataCache_refreshStats.
Proof. unfold AsyncDataCache_refreshStats. keeps_go. Qed.

Lemma sameThreads_setCacheFailureMessage :
  keeps (@sameThreads Allocator Ssd) makeSpace_setCacheFailureMessage.
Proof.
  unfold makeSpace_setCacheFailureMessage.
  apply keeps_bind; [apply _|apply beside_sameThreads, beside_refreshStats|intros stats].
  by intros c.
Qed.

Ltac same_go :=
  repeat lazymatch goal with
  | |- PreOrder _ => apply _
  | |- keeps sameCount (mret _) => apply keeps_ret
  | |- keeps sameCount (gets _) => apply keeps_gets
  | |- keeps sameCount (makeSpace_allocate _) => apply sameCount_allocate
  | |- keeps sameCount (liftCache (AsyncDataCache_backoff _)) =>
      apply sameCount_liftCache, sameThreads_backoff
  | |- keeps sameCount (liftCache (modify _)) =>
      apply sameCount_liftCache; intros ?; reflexivity
  | |- keeps sameCount (liftCache (gets _)) =>
      apply sameCount_liftCache, keeps_gets; apply _
  | |- keeps sameCount (liftCache _) =>
      apply sameCount_liftCache, beside_sameThreads; keeps_go
  | |- keeps sameCount (modify _) => apply sameCount_modify; intros [??]; by split
  | |- keeps sameCount (withAcquired _) => apply sameCount_withAcquired, beside_evict
  | |- keeps sameCount (_ ≫= _) => apply keeps_bind; [| |intros ?]
  | |- keeps sameCount (if ?b then _ else _) => destruct b
  | |- keeps sameCount (match ?x with _ => _ end) => destruct x
  end.

Section MakeSpaceCount.

Variable allocate : Allocation → Allocator → bool * Allocation * Allocator.
Variable numPages : Z.
Variable n0 : Z.

Implicit Types st : MakeSpaceLocals * @AsyncDataCache Allocator Ssd.

Lemma countedFrom_same st st' :
  countedFrom n0 st → sameCount st st' → countedFrom n0 st'.
Proof. unfold countedFrom. intros H1 [-> ->]. done. Qed.

Lemma makeSpace_enlist_counts st :
  ms_isCounted (fst st) = false → countedFrom n0 st →
  ∃ st', makeSpace_enlist st = Ok tt st' ∧ countedFrom n0 st'.
Proof.
  destruct st as [l c]. unfold countedFrom. cbn. intros -> Hn.
  eexists. split; [reflexivity|]. cbn. lia.
Qed.

Lemma makeSpace_attempt_counts nthAttempt st :
  countedFrom n0 st →
  wp (makeSpace_attempt allocate numPages nthAttempt)
    (λ _, countedFrom n0) (λ _, countedFrom n0) st.
Proof.
  intros Hst. unfold makeSpace_attempt, wp. rewrite run_gets.
  destruct st as [l c]. cbn [id]. cbv beta iota.
  lazymatch goal with
  | |- context [mbind (λ a : bool, if a then mret true else ?r)] => set (rest := r)
  end.
  assert (∀ st1, sameCount (l, c) st1 →
            wp rest (λ _, countedFrom n0) (λ _, countedFrom n0) st1) as Hrest.
  { intros st1 H1. subst rest. apply wp_bind.
    eapply wp_mono with (Q := λ _ st2, sameCount (l, c) st2)
                        (E := λ _ st2, sameCount (l, c) st2).
    { apply wp_keeps with (R := sameCount); [same_go|]. intros st2 H2. by etrans. }
    2:{ intros ex st2 H2. by eapply countedFrom_same. }
    intros _ st2 H2. apply wp_bind.
    assert (countedFrom n0 st2) as Hc2 by by eapply countedFrom_same.
    eapply wp_mono with (Q := λ _ st3, countedFrom n0 st3) (E := λ _ _, False);
      [|..|done].
    { destruct (_ <? _); cbn [andb]; [|done].
      destruct (ms_isCounted l) eqn:Hl; cbn [negb]; [done|].
      destruct (makeSpace_enlist_counts st2) as (st3 & Hrun & Hc3); [|done|].
      - destruct H2 as [H2 _]. cbn in H2. congruence.
      - unfold wp. by rewrite Hrun. }
    intros _ st3 Hc3.
    apply wp_keeps with (R := sameCount); [same_go|].
    intros st4 H4. by eapply countedFrom_same. }
  clearbody rest.
  destruct (AsyncDataCache_canTryAllocate c (int32 numPages) (ms_acquired l)).
  - pose proof (sameCount_allocate allocate (l, c)) as Ha.
    unfold mbind at 1, M_bind at 1.
    destruct (makeSpace_allocate allocate (l, c)) as [ok st1|ex st1]; cbn in Ha.
    + destruct ok; [by eapply countedFrom_same|]. by apply Hrest.
    + by eapply countedFrom_same.
  - rewrite run_ret. by apply Hrest.
Qed.

Lemma makeSpace_loop_counts rounds : ∀ nthAttempt st,
  countedFrom n0 st →
  wp (makeSpace_loop allocate numPages rounds nthAttempt)
    (λ _, countedFrom n0) (λ _, countedFrom n0) st.
Proof.
  induction rounds as [|rounds IH]; intros nthAttempt st Hst; cbn [makeSpace_loop]; [done|].
  apply wp_bind. eapply wp_mono; [by apply makeSpace_attempt_counts| |done].
  intros done st' Hst'. destruct done; [done|]. by apply IH.
Qed.

End MakeSpaceCount.

(** X9.  [makeSpace] leaves the count of allocating threads as it found it, on
    every way out: a thread that enlisted itself, at the start or after half
    of the attempts, is taken off the count by the scope guard, whether the
    allocation succeeded, the attempts ran out or an exception passed
    through. *)
Theorem makeSpace_restores_thread_count
    (allocate : Allocation → Allocator → bool * Allocation * Allocator)
    (numPages : Z) c :
  numThreadsInAllocate_ (stateOf (AsyncDataCache_makeSpace allocate numPages c))
  = numThreadsInAllocate_ c.
Proof.
  assert (∃ n0, n0 = numThreadsInAllocate_ c) as [n0 Hn0] by by eexists.
  rewrite <- Hn0. unfold AsyncDataCache_makeSpace.
  set (l0 := {| ms_sizeMultiplier := 0; ms_isCounted := false; ms_rank := 0;
                ms_acquired := [] |}).
  lazymatch goal with |- context [finally ?m _] => set (body := m) end.
  assert (wp body (λ _, countedFrom n0) (λ _, countedFrom n0) (l0, c)) as Hbody.
  { subst body. unfold wp. erewrite run_liftCache by reflexivity.
    destruct (_ && _);
      [rewrite run_check by done
      |erewrite bind_Throw by reflexivity; unfold countedFrom; cbn; lia].
    apply wp_bind.
    eapply wp_mono with (Q := λ _ st1, countedFrom n0 st1) (E := λ _ _, False);
      [|..|done].
    { destruct (numThreadsInAllocate_ c =? 0); cbn [negb];
        [by unfold wp, countedFrom; cbn; lia|].
      destruct (makeSpace_enlist_counts n0 (l0, c)) as (st1 & Hrun & Hc1);
        [done|by unfold countedFrom; cbn; lia|].
      unfold wp. by rewrite Hrun. }
    intros _ st1 Hc1. apply wp_bind.
    eapply wp_mono; [by apply makeSpace_loop_counts| |done].
    intros done st2 Hc2. destruct done; [done|].
    apply wp_bind.
    apply wp_keeps with (R := sameCount);
      [apply sameCount_liftCache, sameThreads_setCacheFailureMessage|].
    intros st3 H3. by eapply countedFrom_same. }
  assert (∀ st : MakeSpaceLocals * @AsyncDataCache Allocator Ssd, countedFrom n0 st →
            numThreadsInAllocate_ (snd (stateOf (makeSpace_guard st))) = n0) as Hguard.
  { intros [l1 c1] Hc. unfold countedFrom in Hc. cbn in Hc.
    unfold makeSpace_guard. rewrite run_gets. cbn [fst].
    erewrite run_liftCache by reflexivity.
    destruct (ms_isCounted l1); cbn; lia. }
  unfold runFrame, finally, wp in *.
  destruct (body (l0, c)) as [x st1|ex st1].
  - specialize (Hguard st1 Hbody).
    destruct (makeSpace_guard st1) as [? [l2 c2]|? [l2 c2]]; exact Hguard.
  - specialize (Hguard st1 Hbody).
    destruct (stateOf (makeSpace_guard st1)) as [l2 c2]. exact Hguard.
Qed.

(** ** Creating an entry: what the shard looks like afterwards *)

Lemma onShard_conj {St X} (proj : St → @AsyncDataCache Allocator Ssd) sh s (m : M St X)
    (Φ1 Φ2 : X → CacheShard → Prop) (Ξ1 Ξ2 : Exn → CacheShard → Prop) :
  onShard proj sh s m Φ1 Ξ1 → onShard proj sh s m Φ2 Ξ2 →
  onShard proj sh s m (λ x s', Φ1 x s' ∧ Φ2 x s') (λ ex s', Ξ1 ex s' ∧ Ξ2 ex s').
Proof.
  intros H1 H2 st Hs. specialize (H1 st Hs). specialize (H2 st Hs). unfold wp in *.
  destruct (m st) as [x st'|ex st'];
    destruct H1 as (s1 & Hs1 & ?), H2 as (s2 & Hs2 & ?);
    assert (s2 = s1) as -> by congruence; eauto.
Qed.

(** The new entry of [findOrCreate]: where it is put, and what it is before
    it is initialized. *)
Lemma onShard_findOrCreate_newEntry_placed sh s key size Ξ :
  ShardInv (withoutKey key s) →
  onShard id sh s
    (findOrCreate_newEntry sh key size : M (@AsyncDataCache Allocator Ssd) _)
    (λ r s', ∃ p e,
       r = EntryToInit p
       ∧ ShardInv (withoutKey key s')
       ∧ entryMap_ s' = <[key := p]> (entryMap_ s)
       ∧ heap_ s' !! p = Some e ∧ numPins_ e = kExclusive
       ∧ fileNum (key_ e) = None ∧ size_ e = size
       ∧ promise_ e = None ∧ isFirstUse_ e = true
       ∧ (p ∉ freeEntries_ s') ∧ p ∈ slotEntries s'
       ∧ (∀ q, q ≠ p → heap_ s' !! q = heap_ s !! q)
       ∧ (heap_ s !! p = None ∨ p ∈ freeEntries_ s)
       ∧ match last (emptySlots_ s) with
         | None => entries_ s' = entries_ s ++ [Some p]
                   ∧ emptySlots_ s' = emptySlots_ s
         | Some index => entries_ s' = <[index := Some p]> (entries_ s)
                         ∧ emptySlots_ s' = removelast (emptySlots_ s)
         end) Ξ.
Proof.
  intros Hinv. unfold findOrCreate_newEntry.
  eapply onShard_bind; [by apply onShard_getFreeEntry with (key := key)|].
  cbv beta. intros p sb (Hinvb & (eb & Heb & Hkb & Hzb) & Hns & Hnf & Hmb & Henb & Hesb
                         & Hframe & Horigin).
  do 4 shard_step.
  set (e2 := set_promise_ None (set_numPins_ kExclusive eb)).
  set (e3 := set_isFirstUse_ true (set_size_ size e2)).
  set (X1 := set_heap_ (<[p := e3]> (heap_ sb)) (withoutKey key sb)).
  assert (ShardInv X1) as HinvX.
  { eapply ShardInv_entry with (s := withoutKey key sb) (p := p) (e := eb) (e' := e3);
      try done. by right. }
  assert (∀ s', heap_ s' = <[p := e3]> (heap_ sb) →
            entryMap_ s' = <[key := p]> (entryMap_ sb) →
            freeEntries_ s' = freeEntries_ sb →
            match last (emptySlots_ sb) with
            | None => entries_ s' = entries_ sb ++ [Some p]
                      ∧ emptySlots_ s' = emptySlots_ sb
            | Some index => entries_ s' = <[index := Some p]> (entries_ sb)
                            ∧ emptySlots_ s' = removelast (emptySlots_ sb)
            end →
            ∃ p0 e0, EntryToInit p = EntryToInit p0
              ∧ ShardInv (withoutKey key s')
              ∧ entryMap_ s' = <[key := p0]> (entryMap_ s)
              ∧ heap_ s' !! p0 = Some e0 ∧ numPins_ e0 = kExclusive
              ∧ fileNum (key_ e0) = None ∧ size_ e0 = size
              ∧ promise_ e0 = None ∧ isFirstUse_ e0 = true
              ∧ (p0 ∉ freeEntries_ s') ∧ p0 ∈ slotEntries s'
              ∧ (∀ q, q ≠ p0 → heap_ s' !! q = heap_ s !! q)
              ∧ (heap_ s !! p0 = None ∨ p0 ∈ freeEntries_ s)
              ∧ match last (emptySlots_ s) with
                | None => entries_ s' = entries_ s ++ [Some p0]
                          ∧ emptySlots_ s' = emptySlots_ s
                | Some index => entries_ s' = <[index := Some p0]> (entries_ s)
                                ∧ emptySlots_ s' = removelast (emptySlots_ s)
                end) as Hfin.
  { intros s' Hh Hm Hf Hplace.
    destruct (ShardInv_place X1 (withoutKey key s') p) as [Hinv' Hslot]; try done.
    - cbn. rewrite lookup_insert_eq. eauto.
    - cbn. by rewrite Hm, delete_insert_eq.
    - exists p, e3. split_and!; try done.
      + by rewrite Hm, Hmb.
      + rewrite Hh. apply lookup_insert_eq.
      + by rewrite Hf.
      + intros q Hq. rewrite Hh, lookup_insert_ne by done. by apply Hframe.
      + by rewrite <- Henb, <- Hesb. }
  destruct (last (emptySlots_ sb)) as [index|] eqn:Hlast.
  - do 2 shard_step.
    assert (entries_ sb !! index = Some None) as Hidx.
    { apply (inv_emptySlots _ Hinvb). by apply last_Some_elem_of. }
    rewrite Hidx. do 5 shard_step.
    eapply onShard_bind; [shard_prim; intros Hz; cbn in Hz; lia|shard_intro].
    do 3 shard_step. by apply Hfin.
  - do 3 shard_step.
    eapply onShard_bind; [shard_prim; intros Hz; cbn in Hz; lia|shard_intro].
    do 3 shard_step. by apply Hfin.
Qed.

(** [release] of an exclusive entry that is in the map: it returns, and the
    entry has left the map. *)
Lemma onShard_release_exclusive_unbinds sh s p e k :
  ShardInv s → heap_ s !! p = Some e → numPins_ e = kExclusive → kExclusive ≠ 0 →
  rawKey (key_ e) = Some k →
  onShard id sh s (AsyncDataCacheEntry_release sh p : M (@AsyncDataCache Allocator Ssd) _)
    (λ _ s',
       ShardInv s' ∧ (∀ q, q ≠ p → heap_ s' !! q = heap_ s !! q)
       ∧ entryMap_ s' = delete k (entryMap_ s)
       ∧ entries_ s' = entries_ s ∧ emptySlots_ s' = emptySlots_ s
       ∧ freeEntries_ s' = freeEntries_ s
       ∧ ∃ e', heap_ s' !! p = Some e' ∧ fileNum (key_ e') = None ∧ numPins_ e' = 0
           ∧ size_ e' = size_ e ∧ promise_ e' = None)
    (λ _ _, False).
Proof.
  intros Hinv He Hpin Hk0 Hr. unfold AsyncDataCacheEntry_release. shard_step.
  eapply onShard_bind; [shard_prim|shard_intro].
  { intros Hz. apply negb_false_iff, Z.eqb_eq in Hz. lia. }
  rewrite Hpin, Z.eqb_refl.
  unfold CacheShard_removeEntry, withLock.
  eapply onShard_bind with
    (Ψ := λ (_ : option Promise) s1,
       ShardInv s1 ∧ (∀ q, q ≠ p → heap_ s1 !! q = heap_ s !! q)
       ∧ entryMap_ s1 = delete k (entryMap_ s)
       ∧ entries_ s1 = entries_ s ∧ emptySlots_ s1 = emptySlots_ s
       ∧ freeEntries_ s1 = freeEntries_ s
       ∧ ∃ e1, heap_ s1 !! p = Some e1 ∧ fileNum (key_ e1) = None
           ∧ size_ e1 = size_ e ∧ promise_ e1 = None).
  { shard_step. apply onShard_finally; [|neutral_go].
    eapply onShard_bind.
    { eapply onShard_conseq;
        [eapply onShard_conj with (Ξ1 := λ _ _, False) (Ξ2 := λ _ _, False);
         [by eapply onShard_removeEntryLocked_inv|eapply onShard_removeEntryLocked; [done|]]
        |intros ? ? Hx; exact Hx|intros ? ? [[] _]].
      intros k' Hk'. rewrite (inv_key_map _ Hinv _ _ _ He Hk'). eauto. }
    cbv beta. intros [] s1 [(Hinv1 & _ & Hen & Hes & Hf & Hmap & e1 & He1 & Hk1 & Hsz1 & _
                             & _ & _ & Hframe) Hexact].
    assert (entryMap_ s1 = delete k (entryMap_ s)) as Hm1.
    { destruct Hexact as [[Hnone _]|(k' & e' & Hr' & -> & _)]; [congruence|].
      cbn. congruence. }
    unfold AsyncDataCacheEntry_movePromise. repeat shard_step.
    split_and!; try done.
    - eapply ShardInv_entry with (s := s1) (p := p) (e := e1)
        (e' := set_promise_ None e1); try done. by left.
    - intros q Hq. cbn. rewrite lookup_insert_ne by done. by apply Hframe.
    - eexists. split; [apply lookup_insert_eq|by split_and!]. }
  intros promise s1 (Hinv1 & Hframe1 & Hmap1 & Hen1 & Hes1 & Hf1 & e1 & He1 & Hk1 & Hsz1 & Hpr1).
  eapply onShard_bind with (Ψ := λ _ s2, s2 = s1).
  { destruct promise; [shard_prim|by apply onShard_ret]. }
  intros [] ? ->. eapply onShard_conseq; [shard_prim| |intros ? ? Hx; exact Hx].
  intros [] ? ->. split_and!; try done.
  - eapply ShardInv_entry with (s := s1) (p := p) (e := e1)
      (e' := set_numPins_ 0 e1); try done. by left.
  - intros q Hq. cbn. rewrite lookup_insert_ne by done. by apply Hframe1.
  - eexists. split; [apply lookup_insert_eq|by split_and!].
Qed.

(** [initialize] of the new entry: with its buffer it is bound under its
    key; without the pages it needs, it is released and the error is the
    retriable one. *)
Lemma onShard_initialize_outcomes sh s p e key :
  ShardInv (withoutKey key s) → entryMap_ s !! key = Some p →
  heap_ s !! p = Some e → numPins_ e = kExclusive → kExclusive ≠ 0 →
  fileNum (key_ e) = None → p ∉ freeEntries_ s →
  onShard id sh s
    (AsyncDataCacheEntry_initialize sh p (makeKey key)
     : M (@AsyncDataCache Allocator Ssd) _)
    (λ _ s',
       ShardInv s' ∧ entryMap_ s' = entryMap_ s
       ∧ entries_ s' = entries_ s ∧ emptySlots_ s' = emptySlots_ s
       ∧ freeEntries_ s' = freeEntries_ s
       ∧ (∀ q, q ≠ p → heap_ s' !! q = heap_ s !! q)
       ∧ ∃ e', heap_ s' !! p = Some e' ∧ key_ e' = makeKey key
           ∧ numPins_ e' = kExclusive ∧ size_ e' = size_ e
           ∧ promise_ e' = promise_ e ∧ isFirstUse_ e' = isFirstUse_ e
           ∧ ssdFile_ e' = None
           ∧ if size_ e <? kTinyDataSize
             then tinyData_ e' = resize (Z.to_nat (size_ e)) Byte.x00 (tinyData_ e)
                  ∧ data_ e' = data_ e
             else tinyData_ e' = [])
    (λ ex s',
       ex = VeloxRuntimeError kNoCacheSpace ∧ kTinyDataSize ≤ size_ e
       ∧ ShardInv s' ∧ entryMap_ s' = delete key (entryMap_ s)
       ∧ entries_ s' = entries_ s ∧ emptySlots_ s' = emptySlots_ s
       ∧ freeEntries_ s' = freeEntries_ s
       ∧ (∀ q, q ≠ p → heap_ s' !! q = heap_ s !! q)
       ∧ ∃ e', heap_ s' !! p = Some e' ∧ fileNum (key_ e') = None ∧ numPins_ e' = 0).
Proof.
  intros Hinv Hmap He Hpin Hk0 Hkey Hnf. unfold AsyncDataCacheEntry_initialize.
  shard_step.
  eapply onShard_bind; [shard_prim|shard_intro].
  { unfold isExclusive. rewrite Hpin, Z.eqb_refl. done. }
  do 2 shard_step.
  set (e2 := set_key_ (makeKey key) (setSsdFile None 0 e)).
  lazymatch goal with |- onShard _ _ ?x _ _ _ => set (s2 := x) end.
  assert (ShardInv s2) as Hinv2.
  { eapply ShardInv_bind with (s := s) (p := p) (e := e) (e' := e2); try done.
    apply rawKey_makeKey. }
  assert (∀ s' e', heap_ s' = <[p := e']> (heap_ s) → key_ e' = makeKey key →
            entryMap_ s' = entryMap_ s → entries_ s' = entries_ s →
            emptySlots_ s' = emptySlots_ s → freeEntries_ s' = freeEntries_ s →
            ShardInv s' ∧ (∀ q, q ≠ p → heap_ s' !! q = heap_ s !! q)) as Hfin.
  { intros s' e' Hh Hk Hm Hen Hes Hf. split.
    - eapply ShardInv_entry with (s := s2) (p := p) (e := e2) (e' := e'); try done.
      + apply lookup_insert_eq.
      + right. done.
      + rewrite Hh. subst s2. cbn. by rewrite insert_insert_eq.
    - intros q Hq. rewrite Hh. by rewrite lookup_insert_ne. }
  subst s2. destruct (size_ e <? kTinyDataSize) eqn:Htiny.
  - eapply onShard_conseq; [shard_prim| |intros ? ? Hx; exact Hx].
    intros [] ? ->.
    lazymatch goal with |- ShardInv ?x ∧ _ => set (s3 := x) end.
    destruct (Hfin s3 (set_tinyData_ (resize (Z.to_nat (size_ e)) Byte.x00 (tinyData_ e)) e2))
      as [Hinv3 Hframe3]; try done.
    { subst s3. cbn. by rewrite insert_insert_eq. }
    split_and!; try done.
    eexists. split; [subst s3; cbn; apply lookup_insert_eq|]. by split_and!.
  - do 2 shard_step. destruct x as [ok data]. shard_step. destruct ok.
    + eapply onShard_conseq; [shard_prim| |intros ? ? Hx; exact Hx].
      intros [] ? ->.
      lazymatch goal with |- ShardInv ?x ∧ _ => set (s3 := x) end.
      destruct (Hfin s3 (set_data_ data (set_tinyData_ [] e2))) as [Hinv3 Hframe3];
        try done.
      split_and!; try done.
      eexists. split; [subst s3; cbn; apply lookup_insert_eq|]. by split_and!.
    + lazymatch goal with |- onShard _ _ ?x _ _ _ => set (s4 := x) end.
      destruct (Hfin s4 (set_data_ data (set_tinyData_ [] e2))) as [Hinv4 Hframe4];
        try done.
      eapply onShard_bind.
      { eapply onShard_conseq;
          [eapply onShard_release_exclusive_unbinds with (s := s4) (k := key);
           [done|apply lookup_insert_eq|done|done|apply rawKey_makeKey]
          |intros ? ? Hx; exact Hx|intros ? ? []]. }
      cbv beta. intros [] s5 (Hinv5 & Hframe5 & Hmap5 & Hen5 & Hes5 & Hf5 & e5 & He5 & Hk5
                              & Hp5 & _).
      apply onShard_throw. apply Z.ltb_ge in Htiny.
      split_and!; try done.
      * intros q Hq. rewrite Hframe5 by done. by apply Hframe4.
      * by exists e5.
Qed.

(** The locked block of [findOrCreate] when the key is not in the map, or is
    on a readable entry that is too small: a new exclusive entry is bound to
    the key. *)
Lemma onShard_findOrCreate_locked_creates sh s key size wait Ξ :
  ShardInv s →
  (∀ found e0, entryMap_ s !! key = Some found → heap_ s !! found = Some e0 →
     isExclusive e0 = false ∧ size_ e0 < size) →
  onShard id sh s
    (findOrCreate_locked sh key size wait : M (@AsyncDataCache Allocator Ssd) _)
    (λ r s', ∃ p e,
       r = EntryToInit p
       ∧ ShardInv (withoutKey key s')
       ∧ entryMap_ s' = <[key := p]> (entryMap_ s)
       ∧ heap_ s' !! p = Some e ∧ numPins_ e = kExclusive
       ∧ fileNum (key_ e) = None ∧ size_ e = size
       ∧ promise_ e = None ∧ isFirstUse_ e = true
       ∧ (p ∉ freeEntries_ s') ∧ p ∈ slotEntries s'
       ∧ createdIn key p s s') Ξ.
Proof.
  intros Hinv Hpath. unfold findOrCreate_locked. repeat shard_step.
  lazymatch goal with |- onShard _ _ ?x _ _ _ => set (s0 := x) end.
  assert (shardKept s s0) as Hk0 by by apply shardKept_refl_on.
  assert (ShardInv s0) as Hinv0 by by eapply ShardInv_kept.
  destruct (entryMap_ s !! key) as [found|] eqn:Hfound.
  - destruct (inv_map_key _ Hinv _ _ Hfound) as (e0 & He0 & Hr0).
    destruct (Hpath found e0 eq_refl He0) as [Hex Hsz].
    shard_step. rewrite Hex.
    replace (size <=? size_ e0) with false by (symmetry; apply Z.leb_gt; lia).
    shard_step.
    lazymatch goal with |- onShard _ _ ?x _ _ _ => set (sa := x) end.
    eapply onShard_conseq;
      [apply onShard_findOrCreate_newEntry_placed with (Ξ := λ _ _, False)|..]; [| |done].
    + subst sa. eapply ShardInv_remove with (s := s0) (p := found) (e := e0)
        (e' := set_key_ (clearFileNum (key_ e0)) e0); done.
    + intros r s' (p & e & -> & Hinv' & Hmap & Hp & Hpin & Hkey & Hsize & Hpr & Hfu & Hnf
                   & Hslot & Hframe & Horigin & Hplace).
      assert (found ≠ p) as Hne.
      { intros ->. destruct Horigin as [Hnone|Hfree].
        - cbn in Hnone. by rewrite lookup_insert_eq in Hnone.
        - cbn in Hfree. destruct (inv_free _ Hinv _ Hfree) as (? & Hq & Hkq & _).
          rewrite He0 in Hq. injection Hq as <-. by apply rawKey_Some in Hr0. }
      exists p, e. split_and!; try done.
      split_and!.
      * destruct Horigin as [Hnone|Hfree]; [left|by right].
        cbn in Hnone. by rewrite lookup_insert_ne in Hnone.
      * intros q Hq Hqf. rewrite Hframe by done. cbn.
        rewrite lookup_insert_ne; [done|]. intros ->. by rewrite Hfound in Hqf.
      * intros found' e0' Hf' He0'. rewrite Hfound in Hf'. injection Hf' as <-.
        assert (e0' = e0) as -> by congruence.
        split; [done|]. rewrite Hframe by done. cbn. apply lookup_insert_eq.
      * done.
  - eapply onShard_conseq;
      [apply onShard_findOrCreate_newEntry_placed with (Ξ := λ _ _, False)|..]; [| |done].
    + apply withoutKey_miss; [done|done].
    + intros r s' (p & e & -> & Hinv' & Hmap & Hp & Hpin & Hkey & Hsize & Hpr & Hfu & Hnf
                   & Hslot & Hframe & Horigin & Hplace).
      exists p, e. split_and!; try done.
      split_and!; try done.
      * intros q Hq _. by apply Hframe.
      * intros found e0 Hf. by rewrite Hfound in Hf.
Qed.

(** [findOrCreate] on the path that creates an entry. *)
Lemma onShard_findOrCreate_creates sh s key size wait :
  ShardInv s → kExclusive ≠ 0 →
  (∀ found e0, entryMap_ s !! key = Some found → heap_ s !! found = Some e0 →
     isExclusive e0 = false ∧ size_ e0 < size) →
  onShard id sh s
    (CacheShard_findOrCreate sh key size wait : M (@AsyncDataCache Allocator Ssd) _)
    (λ r s', ∃ p e',
       r = (Some (pinOf sh p), None)
       ∧ ShardInv s'
       ∧ entryMap_ s' = <[key := p]> (entryMap_ s)
       ∧ heap_ s' !! p = Some e'
       ∧ key_ e' = makeKey key ∧ size_ e' = size ∧ numPins_ e' = kExclusive
       ∧ promise_ e' = None ∧ isFirstUse_ e' = true ∧ ssdFile_ e' = None
       ∧ (if size <? kTinyDataSize then length (tinyData_ e') = Z.to_nat size
          else tinyData_ e' = [])
       ∧ (p ∉ freeEntries_ s') ∧ p ∈ slotEntries s'
       ∧ createdIn key p s s')
    (λ ex s', ∃ p e',
       ex = VeloxRuntimeError kNoCacheSpace ∧ kTinyDataSize ≤ size
       ∧ ShardInv s'
       ∧ entryMap_ s' = delete key (entryMap_ s)
       ∧ heap_ s' !! p = Some e' ∧ fileNum (key_ e') = None ∧ numPins_ e' = 0
       ∧ createdIn key p s s').
Proof.
  intros Hinv Hk0 Hpath. unfold CacheShard_findOrCreate, withLock.
  eapply onShard_bind.
  { shard_step. apply onShard_finally; [|neutral_go].
    by apply onShard_findOrCreate_locked_creates. }
  cbv beta. intros r s1 (p & e & -> & Hinv1 & Hmap1 & He & Hpin & Hkey & Hsize & Hpr & Hfu
                         & Hnf & Hslot & Horigin & Hframe & Hsup & Hplace).
  unfold CacheShard_initEntry.
  assert (entryMap_ s1 !! key = Some p) as Hbound by (rewrite Hmap1; apply lookup_insert_eq).
  eapply onShard_bind.
  { eapply onShard_conseq; [by eapply onShard_initialize_outcomes|intros ? ? Hx; exact Hx|].
    intros ex s' (-> & Htiny & Hinv' & Hmap' & Hen' & Hes' & Hf' & Hframe' & e' & He' & Hk'
                  & Hp').
    exists p, e'. split_and!; try done.
    - lia.
    - by rewrite Hmap', Hmap1, delete_insert_eq.
    - split_and!; try done.
      + intros q Hq Hqf. rewrite Hframe' by done. by apply Hframe.
      + intros found e0 Hfound He0. destruct (Hsup found e0 Hfound He0) as [Hne Hh].
        split; [done|]. by rewrite Hframe'.
      + rewrite Hen', Hes'. done. }
  cbv beta. intros [] s2 (Hinv2 & Hmap2 & Hen2 & Hes2 & Hf2 & Hframe2 & e2 & He2 & Hk2 & Hp2
                          & Hsz2 & Hpr2 & Hfu2 & Hssd2 & Hbuf2).
  repeat shard_step.
  exists p, e2. split_and!; try done; try congruence.
  - destruct (size_ e <? kTinyDataSize); [|done].
    destruct Hbuf2 as [-> _]. by rewrite length_resize.
  - unfold slotEntries. by rewrite Hen2.
  - split_and!; try done.
    + intros q Hq Hqf. rewrite Hframe2 by done. by apply Hframe.
    + intros found e0 Hfound He0. destruct (Hsup found e0 Hfound He0) as [Hne Hh].
      split; [done|]. by rewrite Hframe2.
    + rewrite Hen2, Hes2. done.
Qed.

Lemma exists_present c sh s key p e :
  shards_ c !! sh = Some s → entryMap_ s !! key = Some p → heap_ s !! p = Some e →
  ∃ c', CacheShard_exists sh key c = Ok true c'.
Proof.
  intros Hs Hk He. unfold CacheShard_exists, withLock. run.
  erewrite finally_Ok; [| run; rewrite Hk; run; run_last; reflexivity ].
  run. run_last. eauto.
Qed.

Lemma exists_absent c sh s key :
  shards_ c !! sh = Some s → entryMap_ s !! key = None →
  CacheShard_exists sh key c
  = Ok false (set_trace_ (trace_ c ++ [EvLock sh; EvUnlock sh]) c).
Proof.
  intros Hs Hk. unfold CacheShard_exists, withLock. run.
  erewrite finally_Ok; [| run; rewrite Hk; run_last; reflexivity ].
  run. run_last. by rewrite <- app_assoc.
Qed.

(** X10.  A lookup that does not find the key, or finds it on a readable entry
    smaller than asked for, creates an entry.  When it returns, the pin is
    on a new entry in exclusive mode, with the key and the size asked for,
    without a promise, bound to the key in the map; the entry took the last
    empty slot if there was one and a new slot otherwise, the entry that had
    the key before has lost it, and no other entry changed.  The shard is in
    shape and [exists] finds the key.  A lookup for less than the tiny
    threshold always returns. *)
Theorem findOrCreate_creates_exclusive c sh s key size wait :
  shards_ c !! sh = Some s → ShardInv s → kExclusive ≠ 0 →
  (∀ found e0, entryMap_ s !! key = Some found → heap_ s !! found = Some e0 →
     isExclusive e0 = false ∧ size_ e0 < size) →
  (∀ r c', CacheShard_findOrCreate sh key size wait c = Ok r c' →
     ∃ p s' e',
       r = (Some (pinOf sh p), None)
       ∧ shards_ c' !! sh = Some s' ∧ ShardInv s'
       ∧ entryMap_ s' = <[key := p]> (entryMap_ s)
       ∧ heap_ s' !! p = Some e'
       ∧ key_ e' = makeKey key ∧ size_ e' = size ∧ numPins_ e' = kExclusive
       ∧ promise_ e' = None ∧ isFirstUse_ e' = true ∧ ssdFile_ e' = None
       ∧ (if size <? kTinyDataSize then length (tinyData_ e') = Z.to_nat size
          else tinyData_ e' = [])
       ∧ (p ∉ freeEntries_ s') ∧ p ∈ slotEntries s'
       ∧ createdIn key p s s'
       ∧ ∃ c'', CacheShard_exists sh key c' = Ok true c'')
  ∧ (size < kTinyDataSize →
     ∃ r c', CacheShard_findOrCreate sh key size wait c = Ok r c').
Proof.
  intros Hs Hinv Hk0 Hpath.
  pose proof (onShard_findOrCreate_creates sh s key size wait Hinv Hk0 Hpath c Hs) as Hw.
  unfold wp in Hw. split.
  - intros r c' Hrun. rewrite Hrun in Hw.
    destruct Hw as (s' & Hs' & p & e' & Hr & Hinv' & Hmap & He' & Hrest).
    exists p, s', e'. split_and!; try apply Hrest; try done.
    eapply exists_present; [done| |done]. rewrite Hmap. apply lookup_insert_eq.
  - intros Htiny. destruct (CacheShard_findOrCreate sh key size wait c) as [r c'|ex c'];
      [by eauto|].
    destruct Hw as (s' & _ & p & e' & _ & Hge & _). lia.
Qed.

(** X11.  The only exception of a lookup that creates an entry is the retriable
    error for want of cache space, and only a lookup for the tiny threshold
    or more can end with it.  The new entry has then been released: the key
    is not in the map (an entry that had the key before stays superseded),
    the entry has no key and no pin, the shard is in shape, and [exists]
    does not find the key. *)
Theorem findOrCreate_fails_without_space c sh s key size wait :
  shards_ c !! sh = Some s → ShardInv s → kExclusive ≠ 0 →
  (∀ found e0, entryMap_ s !! key = Some found → heap_ s !! found = Some e0 →
     isExclusive e0 = false ∧ size_ e0 < size) →
  ∀ ex c', CacheShard_findOrCreate sh key size wait c = Throw ex c' →
    ex = VeloxRuntimeError kNoCacheSpace ∧ kTinyDataSize ≤ size
    ∧ ∃ p s' e',
        shards_ c' !! sh = Some s' ∧ ShardInv s'
        ∧ entryMap_ s' = delete key (entryMap_ s)
        ∧ heap_ s' !! p = Some e' ∧ fileNum (key_ e') = None ∧ numPins_ e' = 0
        ∧ createdIn key p s s'
        ∧ CacheShard_exists sh key c'
          = Ok false (set_trace_ (trace_ c' ++ [EvLock sh; EvUnlock sh]) c').
Proof.
  intros Hs Hinv Hk0 Hpath ex c' Hrun.
  pose proof (onShard_findOrCreate_creates sh s key size wait Hinv Hk0 Hpath c Hs) as Hw.
  unfold wp in Hw. rewrite Hrun in Hw.
  destruct Hw as (s' & Hs' & p & e' & -> & Hge & Hinv' & Hmap & He' & Hk & Hp & Hc).
  split_and!; try done. exists p, s', e'. split_and!; try done.
  eapply exists_absent; [done|]. rewrite Hmap. apply lookup_delete_eq.
Qed.

(** ** The statistics *)

Lemma slotsCounted_refl stats : slotsCounted 0 stats stats.
Proof. unfold slotsCounted. lia. Qed.

Lemma slotsCounted_trans n m stats1 stats2 stats3 :
  slotsCounted n stats1 stats2 → slotsCounted m stats2 stats3 →
  slotsCounted (n + m) stats1 stats3.
Proof. unfold slotsCounted. lia. Qed.

Lemma slotsCounted_empty stats : slotsCounted 1 stats (updateStats_empty stats).
Proof. unfold slotsCounted. cbn. lia. Qed.

Lemma slotsCounted_entry e stats : slotsCounted 1 stats (updateStats_entry e stats).
Proof.
  unfold slotsCounted. cbn.
  destruct (isExclusive e), (isShared e), (isPrefetch_ e); cbn; lia.
Qed.

Lemma countersAdded_nil stats : countersAdded [] stats stats.
Proof. unfold countersAdded. cbn. lia. Qed.

Lemma updateStats_loop_run c sh s slots : ∀ stats,
  shards_ c !! sh = Some s →
  (∀ p, Some p ∈ slots → is_Some (heap_ s !! p)) →
  ∃ stats',
    foldM (λ stats slot,
             match slot with
             | None => mret (updateStats_empty stats)
             | Some p =>
                 e ← deref sh p;
                 if hasValue (key_ e)
                 then mret (updateStats_entry e stats)
                 else mret (updateStats_empty stats)
             end) slots stats c
    = Ok stats' c
    ∧ slotsCounted (Z.of_nat (length slots)) stats stats'
    ∧ countersAdded [] stats stats'.
Proof.
  induction slots as [|slot slots IH]; intros stats Hs Hv; cbn [foldM].
  - exists stats. split_and!; [done|apply slotsCounted_refl|apply countersAdded_nil].
  - assert (∃ stats1,
              match slot with
              | None => mret (updateStats_empty stats)
              | Some p =>
                  e ← deref sh p;
                  if hasValue (key_ e)
                  then mret (updateStats_entry e stats)
                  else mret (updateStats_empty stats)
              end c = Ok stats1 c
              ∧ slotsCounted 1 stats stats1 ∧ countersAdded [] stats stats1)
      as (stats1 & Hrun1 & Hc1 & Ha1).
    { destruct slot as [p|].
      - destruct (Hv p) as [e He]; [by left|]. erewrite run_deref by done.
        destruct (hasValue (key_ e)); eexists; (split; [reflexivity|]); split;
          first [apply slotsCounted_entry|apply slotsCounted_empty
                |unfold countersAdded; cbn; lia].
      - eexists. split; [reflexivity|]. split; [apply slotsCounted_empty|].
        unfold countersAdded. cbn. lia. }
    destruct (IH stats1 Hs) as (stats' & Hrun & Hc & Ha).
    { intros q Hq. apply Hv. by right. }
    exists stats'. split_and!.
    + erewrite bind_Ok by exact Hrun1. exact Hrun.
    + replace (Z.of_nat (length (slot :: slots))) with (1 + Z.of_nat (length slots))
        by (cbn [length]; lia).
      by eapply slotsCounted_trans.
    + unfold countersAdded in *. cbn in *. lia.
Qed.

Lemma updateStats_run c sh s stats :
  shards_ c !! sh = Some s → ShardInv s →
  ∃ stats',
    CacheShard_updateStats sh stats c
    = Ok stats' (set_trace_ (trace_ c ++ [EvLock sh; EvUnlock sh]) c)
    ∧ slotsCounted (Z.of_nat (length (entries_ s))) stats stats'
    ∧ countersAdded [s] stats stats'.
Proof.
  intros Hs Hinv. unfold CacheShard_updateStats, withLock. run.
  destruct (updateStats_loop_run (set_trace_ (trace_ c ++ [EvLock sh]) c) sh s
              (entries_ s) stats) as (stats1 & Hrun & Hc & Ha); [done| |].
  { intros p Hp. by apply (inv_slots _ Hinv), slotEntries_Some. }
  erewrite finally_Ok; [|run; erewrite bind_Ok by exact Hrun; reflexivity].
  run. run_last. eexists. split; [by rewrite <- app_assoc|].
  split.
  - unfold slotsCounted in *. cbn. lia.
  - unfold countersAdded in *. cbn in *. lia.
Qed.

Lemma sumOver_cons f s shards : sumOver f (s :: shards) = f s + sumOver f shards.
Proof. done. Qed.

Lemma refreshStats_loop_run c n : ∀ i stats evs,
  CacheInv c → (i + n = length (shards_ c))%nat →
  ∃ stats',
    foldM (λ stats sh, CacheShard_updateStats sh stats) (seq i n) stats
      (set_trace_ (trace_ c ++ evs) c)
    = Ok stats'
        (set_trace_ (trace_ c ++ evs ++ flat_map (λ sh, [EvLock sh; EvUnlock sh]) (seq i n)) c)
    ∧ slotsCounted (sumOver (λ s, Z.of_nat (length (entries_ s))) (drop i (shards_ c)))
        stats stats'
    ∧ countersAdded (drop i (shards_ c)) stats stats'.
Proof.
  induction n as [|n IH]; intros i stats evs Hinv Hlen; cbn [seq foldM flat_map].
  - exists stats. rewrite app_nil_r.
    rewrite drop_ge by lia. split_and!; [done|apply slotsCounted_refl|apply countersAdded_nil].
  - destruct (lookup_lt_is_Some_2 (shards_ c) i) as [s Hs]; [lia|].
    destruct (updateStats_run (set_trace_ (trace_ c ++ evs) c) i s stats)
      as (stats1 & Hrun1 & Hc1 & Ha1); [done|by eapply Hinv|].
    destruct (IH (Datatypes.S i) stats1 (evs ++ [EvLock i; EvUnlock i]) Hinv)
      as (stats' & Hrun & Hc & Ha); [lia|].
    exists stats'. rewrite (drop_S _ _ _ Hs). split_and!.
    + erewrite bind_Ok by exact Hrun1. norm. cbn [set_trace_ trace_] in Hrun.
      rewrite <- !app_assoc in *. exact Hrun.
    + rewrite sumOver_cons. by eapply slotsCounted_trans.
    + unfold countersAdded in *. rewrite !sumOver_cons. cbn in Ha1. lia.
Qed.

(** X12.  [refreshStats()] on a cache in shape returns and reads only: it takes
    and releases the lock of each shard in turn and leaves the cache as it
    was.  In the snapshot every slot of every shard is counted once, as an
    entry or as an empty one; the shared and the exclusive entries are among
    the entries, as are the prefetched ones; and each counter is the sum of
    the shards' counters. *)
Theorem refreshStats_counts_every_slot c :
  CacheInv c →
  ∃ stats,
    AsyncDataCache_refreshStats c
    = Ok stats
        (set_trace_
           (trace_ c ++ flat_map (λ sh, [EvLock sh; EvUnlock sh])
                          (seq 0 (length (shards_ c)))) c)
    ∧ numEntries stats + numEmptyEntries stats
      = sumOver (λ s, Z.of_nat (length (entries_ s))) (shards_ c)
    ∧ 0 ≤ numEntries stats ∧ 0 ≤ numEmptyEntries stats
    ∧ 0 ≤ numShared stats ∧ 0 ≤ numExclusive stats
    ∧ numShared stats + numExclusive stats ≤ numEntries stats
    ∧ 0 ≤ numPrefetch stats ≤ numEntries stats
    ∧ numHit stats = sumOver numHit_ (shards_ c)
    ∧ hitBytes stats = sumOver hitBytes_ (shards_ c)
    ∧ numNew stats = sumOver numNew_ (shards_ c)
    ∧ numEvict stats = sumOver numEvict_ (shards_ c)
    ∧ numEvictChecks stats = sumOver numEvictChecks_ (shards_ c)
    ∧ numWaitExclusive stats = sumOver numWaitExclusive_ (shards_ c)
    ∧ sumEvictScore stats = sumOver sumEvictScore_ (shards_ c).
Proof.
  intros Hinv. unfold AsyncDataCache_refreshStats. rewrite run_gets.
  destruct (refreshStats_loop_run c (length (shards_ c)) 0 emptyStats [] Hinv)
    as (stats & Hrun & Hc & Ha); [done|].
  exists stats. split.
  - replace (set_trace_ (trace_ c ++ []) c) with c in Hrun; [exact Hrun|].
    rewrite app_nil_r. by destruct c.
  - rewrite drop_0 in *. unfold slotsCounted, countersAdded in *. cbn in *. lia.
Qed.

(** ** A desperate pass that runs to the end *)

Lemma slotBytes_nonneg s slot :
  pagesCounted s → slot ∈ entries_ s → 0 ≤ slotBytes (heap_ s) slot.
Proof.
  intros Hc Hin. unfold slotBytes. destruct slot as [p|]; cbn; [|done].
  destruct (heap_ s !! p) as [e|] eqn:He; [|done].
  apply list_elem_of_lookup in Hin as [i Hi].
  specialize (Hc i p e Hi He). unfold entryBytes. lia.
Qed.

Lemma sum_slotBytes_ext (h h' : gmap EntryPtr AsyncDataCacheEntry) (l : list (option EntryPtr)) :
  (∀ p, Some p ∈ l → h' !! p = h !! p) →
  foldr (λ slot n, slotBytes h' slot + n) 0 l = foldr (λ slot n, slotBytes h slot + n) 0 l.
Proof.
  induction l as [|x l IH]; intros Hext; cbn [foldr]; [done|].
  rewrite IH by (intros p Hp; apply Hext; by right). f_equal.
  unfold slotBytes. destruct x as [p|]; cbn; [|done]. rewrite Hext; [done|by left].
Qed.

Lemma sum_slotBytes_vacate (h h' : gmap EntryPtr AsyncDataCacheEntry)
    (l : list (option EntryPtr)) cand e : ∀ idx,
  l !! idx = Some (Some cand) → h !! cand = Some e → NoDup (omap id l) →
  (∀ p, p ≠ cand → Some p ∈ l → h' !! p = h !! p) →
  foldr (λ slot n, slotBytes h' slot + n) 0 (<[idx := None]> l)
  = foldr (λ slot n, slotBytes h slot + n) 0 l - entryBytes e.
Proof.
  induction l as [|x l IH]; intros idx Hidx He Hnd Hext; [done|].
  destruct idx as [|idx]; cbn in Hidx.
  - injection Hidx as ->. change (<[0%nat := None]> (Some cand :: l)) with (None :: l).
    cbn [foldr] in *.
    cbn in Hnd. apply NoDup_cons in Hnd as [Hnot Hnd].
    assert (slotBytes h (Some cand) = entryBytes e) as ->
      by (unfold slotBytes; cbn; by rewrite He).
    assert (slotBytes h' None = 0) as -> by done.
    rewrite (sum_slotBytes_ext h h'); [lia|].
    intros p Hp. apply Hext; [|by right]. intros ->. apply Hnot.
      apply list_elem_of_omap. by exists (Some cand).
  - change (<[Datatypes.S idx := None]> (x :: l)) with (x :: <[idx := None]> l).
    cbn [foldr].
    assert (NoDup (omap id l)) as Hnd'.
    { destruct x; cbn in Hnd; [by apply NoDup_cons in Hnd as [_ ?]|done]. }
    rewrite (IH idx Hidx He Hnd') by (intros p Hp Hin; apply Hext; [done|by right]).
    assert (slotBytes h' x = slotBytes h x) as ->; [|lia].
    unfold slotBytes. destruct x as [p|]; cbn; [|done].
    rewrite Hext; [done| |by left]. intros ->.
    cbn in Hnd. apply NoDup_cons in Hnd as [Hnot _]. apply Hnot.
    apply list_elem_of_omap. exists (Some cand). split; [|done].
    by eapply list_elem_of_lookup_2.
Qed.

Lemma shardBytes_nonneg s : pagesCounted s → 0 ≤ shardBytes s.
Proof.
  intros Hc. unfold shardBytes.
  assert (∀ l, (∀ slot, slot ∈ l → slot ∈ entries_ s) →
            0 ≤ foldr (λ slot n, slotBytes (heap_ s) slot + n) 0 l) as Hsum.
  { induction l as [|x l IH]; intros Hsub; cbn [foldr]; [done|].
    pose proof (slotBytes_nonneg s x Hc (Hsub x ltac:(by left))).
    specialize (IH (λ y Hy, Hsub y ltac:(by right))). lia. }
  by apply Hsum.
Qed.

#[local] Instance remnantOf_preorder : PreOrder remnantOf.
Proof.
  split.
  - by intros s i p e.
  - intros s1 s2 s3 H12 H23 i p e Hi He.
    destruct (H23 i p e Hi He) as [Hi2 He2]. by apply H12.
Qed.

Lemma remnantOf_same s s' : sameContents s s' → remnantOf s s'.
Proof. intros (Hh & _ & Hen & _) i p e. by rewrite Hh, Hen. Qed.

Lemma remnantOf_pagesCounted s s' : remnantOf s s' → pagesCounted s → pagesCounted s'.
Proof. intros Hr Hc i p e Hi He. destruct (Hr i p e Hi He). by eapply Hc. Qed.

Lemma remnantOf_slotPinned s s' j : remnantOf s s' → slotPinned s j → slotPinned s' j.
Proof. intros Hr Hp p e Hi He. destruct (Hr j p e Hi He). by eapply Hp. Qed.

Lemma sameContents_shardBytes s s' : sameContents s s' → shardBytes s' = shardBytes s.
Proof. intros (Hh & _ & Hen & _). unfold shardBytes. by rewrite Hh, Hen. Qed.

(** The candidate is evicted: what the pass has freed grows by the bytes of
    the entry, and the pass stops when that is above [bytesToFree]. *)
Lemma onShard_evict_candidate_freed sh s bytesToFree cand e score l Ξ :
  ShardInv s → entries_ s !! ev_entryIndex l = Some (Some cand) →
  heap_ s !! cand = Some e →
  onShard snd sh s
    (evict_candidate sh bytesToFree cand score l
     : M (Allocation * @AsyncDataCache Allocator Ssd) _)
    (λ r s',
       ShardInv s' ∧ apartFrom cand s s'
       ∧ entries_ s' = <[ev_entryIndex l := None]> (entries_ s)
       ∧ ev_entryIndex (snd r) = ev_entryIndex l
       ∧ ev_evictSaveableSkipped (snd r) = ev_evictSaveableSkipped l
       ∧ ev_largeFreed (snd r) = ev_largeFreed l + Allocation.byteSize (data_ e)
       ∧ ev_tinyFreed (snd r) = ev_tinyFreed l + Z.of_nat (length (tinyData_ e))
       ∧ fst r = (bytesToFree <? uint64 (ev_largeFreed (snd r) + ev_tinyFreed (snd r)))) Ξ.
Proof.
  intros Hinv Hslot He. unfold evict_candidate.
  shard_step.
  eapply onShard_bind with
    (Ψ := λ _ s1, ∃ d, s1 = set_heap_ (<[cand := set_data_ d e]> (heap_ s)) s).
  { destruct (0 <? ev_pagesToAcquire l).
    - shard_step. unfold Allocation.appendMove. do 3 shard_step.
      eapply onShard_bind; [shard_prim; done|shard_intro].
      apply onShard_ret. eauto.
    - do 2 shard_step. eauto. }
  intros [pagesToAcquire toFree] s1 [d ->].
  assert (ShardInv (set_heap_ (<[cand := set_data_ d e]> (heap_ s)) s)) as Hinv1.
  { eapply ShardInv_entry with (e' := set_data_ d e); [exact He|done|by left|reflexivity..|done]. }
  assert (apartFrom cand s (set_heap_ (<[cand := set_data_ d e]> (heap_ s)) s)) as Hst1.
  { by apply (apartFrom_entry _ _ _ (set_data_ d e)). }
  eapply onShard_bind.
  { apply onShard_liftCache. eapply onShard_removeEntryLocked_inv; [exact Hinv1|].
    cbn. apply lookup_insert_eq. }
  cbv beta. intros [] s2 (Hinv2 & Hst2 & Hent2 & Hes2 & Hfree2 & Hmap2 & e2 & He2 & Hkey2
                          & Hsize2 & Htiny2 & _).
  cbn in Hent2, Hes2, Hfree2, Htiny2.
  do 4 shard_step.
  eapply onShard_bind.
  { apply onShard_liftCache. eapply onShard_tryAddFreeEntry with (q := cand); norm.
    - by rewrite Hent2.
    - rewrite Hfree2. pose proof (inv_owned _ Hinv) as Hnd.
      apply slotEntries_lookup in Hslot.
      apply NoDup_app in Hnd as (_ & Hdisj & Hnd).
      apply NoDup_app. split_and!; [done| |apply NoDup_singleton].
      intros q Hq ->%list_elem_of_singleton. by eapply Hdisj.
    - intros q [Hq| ->%list_elem_of_singleton]%elem_of_app.
      + destruct (decide (q = cand)) as [->|Hne];
          [rewrite lookup_insert_eq; eauto|rewrite lookup_insert_ne by done].
        destruct (inv_free _ Hinv2 q Hq) as (? & -> & _). eauto.
      + rewrite lookup_insert_eq. eauto. }
  cbv beta. intros [] s6 [n ->]. norm.
  set (e3 := set_size_ 0 (set_tinyData_ [] e2)).
  set (sd := set_freeEntries_ (freeEntries_ s2 ++ [cand])
               (set_entries_ (<[ev_entryIndex l := None]> (entries_ s2))
                  (set_heap_ (<[cand := e3]> (heap_ s2))
                     (set_emptySlots_ (emptySlots_ s2 ++ [ev_entryIndex l]) s2)))).
  assert (ShardInv sd) as Hinvd.
  { eapply ShardInv_drain with (s := s2) (e := e2) (e' := e3);
      [by rewrite Hent2|exact He2|exact Hkey2|exact Hkey2|reflexivity..|exact Hinv2]. }
  assert (apartFrom cand s sd) as Hstd.
  { etrans; [exact Hst1|]. etrans; [exact Hst2|].
    split_and!; [cbn; by rewrite length_insert|..|done].
    - intros i p Hne Hi. cbn. rewrite list_lookup_insert_ne; [done|].
      intros <-. rewrite Hent2 in Hi. cbn in Hi. congruence.
    - intros p Hne _. cbn. by rewrite lookup_insert_ne. }
  assert (∀ s7, heap_ s7 = deleteAll (drop n (freeEntries_ sd)) (heap_ sd) →
            entryMap_ s7 = entryMap_ sd → entries_ s7 = entries_ sd →
            emptySlots_ s7 = emptySlots_ sd →
            freeEntries_ s7 = take n (freeEntries_ sd) →
            ShardInv s7 ∧ apartFrom cand s s7
            ∧ entries_ s7 = <[ev_entryIndex l := None]> (entries_ s)) as Hfin.
  { intros s7 Hh Hm Hen Hem Hf. split_and!.
    - by eapply ShardInv_trim.
    - etrans; [exact Hstd|]. by eapply apartFrom_trim.
    - rewrite Hen. cbn. by rewrite Hent2. }
  shard_step.
  eapply onShard_bind with
    (Ψ := λ _ s7, ShardInv s7 ∧ apartFrom cand s s7
                  ∧ entries_ s7 = <[ev_entryIndex l := None]> (entries_ s)).
  { destruct (score =? 0).
    - apply onShard_ret. by apply Hfin.
    - eapply onShard_conseq; [shard_prim| |done]. intros _ ? ->. by apply Hfin. }
  intros [] s7 (Hinv7 & Hst7 & Hent7). apply onShard_ret. cbn.
  rewrite Htiny2. by split_and!.
Qed.

(** One round of a desperate pass: the slot visited holds no unpinned entry
    afterwards, the others are as before, and what was freed was behind the
    slots. *)
Lemma onShard_evict_step_desperate sh s bytesToFree skip l Ξ :
  ShardInv s → pagesCounted s → (ev_entryIndex l < length (entries_ s))%nat →
  onShard snd sh s
    (evict_step sh bytesToFree true skip l
     : M (Allocation * @AsyncDataCache Allocator Ssd) _)
    (λ r s',
       ShardInv s' ∧ remnantOf s s'
       ∧ length (entries_ s') = length (entries_ s)
       ∧ ev_entryIndex (snd r) = nextIndex s (ev_entryIndex l)
       ∧ ev_evictSaveableSkipped (snd r) = ev_evictSaveableSkipped l
       ∧ slotPinned s' (nextIndex s (ev_entryIndex l))
       ∧ (∃ δ, 0 ≤ δ ∧ freedBytes (snd r) = freedBytes l + δ ∧ shardBytes s' = shardBytes s - δ)
       ∧ (fst r = true → bytesToFree < uint64 (freedBytes (snd r)))) Ξ.
Proof.
  intros Hinv Hcount Hidx. unfold evict_step. shard_step.
  fold (nextIndex s (ev_entryIndex l)).
  pose proof (nextIndex_lt s _ Hidx) as Hnext.
  set (idx := nextIndex s (ev_entryIndex l)) in *.
  shard_step.
  destruct (lookup_lt_is_Some_2 (entries_ s) idx Hnext) as [[cand|] Hslot]; rewrite Hslot.
  2:{ apply onShard_ret. cbn.
      lazymatch goal with |- ShardInv ?x ∧ _ => set (s1 := x) end.
      assert (sameContents s s1) as Hs1 by by split_and!.
      split_and!; [inv_ext|by apply remnantOf_same|done|done|done| | |done].
      - intros p e Hp. subst s1. cbn in Hp. congruence.
      - exists 0. split_and!; [done|unfold freedBytes; cbn; lia|].
        rewrite Z.sub_0_r. by apply sameContents_shardBytes. }
  destruct (inv_slots _ Hinv cand) as [e He]; [by eapply slotEntries_lookup|].
  do 2 shard_step.
  lazymatch goal with |- onShard _ _ ?x _ _ _ => set (s1 := x) end.
  assert (sameContents s s1) as Hs1 by by split_and!.
  eapply onShard_bind with (Ψ := λ _ s2, sameContents s1 s2).
  { destruct (_ || _).
    - shard_step. eapply onShard_bind.
      { apply onShard_liftCache, onShard_calibrateThreshold.
        - intros p Hp. apply (inv_slots _ Hinv p Hp).
        - cbn. intros Hnil. rewrite Hnil in Hslot. done. }
      cbv beta. intros [] ? [t ->]. shard_step. by apply onShard_ret.
    - by apply onShard_ret. }
  intros [now numChecked] s2 Hs2.
  assert (sameContents s s2) as Hs2' by by etrans.
  pose proof Hs2' as (Hh & Hm & Hen & Hem & Hf).
  eapply onShard_bind.
  { apply onShard_liftCache. eapply onShard_deref. by rewrite Hh. }
  shard_intro. shard_step.
  rewrite !andb_false_r, orb_true_r, andb_true_r. cbn [orb].
  destruct (numPins_ e =? 0) eqn:Hpin.
  - eapply onShard_conseq; [eapply onShard_evict_candidate_freed with (e := e)|..]; cbn.
    + inv_ext.
    + by rewrite Hen.
    + by rewrite Hh.
    + intros [stop l'] s3 (Hinv3 & Hap & Hent3 & Hidx3 & Hsk3 & Hlarge & Htiny & Hstop).
      cbn in *.
      assert (apartFrom cand s s3) as Hap'.
      { etrans; [|exact Hap]. by apply apartFrom_ext. }
      destruct Hap' as (Hlen & Hslots & Hheap & _).
      assert (entries_ s3 = <[idx := None]> (entries_ s)) as Hent by by rewrite Hent3, Hen.
      split_and!; try done.
      * intros i p e' Hi He'. rewrite Hent in Hi.
        destruct (decide (i = idx)) as [->|Hne].
        { rewrite list_lookup_insert_eq in Hi by done. done. }
        rewrite list_lookup_insert_ne in Hi by done. split; [done|].
        assert (p ≠ cand) as Hpc.
        { intros ->. apply Hne.
          eapply (ShardInv_slot_inj s i idx); [exact Hinv|exact Hi|exact Hslot]. }
        rewrite <- (Hheap p Hpc); [done|]. by eapply slotEntries_lookup.
      * intros p e' Hp. rewrite Hent, list_lookup_insert_eq in Hp by done. done.
      * exists (entryBytes e). split_and!.
        -- specialize (Hcount idx cand e Hslot He). unfold entryBytes. lia.
        -- unfold freedBytes. rewrite Hlarge, Htiny. unfold entryBytes. lia.
        -- unfold shardBytes. rewrite Hent.
           apply sum_slotBytes_vacate with (cand := cand); try done.
           ++ pose proof (inv_owned _ Hinv) as Hnd. by apply NoDup_app in Hnd as (? & _).
           ++ intros p Hne Hin. apply Hheap; [done|]. by apply slotEntries_Some.
      * intros ->. symmetry in Hstop. apply Z.ltb_lt in Hstop. exact Hstop.
    + done.
  - apply onShard_ret. cbn. split_and!; [inv_ext|by apply remnantOf_same|by rewrite Hen|done..| | |done].
    + intros p e' Hp He'. rewrite Hen, Hslot in Hp. injection Hp as <-.
      rewrite Hh, He in He'. injection He' as <-. by apply Z.eqb_neq.
    + exists 0. split_and!; [done|unfold freedBytes; cbn; lia|].
      rewrite Z.sub_0_r. by apply sameContents_shardBytes.
Qed.

Lemma nextIndex_mod s i :
  (i < length (entries_ s))%nat →
  nextIndex s i = ((i + 1) mod length (entries_ s))%nat.
Proof.
  intros Hi. unfold nextIndex.
  destruct (Nat.eqb_spec (Datatypes.S i) (length (entries_ s))) as [Heq|Hne].
  - replace (i + 1)%nat with (length (entries_ s)) by lia.
    by rewrite Nat.Div0.mod_same.
  - rewrite Nat.mod_small; lia.
Qed.

(** The loop of a desperate pass whose budget covers the shard does not
    stop before its rounds are over: the slots it went through hold no
    unpinned entry. *)
Lemma onShard_evict_loop_desperate sh bytesToFree skip Ξ rounds : ∀ s l (C : nat → Prop),
  ShardInv s → pagesCounted s → (ev_entryIndex l < length (entries_ s))%nat →
  0 ≤ freedBytes l → freedBytes l + shardBytes s ≤ bytesToFree → bytesToFree < 2 ^ 64 →
  (∀ j, C j → slotPinned s j) →
  onShard snd sh s
    (evict_loop sh bytesToFree true skip rounds l
     : M (Allocation * @AsyncDataCache Allocator Ssd) _)
    (λ l' s',
       ShardInv s' ∧ remnantOf s s'
       ∧ length (entries_ s') = length (entries_ s)
       ∧ ev_evictSaveableSkipped l' = ev_evictSaveableSkipped l
       ∧ ∀ j, C j ∨ (∃ d, (1 ≤ d ≤ rounds)%nat
                        ∧ j = ((ev_entryIndex l + d) mod length (entries_ s))%nat) →
              slotPinned s' j) Ξ.
Proof.
  induction rounds as [|rounds IH]; intros s l C Hinv Hcount Hidx Hfreed Hbudget Hmax HC;
    cbn [evict_loop].
  - apply onShard_ret. split_and!; [done|reflexivity|done|done|].
    intros j [Hj|(d & Hd & _)]; [by apply HC|lia].
  - eapply onShard_bind; [by apply onShard_evict_step_desperate|].
    cbv beta. intros [stop l1] s1 (Hinv1 & Hrem1 & Hlen1 & Hidx1 & Hsk1 & Hpin1
                                   & (δ & Hδ & Hfreed1 & Hbytes1) & Hstop).
    cbn [fst snd] in *.
    assert (pagesCounted s1) as Hcount1 by by eapply remnantOf_pagesCounted.
    pose proof (shardBytes_nonneg s1 Hcount1) as Hnn1.
    destruct stop.
    { exfalso. specialize (Hstop eq_refl). unfold uint64 in Hstop.
      rewrite Z.mod_small in Hstop; lia. }
    eapply onShard_conseq;
      [apply (IH s1 l1 (λ j, C j ∨ j = nextIndex s (ev_entryIndex l)))| |done];
      try done; try lia.
    + rewrite Hidx1, Hlen1. by apply nextIndex_lt.
    + intros j [Hj| ->]; [|done]. eapply remnantOf_slotPinned; [done|]. by apply HC.
    + intros l2 s2 (Hinv2 & Hrem2 & Hlen2 & Hsk2 & Hpin2).
      split_and!; [done|by etrans|congruence|congruence|].
      intros j [Hj|(d & Hd & ->)]; [apply Hpin2; by left; left|].
      destruct (decide (d = 1%nat)) as [->|Hd1].
      * apply Hpin2. left. right. by rewrite nextIndex_mod.
      * apply Hpin2. right. exists (d - 1)%nat. split; [lia|].
        rewrite Hidx1, Hlen1, nextIndex_mod by done.
        rewrite Nat.Div0.add_mod_idemp_l. f_equal. lia.
Qed.


(** The locked block of a desperate pass whose budget covers the shard. *)
Lemma onShard_evict_locked_desperate sh s bytesToFree skip pagesToAcquire now Ξ :
  ShardInv s → withinBudget bytesToFree s → bytesToFree < 2 ^ 64 →
  onShard snd sh s
    (evict_locked sh bytesToFree true skip pagesToAcquire now
     : M (Allocation * @AsyncDataCache Allocator Ssd) _)
    (λ r s',
       ShardInv s' ∧ remnantOf s s' ∧ unpinnedGone s'
       ∧ ∀ l, r = Some l → ev_evictSaveableSkipped l = 0) Ξ.
Proof.
  intros Hinv (Hlen & Hcount & Hbudget) Hmax. unfold evict_locked. shard_step.
  rewrite int32_small by lia.
  destruct (Z.of_nat (length (entries_ s)) =? 0) eqn:Hz.
  { apply onShard_ret. split_and!; [done|reflexivity| |done].
    intros i p e Hi. apply Z.eqb_eq in Hz.
    apply lookup_lt_Some in Hi. lia. }
  apply Z.eqb_neq in Hz. rewrite Nat2Z.id.
  set (n := length (entries_ s)) in *.
  set (i0 := Z.to_nat (clockHand_ s `rem` Z.of_nat n)).
  assert (i0 < n)%nat as Hi0.
  { pose proof (Z.rem_bound_abs (clockHand_ s) (Z.of_nat n) ltac:(lia)). lia. }
  eapply onShard_bind.
  { apply onShard_evict_loop_desperate with (C := λ _, False); try done.
    all: unfold freedBytes; cbn; lia. }
  cbv beta. intros l' s' (Hinv' & Hrem & Hlen' & Hsk & Hpin). cbn in Hsk, Hpin.
  apply onShard_ret. split_and!; [done|done| |by intros ? [= <-]].
  intros j. destruct (decide (j < n)%nat) as [Hj|Hj].
  - apply Hpin. right. fold n.
    destruct (decide (i0 < j)%nat) as [Hlt|Hge].
    + exists (j - i0)%nat. split; [lia|].
      replace (i0 + (j - i0))%nat with j by lia. by rewrite Nat.mod_small.
    + exists (j + n - i0)%nat. split; [lia|].
      replace (i0 + (j + n - i0))%nat with (j + 1 * n)%nat by lia.
      rewrite Nat.Div0.mod_add. by rewrite Nat.mod_small.
  - intros p e Hp. apply lookup_lt_Some in Hp. lia.
Qed.

(** A desperate pass on a shard its budget covers returns, and the shard
    holds no unpinned entry afterwards. *)
Lemma evict_desperate_run acq c sh s bytesToFree pagesToAcquire :
  shards_ c !! sh = Some s → ShardInv s →
  withinBudget bytesToFree s → bytesToFree < 2 ^ 64 →
  ∃ acq' c' s1,
    CacheShard_evict sh bytesToFree true pagesToAcquire (acq, c) = Ok tt (acq', c')
    ∧ shards_ c' = <[sh := s1]> (shards_ c)
    ∧ ShardInv s1 ∧ remnantOf s s1 ∧ unpinnedGone s1.
Proof.
  intros Hs Hinv Hbudget Hmax. unfold CacheShard_evict.
  erewrite bind_Ok by reflexivity. erewrite bind_Ok by reflexivity.
  erewrite bind_Ok by reflexivity. cbv beta zeta.
  set (c0 := set_trace_ _ c).
  set (skip := match ssdCache_ c0 with Some ssd => writeInProgress ssd | None => false end).
  lazymatch goal with |- context [(?m ≫= _) _] => set (locked := m) end.
  assert (onShard snd sh s locked
            (λ r s', ShardInv s' ∧ remnantOf s s' ∧ unpinnedGone s'
                     ∧ ∀ l, r = Some l → ev_evictSaveableSkipped l = 0)
            (λ _ _, False)) as Hl.
  { subst locked. shard_step. apply onShard_finally; [|neutral_go].
    by apply onShard_evict_locked_desperate. }
  assert (keeps (onCache (calmly sh)) locked) as Hk.
  { subst locked. apply keeps_bind; [apply _| |intros _].
    - apply keeps_liftCache, calmly_log. exact I.
    - apply keeps_finally; [apply _|apply calmly_evict_locked|].
      apply keeps_liftCache, calmly_log. exact I. }
  specialize (Hl (acq, c0) Hs). specialize (Hk (acq, c0)). unfold wp in Hl.
  destruct (locked (acq, c0)) as [r [acq1 c1]|] eqn:Hrun;
    [|by destruct Hl as (? & _ & [])].
  destruct Hl as (s1 & Hs1 & Hinv1 & Hrem1 & Hgone1 & Hsk). cbn in Hs1, Hk.
  destruct Hk as (_ & _ & _ & Hlen & Ho).
  assert (shards_ c1 = <[sh := s1]> (shards_ c)) as Hsh.
  { apply list_eq. intros sh'. destruct (decide (sh' = sh)) as [->|Hne].
    - rewrite Hs1. symmetry. apply list_lookup_insert_eq. by eapply lookup_lt_Some.
    - rewrite list_lookup_insert_ne by done. by apply Ho. }
  erewrite bind_Ok by exact Hrun. destruct r as [l|].
  - destruct (evict_unlocked_cases l c1) as (c2 & _ & _ & Hsh2 & Heq).
    rewrite (Hsk l eq_refl) in Heq. cbn in Heq. unfold liftCache. rewrite Heq.
    exists acq1, c2, s1. split_and!; try done. congruence.
  - exists acq1, c1, s1. by split_and!.
Qed.

(** ** A pass that was not asked for pages leaves [acquired] alone *)

Lemma wp_assoc {St X Y Z} (m : M St X) (f : X → M St Y) (g : Y → M St Z) Q E (st : St) :
  wp (m ≫= λ x, f x ≫= g) Q E st → wp ((m ≫= f) ≫= g) Q E st.
Proof. unfold wp. by rewrite run_assoc. Qed.

Lemma wp_lift_bind {L X Y} (m : M (@AsyncDataCache Allocator Ssd) X)
    (f : X → M (L * _) Y) Q E (a : L) c :
  (∀ x c', wp (f x) Q E (a, c')) → (∀ ex c', E ex (a, c')) →
  wp (liftCache m ≫= f) Q E (a, c).
Proof.
  intros Hf HE. unfold wp, mbind, M_bind, liftCache.
  destruct (m c) as [x c'|ex c']; [apply Hf|apply HE].
Qed.

Lemma wp_lift_last {L X} (m : M (@AsyncDataCache Allocator Ssd) X) Q E (a : L) c :
  (∀ x c', Q x (a, c')) → (∀ ex c', E ex (a, c')) → wp (liftCache m) Q E (a, c).
Proof. intros HQ HE. unfold wp, liftCache. destruct (m c); auto. Qed.

Lemma wp_ret_bind {St X Y} (x : X) (f : X → M St Y) Q E (st : St) :
  wp (f x) Q E st → wp (mret x ≫= f) Q E st.
Proof. done. Qed.

Ltac acq_step :=
  lazymatch goal with
  | |- wp ((_ ≫= _) ≫= _) _ _ _ => apply wp_assoc
  | |- wp (liftCache _ ≫= _) _ _ (_, _) => apply wp_lift_bind; [intros ? ?|intros; done]
  | |- wp (liftCache _) _ _ (_, _) => apply wp_lift_last; [intros ? ?|intros; done]
  | |- wp (mret _ ≫= _) _ _ _ => apply wp_ret_bind
  | |- wp (throw _) _ _ _ => done
  | |- wp ((if ?b then _ else _) ≫= _) _ _ _ => destruct b
  | |- wp (if ?b then _ else _) _ _ _ => destruct b
  | |- wp ((let '(_, _) := ?x in _) ≫= _) _ _ _ => destruct x
  end; cbv beta iota.

Lemma evict_candidate_acquired sh bytesToFree cand sc l acq c :
  ev_pagesToAcquire l ≤ 0 →
  wp (evict_candidate sh bytesToFree cand sc l)
    (λ r st', fst st' = acq ∧ ev_pagesToAcquire (snd r) ≤ 0) (λ _ st', fst st' = acq)
    (acq, c : @AsyncDataCache Allocator Ssd).
Proof.
  intros Hp. unfold evict_candidate.
  replace (0 <? ev_pagesToAcquire l) with false by (symmetry; apply Z.ltb_ge; lia).
  repeat acq_step. all: by split.
Qed.

Lemma evict_step_acquired sh bytesToFree evictAll skip l acq c :
  ev_pagesToAcquire l ≤ 0 →
  wp (evict_step sh bytesToFree evictAll skip l)
    (λ r st', fst st' = acq ∧ ev_pagesToAcquire (snd r) ≤ 0) (λ _ st', fst st' = acq)
    (acq, c : @AsyncDataCache Allocator Ssd).
Proof.
  intros Hp. unfold evict_step. do 2 acq_step.
  destruct (entries_ x !! _) as [[cand|]|]; [|done..].
  repeat acq_step; first [done|by apply evict_candidate_acquired].
Qed.

Lemma evict_loop_acquired sh bytesToFree evictAll skip rounds : ∀ l acq c,
  ev_pagesToAcquire l ≤ 0 →
  wp (evict_loop sh bytesToFree evictAll skip rounds l)
    (λ _ st', fst st' = acq) (λ _ st', fst st' = acq)
    (acq, c : @AsyncDataCache Allocator Ssd).
Proof.
  induction rounds as [|rounds IH]; intros l acq c Hp; cbn [evict_loop]; [done|].
  apply wp_bind. eapply wp_mono; [by apply evict_step_acquired| |done].
  intros [stop l'] [acq' c'] [Hacq Hp']. cbn in Hacq, Hp'. subst acq'.
  destruct stop; [done|]. by apply IH.
Qed.

Lemma evict_locked_acquired sh bytesToFree evictAll skip pagesToAcquire now acq c :
  pagesToAcquire ≤ 0 →
  wp (evict_locked sh bytesToFree evictAll skip pagesToAcquire now)
    (λ _ st', fst st' = acq) (λ _ st', fst st' = acq)
    (acq, c : @AsyncDataCache Allocator Ssd).
Proof.
  intros Hp. unfold evict_locked. acq_step. acq_step; [done|].
  apply wp_bind. eapply wp_mono; [by apply evict_loop_acquired| |done].
  by intros lz [acqz cz] Hacq.
Qed.

Lemma evict_acquired_unchanged sh bytesToFree evictAll pagesToAcquire acq c :
  pagesToAcquire ≤ 0 →
  fst (stateOf (CacheShard_evict sh bytesToFree evictAll pagesToAcquire
                  (acq, c : @AsyncDataCache Allocator Ssd))) = acq.
Proof.
  intros Hp.
  assert (wp (CacheShard_evict sh bytesToFree evictAll pagesToAcquire)
            (λ _ st', fst st' = acq) (λ _ st', fst st' = acq) (acq, c)) as Hw.
  { unfold CacheShard_evict. do 5 acq_step.
    lazymatch goal with
    | |- wp (finally ?m _ ≫= _) _ _ (acq, ?cc) =>
        assert (wp m (λ _ st', fst st' = acq) (λ _ st', fst st' = acq) (acq, cc))
          as Hlocked by (by apply evict_locked_acquired);
        unfold wp in Hlocked |- *; unfold mbind, M_bind, finally;
        destruct (m (acq, cc)) as [r [acq1 c1]|ex [acq1 c1]]
    end; cbn in Hlocked; subst acq1; cbn; [|done].
    destruct r as [l|]; cbn; [|done].
    unfold liftCache. by destruct (evict_unlocked l _). }
  unfold wp in Hw. by destruct (CacheShard_evict _ _ _ _ _).
Qed.

Lemma desperate_slots s s' :
  ShardInv s' → remnantOf s s' → unpinnedGone s' → stays (λ e, numPins_ e ≠ 0) s s' →
  ∀ i p, entries_ s' !! i = Some (Some p)
         ↔ entries_ s !! i = Some (Some p)
           ∧ ∃ e, heap_ s !! p = Some e ∧ numPins_ e ≠ 0.
Proof.
  intros Hinv Hrem Hgone [_ Hst] i p. split.
  - intros Hi. destruct (inv_slots _ Hinv p) as [e He]; [by eapply slotEntries_lookup|].
    destruct (Hrem i p e Hi He) as [Hi0 He0]. split; [done|]. exists e. split; [done|].
    by eapply Hgone.
  - intros (Hi & e & He & Hpin). by destruct (Hst i p e Hi He Hpin) as (? & _).
Qed.

(** X13.  A desperate pass of [evict] over a shard that holds no more than
    [bytesToFree] bytes returns and goes through every slot: afterwards the
    slots hold exactly the entries that were pinned, each in its slot; all
    other slots are empty.  The other shards are not touched, and a pass
    that was not asked for pages leaves [acquired] as it was. *)
Theorem evict_desperate_takes_all_unpinned acq c sh s bytesToFree pagesToAcquire :
  shards_ c !! sh = Some s → ShardInv s →
  withinBudget bytesToFree s → bytesToFree < 2 ^ 64 →
  ∃ acq' c' s',
    CacheShard_evict sh bytesToFree true pagesToAcquire (acq, c) = Ok tt (acq', c')
    ∧ shards_ c' = <[sh := s']> (shards_ c)
    ∧ ShardInv s'
    ∧ length (entries_ s') = length (entries_ s)
    ∧ (∀ i p, entries_ s' !! i = Some (Some p)
              ↔ entries_ s !! i = Some (Some p)
                ∧ ∃ e, heap_ s !! p = Some e ∧ numPins_ e ≠ 0)
    ∧ (∀ i p e, entries_ s' !! i = Some (Some p) → heap_ s' !! p = Some e →
         heap_ s !! p = Some e ∧ numPins_ e ≠ 0)
    ∧ (pagesToAcquire ≤ 0 → acq' = acq).
Proof.
  intros Hs Hinv Hbudget Hmax.
  destruct (evict_desperate_run acq c sh s bytesToFree pagesToAcquire Hs Hinv Hbudget Hmax)
    as (acq' & c' & s' & Hrun & Hsh & Hinv' & Hrem & Hgone).
  destruct (evict_desperate acq c sh s bytesToFree pagesToAcquire Hs Hinv)
    as (s1 & Hsh1 & _ & Hst).
  rewrite Hrun in Hsh1. cbn in Hsh1.
  assert (s1 = s') as ->.
  { assert (<[sh := s1]> (shards_ c) !! sh = <[sh := s']> (shards_ c) !! sh) as Heq
      by congruence.
    rewrite !list_lookup_insert_eq in Heq by (by eapply lookup_lt_Some). congruence. }
  exists acq', c', s'. split_and!; try done.
  - by destruct Hst.
  - by apply desperate_slots.
  - intros i p e Hi He. destruct (Hrem i p e Hi He). split; [done|]. by eapply Hgone.
  - intros Hp.
    pose proof (evict_acquired_unchanged sh bytesToFree true pagesToAcquire acq c Hp) as Ha.
    by rewrite Hrun in Ha.
Qed.

Lemma clear_loop_run c n : ∀ i c1,
  CacheInv c1 → length (shards_ c1) = length (shards_ c) →
  (i + n = length (shards_ c))%nat →
  (∀ sh s, shards_ c !! sh = Some s → withinBudget (2 ^ 31 - 1) s) →
  (∀ sh, (i ≤ sh)%nat → shards_ c1 !! sh = shards_ c !! sh) →
  (∀ sh s1, (sh < i)%nat → shards_ c1 !! sh = Some s1 →
     unpinnedGone s1 ∧ ∃ s, shards_ c !! sh = Some s ∧ remnantOf s s1) →
  ∃ c',
    foldM (λ _ sh,
             runFrame ([] : Allocation)
               (CacheShard_evict sh (2 ^ 31 - 1) true 0;;
                acquired ← gets fst;
                VELOX_CHECK (Allocation.empty acquired)))
          (seq i n) tt c1 = Ok tt c'
    ∧ CacheInv c' ∧ length (shards_ c') = length (shards_ c)
    ∧ ∀ sh s', shards_ c' !! sh = Some s' →
        unpinnedGone s' ∧ ∃ s, shards_ c !! sh = Some s ∧ remnantOf s s'.
Proof.
  induction n as [|n IH]; intros i c1 Hinv Hlen Hin Hbudget Hrest Hdone; cbn [seq foldM].
  - exists c1. split_and!; try done. intros sh s' Hs'. apply (Hdone sh s'); [|done].
    apply lookup_lt_Some in Hs'. lia.
  - destruct (lookup_lt_is_Some_2 (shards_ c1) i) as [s Hs]; [lia|].
    assert (shards_ c !! i = Some s) as Hs0 by (by rewrite <- Hrest).
    destruct (evict_desperate_run [] c1 i s (2 ^ 31 - 1) 0 Hs)
      as (acq' & c2 & s1 & Hrun & Hsh & Hinv1 & Hrem1 & Hgone1);
      [by eapply Hinv|by eapply Hbudget|lia|].
    pose proof (evict_acquired_unchanged i (2 ^ 31 - 1) true 0 [] c1 ltac:(lia)) as Ha.
    rewrite Hrun in Ha. cbn in Ha. subst acq'.
    erewrite bind_Ok;
      [|unfold runFrame; erewrite bind_Ok by exact Hrun; reflexivity].
    destruct (IH (Datatypes.S i) c2) as (c' & Hfold & Hinv' & Hlen' & Hall); try done.
    + intros sh s' Hs'. rewrite Hsh in Hs'. destruct (decide (sh = i)) as [->|Hne].
      * rewrite list_lookup_insert_eq in Hs' by (by eapply lookup_lt_Some). congruence.
      * rewrite list_lookup_insert_ne in Hs' by done. by eapply Hinv.
    + by rewrite Hsh, length_insert.
    + lia.
    + intros sh Hle. rewrite Hsh, list_lookup_insert_ne by lia. apply Hrest. lia.
    + intros sh s' Hlt Hs'. rewrite Hsh in Hs'. destruct (decide (sh = i)) as [->|Hne].
      * rewrite list_lookup_insert_eq in Hs' by (by eapply lookup_lt_Some).
        injection Hs' as <-. split; [done|]. by exists s.
      * rewrite list_lookup_insert_ne in Hs' by done. apply (Hdone sh s'); [lia|done].
    + by exists c'.
Qed.

(** X14.  [clear()] on a cache in shape, no shard of which holds more than
    2^31 - 1 bytes (the budget of its passes), returns: the check that
    nothing was acquired does not fail.  Afterwards the slots of every shard
    hold exactly the entries that were pinned, each in its slot and as it
    was. *)
Theorem clear_evicts_all_unpinned c :
  CacheInv c →
  (∀ sh s, shards_ c !! sh = Some s → withinBudget (2 ^ 31 - 1) s) →
  ∃ c',
    AsyncDataCache_clear c = Ok tt c'
    ∧ CacheInv c' ∧ length (shards_ c') = length (shards_ c)
    ∧ ∀ sh s s', shards_ c !! sh = Some s → shards_ c' !! sh = Some s' →
        length (entries_ s') = length (entries_ s)
        ∧ (∀ i p, entries_ s' !! i = Some (Some p)
                  ↔ entries_ s !! i = Some (Some p)
                    ∧ ∃ e, heap_ s !! p = Some e ∧ numPins_ e ≠ 0)
        ∧ (∀ i p e, entries_ s' !! i = Some (Some p) → heap_ s' !! p = Some e →
             heap_ s !! p = Some e ∧ numPins_ e ≠ 0).
Proof.
  intros Hinv Hbudget.
  destruct (clear_loop_run c (length (shards_ c)) 0 c Hinv eq_refl eq_refl Hbudget)
    as (c' & Hrun & Hinv' & Hlen & Hall); [done|intros; lia|].
  exists c'. split_and!; try done.
  intros sh s s' Hs Hs'.
  destruct (Hall sh s' Hs') as (Hgone & s0 & Hs0 & Hrem).
    assert (s0 = s) as -> by congruence.
    destruct (clear_pinnedStay c Hinv eq_refl) as (_ & _ & Hst).
    change (AsyncDataCache_clear c) with
      (foldM (λ _ sh,
                runFrame ([] : Allocation)
                  (CacheShard_evict sh (2 ^ 31 - 1) true 0;;
                   acquired ← gets fst;
                   VELOX_CHECK (Allocation.empty acquired)))
             (seq 0 (length (shards_ c))) tt c) in Hst.
    rewrite Hrun in Hst. cbn in Hst.
    pose proof (Forall2_lookup_lr _ _ _ _ _ _ Hst Hs Hs') as Hst'.
    split_and!.
    + by destruct Hst'.
    + apply desperate_slots; try done. by eapply Hinv'.
    + intros i p e Hi He. destruct (Hrem i p e Hi He). split; [done|]. by eapply Hgone.
Qed.

(** ** From the fill to the next hit *)

Lemma setExclusiveToShared_run c sh s p e :
  shards_ c !! sh = Some s → heap_ s !! p = Some e → isExclusive e = true →
  verifyHook_ c = None → ssdCache_ c = None →
  AsyncDataCacheEntry_setExclusiveToShared sh p c
  = Ok tt (set_trace_
             (trace_ c ++ [EvLock sh; EvUnlock sh]
              ++ match promise_ e with Some pr => [EvSetValue pr true] | None => [] end)
             (updShard sh
                (set_heap_ (<[p := set_promise_ None (set_numPins_ 1 e)]> (heap_ s)) s) c)).
Proof.
  intros Hs He Hx Hhook Hssd. unfold AsyncDataCacheEntry_setExclusiveToShared. run.
  rewrite Hx. rewrite run_check by done. run.
  unfold withLock. run.
  erewrite run_finally;
    [| unfold AsyncDataCacheEntry_movePromise; run; run_last; reflexivity ].
  run. rewrite Hhook, Hssd.
  destruct (promise_ e) as [pr|]; run; destruct (ssdFile_ e); cbn;
    by rewrite <- ?app_assoc, ?app_nil_r.
Qed.

Lemma findOrCreate_hit_run c sh s key size wait found e :
  shards_ c !! sh = Some s →
  entryMap_ s !! key = Some found → heap_ s !! found = Some e →
  isExclusive e = false → size ≤ size_ e →
  ∃ c' s' e',
    CacheShard_findOrCreate sh key size wait c = Ok (Some (pinOf sh found), None) c'
    ∧ shards_ c' !! sh = Some s' ∧ heap_ s' !! found = Some e'
    ∧ numPins_ e' = numPins_ e + 1
    ∧ key_ e' = key_ e ∧ size_ e' = size_ e ∧ data_ e' = data_ e
    ∧ tinyData_ e' = tinyData_ e ∧ promise_ e' = promise_ e
    ∧ entryMap_ s' = entryMap_ s
    ∧ trace_ c' = trace_ c ++ [EvLock sh; EvUnlock sh].
Proof.
  intros Hs Hk He Hx Hsize.
  unfold CacheShard_findOrCreate, withLock. run.
  unfold findOrCreate_locked.
  destruct (isPrefetch_ e) eqn:Hpre.
  - erewrite run_finally;
      [| run; rewrite Hk; run; rewrite Hx, (proj2 (Z.leb_le _ _) Hsize); run;
         rewrite Hpre; unfold AsyncDataCacheEntry_setPrefetch; run; run_last; reflexivity ].
    run. run_last.
    eexists _, _, _. split; [reflexivity|]. norm.
    split; [by apply list_lookup_insert_eq; eapply lookup_lt_Some|]. norm.
    split; [apply lookup_insert_eq|]. norm.
    repeat split; try done. by rewrite <- app_assoc.
  - erewrite run_finally;
      [| run; rewrite Hk; run; rewrite Hx, (proj2 (Z.leb_le _ _) Hsize); run;
         rewrite Hpre; run; run_last; reflexivity ].
    run. run_last.
    eexists _, _, _. split; [reflexivity|]. norm.
    split; [by apply list_lookup_insert_eq; eapply lookup_lt_Some|]. norm.
    split; [apply lookup_insert_eq|]. norm.
    repeat split; try done. by rewrite <- app_assoc.
Qed.

(** X15.  The round trip of a fill, in a cache without SSD tier and verify hook:
    the holder of the exclusive pin of a key calls [setExclusiveToShared()],
    which wakes the waiters of the entry with true after releasing the shard
    lock, and drops the pin with [release()]; the entry stays in the cache
    with no pin, and the next [findOrCreate] of the key, with a size that
    the entry covers, returns a pin on this very entry, now with one pin and
    with the key, the size and the buffers of the fill. *)
Theorem fill_share_release_then_hit c sh s key size wait p e :
  shards_ c !! sh = Some s →
  entryMap_ s !! key = Some p → heap_ s !! p = Some e →
  isExclusive e = true → kExclusive < 0 →
  verifyHook_ c = None → ssdCache_ c = None →
  size ≤ size_ e →
  ∃ c1 c2 c3 s2 e2 s3 e3,
    AsyncDataCacheEntry_setExclusiveToShared sh p c = Ok tt c1
    ∧ trace_ c1
      = trace_ c ++ [EvLock sh; EvUnlock sh]
        ++ match promise_ e with Some pr => [EvSetValue pr true] | None => [] end
    ∧ AsyncDataCacheEntry_release sh p c1 = Ok tt c2
    ∧ shards_ c2 !! sh = Some s2 ∧ heap_ s2 !! p = Some e2
    ∧ numPins_ e2 = 0 ∧ entryMap_ s2 = entryMap_ s ∧ entries_ s2 = entries_ s
    ∧ trace_ c2 = trace_ c1
    ∧ CacheShard_findOrCreate sh key size wait c2 = Ok (Some (pinOf sh p), None) c3
    ∧ shards_ c3 !! sh = Some s3 ∧ heap_ s3 !! p = Some e3
    ∧ numPins_ e3 = 1 ∧ promise_ e3 = None
    ∧ key_ e3 = key_ e ∧ size_ e3 = size_ e
    ∧ data_ e3 = data_ e ∧ tinyData_ e3 = tinyData_ e
    ∧ entryMap_ s3 = entryMap_ s
    ∧ trace_ c3 = trace_ c2 ++ [EvLock sh; EvUnlock sh].
Proof.
  intros Hs Hk He Hx Hneg Hhook Hssd Hsize.
  pose proof (setExclusiveToShared_run c sh s p e Hs He Hx Hhook Hssd) as H1.
  set (e1 := set_promise_ None (set_numPins_ 1 e)) in *.
  set (s1 := set_heap_ (<[p := e1]> (heap_ s)) s) in *.
  match type of H1 with _ = Ok tt ?st => set (c1 := st) in * end.
  assert (shards_ c1 !! sh = Some s1) as Hs1
    by (by apply list_lookup_insert_eq; eapply lookup_lt_Some).
  assert (heap_ s1 !! p = Some e1) as He1 by apply lookup_insert_eq.
  pose proof (release_shared c1 sh s1 p e1 Hs1 He1) as H2.
  cbn [numPins_ e1 set_promise_ set_numPins_] in H2.
  specialize (H2 ltac:(lia) ltac:(lia)).
  set (e2 := set_numPins_ (1 - 1) e1) in *.
  set (s2 := set_heap_ (<[p := e2]> (heap_ s1)) s1) in *.
  match type of H2 with _ = Ok tt ?st => set (c2 := st) in * end.
  assert (shards_ c2 !! sh = Some s2) as Hs2
    by (by apply list_lookup_insert_eq; eapply lookup_lt_Some).
  assert (heap_ s2 !! p = Some e2) as He2 by apply lookup_insert_eq.
  destruct (findOrCreate_hit_run c2 sh s2 key size wait p e2 Hs2 Hk He2)
    as (c3 & s3 & e3 & H3 & Hs3 & He3 & Hpins & Hkey & Hsz & Hdata & Htiny & Hpr & Hmap & Htr);
    [apply Z.eqb_neq; cbn; lia|done|].
  exists c1, c2, c3, s2, e2, s3, e3. split_and!; try done.
Qed.

(** ** The entries in exclusive mode, and what leaves them alone *)

#[local] Instance exclusiveKept_preorder : PreOrder (@exclusiveKept Allocator Ssd _).
Proof.
  split.
  - intros c sh s p e Hs He _. eauto.
  - intros c1 c2 c3 H12 H23 sh s p e Hs He Hx.
    destruct (H12 sh s p e Hs He Hx) as (s2 & Hs2 & He2). eauto.
Qed.

Lemma exclusiveKept_same c c' : shards_ c' = shards_ c → exclusiveKept c c'.
Proof. intros Hsh sh s p e Hs He _. rewrite Hsh. eauto. Qed.

Lemma exclusiveKept_pure {X} (m : M (@AsyncDataCache Allocator Ssd) X) :
  (∀ c, shards_ (stateOf (m c)) = shards_ c) → keeps exclusiveKept m.
Proof. intros Hm c. by apply exclusiveKept_same. Qed.

Lemma exclusiveKept_entry c sh s p e e' :
  shards_ c !! sh = Some s → heap_ s !! p = Some e → isExclusive e = false →
  exclusiveKept c (updShard sh (set_heap_ (<[p := e']> (heap_ s)) s) c).
Proof.
  intros Hs He Hx sh0 s0 p0 e0 Hs0 He0 Hx0. cbn.
  destruct (decide (sh0 = sh)) as [->|Hne].
  - rewrite list_lookup_insert_eq by (by eapply lookup_lt_Some).
    eexists. split; [done|]. cbn. assert (s0 = s) as -> by congruence.
    rewrite lookup_insert_ne; [done|]. intros <-. congruence.
  - rewrite list_lookup_insert_ne by done. eauto.
Qed.

Lemma exclusiveKept_log ev : keeps (@exclusiveKept Allocator Ssd _) (log ev).
Proof. by apply exclusiveKept_pure. Qed.

Lemma exclusiveKept_getShard sh : keeps (@exclusiveKept Allocator Ssd _) (getShard sh).
Proof. apply exclusiveKept_pure. intros c. unfold getShard. by destruct (shards_ c !! sh). Qed.

Lemma exclusiveKept_deref sh p : keeps (@exclusiveKept Allocator Ssd _) (deref sh p).
Proof.
  apply exclusiveKept_pure. intros c. unfold deref, getShard, mbind, M_bind.
  destruct (shards_ c !! sh) as [s|]; cbn; [|done]. by destruct (heap_ s !! p).
Qed.

Lemma exclusiveKept_ssdCache : keeps (@exclusiveKept Allocator Ssd _) ssdCache.
Proof. apply exclusiveKept_pure. intros c. unfold ssdCache. by destruct (ssdCache_ c). Qed.

Lemma exclusiveKept_startWrite : keeps (@exclusiveKept Allocator Ssd _) ssdCache_startWrite.
Proof.
  apply exclusiveKept_pure. intros c. unfold ssdCache_startWrite, ssdCache, mbind, M_bind.
  destruct (ssdCache_ c) as [ssd|]; [|done]. by destruct (startWrite ssd).
Qed.

Lemma exclusiveKept_ssdWrite pins : keeps (@exclusiveKept Allocator Ssd _) (ssdCache_write pins).
Proof.
  apply exclusiveKept_pure. intros c. unfold ssdCache_write, ssdCache, mbind, M_bind.
  by destruct (ssdCache_ c) as [ssd|].
Qed.

Lemma exclusiveKept_modify (f : @AsyncDataCache Allocator Ssd → _) :
  (∀ c, shards_ (f c) = shards_ c) → keeps exclusiveKept (modify f).
Proof. intros Hf. by apply exclusiveKept_pure. Qed.

Lemma exclusiveKept_appendSsdSaveable_loop sh limit slots : ∀ pins,
  keeps (@exclusiveKept Allocator Ssd _) (appendSsdSaveable_loop sh limit slots pins).
Proof.
  induction slots as [|[p|] slots IH]; intros pins c; cbn [appendSsdSaveable_loop].
  - reflexivity.
  - unfold mbind at 1, M_bind at 1, deref at 1, getShard, mbind, M_bind.
    destruct (shards_ c !! sh) as [s|] eqn:Hs; [|reflexivity].
    destruct (heap_ s !! p) as [e|] eqn:He; [|reflexivity]. cbn [mret M_ret].
    destruct (isExclusive e) eqn:Hx.
    + rewrite andb_false_r. cbn [andb]. apply IH.
    + destruct (negb _ && _ && _); [|apply IH].
      erewrite modifyEntry_Ok by done. cbv beta.
      assert (exclusiveKept c (updShard sh
                (set_heap_ (<[p := set_numPins_ (numPins_ e + 1) e]> (heap_ s)) s) c)) as Hk
        by by eapply exclusiveKept_entry.
      destruct (_ <=? _); [exact Hk|]. etrans; [exact Hk|apply IH].
  - apply IH.
Qed.

Lemma exclusiveKept_appendSsdSaveable sh pins :
  keeps (@exclusiveKept Allocator Ssd _) (CacheShard_appendSsdSaveable sh pins).
Proof.
  unfold CacheShard_appendSsdSaveable, withLock.
  apply keeps_bind; [apply _|apply exclusiveKept_log|intros _].
  apply keeps_finally; [apply _| |apply exclusiveKept_log].
  apply keeps_bind; [apply _|apply exclusiveKept_getShard|intros s].
  apply keeps_bind; [apply _|apply exclusiveKept_ssdCache|intros ssd].
  apply keeps_bind; [apply _|apply keeps_VELOX_CHECK; apply _|intros _].
  apply exclusiveKept_appendSsdSaveable_loop.
Qed.

Lemma exclusiveKept_saveToSsd : keeps (@exclusiveKept Allocator Ssd _) AsyncDataCache_saveToSsd.
Proof.
  unfold AsyncDataCache_saveToSsd.
  apply keeps_bind; [apply _|apply exclusiveKept_ssdCache|intros ssd].
  apply keeps_bind; [apply _|apply keeps_VELOX_CHECK; apply _|intros _].
  apply keeps_bind; [apply _|by apply exclusiveKept_modify|intros _].
  apply keeps_bind; [apply _|apply keeps_gets; apply _|intros n].
  apply keeps_bind; [apply _| |intros pins; apply exclusiveKept_ssdWrite].
  apply keeps_foldM; [apply _|]. intros pins sh. apply exclusiveKept_appendSsdSaveable.
Qed.

Lemma exclusiveKept_possibleSsdSave bytes :
  keeps (@exclusiveKept Allocator Ssd _) (AsyncDataCache_possibleSsdSave bytes).
Proof.
  unfold AsyncDataCache_possibleSsdSave.
  apply keeps_bind; [apply _|apply keeps_gets; apply _|intros [ssd|]];
    [|apply keeps_ret; apply _].
  apply keeps_bind; [apply _|by apply exclusiveKept_modify|intros _].
  apply keeps_bind; [apply _|apply keeps_gets; apply _|intros saveable].
  apply keeps_bind; [apply _|apply keeps_gets; apply _|intros cached].
  destruct (_ <? _); [|apply keeps_ret; apply _].
  apply keeps_bind; [apply _|apply exclusiveKept_startWrite|intros [|]];
    [apply exclusiveKept_saveToSsd|apply keeps_ret; apply _].
Qed.

Lemma possibleSsdSave_returns c bytes :
  startWrite_starts Ssd → CacheInv c → returns (AsyncDataCache_possibleSsdSave bytes c).
Proof.
  intros Hlaw Hinv. unfold AsyncDataCache_possibleSsdSave. rewrite run_gets.
  destruct (ssdCache_ c) as [ssd|] eqn:Hssd; [|done].
  rewrite run_modify, !run_gets. cbv beta.
  destruct (_ <? _); [|done].
  set (c1 := set_ssdSaveableBytes_ _ c).
  unfold ssdCache_startWrite. rewrite run_assoc.
  eapply returns_bind; [unfold ssdCache; cbn; by rewrite Hssd|].
  destruct (startWrite ssd) as [ok ssd'] eqn:Hstart.
  rewrite run_assoc, run_modify, run_ret.
  destruct ok; [|done].
  eapply saveToSsd_returns; [|reflexivity|].
  - intros sh s Hs. by eapply Hinv.
  - specialize (Hlaw ssd). rewrite Hstart in Hlaw. by apply Hlaw.
Qed.

Lemma CacheInv_entry c c2 sh s p e e1 :
  CacheInv c → shards_ c !! sh = Some s → heap_ s !! p = Some e → entryKept e e1 →
  shards_ c2 = <[sh := set_heap_ (<[p := e1]> (heap_ s)) s]> (shards_ c) →
  CacheInv c2.
Proof.
  intros Hinv Hs He Hk Hsh sh' s' Hs'. rewrite Hsh in Hs'.
  destruct (decide (sh' = sh)) as [->|Hne].
  - rewrite list_lookup_insert_eq in Hs' by (by eapply lookup_lt_Some).
    injection Hs' as <-. eapply ShardInv_kept; [|by eapply Hinv].
    by eapply shardKept_entry.
  - rewrite list_lookup_insert_ne in Hs' by done. by eapply Hinv.
Qed.

(** The end of [setExclusiveToShared], past the verify hook. *)
Lemma setExclusiveToShared_tail c2 sh s2 p e1 (ssdFile : option Z) (ssd : option Ssd)
    groupId trackingId bytes :
  startWrite_starts Ssd → CacheInv c2 →
  shards_ c2 !! sh = Some s2 → heap_ s2 !! p = Some e1 → isExclusive e1 = false →
  ∃ c',
    (match ssdFile with
     | Some _ => mret tt
     | None =>
         match ssd with
         | Some ssdCache =>
             if shouldSaveToSsd ssdCache groupId trackingId
             then
               modifyEntry sh p (set_ssdSaveable_ true);;
               AsyncDataCache_possibleSsdSave bytes
             else mret tt
         | None => mret tt
         end
     end) c2 = Ok tt c'
    ∧ exclusiveKept c2 c' ∧ quietly c2 c'.
Proof.
  intros Hlaw Hinv Hs He Hx.
  destruct ssdFile; [by exists c2|]. destruct ssd as [ssdCache|]; [|by exists c2].
  destruct (shouldSaveToSsd _ _ _); [|by exists c2].
  erewrite bind_Ok by (by apply modifyEntry_Ok).
  set (c3 := updShard _ _ c2).
  assert (exclusiveKept c2 c3) as Hk23 by by eapply exclusiveKept_entry.
  assert (CacheInv c3) as Hinv3.
  { by eapply (CacheInv_entry c2 c3 sh s2 p e1 (set_ssdSaveable_ true e1)). }
  pose proof (possibleSsdSave_returns c3 bytes Hlaw Hinv3) as Hr.
  pose proof (exclusiveKept_possibleSsdSave bytes c3) as Hk34.
  pose proof (keeps_possibleSsdSave bytes c3) as [Hq34 _].
  destruct (AsyncDataCache_possibleSsdSave bytes c3) as [[] c4|]; [|done].
  cbn in *. exists c4. split_and!; [done|by etrans|done].
Qed.

Lemma setExclusiveToShared_publishes c sh s p e :
  startWrite_starts Ssd → CacheInv c → hookAccepts c → kExclusive ≠ 1 →
  shards_ c !! sh = Some s → heap_ s !! p = Some e → isExclusive e = true →
  ∃ c' evs,
    AsyncDataCacheEntry_setExclusiveToShared sh p c = Ok tt c'
    ∧ (∀ sh0 s0 p0 e0, (sh0, p0) ≠ (sh, p) →
         shards_ c !! sh0 = Some s0 → heap_ s0 !! p0 = Some e0 → isExclusive e0 = true →
         ∃ s0', shards_ c' !! sh0 = Some s0' ∧ heap_ s0' !! p0 = Some e0)
    ∧ trace_ c'
      = trace_ c ++ [EvLock sh; EvUnlock sh]
        ++ match promise_ e with Some pr => [EvSetValue pr true] | None => [] end
        ++ evs.
Proof.
  intros Hlaw Hinv Hhook Hk1 Hs He Hx.
  set (e1 := set_promise_ None (set_numPins_ 1 e)).
  assert (isExclusive e1 = false) as Hx1 by (apply Z.eqb_neq; cbn; lia).
  assert (entryKept e e1) as Hkept by (repeat split; cbn; lia).
  assert (∀ c2, shards_ c2 = <[sh := set_heap_ (<[p := e1]> (heap_ s)) s]> (shards_ c) →
            ∀ sh0 s0 p0 e0, (sh0, p0) ≠ (sh, p) →
              shards_ c !! sh0 = Some s0 → heap_ s0 !! p0 = Some e0 →
              ∃ s0', shards_ c2 !! sh0 = Some s0' ∧ heap_ s0' !! p0 = Some e0) as Hothers.
  { intros c2 Hsh sh0 s0 p0 e0 Hne Hs0 He0. rewrite Hsh.
    destruct (decide (sh0 = sh)) as [->|Hnsh].
    - rewrite list_lookup_insert_eq by (by eapply lookup_lt_Some).
      eexists. split; [done|]. cbn. assert (s0 = s) as -> by congruence.
      rewrite lookup_insert_ne; [done|]. intros <-. done.
    - rewrite list_lookup_insert_ne by done. eauto. }
  assert (∀ c2 (ssdFile : option Z) ssd groupId trackingId bytes wake,
            shards_ c2 = <[sh := set_heap_ (<[p := e1]> (heap_ s)) s]> (shards_ c) →
            trace_ c2 = trace_ c ++ [EvLock sh; EvUnlock sh] ++ wake →
            ∃ c' evs,
              (match ssdFile with
               | Some _ => mret tt
               | None =>
                   match ssd with
                   | Some ssdCache =>
                       if shouldSaveToSsd ssdCache groupId trackingId
                       then
                         modifyEntry sh p (set_ssdSaveable_ true);;
                         AsyncDataCache_possibleSsdSave bytes
                       else mret tt
                   | None => mret tt
                   end
               end) c2 = Ok tt c'
              ∧ (∀ sh0 s0 p0 e0, (sh0, p0) ≠ (sh, p) →
                   shards_ c !! sh0 = Some s0 → heap_ s0 !! p0 = Some e0 →
                   isExclusive e0 = true →
                   ∃ s0', shards_ c' !! sh0 = Some s0' ∧ heap_ s0' !! p0 = Some e0)
              ∧ trace_ c' = trace_ c ++ [EvLock sh; EvUnlock sh] ++ wake ++ evs) as Htail.
  { intros c2 ssdFile ssd groupId trackingId bytes wake Hsh Htr.
    assert (shards_ c2 !! sh = Some (set_heap_ (<[p := e1]> (heap_ s)) s)) as Hs2.
    { rewrite Hsh. apply list_lookup_insert_eq. by eapply lookup_lt_Some. }
    destruct (setExclusiveToShared_tail c2 sh _ p e1 ssdFile ssd groupId trackingId bytes
                Hlaw (CacheInv_entry c c2 sh s p e e1 Hinv Hs He Hkept Hsh) Hs2
                (lookup_insert_eq _ _ _) Hx1) as (c' & Hrun & Hk & evs & Htr' & _).
    exists c', evs. split_and!; [exact Hrun| |].
    - intros sh0 s0 p0 e0 Hne Hs0 He0 Hx0.
      destruct (Hothers c2 Hsh sh0 s0 p0 e0 Hne Hs0 He0) as (s0' & Hs0' & He0').
      by eapply Hk.
    - rewrite Htr', Htr. by rewrite <- !app_assoc. }
  unfold AsyncDataCacheEntry_setExclusiveToShared. run.
  rewrite Hx. rewrite run_check by done. run.
  unfold withLock. run.
  erewrite run_finally;
    [| unfold AsyncDataCacheEntry_movePromise; run; run_last; reflexivity ].
  run.
  destruct (promise_ e) as [pr|] eqn:Hpr; run;
    (destruct (verifyHook_ c) as [h|] eqn:Hh; [rewrite (Hhook h _ Hh)|]; run).
  all: apply Htail; [done|cbn; by rewrite <- ?app_assoc].
Qed.

Lemma beside_possibleSsdSave bytes :
  keeps (@beside Allocator Ssd) (AsyncDataCache_possibleSsdSave bytes).
Proof. unfold AsyncDataCache_possibleSsdSave. keeps_go. Qed.

#[local] Hint Resolve beside_possibleSsdSave : keeps.

Lemma beside_setExclusiveToShared sh p :
  keeps (@beside Allocator Ssd) (AsyncDataCacheEntry_setExclusiveToShared sh p).
Proof. unfold AsyncDataCacheEntry_setExclusiveToShared, withLock, Promise_setValue. keeps_go. Qed.

Lemma entryAt_Some (c : @AsyncDataCache Allocator Ssd) pin e :
  entryAt c pin = Some e
  ↔ ∃ s, shards_ c !! pin_shard pin = Some s ∧ heap_ s !! pin_entry pin = Some e.
Proof. unfold entryAt. by rewrite bind_Some. Qed.

(** The loop over the pins of [loadData] returns if each pin is on an entry
    in exclusive mode that has its key. *)
Lemma publish_succeeds pins (l : CoalescedLoad) (c : @AsyncDataCache Allocator Ssd) :
  startWrite_starts Ssd → kExclusive ≠ 1 →
  CacheInv c → hookAccepts c → exclusivePins pins c →
  ∃ c', loadOrFuture_publish pins (l, c) = Ok tt (l, c').
Proof.
  intros Hlaw Hk1. unfold loadOrFuture_publish. revert c.
  induction pins as [|pin pins IH]; intros c Hinv Hhook [Hnd Hpins].
  - by exists c.
  - destruct (Hpins pin) as (s & e & Hs & He & Hkey & Hx); [by left|].
    destruct (setExclusiveToShared_publishes c _ s _ e Hlaw Hinv Hhook Hk1 Hs He Hx)
      as (c1 & evs & Hrun & Hothers & _).
    cbn [foldM]. rewrite run_assoc.
    erewrite run_liftCache by (by eapply deref_Ok).
    rewrite run_assoc, run_check by done. rewrite run_assoc, run_check by done.
    erewrite run_liftCache by exact Hrun.
    apply IH.
    + eapply gently_CacheInv; [|done].
      pose proof (keeps_setExclusiveToShared (pin_shard pin) (pin_entry pin) c) as Hg.
      by rewrite Hrun in Hg.
    + pose proof (beside_setExclusiveToShared (pin_shard pin) (pin_entry pin) c) as Hb.
      rewrite Hrun in Hb. destruct Hb as (_ & _ & _ & _ & _ & Hh & _).
      intros h e0. cbn in Hh. rewrite Hh. apply Hhook.
    + apply NoDup_cons in Hnd as [Hnin Hnd]. split; [done|]. intros pin' Hin.
      destruct (Hpins pin') as (s' & e' & Hs' & He' & Hkey' & Hx'); [by right|].
      assert ((pin_shard pin', pin_entry pin') ≠ (pin_shard pin, pin_entry pin)) as Hne.
      { intros [= Hsh Hp]. apply Hnin. destruct pin, pin'; cbn in *; by subst. }
      destruct (Hothers _ _ _ _ Hne Hs' He' Hx') as (s0' & ? & ?).
      eauto 10.
Qed.

(** The destructor of a pin on an entry in shared mode *)
Lemma CachePin_destroy_shared (c : @AsyncDataCache Allocator Ssd) pin e :
  kExclusive < 1 → entryAt c pin = Some e → 1 ≤ numPins_ e →
  ∃ c', CachePin_destroy pin c = Ok tt c'
        ∧ entryAt c' pin = Some (set_numPins_ (numPins_ e - 1) e)
        ∧ (∀ pin', pin' ≠ pin → entryAt c' pin' = entryAt c pin')
        ∧ trace_ c' = trace_ c.
Proof.
  intros Hk [s [Hs He]]%entryAt_Some Hpin.
  eexists. unfold CachePin_destroy.
  rewrite (release_shared c _ s _ e Hs He) by lia.
  split; [done|]. split_and!.
  - unfold entryAt. cbn.
    rewrite list_lookup_insert_eq by (by eapply lookup_lt_Some). cbn.
    by rewrite lookup_insert_eq.
  - intros pin' Hne. unfold entryAt. cbn.
    destruct (decide (pin_shard pin' = pin_shard pin)) as [Heq|Hnsh].
    + rewrite Heq, list_lookup_insert_eq by (by eapply lookup_lt_Some). rewrite Hs. cbn.
      rewrite lookup_insert_ne; [done|].
      intros Hp. apply Hne. destruct pin, pin'; cbn in *; by subst.
    + by rewrite list_lookup_insert_ne.
  - done.
Qed.

(** The destructor of a vector of pins on distinct entries in shared mode:
    each entry loses one pin, and nothing else changes. *)
Lemma dropPins_shared pins (l : CoalescedLoad) (c : @AsyncDataCache Allocator Ssd) :
  kExclusive < 1 → NoDup pins →
  (∀ pin, pin ∈ pins → ∃ e, entryAt c pin = Some e ∧ 1 ≤ numPins_ e) →
  ∃ c', dropPins pins (l, c) = Ok tt (l, c')
        ∧ (∀ pin e, pin ∈ pins → entryAt c pin = Some e →
             entryAt c' pin = Some (set_numPins_ (numPins_ e - 1) e))
        ∧ (∀ pin, pin ∉ pins → entryAt c' pin = entryAt c pin)
        ∧ trace_ c' = trace_ c.
Proof.
  intros Hk. revert c. induction pins as [|pin pins IH]; intros c Hnd Hpins.
  - exists c. split_and!; [done| by intros ?? ?%elem_of_nil | done | done].
  - apply NoDup_cons in Hnd as [Hnin Hnd].
    destruct (Hpins pin) as (e & He & Hpin); [by left|].
    destruct (CachePin_destroy_shared c pin e Hk He Hpin) as (c1 & Hrun & Hat & Hoth & Htr).
    destruct (IH c1 Hnd) as (c' & Hrun' & Hin' & Hout' & Htr').
    { intros pin' Hin. destruct (Hpins pin') as (e' & He' & Hpin'); [by right|].
      exists e'. split; [|done]. rewrite Hoth; [done|]. by intros ->. }
    exists c'. split_and!.
    + unfold dropPins in *. cbn [foldM]. erewrite run_liftCache by exact Hrun. exact Hrun'.
    + intros pin' e' [->|Hin]%elem_of_cons He'.
      * rewrite Hout' by done. rewrite Hat. congruence.
      * apply Hin'; [done|]. rewrite Hoth; [done|]. by intros ->.
    + intros pin' [Hne Hnin']%not_elem_of_cons. rewrite Hout' by done. by apply Hoth.
    + congruence.
Qed.

(** An exception that leaves the destructor of a pin ends the program. *)
Lemma dropPins_throws pins (w w' : CoalescedLoad * @AsyncDataCache Allocator Ssd) ex :
  dropPins pins w = Throw ex w' → ex = Terminated.
Proof.
  unfold dropPins. revert w. induction pins as [|pin pins IH]; intros [l c]; cbn [foldM]; [done|].
  unfold mbind, M_bind, liftCache, CachePin_destroy.
  destruct (AsyncDataCacheEntry_release _ _ c) as [[] c1|ex1 c1].
  - apply IH.
  - congruence.
Qed.

(** The destructors of the pins leave the load alone. *)
Lemma dropPins_load pins (w : CoalescedLoad * @AsyncDataCache Allocator Ssd) :
  fst (stateOf (dropPins pins w)) = fst w.
Proof.
  unfold dropPins. revert w. induction pins as [|pin pins IH]; intros [l c]; cbn [foldM]; [done|].
  unfold mbind, M_bind, liftCache, CachePin_destroy.
  destruct (AsyncDataCacheEntry_release _ _ c) as [[] c1|ex1 c1]; [|done].
  apply (IH (l, c1)).
Qed.

Lemma run_withPins {X} pins (body : M (CoalescedLoad * @AsyncDataCache Allocator Ssd) X) w :
  withPins pins body w
  = match body w with
    | Ok x w' =>
        match dropPins pins w' with
        | Ok _ w'' => Ok x w''
        | Throw ex w'' => Throw ex w''
        end
    | Throw ex w' =>
        match dropPins pins w' with
        | Ok _ w'' => Throw ex w''
        | Throw ex' w'' => Throw ex' w''
        end
    end.
Proof.
  unfold withPins, mbind, M_bind.
  destruct (body w) as [x w'|ex w']; by destruct (dropPins pins w').
Qed.

Section LoadOrFutureRuns.

Variable loadData : bool → M (CoalescedLoad * @AsyncDataCache Allocator Ssd) (list CachePin).

Lemma loadOrFuture_load_run wait (l : CoalescedLoad) c :
  loadOrFuture_load loadData wait (l, c)
  = match loadData (negb wait)
            (l, set_trace_ (trace_ c ++ [EvLoadData (negb wait)]) c) with
    | Ok pins w =>
        match loadOrFuture_publish pins w with
        | Ok _ w' =>
            match dropPins pins (endedLoad kLoaded w') with
            | Ok _ w'' => Ok tt w''
            | Throw _ w'' => Throw Terminated w''
            end
        | Throw ex w' =>
            match dropPins pins w' with
            | Ok _ w'' => Throw ex w''
            | Throw _ w'' => Throw Terminated w''
            end
        end
    | Throw ex w => Throw ex w
    end.
Proof.
  unfold loadOrFuture_load.
  change ((liftCache (log (EvLoadData (negb wait))) ≫= _) (l, c))
    with ((loadData (negb wait) ≫= λ pins,
             withPins pins (loadOrFuture_publish pins;; CoalescedLoad_setEndState kLoaded))
            (l, set_trace_ (trace_ c ++ [EvLoadData (negb wait)]) c)).
  unfold mbind at 1, M_bind at 1.
  destruct (loadData (negb wait) _) as [pins w|ex w]; [|done].
  rewrite run_withPins. unfold mbind, M_bind.
  destruct (loadOrFuture_publish pins w) as [[] w'|ex w'].
  - rewrite setEndState_run.
    destruct (dropPins pins (endedLoad kLoaded w')) as [[] w''|ex w''] eqn:Hd; [done|].
    by apply dropPins_throws in Hd as ->.
  - destruct (dropPins pins w') as [[] w''|ex' w''] eqn:Hd; [done|].
    by apply dropPins_throws in Hd as ->.
Qed.

Lemma loadOrFuture_planned_run wait pr c :
  CoalescedLoad_loadOrFuture loadData wait ({| state_ := kPlanned; loadPromise_ := pr |}, c)
  = match loadData (negb wait)
            ({| state_ := kLoading; loadPromise_ := pr |},
             set_trace_ (trace_ c ++ [EvLoadLock; EvLoadUnlock; EvLoadData (negb wait)]) c)
    with
    | Ok pins w =>
        match loadOrFuture_publish pins w with
        | Ok _ w' =>
            match dropPins pins (endedLoad kLoaded w') with
            | Ok _ w'' => Ok (true, None) w''
            | Throw _ w'' => Throw Terminated w''
            end
        | Throw ex w' =>
            match dropPins pins w' with
            | Ok _ w'' =>
                Throw ex (if isStdException ex then endedLoad kCancelled w'' else w'')
            | Throw _ w'' => Throw Terminated w''
            end
        end
    | Throw ex w => Throw ex (if isStdException ex then endedLoad kCancelled w else w)
    end.
Proof.
  unfold CoalescedLoad_loadOrFuture.
  erewrite bind_Ok by apply loadOrFuture_locked_planned. cbv beta iota.
  rewrite run_tryCatch, loadOrFuture_load_run. norm.
  rewrite <- app_assoc. cbn [app].
  destruct (loadData (negb wait) _) as [pins w|ex w].
  - destruct (loadOrFuture_publish pins w) as [[] w'|ex w'].
    + by destruct (dropPins pins (endedLoad kLoaded w')) as [[] w''|ex w''].
    + destruct (dropPins pins w') as [[] w''|ex' w'']; [|done].
      destruct (isStdException ex); [|done].
      unfold tryCatch, mbind, M_bind. by rewrite setEndState_run.
  - destruct (isStdException ex); [|done].
    unfold tryCatch, mbind, M_bind. by rewrite setEndState_run.
Qed.

End LoadOrFutureRuns.

(** ** C7: the states of a load *)

Section LoadOrFutureStates.

Variable loadData : bool → M (CoalescedLoad * @AsyncDataCache Allocator Ssd) (list CachePin).

(** C7.  [loadOrFuture(wait)] takes the mutex of the load and looks at the
    state.  Cancelled or loaded: it returns true at once.  Loading: it
    returns false; if [wait] is given it also returns a future of the promise
    of the load, which it makes if there is none yet, and if [wait] is null it
    makes no promise.  Planned: the state becomes loading and, with the mutex
    released, [loadData] is called.  If [loadData] throws an exception
    derived from [std::exception], the end state is set to cancelled, which
    fulfils the promise of the load, and the exception is thrown again.  If
    [loadData] returns, every pin it returned is turned from exclusive to
    shared and the end state is set to loaded, which fulfils and drops the
    promise of the load; the pins are then dropped, one release for each, and
    true is returned.  If the publishing of a pin throws, the pins are
    dropped first, and then the end state is set to cancelled and the
    exception thrown again; a release that throws while the pins are dropped
    ends the program.  The publishing and the dropping do return when the
    pins are on distinct entries of a cache in shape that are in exclusive
    mode and have their key, the exclusive mark is negative, the verify hook
    accepts every entry and the SSD tier keeps its contract: [loadOrFuture]
    then returns true with the load in the state loaded and without promise,
    and each entry of a pin has kept its key, size and buffers, was shared
    when the end state was set, and has one pin less after the return. *)
Theorem loadOrFuture_state_machine (wait : bool) (l : CoalescedLoad) c :
  let locked := set_trace_ (trace_ c ++ [EvLoadLock; EvLoadUnlock]) c in
  match state_ l with
  | kCancelled | kLoaded =>
      CoalescedLoad_loadOrFuture loadData wait (l, c) = Ok (true, None) (l, locked)
  | kLoading =>
      if wait
      then
        match loadPromise_ l with
        | Some pr =>
            CoalescedLoad_loadOrFuture loadData wait (l, c)
            = Ok (false, Some pr) (l, locked)
        | None =>
            CoalescedLoad_loadOrFuture loadData wait (l, c)
            = Ok (false, Some (nextPromise_ c))
                 ({| state_ := kLoading; loadPromise_ := Some (nextPromise_ c) |},
                  set_nextPromise_ (Datatypes.S (nextPromise_ c)) locked)
        end
      else
        CoalescedLoad_loadOrFuture loadData wait (l, c) = Ok (false, None) (l, locked)
  | kPlanned =>
      let loading :=
        ({| state_ := kLoading; loadPromise_ := loadPromise_ l |},
         set_trace_ (trace_ c ++ [EvLoadLock; EvLoadUnlock; EvLoadData (negb wait)]) c) in
      match loadData (negb wait) loading with
      | Throw ex w =>
          CoalescedLoad_loadOrFuture loadData wait (l, c)
          = Throw ex (if isStdException ex then endedLoad kCancelled w else w)
      | Ok pins w =>
          match loadOrFuture_publish pins w with
          | Throw ex w' =>
              match dropPins pins w' with
              | Ok _ w'' =>
                  CoalescedLoad_loadOrFuture loadData wait (l, c)
                  = Throw ex (if isStdException ex then endedLoad kCancelled w'' else w'')
              | Throw _ w'' =>
                  CoalescedLoad_loadOrFuture loadData wait (l, c) = Throw Terminated w''
              end
          | Ok _ w' =>
              (∀ pin, pin ∈ pins → sharedAt (snd w') pin)
              ∧ match dropPins pins (endedLoad kLoaded w') with
                | Ok _ w'' =>
                    CoalescedLoad_loadOrFuture loadData wait (l, c) = Ok (true, None) w''
                | Throw _ w'' =>
                    CoalescedLoad_loadOrFuture loadData wait (l, c) = Throw Terminated w''
                end
          end
          ∧ (startWrite_starts Ssd → kExclusive < 0 →
             CacheInv (snd w) → hookAccepts (snd w) → exclusivePins pins (snd w) →
             ∃ w' w'',
               loadOrFuture_publish pins w = Ok tt w'
               ∧ dropPins pins (endedLoad kLoaded w') = Ok tt w''
               ∧ CoalescedLoad_loadOrFuture loadData wait (l, c) = Ok (true, None) w''
               ∧ fst w'' = {| state_ := kLoaded; loadPromise_ := None |}
               ∧ trace_ (snd w'') = trace_ (snd (endedLoad kLoaded w'))
               ∧ ∀ pin, pin ∈ pins →
                   ∃ e e', entryAt (snd w) pin = Some e
                           ∧ entryAt (snd w') pin = Some e'
                           ∧ entryKept e e' ∧ 1 ≤ numPins_ e'
                           ∧ entryAt (snd w'') pin
                             = Some (set_numPins_ (numPins_ e' - 1) e'))
      end
  end.
Proof.
  destruct l as [st pr]. cbn [state_ loadPromise_].
  destruct st; [| unfold CoalescedLoad_loadOrFuture, withLoadLock, loadOrFuture_locked ..].
  - (* planned *)
    cbv zeta. rewrite loadOrFuture_planned_run.
    destruct (loadData (negb wait) _) as [pins [l1 c1]|ex w]; [|done].
    pose proof (publish_shares pins (l1, c1)) as Hshares. unfold wp in Hshares.
    split.
    { destruct (loadOrFuture_publish pins (l1, c1)) as [[] w'|ex w'].
      - split; [apply Hshares|]. by destruct (dropPins pins (endedLoad kLoaded w')).
      - by destruct (dropPins pins w'). }
    cbn [snd]. intros Hlaw Hk Hinv Hhook Hpins.
    destruct (publish_succeeds pins l1 c1 Hlaw ltac:(lia) Hinv Hhook Hpins) as (c2 & Hpub).
    rewrite Hpub in Hshares |- *. cbn [snd] in Hshares. destruct Hshares as [Hshared Hg].
    destruct (dropPins_shared pins {| state_ := kLoaded; loadPromise_ := None |}
                (snd (endedLoad kLoaded (l1, c2))) ltac:(lia) (proj1 Hpins))
      as (c3 & Hdrop & Hin & _ & Htr).
    { intros pin Hpin. destruct (Hshared pin Hpin) as (s & e & Hs & He & Hn).
      exists e. split; [|done]. apply entryAt_Some. by exists s. }
    change (dropPins pins (endedLoad kLoaded (l1, c2))
            = Ok tt ({| state_ := kLoaded; loadPromise_ := None |}, c3)) in Hdrop.
    rewrite Hdrop.
    eexists _, _. split_and!; [done..|].
    intros pin Hpin. cbn [snd].
    destruct (proj2 Hpins pin Hpin) as (s & e & Hs & He & _).
    destruct (Hshared pin Hpin) as (s' & e' & Hs' & He' & Hn).
    destruct Hg as [_ HF].
    destruct (Forall2_lookup_l _ _ _ _ _ HF Hs) as (s2 & Hs2 & (_ & _ & _ & _ & Hh)).
    specialize (Hh (pin_entry pin)). rewrite He in Hh.
    assert (s2 = s') as -> by congruence. rewrite He' in Hh.
    inversion Hh as [? ? Hk'|]; subst.
    exists e, e'. split_and!.
    + apply entryAt_Some. by exists s.
    + apply entryAt_Some. by exists s'.
    + done.
    + done.
    + apply Hin; [done|]. apply entryAt_Some. by exists s'.
  - (* loading *)
    destruct wait, pr;
      unfold mbind, M_bind, mret, M_ret, liftCache, finally, log, modify, gets, makePromise;
      cbn; repeat (case_bool_decide; try done); cbn; by rewrite <- app_assoc.
  - unfold mbind, M_bind, mret, M_ret, liftCache, finally, log, modify, gets; cbn.
    repeat (case_bool_decide; try done); cbn. by rewrite <- app_assoc.
  - unfold mbind, M_bind, mret, M_ret, liftCache, finally, log, modify, gets; cbn.
    repeat (case_bool_decide; try done); cbn. by rewrite <- app_assoc.
Qed.

End LoadOrFutureStates.

(** ** A load runs once *)

Lemma loadOrFuture_ended_run loadData wait (st : State) c :
  st = kLoaded ∨ st = kCancelled →
  CoalescedLoad_loadOrFuture loadData wait ({| state_ := st; loadPromise_ := None |}, c)
  = Ok (true, None)
       ({| state_ := st; loadPromise_ := None |},
        set_trace_ (trace_ c ++ [EvLoadLock; EvLoadUnlock]) c).
Proof.
  intros [-> | ->];
    unfold CoalescedLoad_loadOrFuture, withLoadLock, loadOrFuture_locked;
    unfold mbind, M_bind, mret, M_ret, liftCache, finally, log, modify, gets; cbn;
    repeat (case_bool_decide; try done); cbn; by rewrite <- app_assoc.
Qed.

(** X16.  [loadData] runs at most once for a load.  A first [loadOrFuture] on a
    planned load that returns leaves the load in the state loaded, without
    promise; one that throws an exception derived from [std::exception]
    leaves it cancelled.  In both cases any later [loadOrFuture] returns true
    with no future, under the mutex of the load and without calling
    [loadData]: after a failed load too, the caller is told that there is
    nothing to wait for. *)
Theorem loadOrFuture_loads_once
    (loadData : bool → M (CoalescedLoad * @AsyncDataCache Allocator Ssd) (list CachePin))
    (wait wait' : bool) (pr : option Promise) c :
  let again w :=
    CoalescedLoad_loadOrFuture loadData wait' w
    = Ok (true, None)
         (fst w, set_trace_ (trace_ (snd w) ++ [EvLoadLock; EvLoadUnlock]) (snd w)) in
  match CoalescedLoad_loadOrFuture loadData wait
          ({| state_ := kPlanned; loadPromise_ := pr |}, c) with
  | Ok r w =>
      r = (true, None)
      ∧ fst w = {| state_ := kLoaded; loadPromise_ := None |}
      ∧ again w
  | Throw ex w =>
      isStdException ex = true →
      fst w = {| state_ := kCancelled; loadPromise_ := None |}
      ∧ again w
  end.
Proof.
  cbv zeta. rewrite loadOrFuture_planned_run.
  destruct (loadData (negb wait) _) as [pins w|ex w].
  - destruct (loadOrFuture_publish pins w) as [[] w'|ex w'].
    + pose proof (dropPins_load pins (endedLoad kLoaded w')) as Hl.
      destruct (dropPins pins (endedLoad kLoaded w')) as [[] [l'' c'']|ex w'']; [|by cbn].
      cbn in Hl. subst l''. split_and!; [done..|]. cbn [fst snd].
      apply loadOrFuture_ended_run. by left.
    + destruct (dropPins pins w') as [[] w''|ex' w'']; [|by cbn].
      intros ->. split; [done|]. unfold endedLoad. cbn [fst snd].
      apply loadOrFuture_ended_run. by right.
  - intros ->. split; [done|]. unfold endedLoad. cbn [fst snd].
    apply loadOrFuture_ended_run. by right.
Qed.

(** ** The ranges of a pin *)

Lemma uint64_small z : 0 ≤ z < 2 ^ 64 → uint64 z = z.
Proof. intros Hz. unfold uint64. by apply Z.mod_small. Qed.

Lemma numPages_runs_nonneg (a : Allocation) :
  Forall (λ r, 0 ≤ run_numPages r) a → 0 ≤ Allocation.numPages a.
Proof.
  induction 1 as [|r a Hr _ IH]; [done|]. unfold Allocation.numPages in *. cbn. lia.
Qed.

Lemma readPins_runs_spec size : ∀ (runs : list PageRun) offsetInRuns ranges,
  0 ≤ offsetInRuns ≤ size → size < 2 ^ 64 →
  Forall (λ r, 0 ≤ run_numPages r) runs →
  Allocation.byteSize runs < 2 ^ 64 →
  ∃ rs,
    readPins_runs size runs offsetInRuns ranges
    = (Z.min size (offsetInRuns + Allocation.byteSize runs), ranges ++ rs)
    ∧ rangesSize rs = Z.min size (offsetInRuns + Allocation.byteSize runs) - offsetInRuns
    ∧ Forall2 (λ run r, range_data r = RunDataOf (run_data run)
                        ∧ 0 ≤ range_size r ≤ PageRun_numBytes run) runs rs.
Proof.
  unfold Allocation.byteSize, AllocationTraits.pageBytes, AllocationTraits.kPageSize.
  induction runs as [|run rest IH]; intros off ranges Hoff Hsize Hruns Hbytes.
  - exists []. cbn. rewrite app_nil_r. split_and!; [f_equal|..|constructor].
    + unfold Allocation.numPages. cbn. lia.
    + unfold Allocation.numPages. cbn. lia.
  - apply Forall_cons in Hruns as [Hrun Hrest].
    pose proof (numPages_runs_nonneg rest Hrest) as Hnn.
    assert (Allocation.numPages (run :: rest)
            = run_numPages run + Allocation.numPages rest) as Hcons by done.
    rewrite Hcons in Hbytes |- *.
    cbn [readPins_runs]. unfold PageRun_numBytes, AllocationTraits.pageBytes,
      AllocationTraits.kPageSize.
    rewrite (uint64_small (run_numPages run * 4096)) by lia.
    rewrite (uint64_small (size - off)) by lia.
    set (readSize := Z.min (run_numPages run * 4096) (size - off)).
    rewrite (uint64_small (off + readSize)) by lia.
    destruct (IH (off + readSize)
                 (ranges ++ [{| range_data := RunDataOf (run_data run);
                                range_size := readSize |}]))
      as (rs & Hrun' & Hsum & Hall); [lia|lia|done|lia|].
    exists ({| range_data := RunDataOf (run_data run); range_size := readSize |} :: rs).
    split_and!.
    + rewrite Hrun'. f_equal; [lia|]. by rewrite <- app_assoc.
    + cbn. unfold rangesSize in Hsum. rewrite Hsum. lia.
    + constructor; [|done]. cbn. unfold PageRun_numBytes, AllocationTraits.pageBytes,
        AllocationTraits.kPageSize. split; [done|lia].
Qed.

(** X17.  The ranges that [readPins] makes for a pin cover the entry exactly.  An
    entry without pages gets one range, its tiny buffer with the size of the
    entry.  An entry with pages gets one range for each run of its
    allocation, on the pages of the run and no longer than the run, and the
    sizes of the ranges add up to the size of the entry: the first runs are
    taken whole and the runs past the size get empty ranges.  If the
    allocation is shorter than the size, the check after the loop fails. *)
Theorem readPins_ranges_cover_entry c pin s e ranges :
  shards_ c !! pin_shard pin = Some s → heap_ s !! pin_entry pin = Some e →
  0 ≤ size_ e < 2 ^ 31 →
  Forall (λ r, 0 ≤ run_numPages r) (data_ e) →
  Allocation.byteSize (data_ e) < 2 ^ 64 →
  (Allocation.numPages (data_ e) = 0 →
   readPins_addRanges pin ranges c
   = Ok (ranges ++ [{| range_data := TinyDataOf pin; range_size := size_ e |}]) c)
  ∧ (Allocation.numPages (data_ e) ≠ 0 → size_ e ≤ Allocation.byteSize (data_ e) →
     ∃ rs,
       readPins_addRanges pin ranges c = Ok (ranges ++ rs) c
       ∧ rangesSize rs = size_ e
       ∧ Forall2 (λ run r, range_data r = RunDataOf (run_data run)
                           ∧ 0 ≤ range_size r ≤ PageRun_numBytes run) (data_ e) rs)
  ∧ (Allocation.numPages (data_ e) ≠ 0 → Allocation.byteSize (data_ e) < size_ e →
     readPins_addRanges pin ranges c = Throw (VeloxRuntimeError kInvalidState) c).
Proof.
  intros Hs He Hsize Hruns Hbytes.
  assert (uint64 (size_ e) = size_ e) as Hu by (apply uint64_small; lia).
  split_and!.
  - intros Hnp. unfold readPins_addRanges. run.
    rewrite (proj2 (Z.eqb_eq _ _) Hnp), Hu, Z.eqb_refl. by run.
  - intros Hnp Hle. unfold readPins_addRanges. run.
    rewrite (proj2 (Z.eqb_neq _ _) Hnp), Hu.
    destruct (readPins_runs_spec (size_ e) (data_ e) 0 ranges)
      as (rs & Hrun & Hsum & Hall); [lia|lia|done|done|].
    rewrite Hrun. replace (Z.min (size_ e) (0 + Allocation.byteSize (data_ e)))
      with (size_ e) in * by lia.
    rewrite Z.eqb_refl. run. exists rs. split_and!; [done| lia |done].
  - intros Hnp Hlt. unfold readPins_addRanges. run.
    rewrite (proj2 (Z.eqb_neq _ _) Hnp), Hu.
    destruct (readPins_runs_spec (size_ e) (data_ e) 0 ranges)
      as (rs & Hrun & Hsum & Hall); [lia|lia|done|done|].
    rewrite Hrun. replace (Z.min (size_ e) (0 + Allocation.byteSize (data_ e)))
      with (Allocation.byteSize (data_ e)) in * by lia.
    rewrite (proj2 (Z.eqb_neq _ _)) by lia. done.
Qed.

(** ** What a lookup through the cache leaves behind *)

Lemma findOrCreate_exclusive_run c sh s key size wait found e :
  shards_ c !! sh = Some s →
  entryMap_ s !! key = Some found → heap_ s !! found = Some e →
  isExclusive e = true →
  ∃ c' s' e',
    CacheShard_findOrCreate sh key size wait c
    = Ok (None, if wait then Some (default (nextPromise_ c) (promise_ e)) else None) c'
    ∧ shards_ c' !! sh = Some s'
    ∧ heap_ s' !! found = Some e'
    ∧ numPins_ e' = numPins_ e
    ∧ (wait = true → promise_ e' = Some (default (nextPromise_ c) (promise_ e)))
    ∧ shardKept s s'.
Proof.
  intros Hs Hk He Hx.
  assert (entryKept e e) as Hrefl by done.
  unfold CacheShard_findOrCreate, withLock. run.
  unfold findOrCreate_locked.
  destruct wait; [destruct (promise_ e) as [pr|] eqn:Hpr|].
  - erewrite run_finally;
      [| run; rewrite Hk; run; rewrite Hx; run;
         unfold AsyncDataCacheEntry_getFuture; run; rewrite Hpr; run_last; reflexivity ].
    run. run_last.
    eexists _, _, _. split; [reflexivity|]. norm.
    split; [by apply list_lookup_insert_eq; eapply lookup_lt_Some|]. norm.
    split; [exact He|]. split_and!; [done|done|].
    by apply shardKept_refl_on.
  - erewrite run_finally;
      [| run; rewrite Hk; run; rewrite Hx; run;
         unfold AsyncDataCacheEntry_getFuture; run; rewrite Hpr;
         run; rewrite run_makePromise; norm; run; run_last; reflexivity ].
    run. run_last.
    eexists _, _, _. split; [reflexivity|]. norm.
    split; [by apply list_lookup_insert_eq; eapply lookup_lt_Some|]. norm.
    split; [apply lookup_insert_eq|]. split_and!; [done|done|].
    split_and!; try done. intros q. cbn. destruct (decide (q = found)) as [->|Hne].
    + rewrite lookup_insert_eq, He. constructor. by split_and!.
    + rewrite lookup_insert_ne by done. destruct (heap_ s !! q); constructor. by split_and!.
  - erewrite run_finally;
      [| run; rewrite Hk; run; rewrite Hx; run; run_last; reflexivity ].
    run. run_last.
    eexists _, _, _. split; [reflexivity|]. norm.
    split; [by apply list_lookup_insert_eq; eapply lookup_lt_Some|]. norm.
    split; [exact He|]. split_and!; [done|done|].
    by apply shardKept_refl_on.
Qed.

Lemma findOrCreate_CacheInv c sh key size wait :
  CacheInv c → CacheInv (stateOf (CacheShard_findOrCreate sh key size wait c)).
Proof.
  intros Hinv.
  eapply aside_onShard_CacheInv with (Φ := λ _ s', ShardInv s')
    (Ξ := λ _ s', ShardInv s'); [apply findOrCreate_aside| |done|done|done].
  intros s Hs. eapply onShard_conseq; [apply onShard_findOrCreate; by eapply Hinv|..].
  + by intros r s' (? & _).
  + by intros ex s' (? & _).
Qed.

(** X18.  Every outcome of [AsyncDataCache::findOrCreate] on a cache in shape,
    with the shard mask within the shards.  If it returns, the key is bound
    in its shard and [AsyncDataCache::exists] finds it: a returned pin is on
    the entry of the key, which covers the size asked for and comes without
    a future; no pin means that the entry of the key is in exclusive mode,
    and the future is there exactly if one was asked for and is the promise
    of that entry.  If it throws, the error is [kNoCacheSpace], the request
    was not tiny, and the key is bound no more: [exists] returns false.  The
    cache is in shape in both cases. *)
Theorem cache_findOrCreate_then_exists c key size wait :
  CacheInv c → length (shards_ c) = kNumShards →
  0 ≤ kShardMask < Z.of_nat kNumShards → kExclusive ≠ 0 →
  match AsyncDataCache_findOrCreate key size wait c with
  | Ok (pin, future) c' =>
      CacheInv c'
      ∧ (∃ c'', AsyncDataCache_exists key c' = Ok true c'')
      ∧ ∃ s' p e',
          shards_ c' !! shardOf key = Some s'
          ∧ entryMap_ s' !! key = Some p ∧ heap_ s' !! p = Some e'
          ∧ match pin with
            | Some pn => pn = pinOf (shardOf key) p ∧ future = None ∧ size ≤ size_ e'
            | None =>
                isExclusive e' = true
                ∧ future = (if wait then promise_ e' else None)
                ∧ (wait = true → is_Some future)
            end
  | Throw ex c' =>
      ex = VeloxRuntimeError kNoCacheSpace ∧ kTinyDataSize ≤ size
      ∧ CacheInv c'
      ∧ AsyncDataCache_exists key c'
        = Ok false (set_trace_ (trace_ c' ++ [EvLock (shardOf key); EvUnlock (shardOf key)]) c')
  end.
Proof.
  intros Hinv Hlen Hmask Hk0.
  pose proof (findOrCreate_CacheInv c (shardOf key) key size wait Hinv) as Hinv'.
  unfold AsyncDataCache_findOrCreate, AsyncDataCache_exists in *.
  set (sh := shardOf key) in *.
  destruct (lookup_lt_is_Some_2 (shards_ c) sh) as [s Hs].
  { rewrite Hlen. by apply land_mask_lt. }
  assert (ShardInv s) as Hsinv by by eapply Hinv.
  assert ((∃ found e0, entryMap_ s !! key = Some found ∧ heap_ s !! found = Some e0
             ∧ (isExclusive e0 = true ∨ size ≤ size_ e0))
          ∨ (∀ found e0, entryMap_ s !! key = Some found → heap_ s !! found = Some e0 →
               isExclusive e0 = false ∧ size_ e0 < size)) as [Hfound|Hpath].
  { destruct (entryMap_ s !! key) as [found|] eqn:Hfound; [|by right].
    destruct (inv_map_key _ Hsinv _ _ Hfound) as (e0 & He0 & _).
    destruct (isExclusive e0) eqn:Hx; [left; eauto 6|].
    destruct (decide (size ≤ size_ e0)); [left; eauto 6|].
    right. intros found' e0' [= <-] He0'. rewrite He0 in He0'. injection He0' as <-.
    split; [done|lia]. }
  - destruct Hfound as (found & e0 & Hfound & He0 & Hcase).
    destruct (isExclusive e0) eqn:Hx.
    + destruct (findOrCreate_exclusive_run c sh s key size wait found e0 Hs Hfound He0 Hx)
        as (c' & s' & e' & Hrun & Hs' & He' & Hpins & Hpr & Hkept).
      rewrite Hrun in Hinv' |- *. cbn in Hinv'. split; [done|].
      destruct Hkept as (Hmap & _).
      split; [eapply exists_present; [exact Hs'|by rewrite Hmap|exact He']|].
      exists s', found, e'. split_and!; [done|by rewrite Hmap|done|..].
      * unfold isExclusive in *. by rewrite Hpins.
      * destruct wait; [|done]. by rewrite Hpr.
      * by intros ->.
    + destruct Hcase as [|Hsz]; [done|].
      destruct (findOrCreate_hit_run c sh s key size wait found e0 Hs Hfound He0 Hx Hsz)
        as (c' & s' & e' & Hrun & Hs' & He' & _ & _ & Hsize & _ & _ & _ & Hmap & _).
      rewrite Hrun in Hinv' |- *. cbn in Hinv'. split; [done|].
      split; [eapply exists_present; [exact Hs'|by rewrite Hmap|exact He']|].
      exists s', found, e'. split_and!; [done|by rewrite Hmap|done|done|done|lia].
  - pose proof (onShard_findOrCreate_creates sh s key size wait Hsinv Hk0 Hpath c Hs) as Hwp.
    unfold wp in Hwp.
    destruct (CacheShard_findOrCreate sh key size wait c) as [[pin future] c'|ex c'];
      cbn in Hinv'.
    + destruct Hwp as (s' & Hs' & p & e' & [= -> ->] & _ & Hmap & He' & _ & Hsize & _).
      split; [done|].
      split; [eapply exists_present; [exact Hs'|by rewrite Hmap, lookup_insert_eq|exact He']|].
      exists s', p, e'. split_and!; [done|by rewrite Hmap, lookup_insert_eq|done|done|done|lia].
    + destruct Hwp as (s' & Hs' & p & e' & -> & Htiny & _ & Hmap & _).
      split_and!; [done..|].
      apply (exists_absent c' sh s' key Hs'). by rewrite Hmap, lookup_delete_eq.
Qed.

Lemma withinBudget_check_sound budget s :
  withinBudget_check budget s = true → withinBudget budget s.
Proof.
  unfold withinBudget_check. rewrite !andb_true_iff.
  intros [[Hlen Hpages] Hbytes]. split_and!.
  - by apply Z.ltb_lt.
  - intros i p e Hi He. rewrite forallb_forall in Hpages.
    specialize (Hpages (Some p)). cbn in Hpages. rewrite He in Hpages.
    apply Z.leb_le, Hpages, list_elem_of_In. by eapply list_elem_of_lookup_2.
  - by apply Z.leb_le.
Qed.

Lemma withinBudget_check_all budget c :
  forallb (withinBudget_check budget) (shards_ c) = true →
  ∀ sh s, shards_ c !! sh = Some s → withinBudget budget s.
Proof.
  rewrite forallb_forall. intros Hc sh s Hs.
  apply withinBudget_check_sound, Hc, list_elem_of_In. by eapply list_elem_of_lookup_2.
Qed.

(** ** The batch of an SSD save *)

(** X19.  [appendSsdSaveable] needs a write in progress on the SSD tier: without
    one its check fails and no pin is added.  With one, on a shard in shape,
    it returns the pins it was given followed by the new ones, each on the
    entry of a slot of this shard that is not exclusive, is wanted by the SSD
    tier and has no SSD file yet. *)
Theorem appendSsdSaveable_pins_eligible c sh s ssd pins :
  shards_ c !! sh = Some s → ShardInv s → ssdCache_ c = Some ssd →
  (writeInProgress ssd = false →
   CacheShard_appendSsdSaveable sh pins c
   = Throw (VeloxRuntimeError kInvalidState)
       (set_trace_ (trace_ c ++ [EvLock sh; EvUnlock sh]) c))
  ∧ (writeInProgress ssd = true →
     ∃ new c',
       CacheShard_appendSsdSaveable sh pins c = Ok (pins ++ new) c'
       ∧ Forall (λ pin,
                   pin_shard pin = sh ∧ Some (pin_entry pin) ∈ entries_ s
                   ∧ ∃ e, heap_ s !! pin_entry pin = Some e
                       ∧ ssdFile_ e = None ∧ isExclusive e = false
                       ∧ ssdSaveable_ e = true) new).
Proof.
  intros Hs Hinv Hssd.
  set (c1 := set_trace_ (trace_ c ++ [EvLock sh]) c).
  assert (CacheShard_appendSsdSaveable sh pins c
          = if writeInProgress ssd
            then match appendSsdSaveable_loop sh
                         (int32 (uint64 (Z.of_nat (length (entries_ s)) * 100) `div` 70))
                         (entries_ s) pins c1 with
                 | Ok pins' c2 => Ok pins' (set_trace_ (trace_ c2 ++ [EvUnlock sh]) c2)
                 | Throw ex c2 => Throw ex (set_trace_ (trace_ c2 ++ [EvUnlock sh]) c2)
                 end
            else Throw (VeloxRuntimeError kInvalidState)
                   (set_trace_ (trace_ c ++ [EvLock sh; EvUnlock sh]) c)) as Hrun.
  { unfold CacheShard_appendSsdSaveable, withLock. rewrite run_log. fold c1. unfold finally.
    erewrite bind_Ok by by apply getShard_Ok.
    unfold ssdCache at 1. unfold mbind at 1, M_bind at 1.
    change (ssdCache_ c1) with (ssdCache_ c). rewrite Hssd.
    destruct (writeInProgress ssd).
    - rewrite run_check by done. by destruct (appendSsdSaveable_loop _ _ _ _ c1).
    - unfold VELOX_CHECK. erewrite bind_Throw by reflexivity.
      subst c1. cbn. by rewrite <- app_assoc. }
  rewrite Hrun. clear Hrun.
  destruct (writeInProgress ssd); (split; intros Hw); try done.
  pose proof (onShard_appendSsdSaveable_loop_eligible sh
                (int32 (uint64 (Z.of_nat (length (entries_ s)) * 100) `div` 70))
                s (entries_ s) s pins) as Hloop.
  specialize (Hloop ltac:(by pose proof (inv_owned _ Hinv) as [? _]%NoDup_app)).
  specialize (Hloop ltac:(intros p Hp; split;
                            [by apply (inv_slots _ Hinv), slotEntries_Some|done])).
  specialize (Hloop c1 Hs). unfold wp in Hloop.
  destruct (appendSsdSaveable_loop _ _ _ _ c1) as [pins' c2|];
    [|by destruct Hloop as (? & ? & [])].
  destruct Hloop as (_ & _ & new & -> & Hnew). eauto.
Qed.

(** ** A pass of [evict] comes back *)

(** X20.  On a cache in shape, whose SSD tier keeps the contract of [startWrite]
    (a write that was started is in progress), a pass of [evict] returns,
    whatever its arguments: it throws nothing.  The cache is in shape
    afterwards.  The other shards keep their maps, slots and recyclers, and
    their entries keep key, size and buffers (an SSD save that the pass
    starts may pin them).  The counters of [makeSpace] and the failure
    message are as before, and the trace has grown, first by the call. *)
Theorem evict_returns_in_shape acq c sh bytesToFree evictAllUnpinned pagesToAcquire :
  startWrite_starts Ssd → CacheInv c → is_Some (shards_ c !! sh) →
  ∃ acq' c' evs,
    CacheShard_evict sh bytesToFree evictAllUnpinned pagesToAcquire (acq, c)
    = Ok tt (acq', c')
    ∧ CacheInv c'
    ∧ length (shards_ c') = length (shards_ c)
    ∧ (∀ sh' s, sh' ≠ sh → shards_ c !! sh' = Some s →
         ∃ s', shards_ c' !! sh' = Some s' ∧ shardKept s s')
    ∧ numThreadsInAllocate_ c' = numThreadsInAllocate_ c
    ∧ shardCounter_ c' = shardCounter_ c
    ∧ cacheFailureMessage_ c' = cacheFailureMessage_ c
    ∧ trace_ c'
      = trace_ c ++ EvEvict sh bytesToFree evictAllUnpinned pagesToAcquire :: evs.
Proof.
  intros Hlaw Hinv Hsh.
  destruct (evict_returns acq c sh bytesToFree evictAllUnpinned pagesToAcquire Hlaw Hinv Hsh)
    as (acq' & c' & Hrun & Hinv' & ((evs & Htr & _) & Hlen & Hothers)).
  pose proof (beside_evict sh bytesToFree evictAllUnpinned pagesToAcquire (acq, c)) as Hb.
  rewrite Hrun in Hb. destruct Hb as (Hn & Hc & _ & Hmsg & _).
  exists acq', c', evs. split_and!; try done.
  cbn in Htr. by rewrite Htr, <- app_assoc.
Qed.

End Properties.

(** * The properties at work in the small world *)

Import Demo.

(** ** C1: a shard of ten saveable entries *)

(** C1.  On a shard whose ten slots all hold shared, saveable entries that
    are not yet on SSD, [appendSsdSaveable] with an empty batch pins all
    ten of them: more than 70% of the slots. *)
Theorem appendSsdSaveable_pins_every_slot :
  ∃ pins c' s,
    CacheShard_appendSsdSaveable 0 [] cacheSaveable = Ok pins c'
    ∧ shards_ cacheSaveable !! 0%nat = Some s
    ∧ length (entries_ s) = 10%nat
    ∧ length pins = 10%nat
    ∧ 70 * Z.of_nat (length (entries_ s)) < 100 * Z.of_nat (length pins).
Proof. eexists _, _, _. vm_compute. repeat split; reflexivity. Qed.


(** The SSD tier of the small world keeps its contract. *)
Lemma SimpleSsd_startWrite_starts : startWrite_starts SimpleSsd.
Proof. intros [[] [] w ws]; cbn; intros Hs; done. Qed.

(** The entry of [cacheExclusive] is in its map and exclusive; [exists]
    reports it like any other. *)
Lemma exists_ignores_exclusive_witness :
  isExclusive exclusiveEntry = true
  ∧ ∃ c' s',
      AsyncDataCache_exists (1, 0) cacheExclusive = Ok true c'
      ∧ shards_ c' !! shardOf (1, 0) = Some s'
      ∧ heap_ s' !! 0%nat = Some (touch (now_ cacheExclusive) exclusiveEntry)
      ∧ accessStats_ (touch (now_ cacheExclusive) exclusiveEntry)
        = {| lastUse := now_ cacheExclusive;
             numUses := numUses (accessStats_ exclusiveEntry) + 1 |}
      ∧ numPins_ (touch (now_ cacheExclusive) exclusiveEntry) = numPins_ exclusiveEntry
      ∧ entryMap_ s' = entryMap_ exclusiveShard
      ∧ nextPromise_ c' = nextPromise_ cacheExclusive
      ∧ trace_ c'
        = trace_ cacheExclusive ++ [EvLock (shardOf (1, 0)); EvUnlock (shardOf (1, 0))].
Proof.
  split; [reflexivity|].
  apply (exists_ignores_exclusive cacheExclusive (1, 0) exclusiveShard 0%nat exclusiveEntry);
    reflexivity.
Defined.

(** ** [release] *)

(** The promise of the exclusive entry is fulfilled with [true]: the trace
    has no [setValue(false)]. *)
Lemma release_fulfils_with_true :
  ∃ c',
    AsyncDataCacheEntry_release 1 0 cacheExclusive = Ok tt c'
    ∧ promise_ exclusiveEntry = Some 7%nat
    ∧ trace_ c' = [EvLock 1; EvErase 1 (1, 0); EvUnlock 1; EvSetValue 7 true]
    ∧ EvSetValue 7 false ∉ trace_ c'.
Proof.
  eexists. split; [vm_compute; reflexivity|]. split; [reflexivity|].
  split; [reflexivity|]. cbn. intros Hin.
  repeat (apply elem_of_cons in Hin as [Hin|Hin]; [discriminate|]).
  by apply elem_of_nil in Hin.
Qed.

Lemma release_removes_or_decrements_witness :
  ∃ c' s' e',
    AsyncDataCacheEntry_release 1 0 cacheExclusive = Ok tt c'
    ∧ shards_ c' !! 1%nat = Some s'
    ∧ entryMap_ s' = delete (1, 0) (entryMap_ exclusiveShard)
    ∧ heap_ s' !! 0%nat = Some e'
    ∧ hasValue (key_ e') = false ∧ numPins_ e' = 0 ∧ promise_ e' = None
    ∧ trace_ c'
      = trace_ cacheExclusive ++ [EvLock 1; EvErase 1 (1, 0)]
        ++ (if 0 <? Allocation.numPages (data_ exclusiveEntry)
            then [EvFreeNonContiguous (Allocation.numPages (data_ exclusiveEntry))]
            else [])
        ++ [EvUnlock 1]
        ++ match promise_ exclusiveEntry with
           | Some pr => [EvSetValue pr true]
           | None => []
           end.
Proof.
  apply (proj1 (release_removes_or_decrements cacheExclusive 1 exclusiveShard 0
                  exclusiveEntry eq_refl eq_refl)).
  - reflexivity.
  - vm_compute. discriminate.
  - reflexivity.
  - vm_compute. eauto.
Defined.

(** ** [initialize] *)

Lemma initialize_tiny_or_pages_witness :
  size_ exclusiveEntry < kTinyDataSize
  ∧ ∃ c' s' e',
      AsyncDataCacheEntry_initialize 1 0 (makeKey (1, 0)) cacheExclusive = Ok tt c'
      ∧ shards_ c' !! 1%nat = Some s' ∧ heap_ s' !! 0%nat = Some e'
      ∧ tinyData_ e'
        = resize (Z.to_nat (size_ exclusiveEntry)) Byte.x00 (tinyData_ exclusiveEntry)
      ∧ length (tinyData_ e') = Z.to_nat (size_ exclusiveEntry)
      ∧ data_ e' = data_ exclusiveEntry
      ∧ allocator_ c' = allocator_ cacheExclusive ∧ trace_ c' = trace_ cacheExclusive.
Proof.
  assert (size_ exclusiveEntry < kTinyDataSize) as Hsize by (vm_compute; reflexivity).
  split; [exact Hsize|].
  refine (proj1 (initialize_tiny_or_pages cacheExclusive 1 exclusiveShard 0 exclusiveEntry
                   (makeKey (1, 0)) _ _ _) Hsize); reflexivity.
Defined.

(** ** Eviction *)

(** The desperate pass, and [clear], leave the exclusive entry of
    [cacheExclusive]. *)
Lemma evict_keeps_pinned_witness :
  numPins_ exclusiveEntry ≠ 0
  ∧ (∃ s' e',
       shards_ (snd (stateOf (CacheShard_evict 1 (2 ^ 31 - 1) true 0
                                ([], cacheExclusive)))) !! 1%nat = Some s'
       ∧ entries_ s' !! 0%nat = Some (Some 0%nat)
       ∧ (∀ k, entryMap_ exclusiveShard !! k = Some 0%nat →
               entryMap_ s' !! k = Some 0%nat)
       ∧ (0%nat ∉ freeEntries_ s')
       ∧ heap_ s' !! 0%nat = Some e'
       ∧ key_ e' = key_ exclusiveEntry ∧ size_ e' = size_ exclusiveEntry
       ∧ data_ e' = data_ exclusiveEntry ∧ tinyData_ e' = tinyData_ exclusiveEntry)
  ∧ ∃ s',
      shards_ (stateOf (AsyncDataCache_clear cacheExclusive)) !! 1%nat = Some s'
      ∧ entries_ s' !! 0%nat = Some (Some 0%nat)
      ∧ (∀ k, entryMap_ exclusiveShard !! k = Some 0%nat →
              entryMap_ s' !! k = Some 0%nat)
      ∧ (0%nat ∉ freeEntries_ s')
      ∧ heap_ s' !! 0%nat = Some exclusiveEntry.
Proof.
  assert (numPins_ exclusiveEntry ≠ 0) as Hpin by (vm_compute; discriminate).
  split; [exact Hpin|].
  assert (CacheInv cacheExclusive) as Hinv.
  { apply CacheInv_check_sound. vm_compute. reflexivity. }
  destruct (evict_keeps_pinned cacheExclusive 1 exclusiveShard 0 0 exclusiveEntry
              Hinv eq_refl eq_refl eq_refl Hpin) as [Hevict Hclear].
  split; [|exact Hclear].
  apply (Hevict [] 1%nat (2 ^ 31 - 1) true 0). vm_compute. eauto.
Defined.



(** ** The map and the keys *)

Lemma map_iff_key_not_cleared_witness :
  CacheInv_check cacheSaveable = true
  ∧ (∀ sh s p e, shards_ cacheSaveable !! sh = Some s → heap_ s !! p = Some e →
       (∃ k, entryMap_ s !! k = Some p) ↔ hasValue (key_ e) = true)
  ∧ (∀ sh key size wait,
       CacheInv (stateOf (CacheShard_findOrCreate sh key size wait cacheSaveable))).
Proof.
  assert (CacheInv_check cacheSaveable = true) as Hcheck by (vm_compute; reflexivity).
  split; [exact Hcheck|].
  pose proof (map_iff_key_not_cleared cacheSaveable (CacheInv_check_sound _ Hcheck))
    as (Hiff & Hfind & _).
  by split.
Defined.

(** ** [makeSpace] *)

(** With a closure that never gets its pages, [makeSpace] on the new cache
    goes through all its attempts. *)
Lemma makeSpace_attempts_witness :
  ∃ done c' evs k j,
    AsyncDataCache_makeSpace neverAllocate 10 cache0 = Ok done c'
    ∧ trace_ c' = trace_ cache0 ++ evs
    ∧ evictFlags evs = map (λ i, (kNumShards <=? i)%nat) (seq 0 k)
    ∧ allocResults evs = replicate j false ++ (if done then [true] else [])
    ∧ (j ≤ k)%nat ∧ (k ≤ 4 * kNumShards)%nat
    ∧ (length (allocResults evs) ≤ 4 * kNumShards)%nat
    ∧ if done
      then (k < 4 * kNumShards)%nat ∧ (EvSetCacheFailureMessage ∉ evs)
      else k = (4 * kNumShards)%nat
           ∧ is_Some (cacheFailureMessage_ c')
           ∧ EvSetCacheFailureMessage ∈ evs.
Proof.
  apply (makeSpace_attempts neverAllocate 10 SimpleSsd_startWrite_starts).
  - cbn. lia.
  - apply CacheInv_check_sound. vm_compute. reflexivity.
  - reflexivity.
  - cbn. lia.
Defined.

(** What the attempts are there: sixteen passes, desperate from the fifth
    on, and the result false. *)
Lemma makeSpace_gives_up :
  ∃ c',
    AsyncDataCache_makeSpace neverAllocate 10 cache0 = Ok false c'
    ∧ evictFlags (trace_ c') = replicate 4 false ++ replicate 12 true
    ∧ allocResults (trace_ c') = replicate 16 false
    ∧ is_Some (cacheFailureMessage_ c').
Proof.
  eexists. split; [vm_compute; reflexivity|]. split; [vm_compute; reflexivity|].
  split; [vm_compute; reflexivity|]. vm_compute. eauto.
Qed.


(** ** Lookups *)

(** A lookup of 50 bytes under the key of the first saveable entry of
    [cacheSaveable], which has 100 bytes and no pin, returns a pin on it. *)
Lemma findOrCreate_hit_pins_witness :
  (isExclusive (saveableEntry (0, 0)) = false ∧ 50 ≤ size_ (saveableEntry (0, 0)))
  ∧ ∃ c' s' e',
      CacheShard_findOrCreate 0 (0, 0) 50 false cacheSaveable
      = Ok (Some (pinOf 0 0), None) c'
      ∧ shards_ c' !! 0%nat = Some s' ∧ heap_ s' !! 0%nat = Some e'
      ∧ numPins_ e' = numPins_ (saveableEntry (0, 0)) + 1
      ∧ entryMap_ s' = entryMap_ (saveableShard 10)
      ∧ trace_ c' = trace_ cacheSaveable ++ [EvLock 0; EvUnlock 0].
Proof.
  assert (isExclusive (saveableEntry (0, 0)) = false) as Hx by reflexivity.
  assert (50 ≤ size_ (saveableEntry (0, 0))) as Hsize by (vm_compute; discriminate).
  split; [by split|].
  destruct (findOrCreate_hit_pins cacheSaveable 0 (saveableShard 10) (0, 0) 50 false 0%nat
              (saveableEntry (0, 0)) eq_refl eq_refl eq_refl Hx Hsize)
    as (c' & s' & e' & Hrun & Hs' & He' & Hpins & _ & _ & _ & _ & _ & _ & _ & Hmap & H).
  exists c', s', e'. split_and!; try done. apply H.
Defined.

(** A lookup under the key of the exclusive entry of [cacheExclusive] by a
    caller that waits returns no pin and the promise of the entry. *)
Lemma findOrCreate_exclusive_waits_witness :
  isExclusive exclusiveEntry = true
  ∧ ∃ c' s',
      CacheShard_findOrCreate 1 (1, 0) 100 true cacheExclusive = Ok (None, Some 7%nat) c'
      ∧ shards_ c' !! 1%nat = Some s'
      ∧ numWaitExclusive_ s' = numWaitExclusive_ exclusiveShard + 1
      ∧ entryMap_ s' = entryMap_ exclusiveShard.
Proof.
  assert (isExclusive exclusiveEntry = true) as Hx by reflexivity.
  split; [exact Hx|].
  destruct (findOrCreate_exclusive_waits cacheExclusive 1 exclusiveShard (1, 0) 100 true
              0%nat exclusiveEntry eq_refl eq_refl eq_refl Hx)
    as (c' & s' & Hrun & Hs' & _ & _ & Hmap & _ & _ & _ & Hwait & _).
  exists c', s'. by split_and!.
Defined.

(** A lookup of 100 bytes in the new cache makes an exclusive entry for the
    key. *)
Lemma findOrCreate_creates_exclusive_witness :
  ShardInv_check (newShard kNoThreshold) = true
  ∧ ∃ r c', CacheShard_findOrCreate 0 (0, 0) 100 false cache0 = Ok r c'
            ∧ ∃ p s' e',
                r = (Some (pinOf 0 p), None)
                ∧ shards_ c' !! 0%nat = Some s'
                ∧ entryMap_ s' = <[(0, 0) := p]> (entryMap_ (newShard kNoThreshold))
                ∧ heap_ s' !! p = Some e'
                ∧ key_ e' = makeKey (0, 0) ∧ size_ e' = 100 ∧ numPins_ e' = kExclusive.
Proof.
  assert (ShardInv_check (newShard kNoThreshold) = true) as Hcheck by (vm_compute; reflexivity).
  split; [exact Hcheck|].
  destruct (findOrCreate_creates_exclusive cache0 0 (newShard kNoThreshold) (0, 0) 100 false)
    as [Hok Hreturns].
  - reflexivity.
  - by apply ShardInv_check_sound.
  - vm_compute. discriminate.
  - intros found e0 Hfound. vm_compute in Hfound. discriminate.
  - destruct Hreturns as (r & c' & Hrun); [vm_compute; reflexivity|].
    exists r, c'. split; [exact Hrun|].
    destruct (Hok r c' Hrun) as (p & s' & e' & ? & ? & _ & ? & ? & ? & ? & ? & _).
    exists p, s', e'. by split_and!.
Defined.

(** A lookup of a page in the new cache on an allocator without capacity
    fails for want of cache space, and the key is not in the cache. *)
Lemma findOrCreate_fails_without_space_witness :
  ∃ c', CacheShard_findOrCreate 0 (0, 0) 4096 false cacheFull
        = Throw (VeloxRuntimeError kNoCacheSpace) c'
        ∧ CacheShard_exists 0 (0, 0) c'
          = Ok false (set_trace_ (trace_ c' ++ [EvLock 0; EvUnlock 0]) c').
Proof.
  destruct (CacheShard_findOrCreate 0 (0, 0) 4096 false cacheFull) as [r c'|ex c'] eqn:Hrun;
    [vm_compute in Hrun; discriminate|].
  destruct (findOrCreate_fails_without_space cacheFull 0 (newShard kNoThreshold) (0, 0) 4096
              false) with (ex := ex) (c' := c') as (-> & _ & p & s' & e' & _ & _ & _ & _ & _ & _ & _ & Hex).
  - reflexivity.
  - apply ShardInv_check_sound. vm_compute. reflexivity.
  - vm_compute. discriminate.
  - intros found e0 Hfound. vm_compute in Hfound. discriminate.
  - exact Hrun.
  - exists c'. by split.
Defined.

(** Through the cache: the lookup of the key (1, 0) in the new cache goes
    to shard 1, and [exists] finds the key there afterwards. *)
Lemma cache_findOrCreate_then_exists_witness :
  CacheInv_check cache0 = true
  ∧ match AsyncDataCache_findOrCreate (1, 0) 100 false cache0 with
    | Ok (pin, future) c' =>
        CacheInv c' ∧ (∃ c'', AsyncDataCache_exists (1, 0) c' = Ok true c'')
        ∧ ∃ s' p e',
            shards_ c' !! shardOf (1, 0) = Some s'
            ∧ entryMap_ s' !! (1, 0) = Some p ∧ heap_ s' !! p = Some e'
            ∧ match pin with
              | Some pn => pn = pinOf (shardOf (1, 0)) p ∧ future = None ∧ 100 ≤ size_ e'
              | None =>
                  isExclusive e' = true
                  ∧ future = (if false then promise_ e' else None)
                  ∧ (false = true → is_Some future)
              end
    | Throw ex c' =>
        ex = VeloxRuntimeError kNoCacheSpace ∧ kTinyDataSize ≤ 100
        ∧ CacheInv c'
        ∧ AsyncDataCache_exists (1, 0) c'
          = Ok false (set_trace_ (trace_ c' ++ [EvLock (shardOf (1, 0));
                                               EvUnlock (shardOf (1, 0))]) c')
    end.
Proof.
  assert (CacheInv_check cache0 = true) as Hcheck by (vm_compute; reflexivity).
  split; [exact Hcheck|].
  apply (cache_findOrCreate_then_exists cache0 (1, 0) 100 false).
  - by apply CacheInv_check_sound.
  - reflexivity.
  - cbn. lia.
  - vm_compute. discriminate.
Defined.

(** ** Pins *)

(** A reference taken on the first saveable entry of [cacheSaveable] and
    released again leaves the cache as it was. *)
Lemma addReference_then_release_witness :
  (isExclusive (saveableEntry (0, 0)) = false ∧ 0 ≤ numPins_ (saveableEntry (0, 0)))
  ∧ ∃ c1 s1,
      AsyncDataCacheEntry_addReference 0 0 cacheSaveable = Ok tt c1
      ∧ shards_ c1 !! 0%nat = Some s1
      ∧ heap_ s1 !! 0%nat
        = Some (set_numPins_ (numPins_ (saveableEntry (0, 0)) + 1) (saveableEntry (0, 0)))
      ∧ AsyncDataCacheEntry_release 0 0 c1 = Ok tt cacheSaveable.
Proof.
  assert (isExclusive (saveableEntry (0, 0)) = false) as Hx by reflexivity.
  assert (0 ≤ numPins_ (saveableEntry (0, 0))) as Hpins by (vm_compute; discriminate).
  split; [by split|].
  apply (proj2 (addReference_then_release cacheSaveable 0 (saveableShard 10) 0%nat
                  (saveableEntry (0, 0)) eq_refl eq_refl) Hx Hpins).
  vm_compute. discriminate.
Defined.

(** The exclusive entry of [cacheExclusive], whose reader waits on the
    promise 7, is shared and released; the next lookup of its key hits. *)
Lemma fill_share_release_then_hit_witness :
  (isExclusive exclusiveEntry = true ∧ promise_ exclusiveEntry = Some 7%nat)
  ∧ ∃ c1 c2 c3 s3 e3,
      AsyncDataCacheEntry_setExclusiveToShared 1 0 cacheExclusive = Ok tt c1
      ∧ trace_ c1 = [EvLock 1; EvUnlock 1; EvSetValue 7 true]
      ∧ AsyncDataCacheEntry_release 1 0 c1 = Ok tt c2
      ∧ CacheShard_findOrCreate 1 (1, 0) 50 false c2 = Ok (Some (pinOf 1 0), None) c3
      ∧ shards_ c3 !! 1%nat = Some s3 ∧ heap_ s3 !! 0%nat = Some e3
      ∧ numPins_ e3 = 1 ∧ promise_ e3 = None.
Proof.
  assert (isExclusive exclusiveEntry = true) as Hx by reflexivity.
  split; [by split|].
  destruct (fill_share_release_then_hit cacheExclusive 1 exclusiveShard (1, 0) 50 false
              0%nat exclusiveEntry eq_refl eq_refl eq_refl Hx)
    as (c1 & c2 & c3 & s2 & e2 & s3 & e3 & H1 & Htr & H2 & _ & _ & _ & _ & _ & _ & H3
        & Hs3 & He3 & Hpins & Hpr & _).
  - vm_compute. reflexivity.
  - reflexivity.
  - reflexivity.
  - vm_compute. discriminate.
  - exists c1, c2, c3, s3, e3. by split_and!.
Defined.


(** ** Eviction, continued *)

(** A pass over a shard of the new cache, which has no slots. *)
Lemma evict_empty_shard_witness :
  entries_ (newShard kNoThreshold) = []
  ∧ CacheShard_evict 0 100 true 10 ([], cache0)
    = Ok tt ([], set_trace_ (trace_ cache0 ++ [EvEvict 0 100 true 10; EvLock 0; EvUnlock 0])
                   cache0).
Proof.
  split; [reflexivity|].
  apply (evict_empty_shard [] cache0 0 (newShard kNoThreshold) 100 true 10); reflexivity.
Defined.

(** The desperate pass over the ten saveable entries of [cacheSaveable],
    none of which is pinned, empties every slot. *)
Lemma evict_desperate_takes_all_unpinned_witness :
  (ShardInv_check (saveableShard 10) = true
   ∧ withinBudget_check (2 ^ 31 - 1) (saveableShard 10) = true)
  ∧ ∃ acq' c' s',
      CacheShard_evict 0 (2 ^ 31 - 1) true 0 ([], cacheSaveable) = Ok tt (acq', c')
      ∧ shards_ c' = <[0%nat := s']> (shards_ cacheSaveable)
      ∧ length (entries_ s') = length (entries_ (saveableShard 10))
      ∧ (∀ i p, entries_ s' !! i = Some (Some p)
                ↔ entries_ (saveableShard 10) !! i = Some (Some p)
                  ∧ ∃ e, heap_ (saveableShard 10) !! p = Some e ∧ numPins_ e ≠ 0)
      ∧ acq' = [].
Proof.
  assert (ShardInv_check (saveableShard 10) = true) as Hinv by (vm_compute; reflexivity).
  assert (withinBudget_check (2 ^ 31 - 1) (saveableShard 10) = true) as Hbudget
    by (vm_compute; reflexivity).
  split; [by split|].
  destruct (evict_desperate_takes_all_unpinned [] cacheSaveable 0 (saveableShard 10)
              (2 ^ 31 - 1) 0 eq_refl (ShardInv_check_sound _ Hinv)
              (withinBudget_check_sound _ _ Hbudget))
    as (acq' & c' & s' & Hrun & Hsh & _ & Hlen & Hslots & _ & Hacq); [lia|].
  exists acq', c', s'.
  split; [exact Hrun|]. split; [exact Hsh|]. split; [exact Hlen|]. split; [exact Hslots|].
  apply Hacq. lia.
Defined.

(** [clear()] on [cacheExclusive] returns and keeps the slot of the
    exclusive entry, the only entry there is. *)
Lemma clear_evicts_all_unpinned_witness :
  (CacheInv_check cacheExclusive = true
   ∧ forallb (withinBudget_check (2 ^ 31 - 1)) (shards_ cacheExclusive) = true)
  ∧ ∃ c',
      AsyncDataCache_clear cacheExclusive = Ok tt c'
      ∧ CacheInv c' ∧ length (shards_ c') = length (shards_ cacheExclusive)
      ∧ ∀ sh s s', shards_ cacheExclusive !! sh = Some s → shards_ c' !! sh = Some s' →
          length (entries_ s') = length (entries_ s)
          ∧ (∀ i p, entries_ s' !! i = Some (Some p)
                    ↔ entries_ s !! i = Some (Some p)
                      ∧ ∃ e, heap_ s !! p = Some e ∧ numPins_ e ≠ 0)
          ∧ (∀ i p e, entries_ s' !! i = Some (Some p) → heap_ s' !! p = Some e →
               heap_ s !! p = Some e ∧ numPins_ e ≠ 0).
Proof.
  assert (CacheInv_check cacheExclusive = true) as Hinv by (vm_compute; reflexivity).
  assert (forallb (withinBudget_check (2 ^ 31 - 1)) (shards_ cacheExclusive) = true)
    as Hbudget by (vm_compute; reflexivity).
  split; [by split|].
  apply (clear_evicts_all_unpinned cacheExclusive (CacheInv_check_sound _ Hinv)
           (withinBudget_check_all _ _ Hbudget)).
Defined.

(** ** [makeSpace], continued *)

(** With a closure that gets its pages at once, [makeSpace] on the new
    cache returns true and evicts nothing. *)
Lemma makeSpace_first_try_witness :
  AsyncDataCache_canTryAllocate cache0 10 [] = true
  ∧ ∃ c',
      AsyncDataCache_makeSpace alwaysAllocate 10 cache0 = Ok true c'
      ∧ shards_ c' = shards_ cache0
      ∧ trace_ c' = trace_ cache0 ++ [EvAllocate true; EvFreeNonContiguous 0]
      ∧ numThreadsInAllocate_ c' = numThreadsInAllocate_ cache0.
Proof.
  assert (AsyncDataCache_canTryAllocate cache0 10 [] = true) as Hcan
    by (vm_compute; reflexivity).
  split; [exact Hcan|].
  destruct (makeSpace_first_try alwaysAllocate 10 cache0 [] (allocator_ cache0))
    as (c' & Hrun & Hsh & Htr & _ & Hn & _).
  - cbn. lia.
  - cbn. lia.
  - exact Hcan.
  - reflexivity.
  - exists c'. by split_and!.
Defined.

(** A count of -1 allocating threads fails the check. *)
Lemma makeSpace_rejects_leaked_count_witness :
  numThreadsInAllocate_ cacheLeaked = -1
  ∧ AsyncDataCache_makeSpace neverAllocate 10 cacheLeaked
    = Throw (VeloxRuntimeError kInvalidState)
        (set_trace_ (trace_ cacheLeaked ++ [EvFreeNonContiguous 0])
           (set_allocator_ (freeNonContiguous [] (allocator_ cacheLeaked)) cacheLeaked)).
Proof.
  split; [reflexivity|].
  apply (makeSpace_rejects_leaked_count neverAllocate 10 cacheLeaked). cbn. lia.
Defined.

(** ** Statistics *)

(** The snapshot of [cacheSaveable] counts the ten slots of shard 0. *)
Lemma refreshStats_counts_every_slot_witness :
  CacheInv_check cacheSaveable = true
  ∧ ∃ stats c',
      AsyncDataCache_refreshStats cacheSaveable = Ok stats c'
      ∧ numEntries stats + numEmptyEntries stats
        = sumOver (λ s, Z.of_nat (length (entries_ s))) (shards_ cacheSaveable)
      ∧ sumOver (λ s, Z.of_nat (length (entries_ s))) (shards_ cacheSaveable) = 10
      ∧ numShared stats + numExclusive stats ≤ numEntries stats.
Proof.
  assert (CacheInv_check cacheSaveable = true) as Hinv by (vm_compute; reflexivity).
  split; [exact Hinv|].
  destruct (refreshStats_counts_every_slot cacheSaveable (CacheInv_check_sound _ Hinv))
    as (stats & Hrun & Hslots & _ & _ & _ & _ & Hsh & _).
  eexists stats, _. split; [exact Hrun|]. split; [exact Hslots|].
  split; [vm_compute; reflexivity|exact Hsh].
Defined.

(** ** The ranges of a read *)

(** The entry of [cachePaged] has 5000 bytes on two runs of a page: the
    first range takes the first page, the second the 904 bytes that are
    left. *)
Lemma readPins_ranges_cover_entry_witness :
  (Allocation.numPages (data_ pagedEntry) ≠ 0
   ∧ size_ pagedEntry ≤ Allocation.byteSize (data_ pagedEntry))
  ∧ ∃ rs,
      readPins_addRanges (pinOf 2 0) [] cachePaged = Ok ([] ++ rs) cachePaged
      ∧ rangesSize rs = size_ pagedEntry
      ∧ Forall2 (λ run r, range_data r = RunDataOf (run_data run)
                          ∧ 0 ≤ range_size r ≤ PageRun_numBytes run) (data_ pagedEntry) rs.
Proof.
  assert (Allocation.numPages (data_ pagedEntry) ≠ 0) as Hpages by (vm_compute; discriminate).
  assert (size_ pagedEntry ≤ Allocation.byteSize (data_ pagedEntry)) as Hsize
    by (vm_compute; discriminate).
  split; [by split|].
  refine (proj1 (proj2 (readPins_ranges_cover_entry cachePaged (pinOf 2 0) pagedShard
                          pagedEntry [] eq_refl eq_refl _ _ _)) Hpages Hsize).
  - vm_compute. split; [discriminate|reflexivity].
  - repeat constructor; vm_compute; discriminate.
  - vm_compute. reflexivity.
Defined.


(** A pass over the saveable entries of [cacheSaveable], which is not
    desperate and whose SSD tier is writing, returns. *)
Lemma evict_returns_in_shape_witness :
  CacheInv_check cacheSaveable = true
  ∧ ∃ acq' c' evs,
      CacheShard_evict 0 100 false 0 ([], cacheSaveable) = Ok tt (acq', c')
      ∧ CacheInv c'
      ∧ length (shards_ c') = length (shards_ cacheSaveable)
      ∧ numThreadsInAllocate_ c' = numThreadsInAllocate_ cacheSaveable
      ∧ trace_ c' = trace_ cacheSaveable ++ EvEvict 0 100 false 0 :: evs.
Proof.
  assert (CacheInv_check cacheSaveable = true) as Hinv by (vm_compute; reflexivity).
  split; [exact Hinv|].
  destruct (evict_returns_in_shape [] cacheSaveable 0 100 false 0
              SimpleSsd_startWrite_starts (CacheInv_check_sound _ Hinv))
    as (acq' & c' & evs & Hrun & Hinv' & Hlen & _ & Hn & _ & _ & Htr).
  - vm_compute. eauto.
  - exists acq', c', evs. by split_and!.
Defined.

(** ** The batch of an SSD save *)

(** The pins added for the ten saveable entries of [cacheSaveable] are on
    entries of its slots that can be saved. *)
Lemma appendSsdSaveable_pins_eligible_witness :
  (ShardInv_check (saveableShard 10) = true ∧ writeInProgress ssdWriting = true)
  ∧ ∃ new c',
      CacheShard_appendSsdSaveable 0 [] cacheSaveable = Ok ([] ++ new) c'
      ∧ Forall (λ pin,
                  pin_shard pin = 0%nat ∧ Some (pin_entry pin) ∈ entries_ (saveableShard 10)
                  ∧ ∃ e, heap_ (saveableShard 10) !! pin_entry pin = Some e
                      ∧ ssdFile_ e = None ∧ isExclusive e = false
                      ∧ ssdSaveable_ e = true) new.
Proof.
  assert (ShardInv_check (saveableShard 10) = true) as Hinv by (vm_compute; reflexivity).
  assert (writeInProgress ssdWriting = true) as Hw by reflexivity.
  split; [by split|].
  apply (proj2 (appendSsdSaveable_pins_eligible cacheSaveable 0 (saveableShard 10) ssdWriting
                  [] eq_refl (ShardInv_check_sound _ Hinv) eq_refl) Hw).
Defined.


(** ** When an allocation may be tried *)

(** Ten pages can be tried on the new cache, whose allocator has 64 pages
    and has allocated none. *)
Lemma canTryAllocate_iff_witness :
  AsyncDataCache_canTryAllocate cache0 10 [] = true
  ↔ 10 ≤ Allocation.numPages []
    ∨ 10 - Allocation.numPages []
      ≤ AllocationTraits.numPages (capacity (allocator_ cache0))
        - numAllocated (allocator_ cache0).
Proof.
  apply (canTryAllocate_iff cache0 10 []).
  - lia.
  - vm_compute. split; [discriminate|reflexivity].
  - vm_compute. split; discriminate.
  - vm_compute. reflexivity.
Defined.

(** A page count of -1 is at most the pages of the empty [acquired], and
    [canTryAllocate] says no: as an unsigned number it is 2^64 - 1.  On an
    allocator that has allocated more than its capacity, five pages are
    neither acquired nor within the remainder, which is negative, and
    [canTryAllocate] says yes: the unsigned remainder is 2^64 - 1. *)
Lemma canTryAllocate_out_of_range :
  (AsyncDataCache_canTryAllocate cache0 (-1) [] = false
   ∧ -1 ≤ Allocation.numPages [])
  ∧ (AsyncDataCache_canTryAllocate cacheOverdrawn 5 [] = true
     ∧ ¬ (5 ≤ Allocation.numPages []
          ∨ 5 - Allocation.numPages []
            ≤ AllocationTraits.numPages (capacity (allocator_ cacheOverdrawn))
              - numAllocated (allocator_ cacheOverdrawn))).
Proof.
  split; split; [vm_compute; reflexivity|vm_compute; discriminate|vm_compute; reflexivity|].
  vm_compute. intros [H|H]; by apply H.
Qed.


(** A planned load of the exclusive entry of [cacheExclusive]:
    [loadOrFuture] returns true, the load is loaded and its waiter woken,
    and the entry, with its key, is left without pin. *)
Lemma loadOrFuture_state_machine_witness :
  ∃ w' w'',
    loadOrFuture_publish [pinOf 1 0]
      ({| state_ := kLoading; loadPromise_ := Some 3%nat |},
       set_trace_ (trace_ cacheExclusive ++ [EvLoadLock; EvLoadUnlock; EvLoadData false])
         cacheExclusive)
    = Ok tt w'
    ∧ dropPins [pinOf 1 0] (endedLoad kLoaded w') = Ok tt w''
    ∧ CoalescedLoad_loadOrFuture loadExclusive true (plannedLoad, cacheExclusive)
      = Ok (true, None) w''
    ∧ fst w'' = {| state_ := kLoaded; loadPromise_ := None |}
    ∧ trace_ (snd w'') = trace_ (snd (endedLoad kLoaded w'))
    ∧ ∀ pin, pin ∈ [pinOf 1 0] →
        ∃ e e', entryAt cacheExclusive pin = Some e
                ∧ entryAt (snd w') pin = Some e'
                ∧ entryKept e e' ∧ 1 ≤ numPins_ e'
                ∧ entryAt (snd w'') pin = Some (set_numPins_ (numPins_ e' - 1) e').
Proof.
  assert (CacheInv_check cacheExclusive = true) as Hinv by (vm_compute; reflexivity).
  refine (proj2 (loadOrFuture_state_machine loadExclusive true plannedLoad cacheExclusive)
            SimpleSsd_startWrite_starts _ (CacheInv_check_sound _ Hinv) _ _).
  - reflexivity.
  - intros h e Hh. discriminate Hh.
  - split; [apply NoDup_singleton|].
    intros pin ->%list_elem_of_singleton.
    exists exclusiveShard, exclusiveEntry. repeat split; reflexivity.
Defined.
